(** * Smoothed-aggregation AMG setup kernels: a shallow embedding.

    The kernels of [example_pyamg_smoothed_aggregation.h] are C++ templates
    over an index type [I] and scalar types [T], [F].  They are embedded as
    pure functions:

    - the index type [I] is [Z];  the arithmetic of the kernels on indices
      stays far from the limits of a machine integer (every index is bounded
      by an array length), so no wrap-around is modelled;
    - a C array is a [list]; [rd] reads a cell and [wr] writes one.  Reading
      or writing outside the array is undefined in C++: the embedding reads
      a default value and ignores the write, and the theorems below carry
      the well-formedness hypotheses under which the arrays they speak
      about are accessed within their bounds;
    - a counted [for] loop is [for_loop lo hi body], a left fold over the
      index range;
    - a pointer walk with a stride is a fold over the list of the cells it
      visits, and a pointer into an array is an offset;
    - the scalar types and the helpers of [linalg.h], which the kernels
      include but do not define, are the fields of the class [Scalar]
      (and [RealScalar] for square roots and reciprocals); the integers,
      the reals and the complex numbers are instances. *)

From Stdlib Require Import ZArith Lia Bool Ascii Ring Reals Lra.
From stdpp Require Import base list sorting.

Open Scope Z_scope.

(** ** Arrays indexed by [Z] *)

Section Arrays.
Context {A : Type}.

Definition rd (d : A) (a : list A) (i : Z) : A :=
  if decide (0 ≤ i) then default d (a !! Z.to_nat i) else d.

Definition wr (a : list A) (i : Z) (v : A) : list A :=
  if decide (0 ≤ i) then <[Z.to_nat i := v]> a else a.

Definition len (a : list A) : Z := Z.of_nat (length a).

(** [slice a lo hi] lists the cells [a[lo]], ..., [a[hi-1]]. *)
Definition slice (d : A) (a : list A) (lo hi : Z) : list A :=
  rd d a <$> seqZ lo (hi - lo).
End Arrays.

(** ** Counted loops *)

Section Loops.
Context {S : Type}.

(** [for (i = lo; i < hi; i++) s = body i s;] *)
Definition for_loop (lo hi : Z) (body : Z → S → S) (s : S) : S :=
  foldl (λ s i, body i s) s (seqZ lo (hi - lo)).
End Loops.
(** ** Scalars

  [T] is the value type of the matrices and [F] the real type of norms and
  tolerances.  The kernels only use the operations below; the first four
  and the comparisons are the C++ operators, the others come from
  [linalg.h], of which the repository keeps only the include line. *)

Class Scalar (T F : Type) : Type := {
  Tzero : T;
  Tadd : T → T → T;
  Tsub : T → T → T;
  Tmul : T → T → T;
  Fzero : F;
  Fadd : F → F → F;
  Fmul : F → F → F;
  Fge : F → F → bool;
  Fgt : F → F → bool;
  (** Modelled from the spec: [mynorm] is the magnitude of a scalar
      (absolute value for real and complex scalars). *)
  mynorm : T → F;
  (** Modelled from the spec: [mynormsq] is the squared magnitude. *)
  mynormsq : T → F;
  (** Modelled from the spec: [dot a b] is the product of two scalars,
      conjugating one operand for complex scalars. *)
  dot : T → T → T;
  (** Modelled from the spec: [conjugate] is the complex conjugate, the
      identity on real scalars. *)
  conjugate : T → T
}.

(** Square root, reciprocal and the conversion of a real to a value, which
    only the tentative-prolongator fit needs. *)
Class RealScalar (T F : Type) `{Scalar T F} : Type := {
  Fsqrt : F → F;
  Frecip : F → F;
  of_real : F → T
}.

(** Exact scalars: the values form a commutative ring.  Floating-point
    scalars do not; the algebraic consequences proved below are about exact
    arithmetic. *)
Class ScalarRing (T F : Type) `{Scalar T F} : Type := {
  Tone : T;
  Topp : T → T;
  Tring : ring_theory Tzero Tone Tadd Tmul Tsub Topp eq
}.

(** Modelled from the spec: the helpers of [linalg.h] on the exact integers,
    a scalar type on which the kernels run by computation; [mynorm] is the
    absolute value and [mynormsq] the square. *)
#[export] Instance Z_scalar : Scalar Z Z := {|
  Tzero := 0; Tadd := Z.add; Tsub := Z.sub; Tmul := Z.mul;
  Fzero := 0; Fadd := Z.add; Fmul := Z.mul;
  Fge := Z.geb; Fgt := Z.gtb;
  mynorm := Z.abs; mynormsq := λ x, x * x; dot := Z.mul;
  conjugate := λ x, x
|}.

#[export] Instance Z_scalar_ring : ScalarRing Z Z := {|
  Tone := 1; Topp := Z.opp; Tring := InitialRing.Zth
|}.

(** ** Compressed sparse rows *)

Section CSR.
Context {T : Type} (d : T).

(** The stored entries [(Aj[jj], Ax[jj])] for [lo <= jj < hi]. *)
Definition entries (Aj : list Z) (Ax : list T) (lo hi : Z) : list (Z * T) :=
  (λ jj, (rd 0 Aj jj, rd d Ax jj)) <$> seqZ lo (hi - lo).

(** Row [i] of the matrix [(Ap, Aj, Ax)]. *)
Definition csr_row (Ap Aj : list Z) (Ax : list T) (i : Z) : list (Z * T) :=
  entries Aj Ax (rd 0 Ap i) (rd 0 Ap (i + 1)).

End CSR.

(** Column indices of a pattern without values. *)
Definition cols (Aj : list Z) (lo hi : Z) : list Z := slice 0 Aj lo hi.

Definition pattern_row (Ap Aj : list Z) (i : Z) : list Z :=
cols Aj (rd 0 Ap i) (rd 0 Ap (i + 1)).

(** A well-formed pattern with [n_row] rows and [n_col] columns: the row
  pointer array holds [n_row + 1] non-decreasing offsets into [Aj], and
  every stored column index lies in [0, n_col). *)
Record csr_wf (n_row n_col : Z) (Ap Aj : list Z) : Prop := {
wf_rows : 0 ≤ n_row;
wf_Ap_len : n_row + 1 ≤ len Ap;
wf_Ap_0 : 0 ≤ rd 0 Ap 0;
wf_Ap_mono : ∀ i, 0 ≤ i < n_row → rd 0 Ap i ≤ rd 0 Ap (i + 1);
wf_Ap_last : rd 0 Ap n_row ≤ len Aj;
wf_cols : ∀ jj, rd 0 Ap 0 ≤ jj < rd 0 Ap n_row → 0 ≤ rd 0 Aj jj < n_col
}.

(** The same conditions as a test. *)
Definition csr_ok (n_row n_col : Z) (Ap Aj : list Z) : bool :=
(0 <=? n_row) && (n_row + 1 <=? len Ap) && (0 <=? rd 0 Ap 0)
&& forallb (λ i, rd 0 Ap i <=? rd 0 Ap (i + 1)) (seqZ 0 n_row)
&& (rd 0 Ap n_row <=? len Aj)
&& forallb (λ jj, (0 <=? rd 0 Aj jj) && (rd 0 Aj jj <? n_col))
     (seqZ (rd 0 Ap 0) (rd 0 Ap n_row - rd 0 Ap 0)).

(** ** Strength of connection: [symmetric_strength_of_connection] *)

(** The output arrays and the running count [nnz] of the second loop nest. *)
Record strength_state (T : Type) : Type := StrengthState {
st_nnz : Z;
st_Sp : list Z;
st_Sj : list Z;
st_Sx : list T
}.
Arguments StrengthState {T}.
Arguments st_nnz {T}.
Arguments st_Sp {T}.
Arguments st_Sj {T}.
Arguments st_Sx {T}.

Section Strength.
Context {T F : Type} `{!Scalar T F}.

(** [T diag = 0.0; for (jj ...) if (Aj[jj] == i) diag += Ax[jj];] *)
Definition diag_sum (Ap Aj : list Z) (Ax : list T) (i : Z) : T :=
  for_loop (rd 0 Ap i) (rd 0 Ap (i + 1))
    (λ jj diag, if rd 0 Aj jj =? i then Tadd diag (rd Tzero Ax jj) else diag)
    Tzero.

(** The first loop nest: [diags[i] = mynorm(diag)]. *)
Definition strength_diags (n_row : Z) (Ap Aj : list Z) (Ax : list T) : list F :=
  for_loop 0 n_row
    (λ i diags, wr diags i (mynorm (diag_sum Ap Aj Ax i)))
    (replicate (Z.to_nat n_row) Fzero).

(** The test of the second loop nest on the entry [(j, Aij)] of row [i]. *)
Definition strength_keep (theta : F) (diags : list F) (i : Z) (e : Z * T) : bool :=
  let eps_Aii := Fmul (Fmul theta theta) (rd Fzero diags i) in
  if i =? e.1 then true
  else Fge (mynormsq e.2) (Fmul eps_Aii (rd Fzero diags e.1)).

Definition strength_push (j : Z) (Aij : T) (s : strength_state T) : strength_state T :=
  StrengthState (st_nnz s + 1) (st_Sp s)
    (wr (st_Sj s) (st_nnz s) j) (wr (st_Sx s) (st_nnz s) Aij).

(** The inner loop over the stored entries of row [i]. *)
Definition strength_row (theta : F) (diags : list F) (Aj : list Z) (Ax : list T)
    (i lo hi : Z) (s : strength_state T) : strength_state T :=
  let eps_Aii := Fmul (Fmul theta theta) (rd Fzero diags i) in
  for_loop lo hi
    (λ jj s,
       let j := rd 0 Aj jj in
       let Aij := rd Tzero Ax jj in
       if i =? j then strength_push j Aij s
       else if Fge (mynormsq Aij) (Fmul eps_Aii (rd Fzero diags j))
            then strength_push j Aij s
            else s)
    s.

Definition symmetric_strength_of_connection (n_row : Z) (theta : F)
    (Ap Aj : list Z) (Ax : list T) (Sp Sj : list Z) (Sx : list T)
    : strength_state T :=
  let diags := strength_diags n_row Ap Aj Ax in
  for_loop 0 n_row
    (λ i s,
       let s := strength_row theta diags Aj Ax i (rd 0 Ap i) (rd 0 Ap (i + 1)) s in
       StrengthState (st_nnz s) (wr (st_Sp s) (i + 1) (st_nnz s)) (st_Sj s) (st_Sx s))
    (StrengthState 0 (wr Sp 0 0) Sj Sx).

(** *** Notions of the specification *)

(** [diag k]: the magnitude of the sum of the stored diagonal entries of
    row [k], summed in storage order from zero. *)
Definition diag_of (Ap Aj : list Z) (Ax : list T) (k : Z) : F :=
  mynorm (foldl Tadd Tzero
            (snd <$> filter (λ e, e.1 = k) (csr_row Tzero Ap Aj Ax k))).

(** The entry [(j, v)] of row [i] is a diagonal entry, or is strong. *)
Definition strong (theta : F) (Ap Aj : list Z) (Ax : list T) (i : Z) (e : Z * T) : Prop :=
  e.1 = i ∨
  Fge (mynormsq e.2)
      (Fmul (Fmul (Fmul theta theta) (diag_of Ap Aj Ax i)) (diag_of Ap Aj Ax e.1)) = true.

#[export] Instance strong_dec theta Ap Aj Ax i e : Decision (strong theta Ap Aj Ax i e).
Proof. unfold strong. apply _. Defined.

(** Row [i] of the output [s]. *)
Definition strength_out_row (s : strength_state T) (i : Z) : list (Z * T) :=
  csr_row Tzero (st_Sp s) (st_Sj s) (st_Sx s) i.
End Strength.


(** ** Aggregation: [standard_aggregation] and [naive_aggregation] *)

(** The arrays [x] and [y] and the counter [next_aggregate]. *)
Record agg_state : Type := AggState {
  ag_x : list Z;
  ag_y : list Z;
  ag_next : Z
}.

(** [std::fill(x, x + n_row, 0)] *)
Definition fill_zero (x : list Z) (n_row : Z) : list Z :=
  for_loop 0 n_row (λ i x, wr x i 0) x.

(** The neighbour scan of pass 1 over the positions [jjs] of row [i]: it
    returns [(has_neighbors, has_aggregated_neighbors)] and stops at the
    first neighbour that is already marked. *)
Fixpoint scan_neighbors (Aj x : list Z) (i : Z) (jjs : list Z)
    (has_neighbors : bool) : bool * bool :=
  match jjs with
  | [] => (has_neighbors, false)
  | jj :: jjs' =>
      let j := rd 0 Aj jj in
      if negb (i =? j) then
        if negb (rd 0 x j =? 0) then (true, true)
        else scan_neighbors Aj x i jjs' true
      else scan_neighbors Aj x i jjs' has_neighbors
  end.

(** One iteration of pass 1. *)
Definition pass1_step (n_row : Z) (Ap Aj : list Z) (i : Z) (s : agg_state) : agg_state :=
  if negb (rd 0 (ag_x s) i =? 0) then s
  else
    let row_start := rd 0 Ap i in
    let row_end := rd 0 Ap (i + 1) in
    let '(has_neighbors, has_aggregated_neighbors) :=
      scan_neighbors Aj (ag_x s) i (seqZ row_start (row_end - row_start)) false in
    if negb has_neighbors then
      AggState (wr (ag_x s) i (- n_row)) (ag_y s) (ag_next s)
    else if negb has_aggregated_neighbors then
      let next_aggregate := ag_next s in
      let x := wr (ag_x s) i next_aggregate in
      let y := wr (ag_y s) (next_aggregate - 1) i in
      let x := for_loop row_start row_end
                 (λ jj x, wr x (rd 0 Aj jj) next_aggregate) x in
      AggState x y (next_aggregate + 1)
    else s.

(** The inner loop of pass 2 for the unmarked node [i]: attach it to the
    first neighbour that lies in an aggregate. *)
Fixpoint attach_to_neighbor (Aj x : list Z) (i : Z) (jjs : list Z) : list Z :=
  match jjs with
  | [] => x
  | jj :: jjs' =>
      let j := rd 0 Aj jj in
      let xj := rd 0 x j in
      if 0 <? xj then wr x i (- xj)
      else attach_to_neighbor Aj x i jjs'
  end.

Definition pass2_step (Ap Aj : list Z) (i : Z) (s : agg_state) : agg_state :=
  if negb (rd 0 (ag_x s) i =? 0) then s
  else
    AggState
      (attach_to_neighbor Aj (ag_x s) i
         (seqZ (rd 0 Ap i) (rd 0 Ap (i + 1) - rd 0 Ap i)))
      (ag_y s) (ag_next s).

(** One iteration of pass 3. *)
Definition pass3_step (n_row : Z) (Ap Aj : list Z) (i : Z) (s : agg_state) : agg_state :=
  let xi := rd 0 (ag_x s) i in
  if negb (xi =? 0) then
    let v := if 0 <? xi then xi - 1
             else if xi =? - n_row then -1
             else - xi - 1 in
    AggState (wr (ag_x s) i v) (ag_y s) (ag_next s)
  else
    let row_start := rd 0 Ap i in
    let row_end := rd 0 Ap (i + 1) in
    let next_aggregate := ag_next s in
    let x := wr (ag_x s) i next_aggregate in
    let y := wr (ag_y s) next_aggregate i in
    let x := for_loop row_start row_end
               (λ jj x,
                  let j := rd 0 Aj jj in
                  if rd 0 x j =? 0 then wr x j next_aggregate else x) x in
    AggState x y (next_aggregate + 1).

(** [standard_aggregation]: the final arrays [x] and [y], and in [ag_next]
    the returned number of aggregates. *)
Definition standard_aggregation (n_row : Z) (Ap Aj x y : list Z) : agg_state :=
  let s := AggState (fill_zero x n_row) y 1 in
  let s := for_loop 0 n_row (pass1_step n_row Ap Aj) s in
  let s := for_loop 0 n_row (pass2_step Ap Aj) s in
  let s := AggState (ag_x s) (ag_y s) (ag_next s - 1) in
  for_loop 0 n_row (pass3_step n_row Ap Aj) s.

(** One iteration of the loop of [naive_aggregation]. *)
Definition naive_step (Ap Aj : list Z) (i : Z) (s : agg_state) : agg_state :=
  if negb (rd 0 (ag_x s) i =? 0) then s
  else
    let row_start := rd 0 Ap i in
    let row_end := rd 0 Ap (i + 1) in
    let next_aggregate := ag_next s in
    let x := wr (ag_x s) i next_aggregate in
    let x := for_loop row_start row_end
               (λ jj x,
                  if rd 0 x (rd 0 Aj jj) =? 0
                  then wr x (rd 0 Aj jj) next_aggregate else x) x in
    let y := wr (ag_y s) (next_aggregate - 1) i in
    AggState x y (next_aggregate + 1).

(** [naive_aggregation]: the final arrays, and in [ag_next] the returned
    value [next_aggregate - 1]. *)
Definition naive_aggregation (n_row : Z) (Ap Aj x y : list Z) : agg_state :=
  let s := AggState (fill_zero x n_row) y 1 in
  let s := for_loop 0 n_row (naive_step Ap Aj) s in
  AggState (ag_x s) (ag_y s) (ag_next s - 1).

(** *** Notions of the specification *)

(** Node [i] is isolated: its row stores no off-diagonal entry. *)
Definition isolated (Ap Aj : list Z) (i : Z) : Prop :=
  ∀ j, j ∈ pattern_row Ap Aj i → j = i.

(** The non-negative ids that occur in [x[0..n)], each listed once. *)
Definition aggregate_ids (n : Z) (x : list Z) : list Z :=
  remove_dups (filter (λ v, 0 ≤ v) (slice 0 x 0 n)).

(** The graph is symmetric: [(i, j)] is stored whenever [(j, i)] is. *)
Definition graph_symmetric (n_row : Z) (Ap Aj : list Z) : Prop :=
  ∀ i j, 0 ≤ i < n_row → j ∈ pattern_row Ap Aj i → i ∈ pattern_row Ap Aj j.

(** The same condition as a test. *)
Definition graph_symmetric_ok (n_row : Z) (Ap Aj : list Z) : bool :=
  forallb (λ i,
    forallb (λ j, existsb (Z.eqb i) (pattern_row Ap Aj j)) (pattern_row Ap Aj i))
    (seqZ 0 n_row).

(** *** Loop invariants of [standard_aggregation] on a symmetric graph *)

Section AggInvariants.
Context (n : Z) (Ap Aj : list Z) (lx ly : Z).

(** Before iteration [i] of pass 1. *)
Record pass1_inv (i : Z) (s : agg_state) : Prop := {
  p1_len_x : len (ag_x s) = lx;
  p1_len_y : len (ag_y s) = ly;
  p1_next_lo : 1 ≤ ag_next s;
  p1_next_hi : ag_next s ≤ i + 1;
  p1_next_n : 0 < n → ag_next s ≤ n;
  (** if every node so far is a root, none of them is unmarked *)
  p1_full : ag_next s = i + 1 → ∀ k, 0 ≤ k < i → rd 0 (ag_x s) k ≠ 0;
  p1_vals : ∀ k, 0 ≤ k < n →
    rd 0 (ag_x s) k = 0
    ∨ (rd 0 (ag_x s) k = - n ∧ k < i ∧ isolated Ap Aj k)
    ∨ (1 ≤ rd 0 (ag_x s) k < ag_next s ∧ ¬ isolated Ap Aj k);
  p1_iso : ∀ k, 0 ≤ k < i → isolated Ap Aj k → rd 0 (ag_x s) k = - n;
  p1_zero : ∀ k, 0 ≤ k < i → rd 0 (ag_x s) k = 0 →
    ∃ j, j ∈ pattern_row Ap Aj k ∧ j ≠ k ∧ 0 < rd 0 (ag_x s) j;
  p1_roots : ∀ a, 1 ≤ a < ag_next s →
    0 ≤ rd 0 (ag_y s) (a - 1) < n ∧ rd 0 (ag_x s) (rd 0 (ag_y s) (a - 1)) = a
}.

(** Before iteration [i] of pass 2; [nx] is [next_aggregate] and [y1] the
    array [y], both as pass 1 left them. *)
Record pass2_inv (nx : Z) (y1 : list Z) (i : Z) (s : agg_state) : Prop := {
  p2_len_x : len (ag_x s) = lx;
  p2_y : ag_y s = y1;
  p2_next : ag_next s = nx;
  p2_vals : ∀ k, 0 ≤ k < n →
    (rd 0 (ag_x s) k = 0 ∧ i ≤ k)
    ∨ (rd 0 (ag_x s) k = - n ∧ isolated Ap Aj k)
    ∨ (1 ≤ rd 0 (ag_x s) k < nx ∧ ¬ isolated Ap Aj k)
    ∨ (- nx < rd 0 (ag_x s) k ≤ -1 ∧ ¬ isolated Ap Aj k);
  p2_zero : ∀ k, 0 ≤ k < n → rd 0 (ag_x s) k = 0 →
    ∃ j, j ∈ pattern_row Ap Aj k ∧ j ≠ k ∧ 0 < rd 0 (ag_x s) j;
  p2_roots : ∀ a, 1 ≤ a < nx →
    0 ≤ rd 0 y1 (a - 1) < n ∧ rd 0 (ag_x s) (rd 0 y1 (a - 1)) = a
}.

(** Before iteration [i] of pass 3; [c] is the number of aggregates. *)
Record pass3_inv (c : Z) (y1 : list Z) (i : Z) (s : agg_state) : Prop := {
  p3_len_x : len (ag_x s) = lx;
  p3_y : ag_y s = y1;
  p3_next : ag_next s = c;
  p3_done : ∀ k, 0 ≤ k < i →
    (rd 0 (ag_x s) k = -1 ∧ isolated Ap Aj k)
    ∨ (0 ≤ rd 0 (ag_x s) k < c ∧ ¬ isolated Ap Aj k);
  p3_todo : ∀ k, i ≤ k < n →
    (rd 0 (ag_x s) k = - n ∧ isolated Ap Aj k)
    ∨ (1 ≤ rd 0 (ag_x s) k ≤ c ∧ ¬ isolated Ap Aj k)
    ∨ (- c ≤ rd 0 (ag_x s) k ≤ -1 ∧ ¬ isolated Ap Aj k);
  p3_roots : ∀ a, 1 ≤ a ≤ c →
    0 ≤ rd 0 y1 (a - 1) < n
    ∧ rd 0 (ag_x s) (rd 0 y1 (a - 1)) = (if decide (rd 0 y1 (a - 1) < i) then a - 1 else a)
}.

(** Before iteration [i] of the loop of [naive_aggregation]. *)
Record naive_inv (i : Z) (s : agg_state) : Prop := {
  nv_len_x : len (ag_x s) = lx;
  nv_len_y : len (ag_y s) = ly;
  nv_next_lo : 1 ≤ ag_next s;
  nv_next_hi : ag_next s ≤ i + 1;
  nv_vals : ∀ k, 0 ≤ k < n →
    rd 0 (ag_x s) k = 0 ∨ 1 ≤ rd 0 (ag_x s) k < ag_next s;
  nv_done : ∀ k, 0 ≤ k < i → rd 0 (ag_x s) k ≠ 0;
  nv_roots : ∀ a, 1 ≤ a < ag_next s →
    0 ≤ rd 0 (ag_y s) (a - 1) < n ∧ rd 0 (ag_x s) (rd 0 (ag_y s) (a - 1)) = a
}.
End AggInvariants.

(** ** Dense blocks: [gemm] *)

(** Modelled from the spec: [gemm] of [linalg.h], the dense block multiply
    of the kernels.  [gemm(Ax, Arows, Acols, Atrans, Bx, Brows, Bcols,
    Btrans, Sx, Srows, Scols, Strans, overwrite)] adds the product of the
    [Arows x Acols] block at [Ax] and the [Brows x Bcols] block at [Bx] to
    the block at [Sx], after clearing it when [overwrite] is ['T'].  The
    layouts are the ones the comments of the kernels rely on: the left
    operand is row major; the right operand is column major, or row major
    when [Btrans] is ['T']; the result is row major, or column major when
    [Strans] is ['T'].  A pointer into an array is the array and an offset:
    [a0], [b0] and [s0] are the offsets of the three blocks. *)
Section Gemm.
Context {T F : Type} `{!Scalar T F}.

Definition gemm (Ax : list T) (a0 : Z) (Arows Acols : Z) (Atrans : ascii)
    (Bx : list T) (b0 : Z) (Brows Bcols : Z) (Btrans : ascii)
    (Sx : list T) (s0 : Z) (Srows Scols : Z) (Strans : ascii)
    (overwrite : ascii) : list T :=
  let Sx := if Ascii.eqb overwrite "T"
            then for_loop 0 (Srows * Scols) (λ i Sx, wr Sx (s0 + i) Tzero) Sx
            else Sx in
  for_loop 0 Arows
    (λ i Sx,
       for_loop 0 Bcols
         (λ j Sx,
            let s := if Ascii.eqb Strans "T" then s0 + (j * Srows + i)
                     else s0 + (i * Scols + j) in
            let v := for_loop 0 Acols
                       (λ k acc,
                          let b := if Ascii.eqb Btrans "T" then b0 + (k * Bcols + j)
                                   else b0 + (j * Brows + k) in
                          Tadd acc (Tmul (rd Tzero Ax (a0 + (i * Acols + k)))
                                         (rd Tzero Bx b)))
                       (rd Tzero Sx s) in
            wr Sx s v)
         Sx)
    Sx.
End Gemm.

(** ** Incomplete block product: [incomplete_mat_mult_bsr] *)

Section IncompleteMatMult.
Context {T F : Type} `{!Scalar T F}.

(** The lookup table [S] of block pointers and the value array [Sx]; a
    pointer into [Sx] is its offset, [NULL] is [None]. *)
Record imm_state : Type := ImmState {
  imm_S : list (option Z);
  imm_Sx : list T
}.

(** The innermost statement: accumulate [A[jj] * B[kk]] into the block that
    [S[k]] points to, if any. *)
Definition imm_accumulate (Ax Bx : list T) (brow_A bcol_A bcol_B : Z)
    (one_by_one_blocksize : bool) (S : list (option Z)) (Bj : list Z)
    (jj kk : Z) (Sx : list T) : list T :=
  let A_blocksize := brow_A * bcol_A in
  let B_blocksize := bcol_A * bcol_B in
  let k := rd 0 Bj kk in
  match rd None S k with
  | Some Sk =>
      if one_by_one_blocksize then
        wr Sx Sk (Tadd (rd Tzero Sx Sk) (Tmul (rd Tzero Ax jj) (rd Tzero Bx kk)))
      else
        gemm Ax (jj * A_blocksize) brow_A bcol_A "F"
             Bx (kk * B_blocksize) bcol_A bcol_B "T"
             Sx Sk brow_A bcol_B "F" "F"
  | None => Sx
  end.

(** One iteration of the loop over the block rows of [A]. *)
Definition imm_row (Ap Aj : list Z) (Ax : list T) (Bp Bj : list Z) (Bx : list T)
    (Sp Sj : list Z) (brow_A bcol_A bcol_B : Z) (one_by_one_blocksize : bool)
    (i : Z) (s : imm_state) : imm_state :=
  let S_blocksize := brow_A * bcol_B in
  let S := for_loop (rd 0 Sp i) (rd 0 Sp (i + 1))
             (λ jj S, wr S (rd 0 Sj jj) (Some (jj * S_blocksize))) (imm_S s) in
  let Sx := for_loop (rd 0 Ap i) (rd 0 Ap (i + 1))
              (λ jj Sx,
                 let j := rd 0 Aj jj in
                 for_loop (rd 0 Bp j) (rd 0 Bp (j + 1))
                   (λ kk Sx,
                      imm_accumulate Ax Bx brow_A bcol_A bcol_B
                        one_by_one_blocksize S Bj jj kk Sx)
                   Sx)
              (imm_Sx s) in
  let S := for_loop (rd 0 Sp i) (rd 0 Sp (i + 1))
             (λ jj S, wr S (rd 0 Sj jj) None) S in
  ImmState S Sx.

(** [incomplete_mat_mult_bsr]: the value array [Sx] on return. *)
Definition incomplete_mat_mult_bsr (Ap Aj : list Z) (Ax : list T)
    (Bp Bj : list Z) (Bx : list T) (Sp Sj : list Z) (Sx : list T)
    (n_brow n_bcol brow_A bcol_A bcol_B : Z) : list T :=
  let S := replicate (Z.to_nat n_bcol) None in
  let A_blocksize := brow_A * bcol_A in
  let B_blocksize := bcol_A * bcol_B in
  let S_blocksize := brow_A * bcol_B in
  let one_by_one_blocksize :=
    (A_blocksize =? B_blocksize) && (B_blocksize =? S_blocksize)
    && (A_blocksize =? 1) in
  imm_Sx
    (for_loop 0 n_brow
       (imm_row Ap Aj Ax Bp Bj Bx Sp Sj brow_A bcol_A bcol_B one_by_one_blocksize)
       (ImmState S Sx)).

(** *** Notions of the specification *)

(** The position in [Sj] that stands for block [(i, j)] of the pattern: the
    last position of row [i] whose column index is [j]. *)
Definition last_pos (Sj : list Z) (lo hi j : Z) : option Z :=
  for_loop lo hi (λ jj r, if rd 0 Sj jj =? j then Some jj else r) None.

Definition bsr_slot (Sp Sj : list Z) (i j : Z) : option Z :=
  last_pos Sj (rd 0 Sp i) (rd 0 Sp (i + 1)) j.

(** The stored pairs [(jj, kk)] with [A[jj]] in block row [i] of [A],
    [B[kk]] in block row [Aj[jj]] of [B] and in block column [j], in the
    order in which the kernel meets them. *)
Definition product_pairs (Ap Aj Bp Bj : list Z) (i j : Z) : list (Z * Z) :=
  jj ← seqZ (rd 0 Ap i) (rd 0 Ap (i + 1) - rd 0 Ap i);
  (λ kk, (jj, kk)) <$>
    filter (λ kk, rd 0 Bj kk = j)
      (seqZ (rd 0 Bp (rd 0 Aj jj))
            (rd 0 Bp (rd 0 Aj jj + 1) - rd 0 Bp (rd 0 Aj jj))).

(** Entry [(r, c)] of [acc + A[jj] * B[kk]] for row-major blocks. *)
Definition block_mac (Ax Bx : list T) (brow_A bcol_A bcol_B : Z) (r c : Z)
    (acc : T) (p : Z * Z) : T :=
  foldl (λ acc k,
           Tadd acc
             (Tmul (rd Tzero Ax (p.1 * (brow_A * bcol_A) + (r * bcol_A + k)))
                   (rd Tzero Bx (p.2 * (bcol_A * bcol_B) + (k * bcol_B + c)))))
    acc (seqZ 0 bcol_A).

(** All pairs [(jj, kk)] that the kernel meets in block rows [lo <= jj < hi]
    of [A], whatever their block column. *)
Definition met_pairs (Aj Bp : list Z) (lo hi : Z) : list (Z * Z) :=
  jj ← seqZ lo (hi - lo);
  (λ kk, (jj, kk)) <$>
    seqZ (rd 0 Bp (rd 0 Aj jj))
         (rd 0 Bp (rd 0 Aj jj + 1) - rd 0 Bp (rd 0 Aj jj)).

(** The value array [Sx'] after the pairs [H] of block row [i] have been
    accumulated into [Sx0]. *)
Definition imm_cells (Ax Bx : list T) (Bj Sp Sj : list Z)
    (brow_A bcol_A bcol_B : Z) (i : Z) (H : list (Z * Z))
    (Sx0 Sx' : list T) : Prop :=
  len Sx' = len Sx0
  ∧ (∀ q r c,
       rd 0 Sp i ≤ q < rd 0 Sp (i + 1) → 0 ≤ r < brow_A → 0 ≤ c < bcol_B →
       (bsr_slot Sp Sj i (rd 0 Sj q) = Some q →
          rd Tzero Sx' (q * (brow_A * bcol_B) + (r * bcol_B + c)) =
          foldl (block_mac Ax Bx brow_A bcol_A bcol_B r c)
            (rd Tzero Sx0 (q * (brow_A * bcol_B) + (r * bcol_B + c)))
            (filter (λ p, rd 0 Bj p.2 = rd 0 Sj q) H))
       ∧ (bsr_slot Sp Sj i (rd 0 Sj q) ≠ Some q →
          rd Tzero Sx' (q * (brow_A * bcol_B) + (r * bcol_B + c)) =
          rd Tzero Sx0 (q * (brow_A * bcol_B) + (r * bcol_B + c))))
  ∧ (∀ m, ¬ (rd 0 Sp i * (brow_A * bcol_B) ≤ m
             < rd 0 Sp (i + 1) * (brow_A * bcol_B)) →
       rd Tzero Sx' m = rd Tzero Sx0 m).
End IncompleteMatMult.
Arguments imm_state T : clear implicits.

(** ** Constraint correction: [satisfy_constraints_helper] *)

Section SatisfyConstraints.
Context {T F : Type} `{!Scalar T F}.

(** The scratch vectors [C] and [Update] and the value array [Sx]. *)
Record sc_state : Type := ScState {
  sc_C : list T;
  sc_Update : list T;
  sc_Sx : list T
}.

(** The body of the loop over the stored blocks [j] of block row [i]. *)
Definition sc_block (RowsPerBlock ColsPerBlock NullDim : Z)
    (Bt UB BtBinv : list T) (Sj : list Z) (i j : Z) (s : sc_state) : sc_state :=
  let BlockSize := RowsPerBlock * ColsPerBlock in
  let NullDimSq := NullDim * NullDim in
  let NullDim_Cols := NullDim * ColsPerBlock in
  let NullDim_Rows := NullDim * RowsPerBlock in
  let C := gemm BtBinv (i * NullDimSq) NullDim NullDim "F"
                Bt (rd 0 Sj j * NullDim_Cols) NullDim ColsPerBlock "F"
                (sc_C s) 0 NullDim ColsPerBlock "T" "T" in
  let Update := gemm UB (i * NullDim_Rows) RowsPerBlock NullDim "F"
                     C 0 NullDim ColsPerBlock "F"
                     (sc_Update s) 0 RowsPerBlock ColsPerBlock "F" "T" in
  let Sx := for_loop 0 BlockSize
              (λ k Sx,
                 wr Sx (j * BlockSize + k)
                    (Tsub (rd Tzero Sx (j * BlockSize + k)) (rd Tzero Update k)))
              (sc_Sx s) in
  ScState C Update Sx.

(** [satisfy_constraints_helper]: the value array [Sx] on return. *)
Definition satisfy_constraints_helper
    (RowsPerBlock ColsPerBlock num_block_rows NullDim : Z)
    (x y z : list T) (Sp Sj : list Z) (Sx : list T) : list T :=
  let Bt := x in
  let UB := y in
  let BtBinv := z in
  let BlockSize := RowsPerBlock * ColsPerBlock in
  let NullDim_Cols := NullDim * ColsPerBlock in
  let Update := replicate (Z.to_nat BlockSize) Tzero in
  let C := replicate (Z.to_nat NullDim_Cols) Tzero in
  let C := for_loop 0 NullDim_Cols (λ i C, wr C i Tzero) C in
  sc_Sx
    (for_loop 0 num_block_rows
       (λ i s,
          let rowstart := rd 0 Sp i in
          let rowend := rd 0 Sp (i + 1) in
          for_loop rowstart rowend
            (sc_block RowsPerBlock ColsPerBlock NullDim Bt UB BtBinv Sj i) s)
       (ScState C Update Sx)).

(** *** Notions of the specification *)

(** The sum of [f k] over the list [l], added up from zero in list order. *)
Definition sum_list {A} (f : A → T) (l : list A) : T :=
  foldl (λ acc k, Tadd acc (f k)) Tzero l.

(** Entry [(m, c)] of [BtBinv[i] * Bconj[cb]^T]: the block of [x] is
    transposed and nothing is conjugated, [x] being the conjugate of the
    candidates already. *)
Definition sc_C_entry (ColsPerBlock NullDim : Z) (x z : list T)
    (i cb : Z) (m c : Z) : T :=
  sum_list (λ k, Tmul (rd Tzero z (i * (NullDim * NullDim) + (m * NullDim + k)))
                      (rd Tzero x (cb * (NullDim * ColsPerBlock) + (c * NullDim + k))))
    (seqZ 0 NullDim).

(** Entry [(r, c)] of [UB[i] * (BtBinv[i] * Bconj[cb]^T)]. *)
Definition sc_update_entry (RowsPerBlock ColsPerBlock NullDim : Z)
    (x y z : list T) (i cb : Z) (r c : Z) : T :=
  sum_list (λ m, Tmul (rd Tzero y (i * (NullDim * RowsPerBlock) + (r * NullDim + m)))
                      (sc_C_entry ColsPerBlock NullDim x z i cb m c))
    (seqZ 0 NullDim).

(** The update as the specification words it, with the conjugate transpose
    of the block of the array passed as [Bconj]: entry [(r, c)] of
    [UB[i] * (BtBinv[i] * Bconj[cb]^H)], where entry [(k, c)] of
    [Bconj[cb]^H] is the conjugate of entry [(c, k)] of [Bconj[cb]]. *)
Definition spec_update_entry (RowsPerBlock ColsPerBlock NullDim : Z)
    (Bconj UB BtBinv : list T) (i cb : Z) (r c : Z) : T :=
  sum_list
    (λ m, Tmul (rd Tzero UB (i * (NullDim * RowsPerBlock) + (r * NullDim + m)))
               (sum_list
                  (λ k, Tmul (rd Tzero BtBinv
                                (i * (NullDim * NullDim) + (m * NullDim + k)))
                             (conjugate
                                (rd Tzero Bconj
                                   (cb * (NullDim * ColsPerBlock)
                                    + (c * NullDim + k)))))
                  (seqZ 0 NullDim)))
    (seqZ 0 NullDim).

(** The fine rows in the support of block row [i], with multiplicity: the
    pairs of a stored position [j] of the row and a column [c] of its
    block; the pair stands for row [Sj[j] * ColsPerBlock + c] of the
    candidates. *)
Definition support (ColsPerBlock : Z) (Sp : list Z) (i : Z) : list (Z * Z) :=
  j ← seqZ (rd 0 Sp i) (rd 0 Sp (i + 1) - rd 0 Sp i);
  (λ c, (j, c)) <$> seqZ 0 ColsPerBlock.

(** Entry [m] of the candidate row for [(j, c)] in [B], which is
    [NullDim] wide and row major. *)
Definition cand (ColsPerBlock NullDim : Z) (Sj : list Z) (B : list T)
    (p : Z * Z) (m : Z) : T :=
  rd Tzero B ((rd 0 Sj p.1 * ColsPerBlock + p.2) * NullDim + m).

(** Entry [(r, m)] of block row [i] of the product [S * B]. *)
Definition SB_entry (RowsPerBlock ColsPerBlock NullDim : Z)
    (Sp Sj : list Z) (Sx B : list T) (i r m : Z) : T :=
  sum_list
    (λ p, Tmul (rd Tzero Sx (p.1 * (RowsPerBlock * ColsPerBlock)
                             + (r * ColsPerBlock + p.2)))
               (cand ColsPerBlock NullDim Sj B p m))
    (support ColsPerBlock Sp i).

(** Entry [(k, m)] of the Gram matrix [B_i^H * B_i] of the candidates
    restricted to the support of block row [i]. *)
Definition gram_entry (ColsPerBlock NullDim : Z) (Sp Sj : list Z) (B : list T)
    (i k m : Z) : T :=
  sum_list
    (λ p, Tmul (conjugate (cand ColsPerBlock NullDim Sj B p k))
               (cand ColsPerBlock NullDim Sj B p m))
    (support ColsPerBlock Sp i).
End SatisfyConstraints.
Arguments sc_state T : clear implicits.

(** ** Tentative prolongator: [fit_candidates_common] *)

(** The cells visited by a pointer walk [for (p = lo; p < hi; p += step)]
    with [step >= 1]: [lo], [lo + step], ... below [hi]. *)
Definition strided (lo hi step : Z) : list Z :=
  (λ k, lo + k * step) <$> seqZ 0 ((hi - lo + step - 1) `div` step).

Section FitCandidates.
Context {T F : Type} `{!Scalar T F} `{!RealScalar T F}.

(** The two arrays the kernel writes: the values [Ax] of the prolongator
    and the coarse candidates [R]. *)
Record fc_state : Type := FcState {
  fc_Ax : list T;
  fc_R : list T
}.

(** [std::fill(R, R + n, 0)] *)
Definition fc_fill (n : Z) (R : list T) : list T :=
  for_loop 0 n (λ k R, wr R k Tzero) R.

(** [std::copy(B + b0, B + b0 + n, Ax + a0)] *)
Definition copy_block (B : list T) (b0 n : Z) (Ax : list T) (a0 : Z) : list T :=
  for_loop 0 n (λ k Ax, wr Ax (a0 + k) (rd Tzero B (b0 + k))) Ax.

(** Copy blocks into [Ax]; the inner loop carries the pointer [Ax_start]. *)
Definition fc_copy (n_col BS : Z) (Ap Ai : list Z) (B Ax : list T) : list T :=
  for_loop 0 n_col
    (λ j Ax,
       (for_loop (rd 0 Ap j) (rd 0 Ap (j + 1))
          (λ ii (st : list T * Z),
             (copy_block B (BS * rd 0 Ai ii) BS st.1 st.2, st.2 + BS))
          (Ax, BS * rd 0 Ap j)).1)
    Ax.

(** [norm_j]: the square root of the sum of [mynorm] over the cells of a
    block column, which start at [lo] and are [K2] apart. *)
Definition col_norm (Ax : list T) (lo hi K2 : Z) : F :=
  Fsqrt (foldl (λ norm_j p, Fadd norm_j (mynorm (rd Tzero Ax p))) Fzero
           (strided lo hi K2)).

(** [dot_prod] of column [bj] with column [bi]: the walk is over the cells
    [p] of column [bi], the cell of column [bj] in the same row being
    [p + (bj - bi)]. *)
Definition fc_dot (K2 Ax_start Ax_end bj bi : Z) (Ax : list T) : T :=
  foldl (λ dot_prod p,
           Tadd dot_prod (dot (rd Tzero Ax (p + (bj - bi))) (rd Tzero Ax p)))
    Tzero (strided (Ax_start + bi) Ax_end K2).

(** Orthogonalize column [bj] against column [bi] and record the
    coefficient. *)
Definition fc_orthogonalize (K2 Ax_start Ax_end R_start bj bi : Z)
    (s : fc_state) : fc_state :=
  let dot_prod := fc_dot K2 Ax_start Ax_end bj bi (fc_Ax s) in
  let Ax :=
    foldl (λ Ax p,
             wr Ax (p + (bj - bi))
                (Tsub (rd Tzero Ax (p + (bj - bi)))
                      (Tmul dot_prod (rd Tzero Ax p))))
      (fc_Ax s) (strided (Ax_start + bi) Ax_end K2) in
  FcState Ax (wr (fc_R s) (R_start + (K2 * bi + bj)) dot_prod).

(** [*Ax_bj *= scale] down column [bj]. *)
Definition fc_scale (K2 Ax_start Ax_end bj : Z) (scale : T) (Ax : list T) : list T :=
  foldl (λ Ax p, wr Ax p (Tmul (rd Tzero Ax p) scale)) Ax
    (strided (Ax_start + bj) Ax_end K2).

(** The body of the loop over the candidate columns [bj] of one aggregate. *)
Definition fc_column (tol : F) (K2 Ax_start Ax_end R_start bj : Z)
    (s : fc_state) : fc_state :=
  let norm_j := col_norm (fc_Ax s) (Ax_start + bj) Ax_end K2 in
  let threshold_j := Fmul tol norm_j in
  let s := for_loop 0 bj (fc_orthogonalize K2 Ax_start Ax_end R_start bj) s in
  let norm_j := col_norm (fc_Ax s) (Ax_start + bj) Ax_end K2 in
  if Fgt norm_j threshold_j then
    let scale := of_real (Frecip norm_j) in
    let R := wr (fc_R s) (R_start + (K2 * bj + bj)) (of_real norm_j) in
    FcState (fc_scale K2 Ax_start Ax_end bj scale (fc_Ax s)) R
  else
    let scale := Tzero in
    let R := wr (fc_R s) (R_start + (K2 * bj + bj)) Tzero in
    FcState (fc_scale K2 Ax_start Ax_end bj scale (fc_Ax s)) R.

(** The body of the loop over the aggregates [j]. *)
Definition fc_aggregate (tol : F) (K1 K2 : Z) (Ap : list Z) (j : Z)
    (s : fc_state) : fc_state :=
  let BS := K1 * K2 in
  let col_start := rd 0 Ap j in
  let col_end := rd 0 Ap (j + 1) in
  let Ax_start := BS * col_start in
  let Ax_end := BS * col_end in
  let R_start := j * K2 * K2 in
  for_loop 0 K2 (fc_column tol K2 Ax_start Ax_end R_start) s.

(** [fit_candidates_common]: the arrays [Ax] and [R] on return. *)
Definition fit_candidates_common (n_row n_col K1 K2 : Z) (Ap Ai : list Z)
    (Ax B R : list T) (tol : F) : fc_state :=
  let R := fc_fill (n_col * K2 * K2) R in
  let BS := K1 * K2 in
  let Ax := fc_copy n_col BS Ap Ai B Ax in
  for_loop 0 n_col (fc_aggregate tol K1 K2 Ap) (FcState Ax R).

(** *** Notions of the specification *)

(** The state in which the kernel starts on candidate column [bj] of
    aggregate [j]: the aggregates before [j] and the columns before [bj]
    are done. *)
Definition fc_before (n_col K1 K2 : Z) (Ap Ai : list Z) (Ax B R : list T)
    (tol : F) (j bj : Z) : fc_state :=
  let R := fc_fill (n_col * K2 * K2) R in
  let BS := K1 * K2 in
  let Ax := fc_copy n_col BS Ap Ai B Ax in
  for_loop 0 bj
    (fc_column tol K2 (BS * rd 0 Ap j) (BS * rd 0 Ap (j + 1)) (j * K2 * K2))
    (for_loop 0 j (fc_aggregate tol K1 K2 Ap) (FcState Ax R)).

(** Column [bj] of aggregate [j] after its orthogonalization against the
    columns [bi < bj], before it is scaled. *)
Definition fc_orthogonalized (n_col K1 K2 : Z) (Ap Ai : list Z) (Ax B R : list T)
    (tol : F) (j bj : Z) : fc_state :=
  let BS := K1 * K2 in
  for_loop 0 bj
    (fc_orthogonalize K2 (BS * rd 0 Ap j) (BS * rd 0 Ap (j + 1)) (j * K2 * K2) bj)
    (fc_before n_col K1 K2 Ap Ai Ax B R tol j bj).

(** The coefficient recorded at [(bi, bj)] of the block of aggregate [j]:
    the [dot_prod] of column [bj], orthogonalized against the columns before
    [bi], with column [bi]. *)
Definition fc_coefficient (n_col K1 K2 : Z) (Ap Ai : list Z) (Ax B R : list T)
    (tol : F) (j bj bi : Z) : T :=
  let BS := K1 * K2 in
  fc_dot K2 (BS * rd 0 Ap j) (BS * rd 0 Ap (j + 1)) bj bi
    (fc_Ax
       (for_loop 0 bi
          (fc_orthogonalize K2 (BS * rd 0 Ap j) (BS * rd 0 Ap (j + 1))
             (j * K2 * K2) bj)
          (fc_before n_col K1 K2 Ap Ai Ax B R tol j bj))).

(** The norm of that column before and after its orthogonalization. *)
Definition norm_before (n_col K1 K2 : Z) (Ap Ai : list Z) (Ax B R : list T)
    (tol : F) (j bj : Z) : F :=
  let BS := K1 * K2 in
  col_norm (fc_Ax (fc_before n_col K1 K2 Ap Ai Ax B R tol j bj))
    (BS * rd 0 Ap j + bj) (BS * rd 0 Ap (j + 1)) K2.

Definition norm_after (n_col K1 K2 : Z) (Ap Ai : list Z) (Ax B R : list T)
    (tol : F) (j bj : Z) : F :=
  let BS := K1 * K2 in
  col_norm (fc_Ax (fc_orthogonalized n_col K1 K2 Ap Ai Ax B R tol j bj))
    (BS * rd 0 Ap j + bj) (BS * rd 0 Ap (j + 1)) K2.

(** The cell of [Ax] holding entry [(r, bj)] of the [ii]-th stored block,
    a row-major [K1 x K2] block. *)
Definition P_cell (K1 K2 ii r bj : Z) : Z := K1 * K2 * ii + (r * K2 + bj).

(** The cell of [R] holding entry [(bi, bj)] of the block of aggregate [j]. *)
Definition R_cell (K2 j bi bj : Z) : Z := j * K2 * K2 + (K2 * bi + bj).

(** The conjugating inner product of the columns [bi] and [bj] of the
    prolongator restricted to aggregate [j], whose block is
    [K1 * (Ap[j+1] - Ap[j])] rows high. *)
Definition fc_gram (K1 K2 : Z) (Ap : list Z) (Ax : list T) (j bi bj : Z) : T :=
  sum_list
    (λ k, Tmul (conjugate (rd Tzero Ax (K1 * K2 * rd 0 Ap j + (k * K2 + bi))))
               (rd Tzero Ax (K1 * K2 * rd 0 Ap j + (k * K2 + bj))))
    (seqZ 0 (K1 * (rd 0 Ap (j + 1) - rd 0 Ap j))).
End FitCandidates.
Arguments fc_state T : clear implicits.

(** The integers with the integer square root and the integer quotient,
    which are exact on the runs evaluated below. *)
#[export] Instance Z_real_scalar : RealScalar Z Z := {|
  Fsqrt := Z.sqrt; Frecip := λ x, 1 `div` x; of_real := λ x, x
|}.

(** *** Real scalars *)

Definition Rgeb (a b : R) : bool := if Rle_dec b a then true else false.
Definition Rgtb (a b : R) : bool := if Rlt_dec b a then true else false.

(** Modelled from the spec: the helpers of [linalg.h] on the exact reals;
    [mynorm] is the magnitude, the absolute value, and [mynormsq] the
    squared magnitude, as [symmetric_strength_of_connection] uses them. *)
#[export] Instance R_scalar : Scalar R R := {|
  Tzero := 0%R; Tadd := Rplus; Tsub := Rminus; Tmul := Rmult;
  Fzero := 0%R; Fadd := Rplus; Fmul := Rmult;
  Fge := Rgeb; Fgt := Rgtb;
  mynorm := Rabs; mynormsq := λ x, (x * x)%R; dot := Rmult;
  conjugate := λ x, x
|}.

(** The square root, the quotient [1.0 / x] and the conversion, which is
    the identity. *)
#[export] Instance R_real_scalar : RealScalar R R := {|
  Fsqrt := sqrt; Frecip := λ x, (1 / x)%R; of_real := λ x, x
|}.

(** *** Complex scalars: pairs of reals *)

Definition Cadd (a b : R * R) : R * R := (a.1 + b.1, a.2 + b.2)%R.
Definition Csub (a b : R * R) : R * R := (a.1 - b.1, a.2 - b.2)%R.
Definition Cmul (a b : R * R) : R * R :=
  (a.1 * b.1 - a.2 * b.2, a.1 * b.2 + a.2 * b.1)%R.
Definition Cconj (a : R * R) : R * R := (a.1, - a.2)%R.
Definition Cnormsq (a : R * R) : R := (a.1 * a.1 + a.2 * a.2)%R.

(** Modelled from the spec: the helpers of [linalg.h] on the complex
    numbers; [mynorm] is the modulus and [dot] conjugates its second
    operand. *)
#[export] Instance C_scalar : Scalar (R * R) R := {|
  Tzero := (0%R, 0%R); Tadd := Cadd; Tsub := Csub; Tmul := Cmul;
  Fzero := 0%R; Fadd := Rplus; Fmul := Rmult;
  Fge := Rgeb; Fgt := Rgtb;
  mynorm := λ a, sqrt (Cnormsq a); mynormsq := Cnormsq;
  dot := λ a b, Cmul a (Cconj b);
  conjugate := Cconj
|}.

(** ** Gram blocks: [calc_BtB] *)

Section CalcBtB.
Context {T F : Type} `{!Scalar T F}.

(** The workspace [BtB_loc] and the output array [x]. *)
Record btb_state : Type := BtbState {
  btb_loc : list T;
  btb_x : list T
}.

(** The loop over [m] that adds the diagonal terms of fine row [k]; its
    state is [(BtB_loc, BtBcounter, BsqCounter)]. *)
Definition btb_diag (NullDim BsqCols : Z) (Bsq : list T) (k : Z)
    (loc : list T) : list T :=
  (for_loop 0 NullDim
     (λ m (st : list T * Z * Z),
        (wr st.1.1 st.1.2 (Tadd (rd Tzero st.1.1 st.1.2) (rd Tzero Bsq st.2)),
         st.1.2 + (NullDim + 1),
         st.2 + (NullDim - m)))
     (loc, 0, k * BsqCols)).1.1.

(** The loop nest over [m] and [n > m] that adds the off-diagonal terms of
    fine row [k]; the state of the outer loop is [(BtB_loc, BsqCounter)],
    that of the inner loop [(BtB_loc, counter)]. *)
Definition btb_offdiag (NullDim BsqCols : Z) (Bsq : list T) (k : Z)
    (loc : list T) : list T :=
  (for_loop 0 NullDim
     (λ m (st : list T * Z),
        ((for_loop (m + 1) NullDim
            (λ n (st2 : list T * Z),
               let elmt_bsq := rd Tzero Bsq (st.2 + st2.2) in
               let loc := wr st2.1 (m * NullDim + n)
                            (Tadd (rd Tzero st2.1 (m * NullDim + n))
                                  (conjugate elmt_bsq)) in
               let loc := wr loc (n * NullDim + m)
                            (Tadd (rd Tzero loc (n * NullDim + m)) elmt_bsq) in
               (loc, st2.2 + 1))
            (st.1, 1)).1,
         st.2 + (NullDim - m)))
     (loc, k * BsqCols)).1.

(** The body of the loop over the nodes [i]. *)
Definition btb_node (NullDim ColsPerBlock : Z) (Bsq : list T) (BsqCols : Z)
    (Sp Sj : list Z) (i : Z) (s : btb_state) : btb_state :=
  let NullDimSq := NullDim * NullDim in
  let rowstart := rd 0 Sp i in
  let rowend := rd 0 Sp (i + 1) in
  let loc := for_loop 0 NullDimSq (λ k loc, wr loc k Tzero) (btb_loc s) in
  let loc :=
    for_loop rowstart rowend
      (λ j loc,
         let colstart := rd 0 Sj j * ColsPerBlock in
         let colend := colstart + ColsPerBlock in
         for_loop colstart colend
           (λ k loc,
              btb_offdiag NullDim BsqCols Bsq k
                (btb_diag NullDim BsqCols Bsq k loc))
           loc)
      loc in
  let x := for_loop 0 NullDimSq
             (λ k x, wr x (i * NullDimSq + k) (rd Tzero loc k)) (btb_x s) in
  BtbState loc x.

(** [calc_BtB] started with the workspace [loc], which [new T[NullDimSq]]
    leaves indeterminate: the array [x] on return. *)
Definition calc_BtB_from (loc : list T) (NullDim Nnodes ColsPerBlock : Z)
    (b : list T) (BsqCols : Z) (x : list T) (Sp Sj : list Z) : list T :=
  btb_x (for_loop 0 Nnodes (btb_node NullDim ColsPerBlock b BsqCols Sp Sj)
           (BtbState loc x)).

(** [calc_BtB], with a workspace that happens to hold zeros. *)
Definition calc_BtB (NullDim Nnodes ColsPerBlock : Z) (b : list T)
    (BsqCols : Z) (x : list T) (Sp Sj : list Z) : list T :=
  calc_BtB_from (replicate (Z.to_nat (NullDim * NullDim)) Tzero)
    NullDim Nnodes ColsPerBlock b BsqCols x Sp Sj.

(** *** Notions for [calc_BtB] *)

(** The column of [b] that holds [conjugate(B[:,m]) * B[:,n]], [m <= n]:
    the columns are ordered [(0,0), (0,1), ..., (1,1), (1,2), ...]. *)
Definition Bsq_col (NullDim m n : Z) : Z :=
  m * NullDim - (m * (m - 1)) `div` 2 + (n - m).

(** What fine row [k] adds to cell [u * NullDim + v] of [BtB_loc]. *)
Definition btb_term (NullDim BsqCols : Z) (Bsq : list T) (k u v : Z) : T :=
  if decide (u = v) then rd Tzero Bsq (k * BsqCols + Bsq_col NullDim u u)
  else if decide (u < v)
       then conjugate (rd Tzero Bsq (k * BsqCols + Bsq_col NullDim u v))
       else rd Tzero Bsq (k * BsqCols + Bsq_col NullDim v u).

(** The fine row that the pair [p] of a stored position and a column of its
    block stands for. *)
Definition fine_row (ColsPerBlock : Z) (Sj : list Z) (p : Z * Z) : Z :=
  rd 0 Sj p.1 * ColsPerBlock + p.2.
End CalcBtB.
Arguments btb_state T : clear implicits.

(** ** Aggregates and their roots *)

(** Node [k] is the node [r] or a stored neighbour of it. *)
Definition near_root (Ap Aj : list Z) (r k : Z) : Prop :=
  k = r ∨ k ∈ pattern_row Ap Aj r.

Section NaiveMembers.
Context (n : Z) (Ap Aj : list Z) (x0 y0 : list Z).

(** Before iteration [i] of the loop of [naive_aggregation]: where the
    roots lie, who the members of the aggregates are, and which cells of
    the arrays [x0] and [y0] of the caller are untouched. *)
Record naive_members_inv (i : Z) (s : agg_state) : Prop := {
  nm_roots_lt : ∀ a, 1 ≤ a < ag_next s → rd 0 (ag_y s) (a - 1) < i;
  nm_incr : ∀ a b, 1 ≤ a → a < b → b < ag_next s →
    rd 0 (ag_y s) (a - 1) < rd 0 (ag_y s) (b - 1);
  nm_members : ∀ k, 0 ≤ k < n → 1 ≤ rd 0 (ag_x s) k →
    rd 0 (ag_y s) (rd 0 (ag_x s) k - 1) ≤ k
    ∧ near_root Ap Aj (rd 0 (ag_y s) (rd 0 (ag_x s) k - 1)) k;
  nm_marked : ∀ a k, 1 ≤ a < ag_next s →
    k ∈ pattern_row Ap Aj (rd 0 (ag_y s) (a - 1)) → 1 ≤ rd 0 (ag_x s) k ≤ a;
  nm_frame_x : ∀ k, n ≤ k → rd 0 (ag_x s) k = rd 0 x0 k;
  nm_frame_y : ∀ k, ag_next s - 1 ≤ k → rd 0 (ag_y s) k = rd 0 y0 k
}.
End NaiveMembers.

(** Node [k] is within two stored edges of [r]: it is [r], a stored
    neighbour of [r], or has a stored neighbour that is. *)
Definition near_root2 (Ap Aj : list Z) (r k : Z) : Prop :=
  near_root Ap Aj r k
  ∨ ∃ m, m ∈ pattern_row Ap Aj k ∧ near_root Ap Aj r m.

Section StandardMembers.
Context (n : Z) (Ap Aj : list Z) (x0 y0 : list Z).

(** Before iteration [i] of pass 1 of [standard_aggregation]; aggregate
    numbers are still one more than the final ones. *)
Record std_members1_inv (i : Z) (s : agg_state) : Prop := {
  sm1_roots_lt : ∀ a, 1 ≤ a < ag_next s → rd 0 (ag_y s) (a - 1) < i;
  sm1_incr : ∀ a b, 1 ≤ a → a < b → b < ag_next s →
    rd 0 (ag_y s) (a - 1) < rd 0 (ag_y s) (b - 1);
  sm1_members : ∀ k, 0 ≤ k < n → 1 ≤ rd 0 (ag_x s) k →
    near_root Ap Aj (rd 0 (ag_y s) (rd 0 (ag_x s) k - 1)) k;
  sm1_whole : ∀ a k, 1 ≤ a < ag_next s →
    k ∈ pattern_row Ap Aj (rd 0 (ag_y s) (a - 1)) → rd 0 (ag_x s) k = a;
  sm1_frame_x : ∀ k, n ≤ k → rd 0 (ag_x s) k = rd 0 x0 k;
  sm1_frame_y : ∀ k, ag_next s - 1 ≤ k → rd 0 (ag_y s) k = rd 0 y0 k
}.

(** Before iteration [i] of pass 2; [nx] and [y1] are [next_aggregate] and
    [y] as pass 1 left them.  A node attached by pass 2 holds the negated
    number of the aggregate of one of its stored neighbours. *)
Record std_members2_inv (nx : Z) (y1 : list Z) (i : Z) (s : agg_state) : Prop := {
  sm2_members : ∀ k, 0 ≤ k < n → 1 ≤ rd 0 (ag_x s) k →
    near_root Ap Aj (rd 0 y1 (rd 0 (ag_x s) k - 1)) k;
  sm2_attached : ∀ k, 0 ≤ k < n → - n < rd 0 (ag_x s) k ≤ -1 →
    ∃ m, m ∈ pattern_row Ap Aj k
         ∧ near_root Ap Aj (rd 0 y1 (- rd 0 (ag_x s) k - 1)) m;
  sm2_whole : ∀ a k, 1 ≤ a < nx →
    k ∈ pattern_row Ap Aj (rd 0 y1 (a - 1)) → rd 0 (ag_x s) k = a;
  sm2_frame_x : ∀ k, n ≤ k → rd 0 (ag_x s) k = rd 0 x0 k
}.

(** Before iteration [i] of pass 3; [c] is the number of aggregates.  The
    nodes before [i] hold their final aggregate numbers. *)
Record std_members3_inv (c : Z) (y1 : list Z) (i : Z) (s : agg_state) : Prop := {
  sm3_done : ∀ k, 0 ≤ k < i → 0 ≤ rd 0 (ag_x s) k →
    near_root2 Ap Aj (rd 0 y1 (rd 0 (ag_x s) k)) k;
  sm3_members : ∀ k, i ≤ k < n → 1 ≤ rd 0 (ag_x s) k →
    near_root Ap Aj (rd 0 y1 (rd 0 (ag_x s) k - 1)) k;
  sm3_attached : ∀ k, i ≤ k < n → - n < rd 0 (ag_x s) k ≤ -1 →
    ∃ m, m ∈ pattern_row Ap Aj k
         ∧ near_root Ap Aj (rd 0 y1 (- rd 0 (ag_x s) k - 1)) m;
  sm3_whole : ∀ a k, 1 ≤ a ≤ c →
    k ∈ pattern_row Ap Aj (rd 0 y1 (a - 1)) →
    (k < i → rd 0 (ag_x s) k = a - 1) ∧ (i ≤ k → rd 0 (ag_x s) k = a);
  sm3_frame_x : ∀ k, n ≤ k → rd 0 (ag_x s) k = rd 0 x0 k
}.
End StandardMembers.

(** ** The norm of a candidate column *)

Section ColumnNorm.
Context {T F : Type} `{!Scalar T F} `{!RealScalar T F}.

(** The cells of [Ax] that hold column [bj] of the prolongator restricted
    to aggregate [j], from the first row of the aggregate to the last. *)
Definition column_cells (K1 K2 : Z) (Ap : list Z) (j bj : Z) : list Z :=
  (λ k, K1 * K2 * rd 0 Ap j + (k * K2 + bj))
    <$> seqZ 0 (K1 * (rd 0 Ap (j + 1) - rd 0 Ap j)).

(** The euclidean norm of a column held in the cells [cells] of [Ax]: the
    square root of the sum of the squared magnitudes of its entries. *)
Definition euclidean_norm (Ax : list T) (cells : list Z) : F :=
  Fsqrt (foldl (λ acc p, Fadd acc (mynormsq (rd Tzero Ax p))) Fzero cells).
End ColumnNorm.

(** * Properties *)

(** ** Arrays and loops *)

Section ArrayFacts.
Context {A : Type}.
Implicit Types (d v x : A) (a b c : list A) (i j lo hi : Z).

Lemma len_nonneg a : 0 ≤ len a.
Proof. unfold len. lia. Qed.

Lemma len_wr a i v : len (wr a i v) = len a.
Proof. unfold wr, len. case_decide; [by rewrite length_insert | done]. Qed.

Lemma length_wr a i v : length (wr a i v) = length a.
Proof. unfold wr. case_decide; [by rewrite length_insert | done]. Qed.

Lemma rd_wr_eq d a i v : 0 ≤ i < len a → rd d (wr a i v) i = v.
Proof.
  unfold rd, wr, len. intros Hi. rewrite !decide_True by lia.
  rewrite list_lookup_insert_eq by lia. done.
Qed.

Lemma rd_wr_ne d a i j v : i ≠ j → rd d (wr a i v) j = rd d a j.
Proof.
  unfold rd, wr. intros Hne.
  destruct (decide (0 ≤ j)); [|done].
  destruct (decide (0 ≤ i)); [|done].
  rewrite list_lookup_insert_ne by lia. done.
Qed.

Lemma rd_wr d a i j v :
  0 ≤ i < len a → rd d (wr a i v) j = if decide (i = j) then v else rd d a j.
Proof.
  intros Hi. case_decide as Hij.
  - subst j. by apply rd_wr_eq.
  - by apply rd_wr_ne.
Qed.

Lemma rd_app_l d a b i : 0 ≤ i < len a → rd d (a ++ b) i = rd d a i.
Proof.
  unfold rd, len. intros Hi. rewrite !decide_True by lia.
  rewrite lookup_app_l by lia. done.
Qed.

Lemma rd_app_r d a b i : len a ≤ i → rd d (a ++ b) i = rd d b (i - len a).
Proof.
  unfold rd, len. intros Hi. rewrite !decide_True by lia.
  rewrite lookup_app_r by lia. do 2 f_equal. lia.
Qed.

Lemma wr_app_r a b i v : len a ≤ i → wr (a ++ b) i v = a ++ wr b (i - len a) v.
Proof.
  unfold wr, len. intros Hi. rewrite !decide_True by lia.
  rewrite insert_app_r_alt by lia. do 2 f_equal. lia.
Qed.

Lemma slice_nil d a lo hi : hi ≤ lo → slice d a lo hi = [].
Proof. intros. unfold slice. by rewrite seqZ_nil by lia. Qed.

Lemma slice_snoc d a lo hi :
  lo ≤ hi → slice d a lo (hi + 1) = slice d a lo hi ++ [rd d a hi].
Proof.
  intros. unfold slice.
  replace (hi + 1 - lo) with ((hi - lo) + 1) by lia.
  rewrite seqZ_app by lia. rewrite fmap_app.
  rewrite (seqZ_cons _ 1) by lia. rewrite (seqZ_nil _ (Z.pred 1)) by lia.
  simpl. do 3 f_equal. lia.
Qed.

Lemma slice_cons d a lo hi :
  lo < hi → slice d a lo hi = rd d a lo :: slice d a (lo + 1) hi.
Proof.
  intros. unfold slice. rewrite seqZ_cons by lia. simpl.
  do 2 f_equal. all: f_equal; lia.
Qed.

Lemma length_slice d a lo hi : length (slice d a lo hi) = Z.to_nat (hi - lo).
Proof. unfold slice. by rewrite length_fmap, length_seqZ. Qed.

Lemma slice_split d a lo mid hi :
  lo ≤ mid ≤ hi → slice d a lo hi = slice d a lo mid ++ slice d a mid hi.
Proof.
  intros. unfold slice.
  replace (hi - lo) with ((mid - lo) + (hi - mid)) by lia.
  rewrite seqZ_app by lia. rewrite fmap_app. do 3 f_equal. lia.
Qed.

Lemma elem_of_slice d a lo hi x :
  x ∈ slice d a lo hi ↔ ∃ k, lo ≤ k < hi ∧ x = rd d a k.
Proof.
  unfold slice. rewrite list_elem_of_fmap. setoid_rewrite elem_of_seqZ.
  split; intros (k & ? & ?); exists k; split; try done; lia.
Qed.

Lemma slice_ext d a b lo hi :
  (∀ k, lo ≤ k < hi → rd d a k = rd d b k) → slice d a lo hi = slice d b lo hi.
Proof.
  intros H. unfold slice. apply list_fmap_ext.
  intros i k Hk. apply H.
  apply list_elem_of_lookup_2 in Hk. apply elem_of_seqZ in Hk. lia.
Qed.

Lemma slice_app_exact d a b c :
  slice d (a ++ b ++ c) (len a) (len a + len b) = b.
Proof.
  revert a. induction b as [|x b IH]; intros a.
  - apply slice_nil. unfold len; simpl; lia.
  - pose proof (len_nonneg a). pose proof (len_nonneg b).
    rewrite slice_cons by (unfold len; simpl; lia). f_equal.
    + rewrite rd_app_r by lia. unfold rd.
      rewrite decide_True by lia.
      by replace (Z.to_nat (len a - len a)) with 0%nat by lia.
    + specialize (IH (a ++ [x])).
      rewrite <- app_assoc in IH. simpl in IH.
      replace (len (a ++ [x])) with (len a + 1) in IH
        by (unfold len; rewrite length_app; simpl; lia).
      replace (len a + len (x :: b)) with (len a + 1 + len b)
        by (unfold len; simpl; lia).
      exact IH.
Qed.
End ArrayFacts.


Section LoopFacts.
Context {S : Type}.
Implicit Types (body : Z → S → S) (s : S).

Lemma for_loop_nil lo hi body s : hi ≤ lo → for_loop lo hi body s = s.
Proof. intros. unfold for_loop. by rewrite seqZ_nil by lia. Qed.

Lemma for_loop_snoc lo hi body s :
  lo ≤ hi → for_loop lo (hi + 1) body s = body hi (for_loop lo hi body s).
Proof.
  intros. unfold for_loop.
  replace (hi + 1 - lo) with ((hi - lo) + 1) by lia.
  rewrite seqZ_app by lia. rewrite foldl_app.
  rewrite (seqZ_cons _ 1) by lia. rewrite (seqZ_nil _ (Z.pred 1)) by lia.
  simpl. f_equal. lia.
Qed.

Lemma for_loop_cons lo hi body s :
  lo < hi → for_loop lo hi body s = for_loop (lo + 1) hi body (body lo s).
Proof.
  intros. unfold for_loop. rewrite seqZ_cons by lia. simpl.
  do 2 f_equal; lia.
Qed.

(** The loop-invariant rule. *)
Lemma for_loop_inv (P : Z → S → Prop) lo hi body s :
  lo ≤ hi →
  P lo s →
  (∀ i s, lo ≤ i < hi → P i s → P (i + 1) (body i s)) →
  P hi (for_loop lo hi body s).
Proof.
  intros Hle H0 Hstep.
  assert (∀ n : nat, lo + Z.of_nat n ≤ hi →
            P (lo + Z.of_nat n) (for_loop lo (lo + Z.of_nat n) body s)) as Hn.
  { induction n as [|n IH]; intros Hb.
    - rewrite Z.add_0_r. by rewrite for_loop_nil by lia.
    - replace (lo + Z.of_nat (Datatypes.S n)) with (lo + Z.of_nat n + 1) by lia.
      rewrite for_loop_snoc by lia. apply Hstep; [lia|]. apply IH. lia. }
  specialize (Hn (Z.to_nat (hi - lo))).
  replace (lo + Z.of_nat (Z.to_nat (hi - lo))) with hi in Hn by lia.
  apply Hn. lia.
Qed.

Lemma for_loop_ext lo hi body body' s :
  (∀ i s, lo ≤ i < hi → body i s = body' i s) →
  for_loop lo hi body s = for_loop lo hi body' s.
Proof.
  intros Hext. destruct (decide (lo ≤ hi)) as [Hle|Hgt].
  - apply (for_loop_inv (λ i r, r = for_loop lo i body' s)); [done| |].
    + by rewrite for_loop_nil by lia.
    + intros i r Hi ->. rewrite for_loop_snoc by lia. by apply Hext.
  - by rewrite !for_loop_nil by lia.
Qed.
End LoopFacts.


(** ** Compressed sparse rows *)

Section CSREntries.
Context {T : Type} (d : T).

Lemma entries_nil Aj Ax lo hi : hi ≤ lo → entries d Aj Ax lo hi = [].
Proof. intros. unfold entries. by rewrite seqZ_nil by lia. Qed.

Lemma entries_snoc Aj Ax lo hi :
  lo ≤ hi →
  entries d Aj Ax lo (hi + 1) = entries d Aj Ax lo hi ++ [(rd 0 Aj hi, rd d Ax hi)].
Proof.
  intros. unfold entries.
  replace (hi + 1 - lo) with ((hi - lo) + 1) by lia.
  rewrite seqZ_app by lia. rewrite fmap_app.
  rewrite (seqZ_cons _ 1) by lia. rewrite (seqZ_nil _ (Z.pred 1)) by lia.
  simpl. by replace (lo + (hi - lo)) with hi by lia.
Qed.

Lemma entries_ext Aj Ax Bj Bx lo hi :
  (∀ k, lo ≤ k < hi → rd 0 Aj k = rd 0 Bj k ∧ rd d Ax k = rd d Bx k) →
  entries d Aj Ax lo hi = entries d Bj Bx lo hi.
Proof.
  intros H. unfold entries. apply list_fmap_ext.
  intros i k Hk.
  apply list_elem_of_lookup_2 in Hk. apply elem_of_seqZ in Hk.
  destruct (H k) as [-> ->]; [lia | done].
Qed.

Lemma entries_split Aj Ax lo mid hi :
  lo ≤ mid ≤ hi →
  entries d Aj Ax lo hi = entries d Aj Ax lo mid ++ entries d Aj Ax mid hi.
Proof.
  intros. unfold entries.
  replace (hi - lo) with ((mid - lo) + (hi - mid)) by lia.
  rewrite seqZ_app by lia. rewrite fmap_app. do 3 f_equal. lia.
Qed.

Lemma length_entries Aj Ax lo hi :
  length (entries d Aj Ax lo hi) = Z.to_nat (hi - lo).
Proof. unfold entries. by rewrite length_fmap, length_seqZ. Qed.

Lemma elem_of_entries Aj Ax lo hi e :
  e ∈ entries d Aj Ax lo hi ↔ ∃ jj, lo ≤ jj < hi ∧ e = (rd 0 Aj jj, rd d Ax jj).
Proof.
  unfold entries. rewrite list_elem_of_fmap. setoid_rewrite elem_of_seqZ.
  split; intros (k & ? & ?); exists k; split; try done; lia.
Qed.
End CSREntries.

Lemma csr_ok_wf n_row n_col Ap Aj :
csr_ok n_row n_col Ap Aj = true → csr_wf n_row n_col Ap Aj.
Proof.
unfold csr_ok. rewrite !andb_true_iff, !forallb_forall.
intros [[[[[H1 H2] H3] H4] H5] H6].
split; try lia.
- intros i Hi. specialize (H4 i). rewrite <- list_elem_of_In in H4.
  rewrite elem_of_seqZ in H4. lia.
- intros jj Hjj. specialize (H6 jj). rewrite <- list_elem_of_In in H6.
  rewrite elem_of_seqZ in H6. lia.
Qed.

Section CSRFacts.
Context {n_row n_col : Z} {Ap Aj : list Z} (Hwf : csr_wf n_row n_col Ap Aj).

Lemma wf_Ap_le i k : 0 ≤ i ≤ k → k ≤ n_row → rd 0 Ap i ≤ rd 0 Ap k.
Proof using Hwf.
  intros Hik Hk.
  replace k with (i + Z.of_nat (Z.to_nat (k - i))) in * by lia.
  induction (Z.to_nat (k - i)) as [|m IH].
  - rewrite Z.add_0_r. lia.
  - etrans; [apply IH; lia|].
    replace (i + Z.of_nat (Datatypes.S m)) with (i + Z.of_nat m + 1) by lia.
    apply (wf_Ap_mono _ _ _ _ Hwf). lia.
Qed.

Lemma wf_row_bounds i :
  0 ≤ i < n_row →
  rd 0 Ap 0 ≤ rd 0 Ap i ∧ rd 0 Ap i ≤ rd 0 Ap (i + 1)
  ∧ rd 0 Ap (i + 1) ≤ rd 0 Ap n_row.
Proof using Hwf.
  intros Hi. repeat split.
  - apply wf_Ap_le; lia.
  - apply (wf_Ap_mono _ _ _ _ Hwf). lia.
  - apply wf_Ap_le; lia.
Qed.

Lemma wf_col_in_row i jj :
  0 ≤ i < n_row → rd 0 Ap i ≤ jj < rd 0 Ap (i + 1) → 0 ≤ rd 0 Aj jj < n_col.
Proof using Hwf.
  intros Hi Hjj. pose proof (wf_row_bounds i Hi).
  apply (wf_cols _ _ _ _ Hwf). lia.
Qed.

Lemma wf_pattern_row_col i j :
  0 ≤ i < n_row → j ∈ pattern_row Ap Aj i → 0 ≤ j < n_col.
Proof using Hwf.
  intros Hi Hj. apply elem_of_slice in Hj as (jj & Hjj & ->).
  by apply (wf_col_in_row i).
Qed.
End CSRFacts.

(** ** Strength of connection *)

(** A run on the exact integers: the 3x3 matrix
    [[4 -1 0] [-1 4 -5] [0 -5 4]] with [theta = 1]; only the entries
    of magnitude 5 and the diagonal are kept. *)
Example strength_run :
  let s := symmetric_strength_of_connection (T:=Z) (F:=Z) 3 1
             [0; 2; 5; 7] [0; 1; 0; 1; 2; 1; 2] [4; -1; -1; 4; -5; -5; 4]
             [9; 9; 9; 9] [9; 9; 9; 9; 9; 9; 9] [9; 9; 9; 9; 9; 9; 9] in
  st_Sp s = [0; 1; 3; 5] ∧ take 5 (st_Sj s) = [0; 1; 2; 1; 2]
  ∧ take 5 (st_Sx s) = [4; 4; -5; -5; 4].
Proof. vm_compute. done. Qed.

Lemma filter_in_ext {A} (P Q : A → Prop)
    `{!∀ x, Decision (P x)} `{!∀ x, Decision (Q x)} (l : list A) :
  (∀ x, x ∈ l → P x ↔ Q x) → filter P l = filter Q l.
Proof.
  induction l as [|x l IH]; intros Hext; [done|].
  rewrite !filter_cons.
  rewrite IH by (intros y Hy; apply Hext; by right).
  destruct (decide (P x)) as [HP|HP], (decide (Q x)) as [HQ|HQ]; try done.
  - destruct HQ. apply Hext; [by left | done].
  - destruct HP. apply Hext; [by left | done].
Qed.

Lemma sublist_StronglySorted {A} (R : relation A) (l k : list A) :
  l `sublist_of` k → StronglySorted R k → StronglySorted R l.
Proof.
  induction 1 as [|x l k Hs IH|x l k Hs IH]; intros Hk.
  - constructor.
  - apply StronglySorted_inv in Hk as [Hk Hx].
    constructor; [by apply IH|].
    rewrite Forall_forall in Hx |- *. intros y Hy. apply Hx.
    by apply (sublist_subseteq _ _ Hs).
  - apply StronglySorted_inv in Hk as [Hk _]. by apply IH.
Qed.

Section StrengthFacts.
Context {T F : Type} `{!Scalar T F}.
Implicit Types (Ap Aj Sp Sj : list Z) (Ax Sx : list T) (theta : F)
  (diags : list F) (s : strength_state T) (e : Z * T).

Lemma diag_sum_entries Ap Aj Ax i :
  diag_sum Ap Aj Ax i =
  foldl Tadd Tzero (snd <$> filter (λ e, e.1 = i) (csr_row Tzero Ap Aj Ax i)).
Proof.
  unfold diag_sum, csr_row.
  set (lo := rd 0 Ap i). set (hi := rd 0 Ap (i + 1)).
  destruct (decide (lo ≤ hi)) as [Hle|Hgt].
  - apply (for_loop_inv (λ k acc,
      acc = foldl Tadd Tzero (snd <$> filter (λ e, e.1 = i) (entries Tzero Aj Ax lo k))));
      [done| |].
    + by rewrite entries_nil.
    + intros k acc Hk ->. rewrite entries_snoc by lia.
      rewrite filter_app, fmap_app, foldl_app.
      rewrite filter_cons, filter_nil. simpl.
      destruct (Z.eqb_spec (rd 0 Aj k) i) as [Heq|Hne].
      * by rewrite decide_True.
      * by rewrite decide_False.
  - rewrite for_loop_nil by lia. by rewrite entries_nil by lia.
Qed.

Lemma strength_diags_spec n_row Ap Aj Ax :
  0 ≤ n_row →
  len (strength_diags n_row Ap Aj Ax) = n_row ∧
  ∀ k, 0 ≤ k < n_row →
    rd Fzero (strength_diags n_row Ap Aj Ax) k = diag_of Ap Aj Ax k.
Proof.
  intros Hn. unfold strength_diags.
  cut (len (for_loop 0 n_row
              (λ i diags, wr diags i (mynorm (diag_sum Ap Aj Ax i)))
              (replicate (Z.to_nat n_row) Fzero)) = n_row ∧
       ∀ k, 0 ≤ k < n_row →
         rd Fzero (for_loop 0 n_row
              (λ i diags, wr diags i (mynorm (diag_sum Ap Aj Ax i)))
              (replicate (Z.to_nat n_row) Fzero)) k = diag_of Ap Aj Ax k).
  { done. }
  apply (for_loop_inv (λ i diags,
    len diags = n_row ∧ ∀ k, 0 ≤ k < i → rd Fzero diags k = diag_of Ap Aj Ax k));
    [done| |].
  - split; [|intros; lia]. unfold len. rewrite length_replicate. lia.
  - intros i diags Hi [Hlen Hrd]. split; [by rewrite len_wr|].
    intros k Hk. rewrite rd_wr by lia. case_decide as Hik.
    + subst k. unfold diag_of. by rewrite diag_sum_entries.
    + apply Hrd. lia.
Qed.

(** The test of the code agrees with [strong] when the columns are in range. *)
Lemma strength_keep_strong n_row theta Ap Aj Ax i e :
  0 ≤ i < n_row → 0 ≤ e.1 < n_row →
  strength_keep theta (strength_diags n_row Ap Aj Ax) i e ↔ strong theta Ap Aj Ax i e.
Proof.
  intros Hi He. unfold strength_keep, strong.
  destruct (strength_diags_spec n_row Ap Aj Ax) as [_ Hd]; [lia|].
  rewrite !Hd by lia.
  destruct (Z.eqb_spec i e.1) as [Heq|Hne].
  - split; [intros _; left; done | done].
  - rewrite Is_true_true. split; [by right | intros [?|?]; [congruence | done]].
Qed.

Lemma strength_row_spec theta diags Aj Ax i lo hi s :
  lo ≤ hi → 0 ≤ st_nnz s →
  st_nnz s + (hi - lo) ≤ len (st_Sj s) →
  st_nnz s + (hi - lo) ≤ len (st_Sx s) →
  let s' := strength_row theta diags Aj Ax i lo hi s in
  let kept := filter (λ e, strength_keep theta diags i e) (entries Tzero Aj Ax lo hi) in
  st_nnz s' = st_nnz s + len kept
  ∧ st_Sp s' = st_Sp s
  ∧ len (st_Sj s') = len (st_Sj s)
  ∧ len (st_Sx s') = len (st_Sx s)
  ∧ (∀ k, k < st_nnz s →
       rd 0 (st_Sj s') k = rd 0 (st_Sj s) k ∧ rd Tzero (st_Sx s') k = rd Tzero (st_Sx s) k)
  ∧ entries Tzero (st_Sj s') (st_Sx s') (st_nnz s) (st_nnz s') = kept.
Proof.
  intros Hle Hnnz HSj HSx. simpl. unfold strength_row.
  apply (for_loop_inv (λ k s',
    let kept := filter (λ e, strength_keep theta diags i e) (entries Tzero Aj Ax lo k) in
    st_nnz s' = st_nnz s + len kept
    ∧ st_Sp s' = st_Sp s
    ∧ len (st_Sj s') = len (st_Sj s)
    ∧ len (st_Sx s') = len (st_Sx s)
    ∧ (∀ k, k < st_nnz s →
         rd 0 (st_Sj s') k = rd 0 (st_Sj s) k ∧ rd Tzero (st_Sx s') k = rd Tzero (st_Sx s) k)
    ∧ entries Tzero (st_Sj s') (st_Sx s') (st_nnz s) (st_nnz s') = kept)); [done| |].
  - simpl. rewrite entries_nil by lia. simpl.
    repeat split; try done; try (unfold len; simpl; lia).
    apply entries_nil. unfold len; simpl; lia.
  - intros k s' Hk. simpl. intros (Hn & HSp & HlSj & HlSx & Hold & Hent).
    rewrite entries_snoc by lia. rewrite filter_app, filter_cons, filter_nil.
    set (kept := filter (λ e, strength_keep theta diags i e) (entries Tzero Aj Ax lo k)) in *.
    assert (len kept ≤ k - lo) as Hkept.
    { unfold len, kept.
      pose proof (length_filter (λ e, strength_keep theta diags i e) (entries Tzero Aj Ax lo k)).
      rewrite length_entries in *. lia. }
    pose proof (len_nonneg kept).
    assert (strength_keep theta diags i (rd 0 Aj k, rd Tzero Ax k) = true →
      let s'' := strength_push (rd 0 Aj k) (rd Tzero Ax k) s' in
      st_nnz s'' = st_nnz s + len (kept ++ [(rd 0 Aj k, rd Tzero Ax k)])
      ∧ st_Sp s'' = st_Sp s
      ∧ len (st_Sj s'') = len (st_Sj s)
      ∧ len (st_Sx s'') = len (st_Sx s)
      ∧ (∀ k, k < st_nnz s →
         rd 0 (st_Sj s'') k = rd 0 (st_Sj s) k ∧ rd Tzero (st_Sx s'') k = rd Tzero (st_Sx s) k)
      ∧ entries Tzero (st_Sj s'') (st_Sx s'') (st_nnz s) (st_nnz s'')
        = kept ++ [(rd 0 Aj k, rd Tzero Ax k)]) as Hpush.
    { intros _. simpl. rewrite !len_wr.
      repeat split; try done.
      - unfold len. rewrite length_app. simpl. unfold len in Hn. lia.
      - rewrite rd_wr_ne by lia. by apply Hold.
      - rewrite rd_wr_ne by lia. by apply Hold.
      - rewrite entries_snoc by lia. f_equal.
        + rewrite <- Hent. apply entries_ext. intros m Hm.
          rewrite !rd_wr_ne by lia. done.
        + rewrite !rd_wr_eq by lia. done. }
    unfold strength_keep in Hpush |- *. simpl in Hpush |- *.
    destruct (i =? rd 0 Aj k) eqn:Heq.
    + rewrite decide_True by done. simpl. by apply Hpush.
    + destruct (Fge _ _) eqn:Hge.
      * rewrite decide_True by done. simpl. by apply Hpush.
      * rewrite decide_False by (by intros ?). simpl. rewrite app_nil_r.
        done.
Qed.

(** The invariant of the second loop nest, and what it gives on exit. *)
Lemma strength_rows n_row theta Ap Aj Ax Sp Sj Sx :
  csr_wf n_row n_row Ap Aj →
  n_row + 1 ≤ len Sp → rd 0 Ap n_row ≤ len Sj → rd 0 Ap n_row ≤ len Sx →
  let s := symmetric_strength_of_connection n_row theta Ap Aj Ax Sp Sj Sx in
  0 ≤ st_nnz s ≤ rd 0 Ap n_row - rd 0 Ap 0
  ∧ len (st_Sp s) = len Sp ∧ len (st_Sj s) = len Sj ∧ len (st_Sx s) = len Sx
  ∧ rd 0 (st_Sp s) 0 = 0
  ∧ rd 0 (st_Sp s) n_row = st_nnz s
  ∧ ∀ k, 0 ≤ k < n_row →
      rd 0 (st_Sp s) k ≤ rd 0 (st_Sp s) (k + 1)
      ∧ rd 0 (st_Sp s) (k + 1) ≤ st_nnz s
      ∧ strength_out_row s k =
        filter (strong theta Ap Aj Ax k) (csr_row Tzero Ap Aj Ax k).
Proof.
  intros Hwf HSp HSj HSx. simpl.
  unfold symmetric_strength_of_connection.
  pose proof (wf_rows _ _ _ _ Hwf) as Hn.
  pose proof (wf_Ap_0 _ _ _ _ Hwf) as H0.
  apply (for_loop_inv (λ i s,
    0 ≤ st_nnz s ≤ rd 0 Ap i - rd 0 Ap 0
    ∧ len (st_Sp s) = len Sp ∧ len (st_Sj s) = len Sj ∧ len (st_Sx s) = len Sx
    ∧ rd 0 (st_Sp s) 0 = 0
    ∧ rd 0 (st_Sp s) i = st_nnz s
    ∧ ∀ k, 0 ≤ k < i →
        rd 0 (st_Sp s) k ≤ rd 0 (st_Sp s) (k + 1)
        ∧ rd 0 (st_Sp s) (k + 1) ≤ st_nnz s
        ∧ strength_out_row s k =
          filter (strong theta Ap Aj Ax k) (csr_row Tzero Ap Aj Ax k))); [done| |].
  - simpl. rewrite len_wr. rewrite rd_wr_eq by lia.
    split_and!; try done; try lia; intros; lia.
  - intros i s Hi (Hnnz & HlSp & HlSj & HlSx & HSp0 & HSpi & Hrows).
    destruct (wf_row_bounds Hwf i Hi) as (Hb1 & Hb2 & Hb3).
    destruct (strength_row_spec theta (strength_diags n_row Ap Aj Ax) Aj Ax i
                (rd 0 Ap i) (rd 0 Ap (i + 1)) s)
      as (Hn' & HSp' & HlSj' & HlSx' & Hold & Hent); [lia..|].
    set (s1 := strength_row theta (strength_diags n_row Ap Aj Ax) Aj Ax i
                 (rd 0 Ap i) (rd 0 Ap (i + 1)) s) in *.
    set (kept := filter (λ e, strength_keep theta (strength_diags n_row Ap Aj Ax) i e)
                   (entries Tzero Aj Ax (rd 0 Ap i) (rd 0 Ap (i + 1)))) in *.
    assert (0 ≤ len kept ≤ rd 0 Ap (i + 1) - rd 0 Ap i) as Hkept.
    { split; [apply len_nonneg|]. unfold len, kept.
      pose proof (length_filter
        (λ e, strength_keep theta (strength_diags n_row Ap Aj Ax) i e)
        (entries Tzero Aj Ax (rd 0 Ap i) (rd 0 Ap (i + 1)))).
      rewrite length_entries in *. lia. }
    simpl. rewrite len_wr, HSp'.
    repeat split; try lia.
    + rewrite rd_wr_ne by lia. done.
    + rewrite rd_wr_eq by lia. done.
    + destruct (decide (k = i)) as [->|Hki].
      * rewrite rd_wr_ne by lia. rewrite rd_wr_eq by lia. lia.
      * rewrite !rd_wr_ne by lia. apply Hrows. lia.
    + destruct (decide (k = i)) as [->|Hki].
      * rewrite rd_wr_eq by lia. lia.
      * rewrite !rd_wr_ne by lia. destruct (Hrows k) as (? & ? & _); lia.
    + destruct (decide (k = i)) as [->|Hki].
      * unfold strength_out_row. unfold csr_row at 1. simpl.
        rewrite rd_wr_ne by lia. rewrite rd_wr_eq by lia.
        rewrite HSpi. rewrite Hent. unfold kept, csr_row.
        apply filter_in_ext. intros e He.
        apply elem_of_entries in He as (jj & Hjj & ->).
        apply (strength_keep_strong n_row); [lia|]. simpl.
        by apply (wf_col_in_row Hwf i).
      * destruct (Hrows k) as (Hk1 & Hk2 & Hk3); [lia|].
        rewrite <- Hk3. unfold strength_out_row, csr_row. simpl.
        rewrite !rd_wr_ne by lia.
        apply entries_ext. intros m Hm. apply Hold. lia.
Qed.
End StrengthFacts.

Section StrengthClaims.
Context {T F : Type} `{!Scalar T F}.
Implicit Types (Ap Aj Sp Sj : list Z) (Ax Sx : list T) (theta : F).

(** C1.  For a square CSR matrix [A] with non-decreasing row pointers and
    caller-sized output arrays, row [i] of the matrix written by
    [symmetric_strength_of_connection] is the list of the stored entries
    [(j, v)] of row [i] of [A] for which [j = i], or
    [mynormsq v >= theta * theta * diag i * diag j], where [diag k] is
    [mynorm] of the sum of the stored diagonal entries of row [k]: every
    stored diagonal entry is there, an off-diagonal entry is there exactly
    when it passes the test, nothing else is there, and each entry has the
    value it has in [A]. *)
Theorem strength_row_is_strong_entries n_row theta Ap Aj Ax Sp Sj Sx :
  csr_wf n_row n_row Ap Aj →
  n_row + 1 ≤ len Sp → rd 0 Ap n_row ≤ len Sj → rd 0 Ap n_row ≤ len Sx →
  let s := symmetric_strength_of_connection n_row theta Ap Aj Ax Sp Sj Sx in
  ∀ i, 0 ≤ i < n_row →
    strength_out_row s i = filter (strong theta Ap Aj Ax i) (csr_row Tzero Ap Aj Ax i)
    ∧ ∀ j v, (j, v) ∈ strength_out_row s i ↔
        (j, v) ∈ csr_row Tzero Ap Aj Ax i
        ∧ (j = i ∨
           Fge (mynormsq v)
             (Fmul (Fmul (Fmul theta theta) (diag_of Ap Aj Ax i)) (diag_of Ap Aj Ax j))
           = true).
Proof.
  intros Hwf HSp HSj HSx s i Hi.
  destruct (strength_rows n_row theta Ap Aj Ax Sp Sj Sx Hwf HSp HSj HSx)
    as (_ & _ & _ & _ & _ & _ & Hrows).
  destruct (Hrows i Hi) as (_ & _ & Hrow).
  split; [exact Hrow|].
  intros j v. fold s in Hrow. rewrite Hrow, list_elem_of_filter.
  unfold strong. simpl. tauto.
Qed.

(** C7, as the code has it.  The column indices of row [i] of [S] are among
    those of row [i] of [A], and row [i] of [S] holds the diagonal position
    [(i, i)] exactly when row [i] of [A] stores a diagonal entry: stored
    diagonal entries are always kept, and none is created. *)
Theorem strength_structure n_row theta Ap Aj Ax Sp Sj Sx :
  csr_wf n_row n_row Ap Aj →
  n_row + 1 ≤ len Sp → rd 0 Ap n_row ≤ len Sj → rd 0 Ap n_row ≤ len Sx →
  let s := symmetric_strength_of_connection n_row theta Ap Aj Ax Sp Sj Sx in
  ∀ i, 0 ≤ i < n_row →
    (strength_out_row s i).*1 ⊆ (csr_row Tzero Ap Aj Ax i).*1
    ∧ (i ∈ (strength_out_row s i).*1 ↔ i ∈ (csr_row Tzero Ap Aj Ax i).*1).
Proof.
  intros Hwf HSp HSj HSx s i Hi.
  destruct (strength_rows n_row theta Ap Aj Ax Sp Sj Sx Hwf HSp HSj HSx)
    as (_ & _ & _ & _ & _ & _ & Hrows).
  destruct (Hrows i Hi) as (_ & _ & Hrow). fold s in Hrow. rewrite Hrow.
  split.
  - intros j. rewrite !list_elem_of_fmap.
    intros (e & -> & He). apply list_elem_of_filter in He as [_ He]. eauto.
  - rewrite !list_elem_of_fmap. split.
    + intros (e & -> & He). apply list_elem_of_filter in He as [_ He]. eauto.
    + intros (e & Hie & He). exists e. split; [done|].
      apply list_elem_of_filter. split; [|done]. left. done.
Qed.

(** C10.  The output row pointer starts at 0, is non-decreasing and ends at
    most at [Ap[n_row]]; each row of [S] is a subsequence of the same row of
    [A], column indices and values alike, so that a row of [A] whose column
    indices are sorted (for any order [R]) gives a sorted row of [S]. *)
Theorem strength_preserves_row_order n_row theta Ap Aj Ax Sp Sj Sx :
  csr_wf n_row n_row Ap Aj →
  n_row + 1 ≤ len Sp → rd 0 Ap n_row ≤ len Sj → rd 0 Ap n_row ≤ len Sx →
  let s := symmetric_strength_of_connection n_row theta Ap Aj Ax Sp Sj Sx in
  rd 0 (st_Sp s) 0 = 0
  ∧ (∀ i, 0 ≤ i < n_row → rd 0 (st_Sp s) i ≤ rd 0 (st_Sp s) (i + 1))
  ∧ rd 0 (st_Sp s) n_row ≤ rd 0 Ap n_row
  ∧ ∀ i, 0 ≤ i < n_row →
      strength_out_row s i `sublist_of` csr_row Tzero Ap Aj Ax i
      ∧ ∀ R : relation Z,
          StronglySorted R (csr_row Tzero Ap Aj Ax i).*1 →
          StronglySorted R (strength_out_row s i).*1.
Proof.
  intros Hwf HSp HSj HSx s.
  destruct (strength_rows n_row theta Ap Aj Ax Sp Sj Sx Hwf HSp HSj HSx)
    as (Hnnz & _ & _ & _ & HSp0 & HSpn & Hrows).
  pose proof (wf_Ap_0 _ _ _ _ Hwf).
  split_and!; try done.
  - intros i Hi. by destruct (Hrows i Hi) as (? & _).
  - subst s. rewrite HSpn. lia.
  - intros i Hi. destruct (Hrows i Hi) as (_ & _ & Hrow). subst s.
    rewrite Hrow. split; [apply sublist_filter|].
    intros R HR. eapply sublist_StronglySorted; [|exact HR].
    apply fmap_sublist, sublist_filter.
Qed.
End StrengthClaims.

(** The inputs of the run [strength_run], as a witness of C1, C7 and C10. *)
Lemma strength_row_is_strong_entries_witness :
  csr_wf 3 3 [0; 2; 5; 7] [0; 1; 0; 1; 2; 1; 2]
  ∧ ∀ i, 0 ≤ i < 3 →
      let s := symmetric_strength_of_connection (T:=Z) (F:=Z) 3 1
                 [0; 2; 5; 7] [0; 1; 0; 1; 2; 1; 2] [4; -1; -1; 4; -5; -5; 4]
                 [9; 9; 9; 9] [9; 9; 9; 9; 9; 9; 9] [9; 9; 9; 9; 9; 9; 9] in
      strength_out_row s i
      = filter (strong 1 [0; 2; 5; 7] [0; 1; 0; 1; 2; 1; 2] [4; -1; -1; 4; -5; -5; 4] i)
          (csr_row 0 [0; 2; 5; 7] [0; 1; 0; 1; 2; 1; 2] [4; -1; -1; 4; -5; -5; 4] i).
Proof.
  split; [apply csr_ok_wf; vm_compute; reflexivity|].
  intros i Hi.
  refine (proj1 (strength_row_is_strong_entries (T:=Z) (F:=Z) 3 1
           [0; 2; 5; 7] [0; 1; 0; 1; 2; 1; 2] [4; -1; -1; 4; -5; -5; 4]
           [9; 9; 9; 9] [9; 9; 9; 9; 9; 9; 9] [9; 9; 9; 9; 9; 9; 9]
           _ _ _ _ i Hi));
    [apply csr_ok_wf; vm_compute; reflexivity | vm_compute; discriminate ..].
Defined.

(** C7 as stated fails: the 2x2 matrix [[. 5] [5 2]] stores no diagonal
    entry in row 0, and row 0 of [S] holds none either. *)
Lemma strength_adds_no_diagonal :
  let s := symmetric_strength_of_connection (T:=Z) (F:=Z) 2 0
             [0; 1; 3] [1; 0; 1] [5; 5; 2] [9; 9; 9] [9; 9; 9] [9; 9; 9] in
  csr_wf 2 2 [0; 1; 3] [1; 0; 1]
  ∧ strength_out_row s 0 = [(1, 5)]
  ∧ ¬ (0 ∈ (strength_out_row s 0).*1).
Proof.
  split; [apply csr_ok_wf; vm_compute; reflexivity|].
  split; [vm_compute; reflexivity|].
  vm_compute. intros Hin. apply list_elem_of_In in Hin. simpl in Hin.
  destruct Hin as [Hin|[]]. discriminate Hin.
Qed.

Lemma strength_structure_witness :
  csr_wf 2 2 [0; 1; 3] [1; 0; 1]
  ∧ ∀ i, 0 ≤ i < 2 →
      let s := symmetric_strength_of_connection (T:=Z) (F:=Z) 2 0
                 [0; 1; 3] [1; 0; 1] [5; 5; 2] [9; 9; 9] [9; 9; 9] [9; 9; 9] in
      (strength_out_row s i).*1 ⊆ (csr_row 0 [0; 1; 3] [1; 0; 1] [5; 5; 2] i).*1
      ∧ (i ∈ (strength_out_row s i).*1
         ↔ i ∈ (csr_row 0 [0; 1; 3] [1; 0; 1] [5; 5; 2] i).*1).
Proof.
  split; [apply csr_ok_wf; vm_compute; reflexivity|].
  intros i Hi.
  refine (strength_structure (T:=Z) (F:=Z) 2 0
           [0; 1; 3] [1; 0; 1] [5; 5; 2] [9; 9; 9] [9; 9; 9] [9; 9; 9]
           _ _ _ _ i Hi);
    [apply csr_ok_wf; vm_compute; reflexivity | vm_compute; discriminate ..].
Defined.

Lemma strength_preserves_row_order_witness :
  csr_wf 3 3 [0; 2; 5; 7] [0; 1; 0; 1; 2; 1; 2]
  ∧ let s := symmetric_strength_of_connection (T:=Z) (F:=Z) 3 1
               [0; 2; 5; 7] [0; 1; 0; 1; 2; 1; 2] [4; -1; -1; 4; -5; -5; 4]
               [9; 9; 9; 9] [9; 9; 9; 9; 9; 9; 9] [9; 9; 9; 9; 9; 9; 9] in
    rd 0 (st_Sp s) 0 = 0 ∧ rd 0 (st_Sp s) 3 ≤ 7.
Proof.
  split; [apply csr_ok_wf; vm_compute; reflexivity|].
  intros s.
  destruct (strength_preserves_row_order (T:=Z) (F:=Z) 3 1
           [0; 2; 5; 7] [0; 1; 0; 1; 2; 1; 2] [4; -1; -1; 4; -5; -5; 4]
           [9; 9; 9; 9] [9; 9; 9; 9; 9; 9; 9] [9; 9; 9; 9; 9; 9; 9])
    as (H0 & _ & Hn & _);
    [apply csr_ok_wf; vm_compute; reflexivity | vm_compute; discriminate ..|].
  split; [exact H0 | exact Hn].
Defined.

(** ** Aggregation *)

(** A path of 6 nodes [0 - 1 - 2 - 3 - 4 - 5] with self loops: standard
    aggregation forms the aggregates [{0,1}] around node 0 and [{2,3,4}]
    around node 3, and attaches node 5 to the second one; naive
    aggregation forms [{0,1}], [{2,3}] and [{4,5}] and numbers them from 1. *)
Example standard_aggregation_path :
  let Ap := [0; 2; 5; 8; 11; 14; 16] in
  let Aj := [0; 1; 0; 1; 2; 1; 2; 3; 2; 3; 4; 3; 4; 5; 4; 5] in
  let s := standard_aggregation 6 Ap Aj [7; 7; 7; 7; 7; 7] [7; 7; 7; 7; 7; 7] in
  ag_x s = [0; 0; 1; 1; 1; 1] ∧ take 2 (ag_y s) = [0; 3] ∧ ag_next s = 2.
Proof. vm_compute. done. Qed.

Example naive_aggregation_path :
  let Ap := [0; 2; 5; 8; 11; 14; 16] in
  let Aj := [0; 1; 0; 1; 2; 1; 2; 3; 2; 3; 4; 3; 4; 5; 4; 5] in
  let s := naive_aggregation 6 Ap Aj [7; 7; 7; 7; 7; 7] [7; 7; 7; 7; 7; 7] in
  ag_x s = [1; 1; 2; 2; 3; 3] ∧ take 3 (ag_y s) = [0; 2; 4] ∧ ag_next s = 3.
Proof. vm_compute. done. Qed.

(** A graph that is not symmetric: node 0 stores nothing, nodes 1 and 2
    both store edges to 0 and to each other. *)
Example standard_aggregation_asymmetric :
  let s := standard_aggregation 3 [0; 0; 2; 4] [0; 2; 0; 1] [7; 7; 7] [7; 7; 7] in
  ag_x s = [-1; 1; 1] ∧ ag_y s = [1; 2; 7] ∧ ag_next s = 2.
Proof. vm_compute. done. Qed.

Example standard_aggregation_asymmetric_2 :
  let s := standard_aggregation 2 [0; 1; 1] [1] [7; 7] [7; 7] in
  ag_x s = [0; 0] ∧ ag_y s = [0; 7] ∧ ag_next s = 1.
Proof. vm_compute. done. Qed.

(** *** The inner loops of the aggregation passes *)

Lemma fill_zero_spec x n :
  len (fill_zero x n) = len x
  ∧ (n ≤ len x → ∀ k, 0 ≤ k < n → rd 0 (fill_zero x n) k = 0).
Proof.
  unfold fill_zero. destruct (decide (0 ≤ n)) as [Hn|Hn].
  - apply (for_loop_inv (λ i x',
      len x' = len x ∧ (n ≤ len x → ∀ k, 0 ≤ k < i → rd 0 x' k = 0))); [done| |].
    + split; [done|]. intros; lia.
    + intros i x' Hi [Hlen Hz]. split; [by rewrite len_wr|].
      intros Hle k Hk. rewrite rd_wr by lia. case_decide; [done|].
      apply Hz; lia.
  - rewrite for_loop_nil by lia. split; [done|]. intros; lia.
Qed.

(** [for (jj ...) x[Aj[jj]] = v;] *)
Lemma mark_row_spec Aj lo hi v x :
  (∀ jj, lo ≤ jj < hi → 0 ≤ rd 0 Aj jj < len x) →
  let x' := for_loop lo hi (λ jj x, wr x (rd 0 Aj jj) v) x in
  len x' = len x
  ∧ ∀ k, (k ∈ cols Aj lo hi → rd 0 x' k = v)
         ∧ (k ∉ cols Aj lo hi → rd 0 x' k = rd 0 x k).
Proof.
  intros Hcols. simpl. destruct (decide (lo ≤ hi)) as [Hle|Hgt].
  - apply (for_loop_inv (λ m x',
      len x' = len x
      ∧ ∀ k, (k ∈ cols Aj lo m → rd 0 x' k = v)
             ∧ (k ∉ cols Aj lo m → rd 0 x' k = rd 0 x k)));
      [done| |].
    + split; [done|]. intros k. unfold cols. rewrite slice_nil by lia.
      split; [by intros ?%elem_of_nil | done].
    + intros m x' Hm [Hlen Hrd]. split; [by rewrite len_wr|].
      intros k. unfold cols in *. rewrite slice_snoc by lia.
      rewrite rd_wr by (rewrite Hlen; apply Hcols; lia).
      rewrite elem_of_app, list_elem_of_singleton.
      destruct (Hrd k) as [Hin Hout].
      destruct (decide (rd 0 Aj m = k)) as [<-|Hne]; [split; [done|tauto]|].
      split.
      * intros [?|?]; [by apply Hin | congruence].
      * intros Hn. apply Hout. tauto.
  - rewrite for_loop_nil by lia. split; [done|]. intros k.
    unfold cols. rewrite slice_nil by lia.
    split; [by intros ?%elem_of_nil | done].
Qed.

(** [for (jj ...) if (x[Aj[jj]] == 0) x[Aj[jj]] = v;] *)
Lemma mark_free_row_spec Aj lo hi v x :
  (∀ jj, lo ≤ jj < hi → 0 ≤ rd 0 Aj jj < len x) →
  let x' := for_loop lo hi
              (λ jj x, if rd 0 x (rd 0 Aj jj) =? 0 then wr x (rd 0 Aj jj) v else x) x in
  len x' = len x
  ∧ ∀ k, (k ∈ cols Aj lo hi → rd 0 x k = 0 → rd 0 x' k = v)
         ∧ (k ∉ cols Aj lo hi ∨ rd 0 x k ≠ 0 → rd 0 x' k = rd 0 x k).
Proof.
  intros Hcols. simpl. destruct (decide (lo ≤ hi)) as [Hle|Hgt].
  - apply (for_loop_inv (λ m x',
      len x' = len x
      ∧ ∀ k, (k ∈ cols Aj lo m → rd 0 x k = 0 → rd 0 x' k = v)
             ∧ (k ∉ cols Aj lo m ∨ rd 0 x k ≠ 0 → rd 0 x' k = rd 0 x k)));
      [done| |].
    + split; [done|]. intros k. unfold cols. rewrite slice_nil by lia.
      split; [by intros ?%elem_of_nil | done].
    + intros m x' Hm [Hlen Hrd]. unfold cols in *.
      assert (∀ k, k ∈ slice 0 Aj lo (m + 1) ↔ k ∈ slice 0 Aj lo m ∨ k = rd 0 Aj m)
        as Hsnoc.
      { intros k. rewrite slice_snoc by lia. rewrite elem_of_app.
        by rewrite list_elem_of_singleton. }
      destruct (Z.eqb_spec (rd 0 x' (rd 0 Aj m)) 0) as [Hz|Hnz].
      * split; [by rewrite len_wr|]. intros k.
        rewrite rd_wr by (rewrite Hlen; apply Hcols; lia).
        rewrite Hsnoc. destruct (Hrd k) as [Hin Hout].
        destruct (decide (rd 0 Aj m = k)) as [<-|Hne].
        -- split; [done|]. intros [Hn|Hn].
           ++ destruct Hn. by right.
           ++ rewrite Hout in Hz by (by right). done.
        -- split.
           ++ intros [?|?] ?; [by apply Hin | congruence].
           ++ intros [Hn|Hn]; apply Hout; tauto.
      * split; [done|]. intros k. rewrite Hsnoc.
        destruct (Hrd k) as [Hin Hout]. split.
        -- intros [?| ->] Hk0; [by apply Hin|].
           destruct (decide (rd 0 Aj m ∈ slice 0 Aj lo m)) as [Hm'|Hm'].
           ++ by apply Hin.
           ++ rewrite Hout in Hnz by (by left). done.
        -- intros [Hn|Hn]; apply Hout; tauto.
  - rewrite for_loop_nil by lia. split; [done|]. intros k.
    unfold cols. rewrite slice_nil by lia.
    split; [by intros ?%elem_of_nil | done].
Qed.

Lemma elem_of_cols_seqZ Aj lo hi j :
  j ∈ cols Aj lo hi ↔ ∃ jj, jj ∈ seqZ lo (hi - lo) ∧ j = rd 0 Aj jj.
Proof.
  unfold cols. rewrite elem_of_slice. setoid_rewrite elem_of_seqZ.
  split; intros (jj & ? & ?); exists jj; split; try done; lia.
Qed.

(** The scan of pass 1. *)
Lemma scan_neighbors_spec Aj x i jjs h0 :
  let r := scan_neighbors Aj x i jjs h0 in
  (r.2 = true →
     r.1 = true ∧ ∃ jj, jj ∈ jjs ∧ rd 0 Aj jj ≠ i ∧ rd 0 x (rd 0 Aj jj) ≠ 0)
  ∧ (r.2 = false →
     (∀ jj, jj ∈ jjs → rd 0 Aj jj ≠ i → rd 0 x (rd 0 Aj jj) = 0)
     ∧ (r.1 = true ↔ h0 = true ∨ ∃ jj, jj ∈ jjs ∧ rd 0 Aj jj ≠ i)).
Proof.
  simpl. revert h0. induction jjs as [|jj jjs IH]; intros h0; simpl.
  - split; [done|]. intros _. split.
    + intros jj Hjj. by apply elem_of_nil in Hjj.
    + split; [by left|]. intros [?|(jj & Hjj & _)]; [done|].
      by apply elem_of_nil in Hjj.
  - destruct (Z.eqb_spec i (rd 0 Aj jj)) as [Heq|Hne]; simpl.
    + destruct (IH h0) as [IH1 IH2]. split.
      * intros Ha. destruct (IH1 Ha) as (? & jj' & ? & ? & ?).
        split; [done|]. exists jj'. split; [by right | done].
      * intros Ha. destruct (IH2 Ha) as [IHa IHb]. split.
        -- intros jj' [->|Hin]%elem_of_cons Hn; [congruence|]. by apply IHa.
        -- rewrite IHb. split.
           ++ intros [?|(jj' & ? & ?)]; [by left|]. right. exists jj'.
              split; [by right | done].
           ++ intros [?|(jj' & [->|Hin]%elem_of_cons & Hn)]; [by left|congruence|].
              right. by exists jj'.
    + destruct (Z.eqb_spec (rd 0 x (rd 0 Aj jj)) 0) as [Hz|Hnz]; simpl.
      * destruct (IH true) as [IH1 IH2]. split.
        -- intros Ha. destruct (IH1 Ha) as (? & jj' & ? & ? & ?).
           split; [done|]. exists jj'. split; [by right | done].
        -- intros Ha. destruct (IH2 Ha) as [IHa IHb]. split.
           ++ intros jj' [->|Hin]%elem_of_cons Hn; [done|]. by apply IHa.
           ++ split; [|intros _; apply IHb; by left].
              intros _. right. exists jj. split; [by left | congruence].
      * split; [|done]. intros _. split; [done|].
        exists jj. split; [by left|]. split; [congruence | done].
Qed.

(** The attachment loop of pass 2. *)
Lemma attach_to_neighbor_spec Aj x i jjs :
  let x' := attach_to_neighbor Aj x i jjs in
  (∃ jj, jj ∈ jjs ∧ 0 < rd 0 x (rd 0 Aj jj) ∧ x' = wr x i (- rd 0 x (rd 0 Aj jj)))
  ∨ ((∀ jj, jj ∈ jjs → rd 0 x (rd 0 Aj jj) ≤ 0) ∧ x' = x).
Proof.
  simpl. induction jjs as [|jj jjs IH]; simpl.
  - right. split; [|done]. intros jj Hjj. by apply elem_of_nil in Hjj.
  - destruct (Z.ltb_spec 0 (rd 0 x (rd 0 Aj jj))) as [Hpos|Hneg].
    + left. exists jj. split; [by left | done].
    + destruct IH as [(jj' & Hin & Hp & Heq)|[Hall Heq]].
      * left. exists jj'. split; [by right | done].
      * right. split; [|done]. intros jj' [->|Hin]%elem_of_cons; [done|].
        by apply Hall.
Qed.

(** *** Pass 1 *)

Section AggFacts.
Context (n : Z) (Ap Aj : list Z) (lx ly : Z).
Context (Hwf : csr_wf n n Ap Aj) (Hsym : graph_symmetric n Ap Aj).
Context (Hlx : n ≤ lx) (Hly : n ≤ ly).

Lemma row_elem i j :
  j ∈ pattern_row Ap Aj i ↔
  ∃ jj, jj ∈ seqZ (rd 0 Ap i) (rd 0 Ap (i + 1) - rd 0 Ap i) ∧ j = rd 0 Aj jj.
Proof. apply elem_of_cols_seqZ. Qed.

Lemma row_col_range i j : 0 ≤ i < n → j ∈ pattern_row Ap Aj i → 0 ≤ j < n.
Proof using Hwf. intros. by eapply wf_pattern_row_col. Qed.

Lemma row_pos_range i jj :
  0 ≤ i < n → rd 0 Ap i ≤ jj < rd 0 Ap (i + 1) → 0 ≤ rd 0 Aj jj < n.
Proof using Hwf. intros. by eapply wf_col_in_row. Qed.

Lemma neighbour_not_isolated i j :
  j ∈ pattern_row Ap Aj i → j ≠ i → ¬ isolated Ap Aj i.
Proof. intros Hj Hne Hiso. apply Hne. by apply Hiso. Qed.

Lemma neighbour_sym_not_isolated i j :
  0 ≤ i < n → j ∈ pattern_row Ap Aj i → j ≠ i → ¬ isolated Ap Aj j.
Proof using Hsym.
  intros Hi Hj Hne. apply (neighbour_not_isolated j i); [|congruence].
  by apply Hsym.
Qed.

Lemma pass1_init x y :
  len x = lx → len y = ly →
  pass1_inv n Ap Aj lx ly 0 (AggState (fill_zero x n) y 1).
Proof using Hlx.
  intros Hx Hy. destruct (fill_zero_spec x n) as [Hlen Hz].
  split; simpl; try lia; try (intros; lia).
  intros k Hk. left. apply Hz; lia.
Qed.

Lemma pass1_step_inv i s :
  0 ≤ i < n →
  pass1_inv n Ap Aj lx ly i s →
  pass1_inv n Ap Aj lx ly (i + 1) (pass1_step n Ap Aj i s).
Proof using Hwf Hsym Hlx Hly.
  intros Hi [Hlenx Hleny Hlo Hhi Hnn Hfull Hvals Hiso Hzero Hroots].
  unfold pass1_step.
  destruct (Z.eqb_spec (rd 0 (ag_x s) i) 0) as [Hxi|Hxi]; simpl.
  2: { (* already marked *)
    split; try done; try lia.
    - intros k Hk. destruct (Hvals k Hk) as [?|[(?&?&?)|?]]; auto.
      right. left. split_and!; [done | lia | done].
    - intros k Hk Hk_iso. destruct (decide (k = i)) as [->|Hne].
      + destruct (Hvals i Hi) as [?|[(?&?&?)|(?&?)]]; done.
      + apply Hiso; [lia | done].
    - intros k Hk Hk0. destruct (decide (k = i)) as [->|Hne]; [done|].
      apply Hzero; [lia | done]. }
  pose proof (scan_neighbors_spec Aj (ag_x s) i
                (seqZ (rd 0 Ap i) (rd 0 Ap (i + 1) - rd 0 Ap i)) false) as Hscan.
  destruct (scan_neighbors _ _ _ _ _) as [hn ha]. simpl in Hscan.
  destruct Hscan as [Hs1 Hs2].
  destruct hn; simpl.
  - destruct ha; simpl.
    + (* a neighbour is already marked: nothing changes *)
      destruct Hs1 as (_ & jj & Hjj & Hne & Hnz); [done|].
      set (j := rd 0 Aj jj) in *.
      assert (j ∈ pattern_row Ap Aj i) as Hrow by (apply row_elem; eauto).
      pose proof (row_col_range i j Hi Hrow) as Hj.
      assert (0 < rd 0 (ag_x s) j) as Hpos.
      { destruct (Hvals j Hj) as [?|[(?&?&Hj_iso)|(?&?)]]; [done| |lia].
        destruct (neighbour_sym_not_isolated i j); done. }
      split; try done; try lia.
      * intros k Hk. destruct (Hvals k Hk) as [?|[(?&?&?)|?]]; auto.
        right. left. split_and!; [done | lia | done].
      * intros k Hk Hk_iso. destruct (decide (k = i)) as [->|Hnk].
        -- destruct (neighbour_not_isolated i j); done.
        -- apply Hiso; [lia | done].
      * intros k Hk Hk0. destruct (decide (k = i)) as [->|Hnk].
        -- exists j. done.
        -- apply Hzero; [lia | done].
    + (* a new aggregate around [i] *)
      destruct Hs2 as [Hfree Hex]; [done|].
      destruct Hex as [Hex _]. destruct Hex as [?|(jj0 & Hjj0 & Hne0)]; [done..|].
      set (j0 := rd 0 Aj jj0) in *.
      assert (j0 ∈ pattern_row Ap Aj i) as Hrow0 by (apply row_elem; eauto).
      pose proof (row_col_range i j0 Hi Hrow0) as Hj0.
      assert (rd 0 (ag_x s) j0 = 0) as Hj0z by (by apply Hfree).
      assert (∀ k, k ∈ pattern_row Ap Aj i → k ≠ i → rd 0 (ag_x s) k = 0) as Hfree'.
      { intros k (jj & Hjj & ->)%row_elem Hk. by apply Hfree. }
      destruct (mark_row_spec Aj (rd 0 Ap i) (rd 0 Ap (i + 1)) (ag_next s)
                  (wr (ag_x s) i (ag_next s))) as [Hlen2 Hx2].
      { intros jj Hjj. rewrite len_wr, Hlenx.
        pose proof (row_pos_range i jj Hi Hjj). lia. }
      set (x2 := for_loop (rd 0 Ap i) (rd 0 Ap (i + 1))
                   (λ jj x, wr x (rd 0 Aj jj) (ag_next s))
                   (wr (ag_x s) i (ag_next s))) in *.
      rewrite len_wr in Hlen2.
      assert (∀ k,
        (rd 0 x2 k = ag_next s ∧ rd 0 (ag_x s) k = 0
         ∧ (k = i ∨ k ∈ pattern_row Ap Aj i))
        ∨ (rd 0 x2 k = rd 0 (ag_x s) k ∧ k ≠ i ∧ k ∉ pattern_row Ap Aj i)) as Hch.
      { intros k. destruct (Hx2 k) as [Hin Hout].
        destruct (decide (k ∈ pattern_row Ap Aj i)) as [Hk|Hk].
        - left. split; [by apply Hin|]. split; [|by right].
          destruct (decide (k = i)) as [->|Hki]; [done|]. by apply Hfree'.
        - rewrite Hout by done. rewrite rd_wr by lia.
          destruct (decide (i = k)) as [<-|Hki].
          + left. split_and!; [done | done | by left].
          + right. split_and!; [done | congruence | done]. }
      assert (∀ k, rd 0 (ag_x s) k ≠ 0 → rd 0 x2 k = rd 0 (ag_x s) k) as Hkeep.
      { intros k Hk. destruct (Hch k) as [(?&?&?)|(?&?&?)]; done. }
      assert (i + 1 < n ∨ ag_next s ≤ i) as Hroom.
      { destruct (decide (ag_next s = i + 1)) as [Heq|Hneq]; [|right; lia].
        left. destruct (decide (j0 < i)) as [Hlt|Hge]; [|lia].
        destruct (Hfull Heq j0); [lia | done]. }
      split; simpl; try lia.
      * by rewrite len_wr.
      * intros Heq k Hk. destruct (Hch k) as [(->&?&?)|(->&?&?)]; [lia|].
        apply Hfull; lia.
      * intros k Hk. destruct (Hch k) as [(->&?&Hk')|(->&?&?)].
        -- right. right. split; [lia|].
           destruct (decide (k = i)) as [->|Hki].
           ++ by apply (neighbour_not_isolated i j0).
           ++ destruct Hk' as [?|Hk']; [done|].
              by apply (neighbour_sym_not_isolated i k).
        -- destruct (Hvals k Hk) as [?|[(?&?&?)|(?&?)]]; auto.
           ++ right. left. split_and!; [done | lia | done].
           ++ right. right. split; [lia | done].
      * intros k Hk Hk_iso. destruct (decide (k = i)) as [->|Hki].
        -- destruct (neighbour_not_isolated i j0); done.
        -- rewrite Hkeep; [apply Hiso; [lia | done]|].
           rewrite Hiso; [lia | lia | done].
      * intros k Hk Hk0. destruct (Hch k) as [(Hk2&?&?)|(Hk2&?&?)]; [lia|].
        destruct (Hzero k) as (j & Hj & Hjk & Hjpos); [lia | congruence |].
        exists j. split_and!; [done..|]. rewrite Hkeep; lia.
      * intros a Ha. destruct (decide (a = ag_next s)) as [->|Hna].
        -- rewrite rd_wr_eq by lia. split; [lia|].
           destruct (Hch i) as [(?&?&?)|(?&?&?)]; done.
        -- rewrite rd_wr_ne by lia. destruct (Hroots a) as [Hr1 Hr2]; [lia|].
           split; [done|]. rewrite Hkeep; lia.
  - (* no neighbour: [i] is isolated *)
    destruct ha; [by destruct Hs1|].
    destruct Hs2 as [_ Hex]; [done|].
    assert (isolated Ap Aj i) as Hi_iso.
    { intros j (jj & Hjj & ->)%row_elem.
      destruct (decide (rd 0 Aj jj = i)) as [?|Hne]; [done|].
      assert (false = true) as Habs; [|done].
      apply Hex. right. eauto. }
    split; simpl; try done; try lia.
    + by rewrite len_wr.
    + intros k Hk. rewrite rd_wr by lia. case_decide as Hik.
      * subst k. right. left. split_and!; [done | lia | done].
      * destruct (Hvals k Hk) as [?|[(?&?&?)|?]]; auto.
        right. left. split_and!; [done | lia | done].
    + intros k Hk Hk_iso. rewrite rd_wr by lia. case_decide; [done|].
      apply Hiso; [lia | done].
    + intros k Hk. rewrite rd_wr by lia. case_decide as Hik; [lia|].
      intros Hk0. destruct (Hzero k) as (j & Hj & Hjk & Hjpos); [lia | done |].
      exists j. split_and!; [done..|].
      rewrite rd_wr_ne; [done|]. intros <-. lia.
    + intros a Ha. destruct (Hroots a Ha) as [Hr1 Hr2]. split; [done|].
      rewrite rd_wr_ne; [done|]. intros Heq. rewrite <- Heq in Hr2. lia.
Qed.

Lemma pass1_final x y :
  len x = lx → len y = ly →
  pass1_inv n Ap Aj lx ly n
    (for_loop 0 n (pass1_step n Ap Aj) (AggState (fill_zero x n) y 1)).
Proof using Hwf Hsym Hlx Hly.
  intros Hx Hy. pose proof (wf_rows _ _ _ _ Hwf).
  apply (for_loop_inv (pass1_inv n Ap Aj lx ly)); [done| |].
  - by apply pass1_init.
  - intros i s Hi Hinv. by apply pass1_step_inv.
Qed.
End AggFacts.

(** *** Passes 2 and 3 *)

Section AggFacts23.
Context (n : Z) (Ap Aj : list Z) (lx ly : Z).
Context (Hwf : csr_wf n n Ap Aj) (Hsym : graph_symmetric n Ap Aj).
Context (Hlx : n ≤ lx) (Hly : n ≤ ly).

Lemma pass2_init s :
  pass1_inv n Ap Aj lx ly n s →
  pass2_inv n Ap Aj lx (ag_next s) (ag_y s) 0 s.
Proof.
  intros [Hlenx Hleny Hlo Hhi Hnn Hfull Hvals Hiso Hzero Hroots].
  split; try done.
  intros k Hk. destruct (Hvals k Hk) as [?|[(?&?&?)|(?&?)]]; auto.
  left. split; [done | lia].
Qed.

Lemma pass2_step_inv nx y1 i s :
  0 ≤ i < n →
  pass2_inv n Ap Aj lx nx y1 i s →
  pass2_inv n Ap Aj lx nx y1 (i + 1) (pass2_step Ap Aj i s).
Proof using Hwf Hlx.
  intros Hi [Hlenx Hy Hnext Hvals Hzero Hroots].
  unfold pass2_step.
  destruct (Z.eqb_spec (rd 0 (ag_x s) i) 0) as [Hxi|Hxi]; simpl.
  2: { split; try done. intros k Hk.
       destruct (Hvals k Hk) as [(?&?)|?]; auto.
       left. split; [done|]. destruct (decide (k = i)) as [->|?]; [done | lia]. }
  destruct (Hzero i Hi Hxi) as (j & Hj & Hji & Hjpos).
  destruct (attach_to_neighbor_spec Aj (ag_x s) i
              (seqZ (rd 0 Ap i) (rd 0 Ap (i + 1) - rd 0 Ap i)))
    as [(jj & Hjj & Hpos & ->)|[Hall _]].
  2: { apply elem_of_cols_seqZ in Hj as (jj & Hjj & ->).
       specialize (Hall jj Hjj). lia. }
  set (j' := rd 0 Aj jj) in *.
  assert (j' ∈ pattern_row Ap Aj i) as Hrow' by (apply elem_of_cols_seqZ; eauto).
  pose proof (wf_pattern_row_col Hwf i j' Hi Hrow') as Hj'.
  assert (1 ≤ rd 0 (ag_x s) j' < nx) as Hbound.
  { destruct (Hvals j' Hj') as [(?&?)|[(?&?)|[(?&?)|(?&?)]]]; lia. }
  assert (¬ isolated Ap Aj i) as Hni.
  { intros Hiso. apply Hji. by apply Hiso. }
  split; simpl; try done.
  - by rewrite len_wr.
  - intros k Hk. rewrite rd_wr by lia. case_decide as Hik.
    + subst k. right. right. right. split; [lia | done].
    + destruct (Hvals k Hk) as [(?&?)|?]; auto. left. split; [done | lia].
  - intros k Hk. rewrite rd_wr by lia. case_decide as Hik; [lia|].
    intros Hk0. destruct (Hzero k Hk Hk0) as (m & Hm & Hmk & Hmpos).
    exists m. split_and!; [done..|]. rewrite rd_wr_ne; [done|]. intros <-. lia.
  - intros a Ha. destruct (Hroots a Ha) as [Hr1 Hr2]. split; [done|].
    rewrite rd_wr_ne; [done|]. intros Heq. rewrite <- Heq in Hr2. lia.
Qed.

Lemma pass3_init nx y1 s :
  pass2_inv n Ap Aj lx nx y1 n s →
  pass3_inv n Ap Aj lx (nx - 1) y1 0 (AggState (ag_x s) (ag_y s) (ag_next s - 1)).
Proof.
  intros [Hlenx Hy Hnext Hvals Hzero Hroots].
  split; simpl; try done; try lia.
  - intros k Hk. destruct (Hvals k Hk) as [(?&?)|[(?&?)|[(?&?)|(?&?)]]]; [lia| | |].
    + by left.
    + right. left. split; [lia | done].
    + right. right. split; [lia | done].
  - intros a Ha. destruct (Hroots a) as [Hr1 Hr2]; [lia|]. split; [done|].
    rewrite decide_False by lia. done.
Qed.

Lemma pass3_step_inv c y1 i s :
  c < n → 0 ≤ i < n →
  pass3_inv n Ap Aj lx c y1 i s →
  pass3_inv n Ap Aj lx c y1 (i + 1) (pass3_step n Ap Aj i s).
Proof using Hlx.
  intros Hc Hi [Hlenx Hy Hnext Hdone Htodo Hroots].
  unfold pass3_step.
  assert (rd 0 (ag_x s) i ≠ 0) as Hxi.
  { destruct (Htodo i) as [(?&?)|[(?&?)|(?&?)]]; lia. }
  destruct (Z.eqb_spec (rd 0 (ag_x s) i) 0) as [?|_]; [done|]. simpl.
  split; simpl; try done.
  - by rewrite len_wr.
  - intros k Hk. rewrite rd_wr by lia. case_decide as Hik.
    + subst k. destruct (Htodo i) as [(Hv&?)|[(Hv&?)|(Hv&?)]]; [lia| | |].
      * left. split; [|done].
        destruct (Z.ltb_spec 0 (rd 0 (ag_x s) i)); [lia|].
        destruct (Z.eqb_spec (rd 0 (ag_x s) i) (- n)); [done | lia].
      * right. split; [|done].
        destruct (Z.ltb_spec 0 (rd 0 (ag_x s) i)); lia.
      * right. split; [|done].
        destruct (Z.ltb_spec 0 (rd 0 (ag_x s) i)); [lia|].
        destruct (Z.eqb_spec (rd 0 (ag_x s) i) (- n)); lia.
    + apply Hdone. lia.
  - intros k Hk. rewrite rd_wr_ne by lia. apply Htodo. lia.
  - intros a Ha. destruct (Hroots a Ha) as [Hr1 Hr2]. split; [done|].
    rewrite rd_wr by lia.
    destruct (decide (i = rd 0 y1 (a - 1))) as [Hir|Hir].
    + rewrite <- Hir in *. rewrite decide_False in Hr2 by lia.
      rewrite decide_True by lia. rewrite Hr2.
      destruct (Z.ltb_spec 0 a); lia.
    + rewrite Hr2. destruct (decide (rd 0 y1 (a - 1) < i)).
      * rewrite decide_True by lia. done.
      * rewrite decide_False by lia. done.
Qed.

(** The state in which [standard_aggregation] returns. *)
Lemma standard_aggregation_final x y :
  len x = lx → len y = ly →
  let s := standard_aggregation n Ap Aj x y in
  pass3_inv n Ap Aj lx (ag_next s) (ag_y s) n s.
Proof using Hwf Hsym Hlx Hly.
  intros Hx Hy. simpl. unfold standard_aggregation.
  pose proof (wf_rows _ _ _ _ Hwf) as Hn.
  pose proof (pass1_final n Ap Aj lx ly Hwf Hsym Hlx Hly x y Hx Hy) as H1.
  set (s1 := for_loop 0 n (pass1_step n Ap Aj) (AggState (fill_zero x n) y 1)) in *.
  pose proof (p1_next_n _ _ _ _ _ _ _ H1) as Hnn.
  pose proof (p1_next_lo _ _ _ _ _ _ _ H1) as Hlo.
  assert (pass2_inv n Ap Aj lx (ag_next s1) (ag_y s1) n
            (for_loop 0 n (pass2_step Ap Aj) s1)) as H2.
  { apply (for_loop_inv (pass2_inv n Ap Aj lx (ag_next s1) (ag_y s1))); [done| |].
    - by apply pass2_init.
    - intros i s Hi Hinv. by apply pass2_step_inv. }
  set (s2 := for_loop 0 n (pass2_step Ap Aj) s1) in *.
  assert (pass3_inv n Ap Aj lx (ag_next s1 - 1) (ag_y s1) n
            (for_loop 0 n (pass3_step n Ap Aj)
               (AggState (ag_x s2) (ag_y s2) (ag_next s2 - 1)))) as H3.
  { apply (for_loop_inv (pass3_inv n Ap Aj lx (ag_next s1 - 1) (ag_y s1))); [done| |].
    - by apply pass3_init.
    - intros i s Hi Hinv. apply pass3_step_inv; [lia | done | done]. }
  set (s3 := for_loop 0 n (pass3_step n Ap Aj)
               (AggState (ag_x s2) (ag_y s2) (ag_next s2 - 1))) in *.
  rewrite (p3_next _ _ _ _ _ _ _ _ H3), (p3_y _ _ _ _ _ _ _ _ H3). exact H3.
Qed.
End AggFacts23.

(** *** Standard aggregation: the claims *)

Lemma graph_symmetric_ok_spec n Ap Aj :
  graph_symmetric_ok n Ap Aj = true → graph_symmetric n Ap Aj.
Proof.
  unfold graph_symmetric_ok, graph_symmetric.
  rewrite forallb_forall. intros Hok i j Hi Hj.
  specialize (Hok i). rewrite <- list_elem_of_In, elem_of_seqZ in Hok.
  specialize (Hok ltac:(lia)). rewrite forallb_forall in Hok.
  specialize (Hok j). rewrite <- list_elem_of_In in Hok.
  specialize (Hok Hj). apply existsb_exists in Hok as (i' & Hin & Heq).
  apply Z.eqb_eq in Heq. subst i'. by apply list_elem_of_In.
Qed.

(** C4, on symmetric graphs.  For a well-formed symmetric graph,
    [standard_aggregation] returns with [x[i] >= -1] for every node; the
    non-negative values in [x] are exactly [0, ..., count - 1], so there are
    [count] distinct ones; and [x[i] = -1] exactly for the isolated nodes,
    the rows without a stored off-diagonal entry. *)
Theorem standard_aggregation_coverage n Ap Aj x y :
  csr_wf n n Ap Aj → graph_symmetric n Ap Aj →
  n ≤ len x → n ≤ len y →
  let s := standard_aggregation n Ap Aj x y in
  (∀ i, 0 ≤ i < n → -1 ≤ rd 0 (ag_x s) i)
  ∧ (∀ v, 0 ≤ v → (∃ i, 0 ≤ i < n ∧ rd 0 (ag_x s) i = v) ↔ v < ag_next s)
  ∧ length (aggregate_ids n (ag_x s)) = Z.to_nat (ag_next s)
  ∧ (∀ i, 0 ≤ i < n → rd 0 (ag_x s) i = -1 ↔ isolated Ap Aj i).
Proof.
  intros Hwf Hsym Hx Hy s.
  pose proof (standard_aggregation_final n Ap Aj (len x) (len y)
                Hwf Hsym Hx Hy x y eq_refl eq_refl) as Hfin.
  fold s in Hfin. destruct Hfin as [_ _ _ Hdone _ Hroots].
  assert (∀ v, 0 ≤ v → (∃ i, 0 ≤ i < n ∧ rd 0 (ag_x s) i = v) ↔ v < ag_next s)
    as Hids.
  { intros v Hv. split.
    - intros (i & Hi & <-). destruct (Hdone i Hi) as [(?&?)|(?&?)]; lia.
    - intros Hlt. destruct (Hroots (v + 1)) as [Hr1 Hr2]; [lia|].
      exists (rd 0 (ag_y s) (v + 1 - 1)). split; [done|].
      rewrite Hr2. rewrite decide_True by lia. lia. }
  split_and!.
  - intros i Hi. destruct (Hdone i Hi) as [(?&?)|(?&?)]; lia.
  - exact Hids.
  - rewrite <- (length_seqZ 0 (ag_next s)). apply Permutation_length.
    apply NoDup_Permutation; [apply NoDup_remove_dups | apply NoDup_seqZ |].
    intros v. unfold aggregate_ids.
    rewrite elem_of_remove_dups, list_elem_of_filter, elem_of_slice, elem_of_seqZ.
    split.
    + intros (Hv & i & Hi & ->). split; [lia|].
      apply Hids; [done|]. exists i. split; [lia | done].
    + intros Hv. split; [lia|].
      destruct (proj2 (Hids v ltac:(lia))) as (i & Hi & Heq); [lia|].
      exists i. split; [lia | done].
  - intros i Hi. destruct (Hdone i Hi) as [(?&?)|(?&?)]; split; try done; lia.
Qed.


Lemma standard_aggregation_coverage_witness :
  let Ap := [0; 2; 5; 8; 11; 14; 16] in
  let Aj := [0; 1; 0; 1; 2; 1; 2; 3; 2; 3; 4; 3; 4; 5; 4; 5] in
  let s := standard_aggregation 6 Ap Aj [7; 7; 7; 7; 7; 7] [7; 7; 7; 7; 7; 7] in
  csr_wf 6 6 Ap Aj ∧ graph_symmetric 6 Ap Aj
  ∧ length (aggregate_ids 6 (ag_x s)) = Z.to_nat (ag_next s).
Proof.
  intros Ap Aj s.
  split; [apply csr_ok_wf; vm_compute; reflexivity|].
  split; [apply graph_symmetric_ok_spec; vm_compute; reflexivity|].
  refine (proj1 (proj2 (proj2
    (standard_aggregation_coverage 6 Ap Aj [7; 7; 7; 7; 7; 7] [7; 7; 7; 7; 7; 7]
       _ _ _ _))));
    [apply csr_ok_wf; vm_compute; reflexivity
    |apply graph_symmetric_ok_spec; vm_compute; reflexivity
    |vm_compute; discriminate ..].
Defined.


(** C4 as stated, for every graph, fails.  In the graph with the single
    stored entry [(0, 1)], row 1 stores nothing, so node 1 is isolated; but
    pass 1 puts it into the aggregate of node 0 and it ends with [x[1] = 0]. *)
Lemma standard_aggregation_isolated_not_marked :
  let s := standard_aggregation 2 [0; 1; 1] [1] [7; 7] [7; 7] in
  csr_wf 2 2 [0; 1; 1] [1]
  ∧ isolated [0; 1; 1] [1] 1
  ∧ rd 0 (ag_x s) 1 = 0
  ∧ ¬ (rd 0 (ag_x s) 1 = -1 ↔ isolated [0; 1; 1] [1] 1).
Proof.
  assert (isolated [0; 1; 1] [1] 1) as Hiso.
  { intros j Hj. vm_compute in Hj. by apply elem_of_nil in Hj. }
  split; [apply csr_ok_wf; vm_compute; reflexivity|].
  split; [exact Hiso|]. split; [vm_compute; reflexivity|].
  intros [_ H]. specialize (H Hiso). vm_compute in H. discriminate H.
Qed.


(** *** Naive aggregation *)

Section NaiveFacts.
Context (n : Z) (Ap Aj : list Z) (lx ly : Z).
Context (Hwf : csr_wf n n Ap Aj) (Hlx : n ≤ lx) (Hly : n ≤ ly).

Lemma naive_step_inv i s :
  0 ≤ i < n →
  naive_inv n lx ly i s → naive_inv n lx ly (i + 1) (naive_step Ap Aj i s).
Proof using Hwf Hlx Hly.
  intros Hi [Hlenx Hleny Hlo Hhi Hvals Hdone Hroots].
  unfold naive_step.
  destruct (Z.eqb_spec (rd 0 (ag_x s) i) 0) as [Hxi|Hxi]; simpl.
  2: { split; try done; try lia.
       intros k Hk. destruct (decide (k = i)) as [->|?]; [done|].
       apply Hdone. lia. }
  destruct (mark_free_row_spec Aj (rd 0 Ap i) (rd 0 Ap (i + 1)) (ag_next s)
              (wr (ag_x s) i (ag_next s))) as [Hlen2 Hx2].
  { intros jj Hjj. rewrite len_wr, Hlenx.
    pose proof (wf_col_in_row Hwf i jj Hi Hjj). lia. }
  set (x2 := for_loop (rd 0 Ap i) (rd 0 Ap (i + 1)) _ _) in *.
  rewrite len_wr in Hlen2.
  assert (∀ k, rd 0 x2 k = ag_next s
               ∨ (rd 0 x2 k = rd 0 (ag_x s) k ∧ k ≠ i)) as Hch.
  { intros k. destruct (Hx2 k) as [Hin Hout].
    rewrite rd_wr in Hin, Hout by lia.
    destruct (decide (i = k)) as [<-|Hik].
    - left. apply Hout. right. lia.
    - destruct (decide (k ∈ cols Aj (rd 0 Ap i) (rd 0 Ap (i + 1))
                        ∧ rd 0 (ag_x s) k = 0)) as [[? ?]|Hno].
      + left. by apply Hin.
      + right. split; [|congruence]. apply Hout.
        destruct (decide (k ∈ cols Aj (rd 0 Ap i) (rd 0 Ap (i + 1)))); [|by left].
        right. intros ?. apply Hno. done. }
  assert (∀ k, rd 0 (ag_x s) k ≠ 0 → rd 0 x2 k = rd 0 (ag_x s) k) as Hkeep.
  { intros k Hk. destruct (Hx2 k) as [_ Hout].
    rewrite rd_wr in Hout by lia.
    destruct (decide (i = k)) as [<-|Hik]; [done|]. apply Hout. by right. }
  split; simpl; try lia.
  - by rewrite len_wr.
  - intros k Hk. destruct (Hch k) as [->|[-> _]]; [lia|].
    destruct (Hvals k Hk); [by left | right; lia].
  - intros k Hk. destruct (Hch k) as [->|[-> ?]]; [lia|]. apply Hdone. lia.
  - intros a Ha. destruct (decide (a = ag_next s)) as [->|Hna].
    + rewrite rd_wr_eq by lia. split; [lia|].
      destruct (Hch i) as [?|[_ ?]]; done.
    + rewrite rd_wr_ne by lia. destruct (Hroots a) as [Hr1 Hr2]; [lia|].
      split; [done|]. rewrite Hkeep; lia.
Qed.

Lemma naive_final x y :
  len x = lx → len y = ly →
  naive_inv n lx ly n
    (for_loop 0 n (naive_step Ap Aj) (AggState (fill_zero x n) y 1)).
Proof using Hwf Hlx Hly.
  intros Hx Hy. pose proof (wf_rows _ _ _ _ Hwf).
  apply (for_loop_inv (naive_inv n lx ly)); [done| |].
  - destruct (fill_zero_spec x n) as [Hlen Hz].
    split; simpl; try lia; try (intros; lia).
    intros k Hk. left. apply Hz; lia.
  - intros i s Hi Hinv. by apply naive_step_inv.
Qed.
End NaiveFacts.

(** C6, what the code does.  [naive_aggregation] numbers the aggregates
    from 1 and never renumbers them: on return every node has
    [1 <= x[i] <= count], and [y[k]] is a node of aggregate [k + 1] for every
    [k < count].  The 0-based bound [x[i] < count] of the claim therefore
    fails for a node of the last aggregate of every graph that has a node. *)
Theorem naive_aggregation_ids_from_one n Ap Aj x y :
  csr_wf n n Ap Aj → n ≤ len x → n ≤ len y →
  let s := naive_aggregation n Ap Aj x y in
  (∀ i, 0 ≤ i < n → 1 ≤ rd 0 (ag_x s) i ≤ ag_next s)
  ∧ (∀ k, 0 ≤ k < ag_next s →
       0 ≤ rd 0 (ag_y s) k < n ∧ rd 0 (ag_x s) (rd 0 (ag_y s) k) = k + 1)
  ∧ (0 < n → ∃ i, 0 ≤ i < n ∧ rd 0 (ag_x s) i = ag_next s).
Proof.
  intros Hwf Hx Hy s.
  pose proof (naive_final n Ap Aj (len x) (len y) Hwf Hx Hy x y eq_refl eq_refl)
    as [_ _ Hlo Hhi Hvals Hdone Hroots].
  subst s. unfold naive_aggregation. simpl.
  set (s1 := for_loop 0 n (naive_step Ap Aj) (AggState (fill_zero x n) y 1)) in *.
  assert (∀ i, 0 ≤ i < n → 1 ≤ rd 0 (ag_x s1) i ≤ ag_next s1 - 1) as Hall.
  { intros i Hi. specialize (Hdone i Hi). destruct (Hvals i Hi); lia. }
  split_and!.
  - exact Hall.
  - intros k Hk. destruct (Hroots (k + 1)) as [Hr1 Hr2]; [lia|].
    by replace (k + 1 - 1) with k in * by lia.
  - intros Hn. destruct (Hall 0) as [? ?]; [lia|].
    destruct (Hroots (ag_next s1 - 1)) as [Hr1 Hr2]; [lia|]. eauto.
Qed.

Lemma naive_aggregation_ids_from_one_witness :
  let s := naive_aggregation 1 [0; 0] [] [7] [7] in
  csr_wf 1 1 [0; 0] []
  ∧ (∀ i, 0 ≤ i < 1 → 1 ≤ rd 0 (ag_x s) i ≤ ag_next s).
Proof.
  intros s. split; [apply csr_ok_wf; vm_compute; reflexivity|].
  refine (proj1 (naive_aggregation_ids_from_one 1 [0; 0] [] [7] [7] _ _ _));
    [apply csr_ok_wf; vm_compute; reflexivity | vm_compute; discriminate ..].
Defined.

(** The graph with one node and no edge: the node gets id 1, and 1 is
    returned. *)
Example naive_aggregation_single_node :
  let s := naive_aggregation 1 [0; 0] [] [7] [7] in
  ag_x s = [1] ∧ ag_y s = [0] ∧ ag_next s = 1.
Proof. vm_compute. done. Qed.

(** ** Dense blocks *)

Lemma block_index_bounds R C r c :
  0 ≤ r < R → 0 ≤ c < C → 0 ≤ r * C + c < R * C.
Proof. intros. nia. Qed.

Lemma block_index_inj C r c r' c' :
  0 ≤ c < C → 0 ≤ c' < C → 0 ≤ r → 0 ≤ r' →
  r * C + c = r' * C + c' → r = r' ∧ c = c'.
Proof. intros. assert (r = r') by nia. subst. lia. Qed.

Lemma window_disjoint bs q q' t t' :
  q ≠ q' → 0 ≤ t < bs → 0 ≤ t' < bs → q * bs + t ≠ q' * bs + t'.
Proof. intros. nia. Qed.

(** Two nested counted loops that rewrite each cell [idx i j] once. *)
Lemma nested_update_spec {A} (d : A) (R C : Z) (idx : Z → Z → Z)
    (f : Z → Z → A → A) (S : list A) :
  0 ≤ R → 0 ≤ C →
  (∀ i j, 0 ≤ i < R → 0 ≤ j < C → 0 ≤ idx i j < len S) →
  (∀ i j i' j', 0 ≤ i < R → 0 ≤ j < C → 0 ≤ i' < R → 0 ≤ j' < C →
     idx i j = idx i' j' → i = i' ∧ j = j') →
  let S' := for_loop 0 R
              (λ i S, for_loop 0 C
                 (λ j S, wr S (idx i j) (f i j (rd d S (idx i j)))) S) S in
  len S' = len S
  ∧ (∀ i j, 0 ≤ i < R → 0 ≤ j < C → rd d S' (idx i j) = f i j (rd d S (idx i j)))
  ∧ (∀ m, (∀ i j, 0 ≤ i < R → 0 ≤ j < C → m ≠ idx i j) → rd d S' m = rd d S m).
Proof.
  intros HR HC Hrange Hinj. simpl.
  set (P := λ (i0 j0 : Z) (S' : list A),
    len S' = len S
    ∧ (∀ i j, 0 ≤ i < R → 0 ≤ j < C →
         rd d S' (idx i j) =
         if decide (i < i0 ∨ (i = i0 ∧ j < j0)) then f i j (rd d S (idx i j))
         else rd d S (idx i j))
    ∧ (∀ m, (∀ i j, 0 ≤ i < R → 0 ≤ j < C → m ≠ idx i j) → rd d S' m = rd d S m)).
  assert (P R 0 (for_loop 0 R
              (λ i S, for_loop 0 C
                 (λ j S, wr S (idx i j) (f i j (rd d S (idx i j)))) S) S)) as HP.
  { apply (for_loop_inv (λ i S', P i 0 S')); [done| |].
    - split_and!; [done| |done]. intros i j Hi Hj.
      rewrite decide_False by lia. done.
    - intros i0 S0 Hi0 HP0.
      assert (P i0 C (for_loop 0 C
                (λ j S, wr S (idx i0 j) (f i0 j (rd d S (idx i0 j)))) S0)) as HPC.
      { apply (for_loop_inv (λ j S', P i0 j S')); [done|done|].
        intros j0 S1 Hj0 (Hlen & Hcells & Hother).
        split_and!.
        - by rewrite len_wr.
        - intros i j Hi Hj. rewrite rd_wr by (rewrite Hlen; by apply Hrange).
          destruct (decide (idx i0 j0 = idx i j)) as [Heq|Hne].
          + destruct (Hinj i0 j0 i j) as [-> ->]; [done..|].
            rewrite decide_True by lia. rewrite Hcells by done.
            rewrite decide_False by lia. done.
          + rewrite Hcells by done.
            destruct (decide (i < i0 ∨ i = i0 ∧ j < j0)) as [Hc|Hc].
            * rewrite decide_True by lia. done.
            * rewrite decide_False; [done|]. intros [?|[-> ?]]; [lia|].
              destruct (decide (j = j0)) as [->|?]; [done | lia].
        - intros m Hm. rewrite rd_wr_ne; [by apply Hother|].
          intros Heq. by apply (Hm i0 j0). }
      destruct HPC as (Hlen & Hcells & Hother).
      split_and!; [done| |done].
      intros i j Hi Hj. rewrite Hcells by done.
      destruct (decide (i < i0 ∨ i = i0 ∧ j < C)) as [Hc|Hc].
      + rewrite decide_True by lia. done.
      + rewrite decide_False by lia. done. }
  destruct HP as (Hlen & Hcells & Hother).
  split_and!; [done| |done].
  intros i j Hi Hj. rewrite Hcells by done. rewrite decide_True by lia. done.
Qed.

Section GemmFacts.
Context {T F : Type} `{!Scalar T F}.
Implicit Types (Ax Bx Sx : list T).

(** The accumulating call of [incomplete_mat_mult_bsr]: [Sx += Ax * Bx],
    all three blocks row major. *)
Lemma gemm_accumulate_spec Ax a0 Bx b0 Sx s0 R M C :
  0 ≤ R → 0 ≤ C → 0 ≤ s0 → s0 + R * C ≤ len Sx →
  let Sx' := gemm Ax a0 R M "F" Bx b0 M C "T" Sx s0 R C "F" "F" in
  len Sx' = len Sx
  ∧ (∀ r c, 0 ≤ r < R → 0 ≤ c < C →
       rd Tzero Sx' (s0 + (r * C + c)) =
       foldl (λ acc k,
                Tadd acc (Tmul (rd Tzero Ax (a0 + (r * M + k)))
                               (rd Tzero Bx (b0 + (k * C + c)))))
         (rd Tzero Sx (s0 + (r * C + c))) (seqZ 0 M))
  ∧ (∀ m, ¬ (s0 ≤ m < s0 + R * C) → rd Tzero Sx' m = rd Tzero Sx m).
Proof.
  intros HR HC Hs0 Hlen. unfold gemm. simpl.
  destruct (nested_update_spec Tzero R C (λ i j, s0 + (i * C + j))
    (λ i j old,
       for_loop 0 M
         (λ k acc, Tadd acc (Tmul (rd Tzero Ax (a0 + (i * M + k)))
                                  (rd Tzero Bx (b0 + (k * C + j))))) old) Sx)
    as (Hl & Hcells & Hother); [done|done| | |].
  - intros i j Hi Hj. pose proof (block_index_bounds R C i j Hi Hj). lia.
  - intros i j i' j' Hi Hj Hi' Hj' Heq.
    apply (block_index_inj C); lia.
  - split_and!; [done| |].
    + intros r c Hr Hc. rewrite Hcells by done. unfold for_loop.
      by rewrite Z.sub_0_r.
    + intros m Hm. apply Hother. intros i j Hi Hj.
      pose proof (block_index_bounds R C i j Hi Hj). lia.
Qed.
End GemmFacts.

(** ** Incomplete block product *)

Lemma last_pos_spec Sj lo hi j :
  match last_pos Sj lo hi j with
  | Some q => lo ≤ q < hi ∧ rd 0 Sj q = j ∧ ∀ q', q < q' < hi → rd 0 Sj q' ≠ j
  | None => ∀ q', lo ≤ q' < hi → rd 0 Sj q' ≠ j
  end.
Proof.
  unfold last_pos. destruct (decide (lo ≤ hi)) as [Hle|Hgt].
  - apply (for_loop_inv (λ m r,
      match r with
      | Some q => lo ≤ q < m ∧ rd 0 Sj q = j ∧ ∀ q', q < q' < m → rd 0 Sj q' ≠ j
      | None => ∀ q', lo ≤ q' < m → rd 0 Sj q' ≠ j
      end)); [done| |].
    + intros; lia.
    + intros m r Hm Hr. destruct (Z.eqb_spec (rd 0 Sj m) j) as [Heq|Hne].
      * split; [lia|]. split; [done|]. intros; lia.
      * destruct r as [q|].
        -- destruct Hr as (? & ? & Hlast). split; [lia|]. split; [done|].
           intros q' Hq'. destruct (decide (q' = m)) as [->|?]; [done|].
           apply Hlast. lia.
        -- intros q' Hq'. destruct (decide (q' = m)) as [->|?]; [done|].
           apply Hr. lia.
  - rewrite for_loop_nil by lia. intros; lia.
Qed.

Lemma last_pos_Some Sj lo hi j q :
  last_pos Sj lo hi j = Some q →
  lo ≤ q < hi ∧ rd 0 Sj q = j ∧ ∀ q', q < q' < hi → rd 0 Sj q' ≠ j.
Proof. intros Heq. pose proof (last_pos_spec Sj lo hi j) as H. by rewrite Heq in H. Qed.

Lemma last_pos_None Sj lo hi j :
  last_pos Sj lo hi j = None → ∀ q', lo ≤ q' < hi → rd 0 Sj q' ≠ j.
Proof. intros Heq. pose proof (last_pos_spec Sj lo hi j) as H. by rewrite Heq in H. Qed.

Lemma last_pos_snoc Sj lo hi j :
  lo ≤ hi →
  last_pos Sj lo (hi + 1) j =
  if rd 0 Sj hi =? j then Some hi else last_pos Sj lo hi j.
Proof. intros. unfold last_pos. by rewrite for_loop_snoc. Qed.

(** The loop that points the lookup table at the blocks of row [i]. *)
Lemma table_set_spec Sj lo hi bs (S : list (option Z)) :
  (∀ jj, lo ≤ jj < hi → 0 ≤ rd 0 Sj jj < len S) →
  let S' := for_loop lo hi (λ jj S, wr S (rd 0 Sj jj) (Some (jj * bs))) S in
  len S' = len S
  ∧ ∀ k, rd None S' k =
         match last_pos Sj lo hi k with
         | Some q => Some (q * bs)
         | None => rd None S k
         end.
Proof.
  intros Hcols. simpl. destruct (decide (lo ≤ hi)) as [Hle|Hgt].
  - apply (for_loop_inv (λ m S',
      len S' = len S
      ∧ ∀ k, rd None S' k =
             match last_pos Sj lo m k with
             | Some q => Some (q * bs)
             | None => rd None S k
             end)); [done| |].
    + split; [done|]. intros k. unfold last_pos. by rewrite for_loop_nil.
    + intros m S' Hm [Hlen Hrd]. split; [by rewrite len_wr|].
      intros k. rewrite last_pos_snoc by lia.
      rewrite rd_wr by (rewrite Hlen; apply Hcols; lia).
      destruct (Z.eqb_spec (rd 0 Sj m) k) as [Heq|Hne].
      * by rewrite decide_True.
      * rewrite decide_False by done. apply Hrd.
  - rewrite for_loop_nil by lia. split; [done|]. intros k.
    unfold last_pos. by rewrite for_loop_nil by lia.
Qed.

(** The loop that clears the lookup table after row [i]. *)
Lemma table_reset_spec Sj lo hi (S : list (option Z)) :
  (∀ jj, lo ≤ jj < hi → 0 ≤ rd 0 Sj jj < len S) →
  let S' := for_loop lo hi (λ jj S, wr S (rd 0 Sj jj) None) S in
  len S' = len S
  ∧ ∀ k, rd None S' k =
         match last_pos Sj lo hi k with
         | Some q => None
         | None => rd None S k
         end.
Proof.
  intros Hcols. simpl. destruct (decide (lo ≤ hi)) as [Hle|Hgt].
  - apply (for_loop_inv (λ m S',
      len S' = len S
      ∧ ∀ k, rd None S' k =
             match last_pos Sj lo m k with
             | Some q => None
             | None => rd None S k
             end)); [done| |].
    + split; [done|]. intros k. unfold last_pos. by rewrite for_loop_nil.
    + intros m S' Hm [Hlen Hrd]. split; [by rewrite len_wr|].
      intros k. rewrite last_pos_snoc by lia.
      rewrite rd_wr by (rewrite Hlen; apply Hcols; lia).
      destruct (Z.eqb_spec (rd 0 Sj m) k) as [Heq|Hne].
      * by rewrite decide_True.
      * rewrite decide_False by done. apply Hrd.
  - rewrite for_loop_nil by lia. split; [done|]. intros k.
    unfold last_pos. by rewrite for_loop_nil by lia.
Qed.

Lemma met_pairs_nil Aj Bp lo hi : hi ≤ lo → met_pairs Aj Bp lo hi = [].
Proof. intros. unfold met_pairs. by rewrite seqZ_nil by lia. Qed.

Lemma met_pairs_snoc Aj Bp lo hi :
  lo ≤ hi →
  met_pairs Aj Bp lo (hi + 1) =
  met_pairs Aj Bp lo hi ++
  ((λ kk, (hi, kk)) <$>
     seqZ (rd 0 Bp (rd 0 Aj hi)) (rd 0 Bp (rd 0 Aj hi + 1) - rd 0 Bp (rd 0 Aj hi))).
Proof.
  intros. unfold met_pairs.
  replace (hi + 1 - lo) with ((hi - lo) + 1) by lia.
  rewrite seqZ_app by lia. rewrite bind_app.
  rewrite (seqZ_cons _ 1) by lia. rewrite (seqZ_nil _ (Z.pred 1)) by lia.
  simpl. rewrite app_nil_r. by replace (lo + (hi - lo)) with hi by lia.
Qed.

Lemma filter_met_pairs Aj Bp Bj lo hi Ap i j :
  lo = rd 0 Ap i → hi = rd 0 Ap (i + 1) →
  filter (λ p : Z * Z, rd 0 Bj p.2 = j) (met_pairs Aj Bp lo hi)
  = product_pairs Ap Aj Bp Bj i j.
Proof.
  intros -> ->. unfold met_pairs, product_pairs.
  induction (seqZ (rd 0 Ap i) (rd 0 Ap (i + 1) - rd 0 Ap i)) as [|jj l IH];
    [done|].
  rewrite !bind_cons, filter_app, IH. f_equal.
  generalize (seqZ (rd 0 Bp (rd 0 Aj jj))
                (rd 0 Bp (rd 0 Aj jj + 1) - rd 0 Bp (rd 0 Aj jj))).
  intros ks. induction ks as [|kk ks IHk]; [done|].
  rewrite fmap_cons, !filter_cons. cbn [snd].
  destruct (decide (rd 0 Bj kk = j)); [rewrite fmap_cons|]; by rewrite IHk.
Qed.

Lemma filter_snoc {A} (P : A → Prop) `{!∀ x, Decision (P x)} (l : list A) (x : A) :
  filter P (l ++ [x]) = if decide (P x) then filter P l ++ [x] else filter P l.
Proof.
  rewrite filter_app, filter_cons, filter_nil.
  destruct (decide (P x)); [done | by rewrite app_nil_r].
Qed.

Lemma NoDup_fmap_inj {A B} (f : A → B) (l : list A) (x y : A) :
  NoDup (f <$> l) → x ∈ l → y ∈ l → f x = f y → x = y.
Proof.
  induction l as [|z l IH]; [by intros _ ?%elem_of_nil|].
  rewrite fmap_cons, NoDup_cons.
  intros [Hz Hnd] [->|Hx]%elem_of_cons [->|Hy]%elem_of_cons Heq; try done.
  - destruct Hz. rewrite Heq. by apply list_elem_of_fmap_2.
  - destruct Hz. rewrite <- Heq. by apply list_elem_of_fmap_2.
  - by apply IH.
Qed.

Section MatMultFacts.
Context {T F : Type} `{!Scalar T F}.
Context (Ap Aj : list Z) (Ax : list T) (Bp Bj : list Z) (Bx : list T)
  (Sp Sj : list Z).
Context (n_brow n_mid n_bcol brow_A bcol_A bcol_B : Z).
Context (HwfA : csr_wf n_brow n_mid Ap Aj) (HwfB : csr_wf n_mid n_bcol Bp Bj)
  (HwfS : csr_wf n_brow n_bcol Sp Sj).
Context (Hnbcol : 0 ≤ n_bcol).
Context (Hbrow : 0 ≤ brow_A) (Hbmid : 0 ≤ bcol_A) (Hbcol : 0 ≤ bcol_B).

Let bs := brow_A * bcol_B.
Let one := (brow_A * bcol_A =? bcol_A * bcol_B)
           && (bcol_A * bcol_B =? brow_A * bcol_B) && (brow_A * bcol_A =? 1).

(** The effect of one accumulation on the block at [q0]. *)
Lemma imm_update_spec q0 jj kk Sx :
  0 ≤ q0 → q0 * bs + bs ≤ len Sx →
  let Sx' :=
    if one then
      wr Sx (q0 * bs)
        (Tadd (rd Tzero Sx (q0 * bs)) (Tmul (rd Tzero Ax jj) (rd Tzero Bx kk)))
    else
      gemm Ax (jj * (brow_A * bcol_A)) brow_A bcol_A "F"
           Bx (kk * (bcol_A * bcol_B)) bcol_A bcol_B "T"
           Sx (q0 * bs) brow_A bcol_B "F" "F" in
  len Sx' = len Sx
  ∧ (∀ r c, 0 ≤ r < brow_A → 0 ≤ c < bcol_B →
       rd Tzero Sx' (q0 * bs + (r * bcol_B + c)) =
       block_mac Ax Bx brow_A bcol_A bcol_B r c
         (rd Tzero Sx (q0 * bs + (r * bcol_B + c))) (jj, kk))
  ∧ (∀ m, ¬ (q0 * bs ≤ m < q0 * bs + bs) → rd Tzero Sx' m = rd Tzero Sx m).
Proof using Hbrow Hbmid Hbcol.
  intros Hq0 Hlen. simpl. destruct one eqn:Hone.
  - assert (brow_A = 1 ∧ bcol_A = 1 ∧ bcol_B = 1) as (Ha & Hb & Hc).
    { unfold one in Hone. rewrite !andb_true_iff, !Z.eqb_eq in Hone. nia. }
    assert (bs = 1) as Hbs by (unfold bs; lia).
    split_and!.
    + by rewrite len_wr.
    + intros r c Hr Hc'. assert (r = 0) as -> by lia. assert (c = 0) as -> by lia.
      replace (q0 * bs + (0 * bcol_B + 0)) with (q0 * bs) by lia.
      rewrite rd_wr_eq by lia. unfold block_mac. rewrite Hb. simpl.
      f_equal. f_equal; f_equal; lia.
    + intros m Hm. rewrite rd_wr_ne; [done | lia].
  - destruct (gemm_accumulate_spec Ax (jj * (brow_A * bcol_A)) Bx
                (kk * (bcol_A * bcol_B)) Sx (q0 * bs) brow_A bcol_A bcol_B)
      as (Hl & Hcells & Hother); [done | done | nia | by fold bs |].
    split_and!; [done | | ].
    + intros r c Hr Hc. rewrite Hcells by done. done.
    + intros m Hm. apply Hother. by fold bs.
Qed.

Lemma bsr_slot_bounds i j q :
  0 ≤ i < n_brow → bsr_slot Sp Sj i j = Some q →
  rd 0 Sp i ≤ q < rd 0 Sp (i + 1) ∧ rd 0 Sj q = j.
Proof. intros Hi Hq. apply last_pos_Some in Hq as (? & ? & _). done. Qed.

Lemma imm_accumulate_step i S H Sx0 Sx' jj kk :
  0 ≤ i < n_brow →
  (∀ k, 0 ≤ k < n_bcol →
     rd None S k = (λ q, q * bs) <$> bsr_slot Sp Sj i k) →
  0 ≤ rd 0 Bj kk < n_bcol →
  rd 0 Sp (i + 1) * bs ≤ len Sx0 →
  imm_cells Ax Bx Bj Sp Sj brow_A bcol_A bcol_B i H Sx0 Sx' →
  imm_cells Ax Bx Bj Sp Sj brow_A bcol_A bcol_B i (H ++ [(jj, kk)]) Sx0
    (imm_accumulate Ax Bx brow_A bcol_A bcol_B one S Bj jj kk Sx').
Proof using HwfS Hbrow Hbmid Hbcol.
  intros Hi Htbl Hk Hroom (Hlen & Hcells & Hother).
  destruct (wf_row_bounds HwfS i Hi) as (Hb1 & Hb2 & Hb3).
  pose proof (wf_Ap_0 _ _ _ _ HwfS) as Hb0.
  unfold imm_accumulate. rewrite (Htbl _ Hk).
  destruct (bsr_slot Sp Sj i (rd 0 Bj kk)) as [q0|] eqn:Hslot; simpl.
  - destruct (bsr_slot_bounds i _ q0 Hi Hslot) as [Hq0 Hq0j].
    assert (0 ≤ bs) as Hbs by (unfold bs; nia).
    destruct (imm_update_spec q0 jj kk Sx') as (Hl & Hnew & Hout);
      [lia | rewrite Hlen; fold bs in Hroom; nia |].
    fold bs. fold bs in Hnew, Hout |- *.
    match goal with |- imm_cells _ _ _ _ _ _ _ _ _ _ _ ?X => set (Sx'' := X) in * end.
    split_and!.
    + by rewrite Hl.
    + intros q r c Hq Hr Hc.
      pose proof (block_index_bounds brow_A bcol_B r c Hr Hc) as Hrc.
      fold bs in Hrc. fold bs.
      destruct (Hcells q r c Hq Hr Hc) as [Hres Hnres]. fold bs in Hres, Hnres.
      destruct (decide (q = q0)) as [->|Hne].
      * split; [|intros Hn; destruct Hn; by rewrite Hq0j].
        intros _. rewrite Hnew by done. rewrite filter_snoc. cbn [snd].
        rewrite decide_True by done. rewrite foldl_app. simpl.
        rewrite Hres by (by rewrite Hq0j). done.
      * assert (rd Tzero Sx'' (q * bs + (r * bcol_B + c))
                = rd Tzero Sx' (q * bs + (r * bcol_B + c))) as ->.
        { apply Hout. nia. }
        split; [|done]. intros Hslot'. rewrite filter_snoc. cbn [snd].
        rewrite decide_False; [by apply Hres|].
        intros Heq. rewrite <- Heq, Hslot in Hslot'. congruence.
    + intros m Hm. rewrite Hout by (fold bs in Hm; nia). by apply Hother.
  - split_and!; [done| |done].
    intros q r c Hq Hr Hc. destruct (Hcells q r c Hq Hr Hc) as [Hres Hnres].
    split; [|done]. intros Hslot'. rewrite filter_snoc. cbn [snd].
    rewrite decide_False; [by apply Hres|].
    intros Heq. rewrite <- Heq, Hslot in Hslot'. congruence.
Qed.

Lemma imm_row_spec i s :
  0 ≤ i < n_brow →
  len (imm_S s) = n_bcol →
  (∀ k, 0 ≤ k < n_bcol → rd None (imm_S s) k = None) →
  rd 0 Sp (i + 1) * bs ≤ len (imm_Sx s) →
  let s' := imm_row Ap Aj Ax Bp Bj Bx Sp Sj brow_A bcol_A bcol_B one i s in
  len (imm_S s') = n_bcol
  ∧ (∀ k, 0 ≤ k < n_bcol → rd None (imm_S s') k = None)
  ∧ imm_cells Ax Bx Bj Sp Sj brow_A bcol_A bcol_B i
      (met_pairs Aj Bp (rd 0 Ap i) (rd 0 Ap (i + 1))) (imm_Sx s) (imm_Sx s').
Proof using HwfA HwfB HwfS Hbrow Hbmid Hbcol.
  intros Hi HlenS Hnone Hroom. simpl. unfold imm_row. fold bs.
  destruct (wf_row_bounds HwfA i Hi) as (Ha1 & Ha2 & Ha3).
  destruct (table_set_spec Sj (rd 0 Sp i) (rd 0 Sp (i + 1)) bs (imm_S s))
    as [Hl1 Htbl1].
  { intros jj Hjj. rewrite HlenS. by apply (wf_col_in_row HwfS i). }
  set (S1 := for_loop (rd 0 Sp i) (rd 0 Sp (i + 1))
               (λ jj S, wr S (rd 0 Sj jj) (Some (jj * bs))) (imm_S s)) in *.
  assert (∀ k, 0 ≤ k < n_bcol →
            rd None S1 k = (λ q, q * bs) <$> bsr_slot Sp Sj i k) as Htbl.
  { intros k Hk. rewrite Htbl1. unfold bsr_slot.
    destruct (last_pos _ _ _ _); [done|]. by apply Hnone. }
  destruct (table_reset_spec Sj (rd 0 Sp i) (rd 0 Sp (i + 1)) S1) as [Hl2 Htbl2].
  { intros jj Hjj. rewrite Hl1, HlenS. by apply (wf_col_in_row HwfS i). }
  simpl. split_and!.
  - by rewrite Hl2, Hl1.
  - intros k Hk. rewrite Htbl2. destruct (last_pos _ _ _ _) eqn:Hlp; [done|].
    rewrite Htbl1, Hlp. by apply Hnone.
  - apply (for_loop_inv (λ jj Sx',
      imm_cells Ax Bx Bj Sp Sj brow_A bcol_A bcol_B i
        (met_pairs Aj Bp (rd 0 Ap i) jj) (imm_Sx s) Sx')); [done| |].
    + rewrite met_pairs_nil by lia. split_and!; [done| |done].
      intros q r c Hq Hr Hc. split; [|done]. intros _. by rewrite filter_nil.
    + intros jj Sx' Hjj Hinv. rewrite met_pairs_snoc by lia.
      pose proof (wf_col_in_row HwfA i jj Hi Hjj) as Hj.
      destruct (wf_row_bounds HwfB _ Hj) as (Hb1 & Hb2 & Hb3).
      set (j := rd 0 Aj jj) in *.
      apply (for_loop_inv (λ kk Sx'',
        imm_cells Ax Bx Bj Sp Sj brow_A bcol_A bcol_B i
          (met_pairs Aj Bp (rd 0 Ap i) jj
           ++ ((λ kk, (jj, kk)) <$> seqZ (rd 0 Bp j) (kk - rd 0 Bp j)))
          (imm_Sx s) Sx'')); [done| |].
      * rewrite seqZ_nil by lia. simpl. by rewrite app_nil_r.
      * intros kk Sx'' Hkk Hinv'.
        replace (kk + 1 - rd 0 Bp j) with ((kk - rd 0 Bp j) + 1) by lia.
        rewrite seqZ_app by lia. rewrite fmap_app.
        rewrite (seqZ_cons _ 1) by lia. rewrite (seqZ_nil _ (Z.pred 1)) by lia.
        simpl. replace (rd 0 Bp j + (kk - rd 0 Bp j)) with kk by lia.
        rewrite app_assoc.
        apply imm_accumulate_step; try done.
        by apply (wf_col_in_row HwfB j).
Qed.

Lemma bsr_slot_NoDup i q :
  0 ≤ i < n_brow → rd 0 Sp i ≤ q < rd 0 Sp (i + 1) →
  NoDup (pattern_row Sp Sj i) → bsr_slot Sp Sj i (rd 0 Sj q) = Some q.
Proof.
  intros Hi Hq Hnd. unfold bsr_slot.
  pose proof (last_pos_spec Sj (rd 0 Sp i) (rd 0 Sp (i + 1)) (rd 0 Sj q)) as Hlp.
  destruct (last_pos _ _ _ _) as [q'|]; [|by destruct (Hlp q Hq)].
  destruct Hlp as (Hq' & Heq & _). f_equal.
  unfold pattern_row, cols, slice in Hnd.
  apply (NoDup_fmap_inj _ _ q' q Hnd); [apply elem_of_seqZ; lia ..| done].
Qed.

(** C3.  [incomplete_mat_mult_bsr] returns the value array with its length
    unchanged, and nothing but [Sx] is written.  For a block row [i] and a
    position [q] of that row of the pattern, let [j = Sj[q]]:
    - when [q] is the position that stands for block [(i, j)] (it always is
      when the row has no duplicate column index), entry [(r, c)] of the
      block is its prior value to which the entries [(r, c)] of the products
      [A[jj] * B[kk]] are added, one after the other, over all stored pairs
      with [A[jj]] in block row [i], [B[kk]] in block row [Aj[jj]] and block
      column [j]; so a block that was zero holds the sum of these products,
      and a block without any such pair keeps its value;
    - a position shadowed by a later duplicate keeps its value;
    - pairs whose block column is absent from row [i] of the pattern change
      nothing, and no cell outside the blocks of the pattern changes. *)
Theorem incomplete_mat_mult_bsr_correct Sx :
  rd 0 Sp n_brow * (brow_A * bcol_B) ≤ len Sx →
  let Sx' := incomplete_mat_mult_bsr Ap Aj Ax Bp Bj Bx Sp Sj Sx
               n_brow n_bcol brow_A bcol_A bcol_B in
  len Sx' = len Sx
  ∧ (∀ i q r c,
       0 ≤ i < n_brow → rd 0 Sp i ≤ q < rd 0 Sp (i + 1) →
       0 ≤ r < brow_A → 0 ≤ c < bcol_B →
       let cell := q * (brow_A * bcol_B) + (r * bcol_B + c) in
       let pairs := product_pairs Ap Aj Bp Bj i (rd 0 Sj q) in
       (bsr_slot Sp Sj i (rd 0 Sj q) = Some q →
          rd Tzero Sx' cell =
          foldl (block_mac Ax Bx brow_A bcol_A bcol_B r c) (rd Tzero Sx cell) pairs)
       ∧ (NoDup (pattern_row Sp Sj i) →
          rd Tzero Sx' cell =
          foldl (block_mac Ax Bx brow_A bcol_A bcol_B r c) (rd Tzero Sx cell) pairs)
       ∧ (bsr_slot Sp Sj i (rd 0 Sj q) = Some q → rd Tzero Sx cell = Tzero →
          rd Tzero Sx' cell =
          foldl (block_mac Ax Bx brow_A bcol_A bcol_B r c) Tzero pairs)
       ∧ (pairs = [] → rd Tzero Sx' cell = rd Tzero Sx cell)
       ∧ (bsr_slot Sp Sj i (rd 0 Sj q) ≠ Some q →
          rd Tzero Sx' cell = rd Tzero Sx cell))
  ∧ (∀ m, ¬ (rd 0 Sp 0 * (brow_A * bcol_B) ≤ m
             < rd 0 Sp n_brow * (brow_A * bcol_B)) →
       rd Tzero Sx' m = rd Tzero Sx m).
Proof using HwfA HwfB HwfS Hnbcol Hbrow Hbmid Hbcol.
  intros Hroom. simpl. unfold incomplete_mat_mult_bsr. fold one. fold bs.
  pose proof (wf_rows _ _ _ _ HwfS) as Hn.
  pose proof (wf_rows _ _ _ _ HwfB) as Hnm.
  assert (0 ≤ bs) as Hbs by (unfold bs; nia).
  set (P := λ (i : Z) (s : imm_state T),
    len (imm_S s) = n_bcol
    ∧ (∀ k, 0 ≤ k < n_bcol → rd None (imm_S s) k = None)
    ∧ len (imm_Sx s) = len Sx
    ∧ (∀ i' q r c,
         0 ≤ i' < n_brow → rd 0 Sp i' ≤ q < rd 0 Sp (i' + 1) →
         0 ≤ r < brow_A → 0 ≤ c < bcol_B →
         (i' < i →
            (bsr_slot Sp Sj i' (rd 0 Sj q) = Some q →
               rd Tzero (imm_Sx s) (q * bs + (r * bcol_B + c)) =
               foldl (block_mac Ax Bx brow_A bcol_A bcol_B r c)
                 (rd Tzero Sx (q * bs + (r * bcol_B + c)))
                 (product_pairs Ap Aj Bp Bj i' (rd 0 Sj q)))
            ∧ (bsr_slot Sp Sj i' (rd 0 Sj q) ≠ Some q →
               rd Tzero (imm_Sx s) (q * bs + (r * bcol_B + c)) =
               rd Tzero Sx (q * bs + (r * bcol_B + c))))
         ∧ (i ≤ i' →
            rd Tzero (imm_Sx s) (q * bs + (r * bcol_B + c)) =
            rd Tzero Sx (q * bs + (r * bcol_B + c))))
    ∧ (∀ m, ¬ (rd 0 Sp 0 * bs ≤ m < rd 0 Sp n_brow * bs) →
         rd Tzero (imm_Sx s) m = rd Tzero Sx m)).
  assert (P n_brow
    (for_loop 0 n_brow
       (imm_row Ap Aj Ax Bp Bj Bx Sp Sj brow_A bcol_A bcol_B one)
       (ImmState (replicate (Z.to_nat n_bcol) None) Sx))) as HP.
  { apply (for_loop_inv P); [done| |].
    - unfold P. simpl. split_and!; try done.
      + unfold len. rewrite length_replicate. lia.
      + intros k Hk. unfold rd. rewrite decide_True by lia.
        rewrite lookup_replicate_2 by lia. done.
      + intros i' q r c Hi' Hq Hr Hc. split; [lia | done].
    - intros i s Hi (HlS & Hnone & HlSx & Hcells & Hout).
      destruct (wf_row_bounds HwfS i Hi) as (Hb1 & Hb2 & Hb3).
      pose proof (wf_Ap_0 _ _ _ _ HwfS) as Hb0.
      destruct (imm_row_spec i s Hi) as (HlS' & Hnone' & Hl' & Hcells' & Hout');
        [done | done | rewrite HlSx; nia |].
      set (s' := imm_row Ap Aj Ax Bp Bj Bx Sp Sj brow_A bcol_A bcol_B one i s) in *.
      unfold P. split_and!; [done | done | congruence | |].
      + intros i' q r c Hi' Hq Hr Hc.
        pose proof (block_index_bounds brow_A bcol_B r c Hr Hc) as Hrc.
        fold bs in Hrc.
        destruct (Hcells i' q r c Hi' Hq Hr Hc) as [Hold Hnew].
        destruct (decide (i' = i)) as [->|Hne].
        * split; [|lia]. intros _.
          destruct (Hcells' q r c Hq Hr Hc) as [Hres Hnres].
          fold bs in Hres, Hnres. rewrite <- Hnew by lia.
          split; [|done]. intros Hslot. rewrite Hres by done.
          by rewrite (filter_met_pairs Aj Bp Bj _ _ Ap i).
        * assert (rd Tzero (imm_Sx s') (q * bs + (r * bcol_B + c))
                  = rd Tzero (imm_Sx s) (q * bs + (r * bcol_B + c))) as ->.
          { apply Hout'. fold bs.
            destruct (wf_row_bounds HwfS i' Hi') as (Hc1 & Hc2 & Hc3).
            destruct (decide (i' < i)).
            - assert (rd 0 Sp (i' + 1) ≤ rd 0 Sp i)
                by (apply (wf_Ap_le HwfS); lia). nia.
            - assert (rd 0 Sp (i + 1) ≤ rd 0 Sp i')
                by (apply (wf_Ap_le HwfS); lia). nia. }
          split; [intros; apply Hold; lia | intros; apply Hnew; lia].
      + intros m Hm. rewrite Hout' by (fold bs; nia). by apply Hout. }
  destruct HP as (_ & _ & Hlen & Hcells & Hout).
  split_and!; [done| |done].
  intros i q r c Hi Hq Hr Hc.
  destruct (Hcells i q r c Hi Hq Hr Hc) as [[Hres Hnres] _]; [lia|].
  split_and!.
  - done.
  - intros Hnd. apply Hres. by apply bsr_slot_NoDup.
  - intros Hslot Hz. rewrite Hres by done. by rewrite Hz.
  - intros Hnil. destruct (decide (bsr_slot Sp Sj i (rd 0 Sj q) = Some q)) as [Hs|Hs].
    + rewrite Hres by done. by rewrite Hnil.
    + by apply Hnres.
  - done.
Qed.
End MatMultFacts.

(** Runs on the exact integers: a product of two 2x2 blocks, and the
    product of the scalar matrices [[1 2] [0 3]] and [[4 0] [5 6]] on the
    pattern [{(0,1), (0,0), (1,1)}] with prior values 100, 200, 300. *)
Example incomplete_mat_mult_bsr_block_run :
  incomplete_mat_mult_bsr (T:=Z) (F:=Z)
    [0; 1] [0] [1; 2; 3; 4] [0; 1] [0] [5; 6; 7; 8] [0; 1] [0] [0; 0; 0; 0]
    1 1 2 2 2 = [19; 22; 43; 50].
Proof. vm_compute. reflexivity. Qed.

Example incomplete_mat_mult_bsr_scalar_run :
  incomplete_mat_mult_bsr (T:=Z) (F:=Z)
    [0; 2; 3] [0; 1; 1] [1; 2; 3] [0; 1; 3] [0; 0; 1] [4; 5; 6]
    [0; 2; 3] [1; 0; 1] [100; 200; 300] 2 2 1 1 1 = [112; 214; 318].
Proof. vm_compute. reflexivity. Qed.

Lemma incomplete_mat_mult_bsr_correct_witness :
  let Sx' := incomplete_mat_mult_bsr (T:=Z) (F:=Z)
               [0; 2; 3] [0; 1; 1] [1; 2; 3] [0; 1; 3] [0; 0; 1] [4; 5; 6]
               [0; 2; 3] [1; 0; 1] [100; 200; 300] 2 2 1 1 1 in
  csr_wf 2 2 [0; 2; 3] [0; 1; 1] ∧ csr_wf 2 2 [0; 1; 3] [0; 0; 1]
  ∧ csr_wf 2 2 [0; 2; 3] [1; 0; 1]
  ∧ len Sx' = 3.
Proof.
  intros Sx'.
  split; [apply csr_ok_wf; vm_compute; reflexivity|].
  split; [apply csr_ok_wf; vm_compute; reflexivity|].
  split; [apply csr_ok_wf; vm_compute; reflexivity|].
  refine (proj1 (incomplete_mat_mult_bsr_correct (T:=Z) (F:=Z)
           [0; 2; 3] [0; 1; 1] [1; 2; 3] [0; 1; 3] [0; 0; 1] [4; 5; 6]
           [0; 2; 3] [1; 0; 1] 2 2 2 1 1 1 _ _ _ _ _ _ _ [100; 200; 300] _));
    [apply csr_ok_wf; vm_compute; reflexivity ..
    | vm_compute; discriminate | vm_compute; discriminate
    | vm_compute; discriminate | vm_compute; discriminate
    | vm_compute; discriminate].
Defined.

(** ** Constraint correction *)

(** A counted loop that rewrites each cell [off + k] once. *)
Lemma single_update_spec {A} (d : A) (n off : Z) (f : Z → A → A) (S : list A) :
  0 ≤ off → off + n ≤ len S →
  let S' := for_loop 0 n (λ k S, wr S (off + k) (f k (rd d S (off + k)))) S in
  len S' = len S
  ∧ (∀ k, 0 ≤ k < n → rd d S' (off + k) = f k (rd d S (off + k)))
  ∧ (∀ m, ¬ (off ≤ m < off + n) → rd d S' m = rd d S m).
Proof.
  intros Hoff Hlen. simpl. destruct (decide (0 ≤ n)) as [Hn|Hn].
  - set (P := λ (i : Z) (S' : list A),
      len S' = len S
      ∧ (∀ k, 0 ≤ k < n →
           (k < i → rd d S' (off + k) = f k (rd d S (off + k)))
           ∧ (i ≤ k → rd d S' (off + k) = rd d S (off + k)))
      ∧ (∀ m, ¬ (off ≤ m < off + n) → rd d S' m = rd d S m)).
    assert (P n (for_loop 0 n (λ k S, wr S (off + k) (f k (rd d S (off + k)))) S))
      as (Hl & Hcells & Hout).
    { apply (for_loop_inv P); [done| |].
      - split_and!; [done| |done]. intros k Hk. split; [lia | done].
      - intros i S' Hi (Hl & Hcells & Hout). split_and!.
        + by rewrite len_wr.
        + intros k Hk. rewrite rd_wr by lia.
          destruct (decide (off + i = off + k)) as [Heq|Hne].
          * assert (k = i) as -> by lia. split; [|intros; lia]. intros _.
            destruct (Hcells i Hi) as [_ H2]. rewrite H2 by lia. done.
          * destruct (Hcells k Hk) as [H1 H2].
            split; intros; [apply H1 | apply H2]; lia.
        + intros m Hm. rewrite rd_wr_ne by lia. by apply Hout. }
    split_and!; [done| |done]. intros k Hk.
    destruct (Hcells k Hk) as [H1 _]. apply H1. lia.
  - rewrite for_loop_nil by lia. split_and!; [done| |done]. intros; lia.
Qed.

Section GemmGeneral.
Context {T F : Type} `{!Scalar T F}.
Implicit Types (Ax Bx Sx : list T).

(** [gemm] for every choice of the layout and overwrite flags. *)
Lemma gemm_spec Ax a0 At Bx b0 Bt Sx s0 St ow R M C :
  0 ≤ R → 0 ≤ C → 0 ≤ s0 → s0 + R * C ≤ len Sx →
  let Sx' := gemm Ax a0 R M At Bx b0 M C Bt Sx s0 R C St ow in
  let cell := λ r c, if Ascii.eqb St "T" then s0 + (c * R + r)
                     else s0 + (r * C + c) in
  len Sx' = len Sx
  ∧ (∀ r c, 0 ≤ r < R → 0 ≤ c < C →
       rd Tzero Sx' (cell r c) =
       foldl (λ acc k,
                Tadd acc
                  (Tmul (rd Tzero Ax (a0 + (r * M + k)))
                        (rd Tzero Bx (if Ascii.eqb Bt "T" then b0 + (k * C + c)
                                      else b0 + (c * M + k)))))
         (if Ascii.eqb ow "T" then Tzero else rd Tzero Sx (cell r c))
         (seqZ 0 M))
  ∧ (∀ m, ¬ (s0 ≤ m < s0 + R * C) → rd Tzero Sx' m = rd Tzero Sx m).
Proof.
  intros HR HC Hs0 Hlen. simpl. unfold gemm.
  set (Sx1 := if Ascii.eqb ow "T"
              then for_loop 0 (R * C) (λ i Sx, wr Sx (s0 + i) Tzero) Sx
              else Sx).
  assert (len Sx1 = len Sx
          ∧ (∀ k, 0 ≤ k < R * C →
               rd Tzero Sx1 (s0 + k) =
               if Ascii.eqb ow "T" then Tzero else rd Tzero Sx (s0 + k))
          ∧ (∀ m, ¬ (s0 ≤ m < s0 + R * C) → rd Tzero Sx1 m = rd Tzero Sx m))
    as (Hl1 & Hc1 & Ho1).
  { unfold Sx1. destruct (Ascii.eqb ow "T"); [|done].
    apply (single_update_spec Tzero (R * C) s0 (λ _ _, Tzero) Sx); lia. }
  set (cell := λ r c, if Ascii.eqb St "T" then s0 + (c * R + r)
                      else s0 + (r * C + c)).
  assert (∀ r c, 0 ≤ r < R → 0 ≤ c < C → ∃ k, 0 ≤ k < R * C ∧ cell r c = s0 + k)
    as Hcell.
  { intros r c Hr Hc. unfold cell. destruct (Ascii.eqb St "T").
    - exists (c * R + r). split; [nia | done].
    - exists (r * C + c). split; [nia | done]. }
  destruct (nested_update_spec Tzero R C cell
    (λ i j old,
       for_loop 0 M
         (λ k acc,
            Tadd acc
              (Tmul (rd Tzero Ax (a0 + (i * M + k)))
                    (rd Tzero Bx (if Ascii.eqb Bt "T" then b0 + (k * C + j)
                                  else b0 + (j * M + k))))) old) Sx1)
    as (Hl & Hcells & Hother); [done|done| | |].
  - intros i j Hi Hj. destruct (Hcell i j Hi Hj) as (k & Hk & ->). lia.
  - intros i j i' j' Hi Hj Hi' Hj'. unfold cell.
    destruct (Ascii.eqb St "T"); intros Heq.
    + destruct (block_index_inj R j i j' i') as [-> ->]; [lia..|done].
    + apply (block_index_inj C); lia.
  - unfold cell in *. cbv beta in *. split_and!.
    + etrans; [exact Hl | exact Hl1].
    + intros r c Hr Hc. rewrite Hcells by done.
      destruct (Hcell r c Hr Hc) as (k & Hk & Hck).
      rewrite Hck, Hc1 by done. unfold for_loop. by rewrite Z.sub_0_r.
    + intros m Hm. rewrite Hother; [by apply Ho1|].
      intros i j Hi Hj. destruct (Hcell i j Hi Hj) as (k & Hk & ->). lia.
Qed.
End GemmGeneral.

Lemma foldl_ext_in {A B} (f g : A → B → A) (a : A) (l : list B) :
  (∀ acc k, k ∈ l → f acc k = g acc k) → foldl f a l = foldl g a l.
Proof.
  revert a. induction l as [|k l IH]; intros a Hext; [done|]. simpl.
  rewrite Hext by (by left). apply IH. intros acc k' Hk'. apply Hext. by right.
Qed.

Section ConstraintFacts.
Context {T F : Type} `{!Scalar T F}.
Context (RowsPerBlock ColsPerBlock NullDim : Z).
Context (x y z : list T) (Sj : list Z).
Context (HRows : 0 ≤ RowsPerBlock) (HCols : 0 ≤ ColsPerBlock) (HNull : 0 ≤ NullDim).

Let BS := RowsPerBlock * ColsPerBlock.

Lemma sum_list_ext_in {A} (f g : A → T) (l : list A) :
  (∀ k, k ∈ l → f k = g k) → sum_list f l = sum_list g l.
Proof.
  intros Hext. unfold sum_list. apply foldl_ext_in.
  intros acc k Hk. by rewrite Hext.
Qed.

Lemma sc_block_spec i j s :
  0 ≤ j → j * BS + BS ≤ len (sc_Sx s) →
  len (sc_C s) = NullDim * ColsPerBlock →
  len (sc_Update s) = RowsPerBlock * ColsPerBlock →
  let s' := sc_block RowsPerBlock ColsPerBlock NullDim x y z Sj i j s in
  len (sc_C s') = NullDim * ColsPerBlock
  ∧ len (sc_Update s') = RowsPerBlock * ColsPerBlock
  ∧ len (sc_Sx s') = len (sc_Sx s)
  ∧ (∀ r c, 0 ≤ r < RowsPerBlock → 0 ≤ c < ColsPerBlock →
       rd Tzero (sc_Sx s') (j * BS + (r * ColsPerBlock + c)) =
       Tsub (rd Tzero (sc_Sx s) (j * BS + (r * ColsPerBlock + c)))
            (sc_update_entry RowsPerBlock ColsPerBlock NullDim x y z
               i (rd 0 Sj j) r c))
  ∧ (∀ m, ¬ (j * BS ≤ m < j * BS + BS) →
       rd Tzero (sc_Sx s') m = rd Tzero (sc_Sx s) m).
Proof using HRows HCols HNull.
  intros Hj Hroom HlC HlU. simpl. unfold sc_block. fold BS.
  destruct (gemm_spec z (i * (NullDim * NullDim)) "F"
              x (rd 0 Sj j * (NullDim * ColsPerBlock)) "F"
              (sc_C s) 0 "T" "T" NullDim NullDim ColsPerBlock)
    as (HlC' & HC' & _); [lia..|].
  set (C' := gemm z _ _ _ _ x _ _ _ _ (sc_C s) _ _ _ _ _) in *.
  destruct (gemm_spec y (i * (NullDim * RowsPerBlock)) "F"
              C' 0 "F" (sc_Update s) 0 "F" "T" RowsPerBlock NullDim ColsPerBlock)
    as (HlU' & HU' & _); [lia..|].
  set (U' := gemm y _ _ _ _ C' _ _ _ _ (sc_Update s) _ _ _ _ _) in *.
  simpl in HC', HU'.
  assert (∀ r c, 0 ≤ r < RowsPerBlock → 0 ≤ c < ColsPerBlock →
            rd Tzero U' (r * ColsPerBlock + c) =
            sc_update_entry RowsPerBlock ColsPerBlock NullDim x y z
              i (rd 0 Sj j) r c) as HU.
  { intros r c Hr Hc. specialize (HU' r c Hr Hc). simpl in HU'.
    replace (r * ColsPerBlock + c) with (0 + (r * ColsPerBlock + c)) by lia.
    rewrite HU'. unfold sc_update_entry, sum_list. apply foldl_ext_in.
    intros acc m Hm. apply elem_of_seqZ in Hm. do 2 f_equal.
    specialize (HC' m c ltac:(lia) Hc). simpl in HC'. rewrite HC'. done. }
  destruct (single_update_spec Tzero BS (j * BS)
              (λ k old, Tsub old (rd Tzero U' k)) (sc_Sx s))
    as (HlS & Hcells & Hout); [nia | lia |].
  simpl. split_and!; [lia | lia | done | | done].
  intros r c Hr Hc.
  pose proof (block_index_bounds RowsPerBlock ColsPerBlock r c Hr Hc) as Hrc.
  rewrite Hcells by (by fold BS in Hrc). by rewrite HU.
Qed.

Context (num_block_rows n_bcol : Z) (Sp : list Z).
Context (Hwf : csr_wf num_block_rows n_bcol Sp Sj).

(** What [satisfy_constraints_helper] leaves in [Sx]. *)
Lemma satisfy_constraints_cells Sx :
  rd 0 Sp num_block_rows * BS ≤ len Sx →
  let Sx' := satisfy_constraints_helper RowsPerBlock ColsPerBlock
               num_block_rows NullDim x y z Sp Sj Sx in
  len Sx' = len Sx
  ∧ (∀ i j r c,
       0 ≤ i < num_block_rows → rd 0 Sp i ≤ j < rd 0 Sp (i + 1) →
       0 ≤ r < RowsPerBlock → 0 ≤ c < ColsPerBlock →
       rd Tzero Sx' (j * BS + (r * ColsPerBlock + c)) =
       Tsub (rd Tzero Sx (j * BS + (r * ColsPerBlock + c)))
            (sc_update_entry RowsPerBlock ColsPerBlock NullDim x y z
               i (rd 0 Sj j) r c))
  ∧ (∀ m, ¬ (rd 0 Sp 0 * BS ≤ m < rd 0 Sp num_block_rows * BS) →
       rd Tzero Sx' m = rd Tzero Sx m).
Proof using HRows HCols HNull Hwf.
  intros Hroom. simpl. unfold satisfy_constraints_helper. fold BS.
  pose proof (wf_rows _ _ _ _ Hwf) as Hn.
  pose proof (wf_Ap_0 _ _ _ _ Hwf) as H0.
  assert (0 ≤ BS) as HBS by (unfold BS; nia).
  set (C0 := for_loop 0 (NullDim * ColsPerBlock) (λ i C, wr C i Tzero)
               (replicate (Z.to_nat (NullDim * ColsPerBlock)) Tzero)).
  assert (len C0 = NullDim * ColsPerBlock) as HlC0.
  { unfold C0.
    apply (for_loop_inv (λ _ C, len C = NullDim * ColsPerBlock)); [nia| |].
    - unfold len. rewrite length_replicate. nia.
    - intros i C _ HlC. by rewrite len_wr. }
  (** the blocks before position [cur] are corrected, the others are not *)
  set (Q := λ (cur : Z) (s : sc_state T),
    len (sc_C s) = NullDim * ColsPerBlock
    ∧ len (sc_Update s) = RowsPerBlock * ColsPerBlock
    ∧ len (sc_Sx s) = len Sx
    ∧ (∀ i j r c,
         0 ≤ i < num_block_rows → rd 0 Sp i ≤ j < rd 0 Sp (i + 1) →
         0 ≤ r < RowsPerBlock → 0 ≤ c < ColsPerBlock →
         (j < cur →
            rd Tzero (sc_Sx s) (j * BS + (r * ColsPerBlock + c)) =
            Tsub (rd Tzero Sx (j * BS + (r * ColsPerBlock + c)))
                 (sc_update_entry RowsPerBlock ColsPerBlock NullDim x y z
                    i (rd 0 Sj j) r c))
         ∧ (cur ≤ j →
            rd Tzero (sc_Sx s) (j * BS + (r * ColsPerBlock + c)) =
            rd Tzero Sx (j * BS + (r * ColsPerBlock + c))))
    ∧ (∀ m, ¬ (rd 0 Sp 0 * BS ≤ m < rd 0 Sp num_block_rows * BS) →
         rd Tzero (sc_Sx s) m = rd Tzero Sx m)).
  assert (Q (rd 0 Sp num_block_rows)
    (for_loop 0 num_block_rows
       (λ i s,
          for_loop (rd 0 Sp i) (rd 0 Sp (i + 1))
            (sc_block RowsPerBlock ColsPerBlock NullDim x y z Sj i) s)
       (ScState C0 (replicate (Z.to_nat BS) Tzero) Sx))) as HQ.
  { apply (for_loop_inv (λ i s, Q (rd 0 Sp i) s)); [done| |].
    - unfold Q. simpl. split_and!; [done| |done| |done].
      + unfold len. rewrite length_replicate. fold BS. lia.
      + intros i j r c Hi Hj Hr Hc. split; [|done].
        intros Hlt. destruct (wf_row_bounds Hwf i Hi) as (? & ? & ?). lia.
    - intros i s Hi HQi.
      destruct (wf_row_bounds Hwf i Hi) as (Hb1 & Hb2 & Hb3).
      apply (for_loop_inv Q); [done | done |].
      intros j s' Hj (HlC & HlU & HlS & Hcells & Hout).
      destruct (sc_block_spec i j s') as (HlC' & HlU' & HlS' & Hnew & Hother);
        [lia | rewrite HlS; nia | done | done |].
      set (s'' := sc_block RowsPerBlock ColsPerBlock NullDim x y z Sj i j s') in *.
      unfold Q. split_and!; [done | done | congruence | |].
      + intros i' j' r c Hi' Hj' Hr Hc.
        pose proof (block_index_bounds RowsPerBlock ColsPerBlock r c Hr Hc) as Hrc.
        fold BS in Hrc.
        destruct (Hcells i' j' r c Hi' Hj' Hr Hc) as [Hold Hnot].
        destruct (decide (j' = j)) as [->|Hne].
        * assert (i' = i) as ->.
          { destruct (wf_row_bounds Hwf i' Hi') as (? & ? & ?).
            destruct (decide (i' < i)).
            - assert (rd 0 Sp (i' + 1) ≤ rd 0 Sp i)
                by (apply (wf_Ap_le Hwf); lia). lia.
            - destruct (decide (i < i')); [|lia].
              assert (rd 0 Sp (i + 1) ≤ rd 0 Sp i')
                by (apply (wf_Ap_le Hwf); lia). lia. }
          split; [|intros; lia]. intros _.
          rewrite Hnew by done. rewrite Hnot by lia. done.
        * rewrite Hother by nia.
          split; intros; [apply Hold | apply Hnot]; lia.
      + intros m Hm. rewrite Hother by nia. by apply Hout. }
  destruct HQ as (_ & _ & Hlen & Hcells & Hout).
  split_and!; [done| |done].
  intros i j r c Hi Hj Hr Hc.
  destruct (Hcells i j r c Hi Hj Hr Hc) as [Hdone _]. apply Hdone.
  destruct (wf_row_bounds Hwf i Hi) as (? & ? & ?). lia.
Qed.
End ConstraintFacts.

(** *** Finite sums over exact scalars *)

Section Sums.
Context {T F : Type} `{!Scalar T F} `{!ScalarRing T F}.

Add Ring scalar_ring : Tring.

Lemma foldl_add_acc {A} (f : A → T) (a : T) (l : list A) :
  foldl (λ acc k, Tadd acc (f k)) a l = Tadd a (sum_list f l).
Proof.
  unfold sum_list. revert a. induction l as [|k l IH]; intros a; simpl.
  - ring.
  - rewrite IH. rewrite (IH (Tadd Tzero (f k))). ring.
Qed.

Lemma sum_list_nil {A} (f : A → T) : sum_list f [] = Tzero.
Proof. done. Qed.

Lemma sum_list_cons {A} (f : A → T) (k : A) (l : list A) :
  sum_list f (k :: l) = Tadd (f k) (sum_list f l).
Proof. unfold sum_list at 1. simpl. rewrite foldl_add_acc. ring. Qed.

Lemma sum_list_ext {A} (f g : A → T) (l : list A) :
  (∀ k, f k = g k) → sum_list f l = sum_list g l.
Proof. intros Hext. apply sum_list_ext_in. intros k _. apply Hext. Qed.

Lemma sum_list_zero {A} (l : list A) : sum_list (λ _, Tzero) l = Tzero.
Proof. induction l as [|k l IH]; [done|]. rewrite sum_list_cons, IH. ring. Qed.

Lemma sum_list_add {A} (f g : A → T) (l : list A) :
  sum_list (λ k, Tadd (f k) (g k)) l = Tadd (sum_list f l) (sum_list g l).
Proof.
  induction l as [|k l IH]; [rewrite !sum_list_nil; ring|].
  rewrite !sum_list_cons, IH. ring.
Qed.

Lemma sum_list_sub {A} (f g : A → T) (l : list A) :
  sum_list (λ k, Tsub (f k) (g k)) l = Tsub (sum_list f l) (sum_list g l).
Proof.
  induction l as [|k l IH]; [rewrite !sum_list_nil; ring|].
  rewrite !sum_list_cons, IH. ring.
Qed.

Lemma sum_list_mul_l {A} (a : T) (f : A → T) (l : list A) :
  sum_list (λ k, Tmul a (f k)) l = Tmul a (sum_list f l).
Proof.
  induction l as [|k l IH]; [rewrite !sum_list_nil; ring|].
  rewrite !sum_list_cons, IH. ring.
Qed.

Lemma sum_list_mul_r {A} (a : T) (f : A → T) (l : list A) :
  sum_list (λ k, Tmul (f k) a) l = Tmul (sum_list f l) a.
Proof.
  induction l as [|k l IH]; [rewrite !sum_list_nil; ring|].
  rewrite !sum_list_cons, IH. ring.
Qed.

Lemma sum_list_swap {A B} (f : A → B → T) (l1 : list A) (l2 : list B) :
  sum_list (λ i, sum_list (f i) l2) l1 = sum_list (λ j, sum_list (λ i, f i j) l1) l2.
Proof.
  induction l1 as [|i l1 IH].
  - rewrite sum_list_nil. symmetry. apply sum_list_zero.
  - rewrite sum_list_cons, IH. rewrite <- sum_list_add.
    apply sum_list_ext. intros j. by rewrite sum_list_cons.
Qed.

(** A sum against the Kronecker delta picks one term. *)
Lemma sum_list_delta (f : Z → T) (l : list Z) (m' : Z) :
  NoDup l → m' ∈ l →
  sum_list (λ m, Tmul (f m) (if decide (m = m') then Tone else Tzero)) l = f m'.
Proof.
  induction l as [|m l IH]; intros Hnd Hin; [by apply elem_of_nil in Hin|].
  apply NoDup_cons in Hnd as [Hm Hnd]. rewrite sum_list_cons.
  destruct (decide (m = m')) as [->|Hne].
  - rewrite (sum_list_ext_in _ (λ _, Tzero)).
    + rewrite sum_list_zero. ring.
    + intros k Hk. rewrite decide_False; [ring|]. intros ->. done.
  - apply elem_of_cons in Hin as [?|Hin]; [congruence|].
    rewrite IH by done. ring.
Qed.

(** The rearrangement behind [(u * (g * x^T)) * b = u * (g * (x^T * b))]. *)
Lemma sum_list_rearrange {P M K} (u : M → T) (g : M → K → T) (xx : P → K → T)
    (bb : P → T) (lP : list P) (lM : list M) (lK : list K) :
  sum_list
    (λ p, Tmul (sum_list (λ m, Tmul (u m) (sum_list (λ k, Tmul (g m k) (xx p k)) lK)) lM)
               (bb p)) lP
  = sum_list
      (λ m, Tmul (u m)
              (sum_list (λ k, Tmul (g m k) (sum_list (λ p, Tmul (xx p k) (bb p)) lP)) lK))
      lM.
Proof.
  transitivity
    (sum_list (λ p, sum_list (λ m, sum_list
       (λ k, Tmul (Tmul (u m) (g m k)) (Tmul (xx p k) (bb p))) lK) lM) lP).
  { apply sum_list_ext. intros p. rewrite <- sum_list_mul_r.
    apply sum_list_ext. intros m. rewrite <- sum_list_mul_l, <- sum_list_mul_r.
    apply sum_list_ext. intros k. ring. }
  rewrite sum_list_swap. apply sum_list_ext. intros m.
  rewrite sum_list_swap. rewrite <- sum_list_mul_l.
  apply sum_list_ext. intros k. rewrite <- sum_list_mul_l, <- sum_list_mul_l.
  apply sum_list_ext. intros p. ring.
Qed.
End Sums.

Lemma elem_of_support ColsPerBlock Sp i p :
  p ∈ support ColsPerBlock Sp i ↔
  rd 0 Sp i ≤ p.1 < rd 0 Sp (i + 1) ∧ 0 ≤ p.2 < ColsPerBlock.
Proof.
  unfold support. rewrite list_elem_of_bind. split.
  - intros (j & Hp & Hj). apply list_elem_of_fmap in Hp as (c & -> & Hc).
    apply elem_of_seqZ in Hj, Hc. simpl. lia.
  - intros [Hj Hc]. exists p.1. split.
    + apply list_elem_of_fmap. exists p.2. split; [by destruct p|].
      apply elem_of_seqZ. lia.
    + apply elem_of_seqZ. lia.
Qed.

Section ConstraintAlgebra.
Context {T F : Type} `{!Scalar T F} `{!ScalarRing T F}.
Context (RowsPerBlock ColsPerBlock NullDim : Z).
Context (x y z B : list T) (Sp Sj : list Z) (num_block_rows n_bcol : Z).
Context (HRows : 0 ≤ RowsPerBlock) (HCols : 0 ≤ ColsPerBlock) (HNull : 0 ≤ NullDim).
Context (Hwf : csr_wf num_block_rows n_bcol Sp Sj).

Add Ring scalar_ring_alg : Tring.

(** [x] holds the conjugates of the candidates [B]. *)
Context (Hx : ∀ k, rd Tzero x k = conjugate (rd Tzero B k)).
(** [BtBinv[i]] is a left inverse of the Gram matrix of block row [i]. *)
Context (Hinv : ∀ i m m',
  0 ≤ i < num_block_rows → 0 ≤ m < NullDim → 0 ≤ m' < NullDim →
  sum_list (λ k, Tmul (rd Tzero z (i * (NullDim * NullDim) + (m * NullDim + k)))
                      (gram_entry ColsPerBlock NullDim Sp Sj B i k m'))
    (seqZ 0 NullDim)
  = if decide (m = m') then Tone else Tzero).

Lemma corrected_product_zero Sx i r m' :
  rd 0 Sp num_block_rows * (RowsPerBlock * ColsPerBlock) ≤ len Sx →
  0 ≤ i < num_block_rows → 0 ≤ r < RowsPerBlock → 0 ≤ m' < NullDim →
  rd Tzero y (i * (NullDim * RowsPerBlock) + (r * NullDim + m'))
  = SB_entry RowsPerBlock ColsPerBlock NullDim Sp Sj Sx B i r m' →
  SB_entry RowsPerBlock ColsPerBlock NullDim Sp Sj
    (satisfy_constraints_helper RowsPerBlock ColsPerBlock num_block_rows NullDim
       x y z Sp Sj Sx) B i r m' = Tzero.
Proof using HRows HCols HNull Hwf Hx Hinv.
  intros Hroom Hi Hr Hm' HUB.
  destruct (satisfy_constraints_cells RowsPerBlock ColsPerBlock NullDim x y z Sj
              HRows HCols HNull num_block_rows n_bcol Sp Hwf Sx Hroom)
    as (_ & Hcells & _).
  unfold SB_entry at 1.
  rewrite (sum_list_ext_in _
    (λ p, Tsub
       (Tmul (rd Tzero Sx (p.1 * (RowsPerBlock * ColsPerBlock)
                           + (r * ColsPerBlock + p.2)))
             (cand ColsPerBlock NullDim Sj B p m'))
       (Tmul (sc_update_entry RowsPerBlock ColsPerBlock NullDim x y z
                i (rd 0 Sj p.1) r p.2)
             (cand ColsPerBlock NullDim Sj B p m')))).
  2: { intros p Hp. apply elem_of_support in Hp as [Hj Hc].
       rewrite (Hcells i p.1 r p.2) by done. ring. }
  rewrite sum_list_sub. fold (SB_entry RowsPerBlock ColsPerBlock NullDim Sp Sj Sx B i r m').
  rewrite <- HUB. unfold sc_update_entry, sc_C_entry.
  rewrite (sum_list_rearrange
    (λ m, rd Tzero y (i * (NullDim * RowsPerBlock) + (r * NullDim + m)))
    (λ m k, rd Tzero z (i * (NullDim * NullDim) + (m * NullDim + k)))
    (λ p k, rd Tzero x (rd 0 Sj p.1 * (NullDim * ColsPerBlock) + (p.2 * NullDim + k)))
    (λ p, cand ColsPerBlock NullDim Sj B p m')).
  rewrite (sum_list_ext_in _
    (λ m, Tmul (rd Tzero y (i * (NullDim * RowsPerBlock) + (r * NullDim + m)))
               (if decide (m = m') then Tone else Tzero))).
  2: { intros m Hm. apply elem_of_seqZ in Hm. f_equal.
       rewrite <- (Hinv i m m') by lia.
       apply sum_list_ext. intros k. f_equal. unfold gram_entry.
       apply sum_list_ext. intros p. f_equal. rewrite Hx. unfold cand.
       do 2 f_equal. ring. }
  rewrite sum_list_delta; [ring | apply NoDup_seqZ | apply elem_of_seqZ; lia].
Qed.
End ConstraintAlgebra.

(** Where conjugation is the identity, as on real scalars, the update is
    the one the specification words with a conjugate transpose. *)
Lemma sc_update_entry_real {T F : Type} `{!Scalar T F}
    (RowsPerBlock ColsPerBlock NullDim : Z) (x y z : list T) (i cb r c : Z) :
  (∀ v : T, conjugate v = v) →
  sc_update_entry RowsPerBlock ColsPerBlock NullDim x y z i cb r c
  = spec_update_entry RowsPerBlock ColsPerBlock NullDim x y z i cb r c.
Proof.
  intros Hreal. unfold sc_update_entry, sc_C_entry, spec_update_entry.
  apply sum_list_ext_in. intros m _. f_equal.
  apply sum_list_ext_in. intros k _. by rewrite Hreal.
Qed.

(** C5.  [satisfy_constraints_helper] keeps the length of [Sx]; for each
    block row [i] and each stored position [j] of that row it replaces
    entry [(r, c)] of block [Sx[j]] by its prior value minus entry [(r, c)]
    of [UB[i] * (BtBinv[i] * Bconj[Sj[j]]^T)]: the block of [Bconj = x] is
    transposed and not conjugated, so that the subtracted block is
    [UB[i] * (BtBinv[i] * B[Sj[j]]^H)] when [Bconj] holds the conjugates of
    the candidates [B]; no other cell of [Sx] changes.
    Consequently, in exact arithmetic, when [x] is the conjugate of [B],
    [UB = S * B] and [BtBinv[i]] is the inverse of the Gram matrix of the
    candidates restricted to the support of row [i], the corrected [S]
    satisfies [S * B = 0] on every block row. *)
Theorem satisfy_constraints_helper_correct {T F : Type} `{!Scalar T F}
    (RowsPerBlock ColsPerBlock num_block_rows NullDim n_bcol : Z)
    (x y z : list T) (Sp Sj : list Z) (Sx : list T) :
  0 ≤ RowsPerBlock → 0 ≤ ColsPerBlock → 0 ≤ NullDim →
  csr_wf num_block_rows n_bcol Sp Sj →
  rd 0 Sp num_block_rows * (RowsPerBlock * ColsPerBlock) ≤ len Sx →
  let Sx' := satisfy_constraints_helper RowsPerBlock ColsPerBlock
               num_block_rows NullDim x y z Sp Sj Sx in
  len Sx' = len Sx
  ∧ (∀ i j r c,
       0 ≤ i < num_block_rows → rd 0 Sp i ≤ j < rd 0 Sp (i + 1) →
       0 ≤ r < RowsPerBlock → 0 ≤ c < ColsPerBlock →
       rd Tzero Sx' (j * (RowsPerBlock * ColsPerBlock) + (r * ColsPerBlock + c)) =
       Tsub (rd Tzero Sx (j * (RowsPerBlock * ColsPerBlock) + (r * ColsPerBlock + c)))
            (sc_update_entry RowsPerBlock ColsPerBlock NullDim x y z
               i (rd 0 Sj j) r c))
  ∧ (∀ m, ¬ (rd 0 Sp 0 * (RowsPerBlock * ColsPerBlock) ≤ m
             < rd 0 Sp num_block_rows * (RowsPerBlock * ColsPerBlock)) →
       rd Tzero Sx' m = rd Tzero Sx m)
  ∧ (∀ (exact : ScalarRing T F) (B : list T),
       (∀ k, rd Tzero x k = conjugate (rd Tzero B k)) →
       (∀ i r m, 0 ≤ i < num_block_rows → 0 ≤ r < RowsPerBlock → 0 ≤ m < NullDim →
          rd Tzero y (i * (NullDim * RowsPerBlock) + (r * NullDim + m))
          = SB_entry RowsPerBlock ColsPerBlock NullDim Sp Sj Sx B i r m) →
       (∀ i m m', 0 ≤ i < num_block_rows → 0 ≤ m < NullDim → 0 ≤ m' < NullDim →
          sum_list
            (λ k, Tmul (rd Tzero z (i * (NullDim * NullDim) + (m * NullDim + k)))
                       (gram_entry ColsPerBlock NullDim Sp Sj B i k m'))
            (seqZ 0 NullDim)
          = if decide (m = m') then Tone else Tzero) →
       ∀ i r m, 0 ≤ i < num_block_rows → 0 ≤ r < RowsPerBlock → 0 ≤ m < NullDim →
         SB_entry RowsPerBlock ColsPerBlock NullDim Sp Sj Sx' B i r m = Tzero).
Proof.
  intros HRows HCols HNull Hwf Hroom Sx'.
  destruct (satisfy_constraints_cells RowsPerBlock ColsPerBlock NullDim x y z Sj
              HRows HCols HNull num_block_rows n_bcol Sp Hwf Sx Hroom)
    as (Hlen & Hcells & Hout).
  split_and!; [done | done | done |].
  intros exact B Hx HUB Hinv i r m Hi Hr Hm.
  apply (corrected_product_zero RowsPerBlock ColsPerBlock NullDim x y z B Sp Sj
           num_block_rows n_bcol HRows HCols HNull Hwf Hx Hinv Sx i r m);
    try done.
  by apply HUB.
Qed.

(** A run on the exact integers: one block row with one 1x2 block
    [S = [3 4]], one candidate [B = [1 0]^T], so [UB = 3] and the Gram matrix
    is [1]; the corrected block is [[0 4]] and [S * B = 0]. *)
Example satisfy_constraints_run :
  satisfy_constraints_helper (T:=Z) (F:=Z) 1 2 1 1 [1; 0] [3] [1] [0; 1] [0] [3; 4]
  = [0; 4].
Proof. vm_compute. reflexivity. Qed.

Lemma satisfy_constraints_helper_correct_witness :
  let Sx' := satisfy_constraints_helper (T:=Z) (F:=Z)
               1 2 1 1 [1; 0] [3] [1] [0; 1] [0] [3; 4] in
  csr_wf 1 1 [0; 1] [0]
  ∧ len Sx' = 2
  ∧ SB_entry (T:=Z) 1 2 1 [0; 1] [0] Sx' [1; 0] 0 0 0 = 0.
Proof.
  intros Sx'.
  assert (csr_wf 1 1 [0; 1] [0]) as Hwf
    by (apply csr_ok_wf; vm_compute; reflexivity).
  destruct (satisfy_constraints_helper_correct (T:=Z) (F:=Z)
              1 2 1 1 1 [1; 0] [3] [1] [0; 1] [0] [3; 4])
    as (Hlen & _ & _ & Hzero);
    [lia | lia | lia | exact Hwf | vm_compute; discriminate |].
  split; [exact Hwf|]. split; [exact Hlen|].
  apply (Hzero Z_scalar_ring [1; 0]); try lia.
  - intros k. reflexivity.
  - intros i r m Hi Hr Hm.
    assert (i = 0) as -> by lia. assert (r = 0) as -> by lia.
    assert (m = 0) as -> by lia. vm_compute. reflexivity.
  - intros i m m' Hi Hm Hm'.
    assert (i = 0) as -> by lia. assert (m = 0) as -> by lia.
    assert (m' = 0) as -> by lia. vm_compute. reflexivity.
Defined.

(** ** Tentative prolongator *)

Lemma for_loop_split {S} lo mid hi (body : Z → S → S) s :
  lo ≤ mid ≤ hi →
  for_loop lo hi body s = for_loop mid hi body (for_loop lo mid body s).
Proof.
  intros. unfold for_loop.
  replace (hi - lo) with ((mid - lo) + (hi - mid)) by lia.
  rewrite seqZ_app by lia. rewrite foldl_app. do 2 f_equal. lia.
Qed.

(** A walk down a column of a block that is [n] rows high. *)
Lemma strided_block lo0 b n K2 :
  0 ≤ b < K2 →
  strided (lo0 + b) (lo0 + n * K2) K2 = (λ k, lo0 + b + k * K2) <$> seqZ 0 n.
Proof.
  intros Hb. unfold strided.
  replace (lo0 + n * K2 - (lo0 + b) + K2 - 1) with (n * K2 + (K2 - 1 - b)) by lia.
  rewrite Z.div_add_l by lia. rewrite Z.div_small by lia.
  rewrite Z.add_0_r. done.
Qed.

Lemma elem_of_strided_block lo0 b n K2 p :
  0 ≤ b < K2 →
  p ∈ strided (lo0 + b) (lo0 + n * K2) K2 ↔ ∃ k, 0 ≤ k < n ∧ p = lo0 + b + k * K2.
Proof.
  intros Hb. rewrite strided_block by done. rewrite list_elem_of_fmap.
  setoid_rewrite elem_of_seqZ. split.
  - intros (k & -> & Hk). exists k. split; [lia | done].
  - intros (k & Hk & ->). exists k. split; [done | lia].
Qed.

Lemma NoDup_strided_block lo0 b n K2 :
  0 ≤ b < K2 → NoDup (strided (lo0 + b) (lo0 + n * K2) K2).
Proof.
  intros Hb. rewrite strided_block by done.
  apply NoDup_fmap_2_strong; [|apply NoDup_seqZ].
  intros k k' _ _ Heq. nia.
Qed.

(** *** A pass of writes over a list of cells *)

Section FoldWrites.
Context {A : Type} (d : A) (tgt : Z → Z) (val : Z → list A → A).

Lemma foldl_wr_len ps a :
  len (foldl (λ a p, wr a (tgt p) (val p a)) a ps) = len a.
Proof.
  revert a. induction ps as [|p ps IH]; intros a; [done|].
  simpl. rewrite IH. apply len_wr.
Qed.

(** A cell that is no target keeps its value. *)
Lemma foldl_wr_frame ps a m :
  (∀ p, p ∈ ps → tgt p ≠ m) →
  rd d (foldl (λ a p, wr a (tgt p) (val p a)) a ps) m = rd d a m.
Proof.
  revert a. induction ps as [|p ps IH]; intros a Hm; [done|].
  simpl. rewrite IH by (intros q Hq; apply Hm; by right).
  apply rd_wr_ne. apply Hm. by left.
Qed.

(** Each target receives the value computed from the initial array, when
    that value only depends on the target itself and on cells that are
    never written. *)
Lemma foldl_wr_spec ps a :
  NoDup (tgt <$> ps) →
  (∀ p, p ∈ ps → 0 ≤ tgt p < len a) →
  (∀ p a', p ∈ ps →
     (∀ m, m = tgt p ∨ m ∉ tgt <$> ps → rd d a' m = rd d a m) →
     val p a' = val p a) →
  ∀ p, p ∈ ps →
    rd d (foldl (λ a p, wr a (tgt p) (val p a)) a ps) (tgt p) = val p a.
Proof.
  revert a. induction ps as [|p0 ps IH]; intros a Hnd Hin Hval p Hp;
    [by apply elem_of_nil in Hp|].
  rewrite fmap_cons in Hnd. apply NoDup_cons in Hnd as [Hp0 Hnd].
  simpl. set (a1 := wr a (tgt p0) (val p0 a)).
  assert (∀ q, q ∈ ps → tgt q ≠ tgt p0) as Hne.
  { intros q Hq Heq. apply Hp0. rewrite <- Heq.
    apply list_elem_of_fmap. by exists q. }
  assert (∀ q, q ∈ ps → val q a1 = val q a) as Hstable.
  { intros q Hq. apply Hval; [by right|].
    intros m Hm. unfold a1. apply rd_wr_ne.
    destruct Hm as [->|Hm]; [by apply not_eq_sym, Hne|].
    intros <-. apply Hm. rewrite fmap_cons. by left. }
  apply elem_of_cons in Hp as [->|Hp].
  - rewrite foldl_wr_frame by (intros q Hq; by apply Hne).
    unfold a1. apply rd_wr_eq. apply Hin. by left.
  - rewrite IH; [by apply Hstable | done | | | done].
    + intros q Hq. unfold a1. rewrite len_wr. apply Hin. by right.
    + intros q a' Hq Ha'. rewrite Hstable by done.
      apply Hval; [by right|].
      intros m Hm. rewrite Ha'.
      * unfold a1. apply rd_wr_ne.
        destruct Hm as [->|Hm]; [by apply not_eq_sym, Hne|].
        intros <-. apply Hm. rewrite fmap_cons. by left.
      * destruct Hm as [->|Hm]; [by left|]. right.
        intros Hm'. apply Hm. rewrite fmap_cons. by right.
Qed.
End FoldWrites.

(** *** One candidate column of one aggregate

    The block of the aggregate starts at cell [a0] of [Ax] and is [n] rows
    high and [K2] wide, so that the cell of row [k] and column [b] is
    [a0 + b + k * K2]; its coefficients start at cell [r0] of [R]. *)

Section FitColumn.
Context {T F : Type} `{!Scalar T F} `{!RealScalar T F}.
Context (tol : F) (K2 a0 n r0 : Z).
Implicit Types (s : fc_state T) (Ax : list T).

Lemma fc_scale_len bj scale Ax :
  len (fc_scale K2 a0 (a0 + n * K2) bj scale Ax) = len Ax.
Proof.
  unfold fc_scale.
  apply (foldl_wr_len (λ p, p) (λ p a, Tmul (rd Tzero a p) scale)).
Qed.

Lemma fc_scale_frame bj scale Ax m :
  0 ≤ bj < K2 →
  (∀ k, 0 ≤ k < n → m ≠ a0 + bj + k * K2) →
  rd Tzero (fc_scale K2 a0 (a0 + n * K2) bj scale Ax) m = rd Tzero Ax m.
Proof.
  intros Hbj Hm. unfold fc_scale.
  apply (foldl_wr_frame Tzero (λ p, p) (λ p a, Tmul (rd Tzero a p) scale)).
  intros p Hp ->. apply elem_of_strided_block in Hp as (k & Hk & ->); [|done].
  by apply (Hm k).
Qed.

Lemma fc_scale_cells bj scale Ax k :
  0 ≤ bj < K2 → 0 ≤ a0 → a0 + n * K2 ≤ len Ax → 0 ≤ k < n →
  rd Tzero (fc_scale K2 a0 (a0 + n * K2) bj scale Ax) (a0 + bj + k * K2)
  = Tmul (rd Tzero Ax (a0 + bj + k * K2)) scale.
Proof.
  intros Hbj Ha0 Hlen Hk. unfold fc_scale.
  apply (foldl_wr_spec Tzero (λ p, p) (λ p a, Tmul (rd Tzero a p) scale)).
  - rewrite list_fmap_id. by apply NoDup_strided_block.
  - intros p Hp. apply elem_of_strided_block in Hp as (k' & Hk' & ->); [|done]. nia.
  - intros p a' Hp Ha'. simpl. rewrite Ha' by (by left). done.
  - apply elem_of_strided_block; [done|]. by exists k.
Qed.

Lemma fc_orthogonalize_R bj bi s :
  fc_R (fc_orthogonalize K2 a0 (a0 + n * K2) r0 bj bi s)
  = wr (fc_R s) (r0 + (K2 * bi + bj))
       (fc_dot K2 a0 (a0 + n * K2) bj bi (fc_Ax s)).
Proof. done. Qed.

Lemma fc_orthogonalize_len bj bi s :
  len (fc_Ax (fc_orthogonalize K2 a0 (a0 + n * K2) r0 bj bi s)) = len (fc_Ax s)
  ∧ len (fc_R (fc_orthogonalize K2 a0 (a0 + n * K2) r0 bj bi s)) = len (fc_R s).
Proof.
  split; [|by rewrite fc_orthogonalize_R, len_wr].
  unfold fc_orthogonalize. cbn [fc_Ax].
  apply (foldl_wr_len (λ p, p + (bj - bi))
           (λ p a, Tsub (rd Tzero a (p + (bj - bi)))
                        (Tmul (fc_dot K2 a0 (a0 + n * K2) bj bi (fc_Ax s))
                              (rd Tzero a p)))).
Qed.

(** Orthogonalizing column [bj] writes to column [bj] only. *)
Lemma fc_orthogonalize_frame bj bi s m :
  0 ≤ bi < K2 →
  (∀ k, 0 ≤ k < n → m ≠ a0 + bj + k * K2) →
  rd Tzero (fc_Ax (fc_orthogonalize K2 a0 (a0 + n * K2) r0 bj bi s)) m
  = rd Tzero (fc_Ax s) m.
Proof.
  intros Hbi Hm. unfold fc_orthogonalize. cbn [fc_Ax].
  apply (foldl_wr_frame Tzero (λ p, p + (bj - bi))
           (λ p a, Tsub (rd Tzero a (p + (bj - bi)))
                        (Tmul (fc_dot K2 a0 (a0 + n * K2) bj bi (fc_Ax s))
                              (rd Tzero a p)))).
  intros p Hp Heq. apply elem_of_strided_block in Hp as (k & Hk & ->); [|done].
  apply (Hm k Hk). lia.
Qed.

(** The state after the orthogonalization of column [bj] against the
    columns before it. *)
Lemma fc_orthogonalize_loop bj s :
  0 ≤ bj < K2 → 0 ≤ r0 → r0 + K2 * K2 ≤ len (fc_R s) →
  let s1 := for_loop 0 bj (fc_orthogonalize K2 a0 (a0 + n * K2) r0 bj) s in
  len (fc_Ax s1) = len (fc_Ax s)
  ∧ len (fc_R s1) = len (fc_R s)
  ∧ (∀ m, (∀ k, 0 ≤ k < n → m ≠ a0 + bj + k * K2) →
       rd Tzero (fc_Ax s1) m = rd Tzero (fc_Ax s) m)
  ∧ (∀ m, (∀ bi, 0 ≤ bi < bj → m ≠ r0 + (K2 * bi + bj)) →
       rd Tzero (fc_R s1) m = rd Tzero (fc_R s) m)
  ∧ (∀ bi, 0 ≤ bi < bj →
       rd Tzero (fc_R s1) (r0 + (K2 * bi + bj))
       = fc_dot K2 a0 (a0 + n * K2) bj bi
           (fc_Ax (for_loop 0 bi (fc_orthogonalize K2 a0 (a0 + n * K2) r0 bj) s))).
Proof.
  intros Hbj Hr0 HlenR. simpl.
  set (orth := fc_orthogonalize K2 a0 (a0 + n * K2) r0 bj).
  set (Q := λ (i : Z) (s' : fc_state T),
    s' = for_loop 0 i orth s
    ∧ len (fc_Ax s') = len (fc_Ax s)
    ∧ len (fc_R s') = len (fc_R s)
    ∧ (∀ m, (∀ k, 0 ≤ k < n → m ≠ a0 + bj + k * K2) →
         rd Tzero (fc_Ax s') m = rd Tzero (fc_Ax s) m)
    ∧ (∀ m, (∀ bi, 0 ≤ bi < i → m ≠ r0 + (K2 * bi + bj)) →
         rd Tzero (fc_R s') m = rd Tzero (fc_R s) m)
    ∧ (∀ bi, 0 ≤ bi < i →
         rd Tzero (fc_R s') (r0 + (K2 * bi + bj))
         = fc_dot K2 a0 (a0 + n * K2) bj bi (fc_Ax (for_loop 0 bi orth s)))).
  assert (Q bj (for_loop 0 bj orth s)) as (_ & ? & ? & ? & ? & ?);
    [|by split_and!].
  apply (for_loop_inv Q); [lia| |].
  - unfold Q. split_and!; try done. intros; lia.
  - intros i s' Hi (Hs' & HlA & HlR & HfA & HfR & Hrec).
    destruct (fc_orthogonalize_len bj i s') as [HlA' HlR'].
    unfold Q. fold orth in HlA', HlR'. split_and!.
    + rewrite for_loop_snoc by lia. by rewrite <- Hs'.
    + by rewrite HlA'.
    + by rewrite HlR'.
    + intros m Hm. unfold orth.
      rewrite fc_orthogonalize_frame by (done || lia). by apply HfA.
    + intros m Hm. unfold orth. rewrite fc_orthogonalize_R.
      rewrite rd_wr_ne by (apply not_eq_sym, Hm; lia).
      apply HfR. intros bi Hbi. apply Hm. lia.
    + intros bi Hbi. unfold orth. rewrite fc_orthogonalize_R.
      destruct (decide (bi = i)) as [->|Hne].
      * rewrite rd_wr_eq by nia. by rewrite Hs'.
      * rewrite rd_wr_ne by nia. apply Hrec. lia.
Qed.

(** The two branches of the normalization, after the orthogonalization. *)
Lemma fc_column_unfold bj s :
  let s1 := for_loop 0 bj (fc_orthogonalize K2 a0 (a0 + n * K2) r0 bj) s in
  let pre := col_norm (fc_Ax s) (a0 + bj) (a0 + n * K2) K2 in
  let post := col_norm (fc_Ax s1) (a0 + bj) (a0 + n * K2) K2 in
  fc_column tol K2 a0 (a0 + n * K2) r0 bj s
  = FcState
      (fc_scale K2 a0 (a0 + n * K2) bj
         (if Fgt post (Fmul tol pre) then of_real (Frecip post) else Tzero)
         (fc_Ax s1))
      (wr (fc_R s1) (r0 + (K2 * bj + bj))
         (if Fgt post (Fmul tol pre) then of_real post else Tzero)).
Proof. simpl. unfold fc_column. by destruct (Fgt _ _). Qed.

(** What processing column [bj] leaves in the two arrays. *)
Lemma fc_column_spec bj s :
  0 ≤ bj < K2 → 0 ≤ a0 → a0 + n * K2 ≤ len (fc_Ax s) →
  0 ≤ r0 → r0 + K2 * K2 ≤ len (fc_R s) →
  let s1 := for_loop 0 bj (fc_orthogonalize K2 a0 (a0 + n * K2) r0 bj) s in
  let pre := col_norm (fc_Ax s) (a0 + bj) (a0 + n * K2) K2 in
  let post := col_norm (fc_Ax s1) (a0 + bj) (a0 + n * K2) K2 in
  let s' := fc_column tol K2 a0 (a0 + n * K2) r0 bj s in
  len (fc_Ax s') = len (fc_Ax s)
  ∧ len (fc_R s') = len (fc_R s)
  ∧ (∀ k, 0 ≤ k < n →
       rd Tzero (fc_Ax s') (a0 + bj + k * K2)
       = Tmul (rd Tzero (fc_Ax s1) (a0 + bj + k * K2))
              (if Fgt post (Fmul tol pre) then of_real (Frecip post) else Tzero))
  ∧ rd Tzero (fc_R s') (r0 + (K2 * bj + bj))
    = (if Fgt post (Fmul tol pre) then of_real post else Tzero)
  ∧ (∀ bi, 0 ≤ bi < bj →
       rd Tzero (fc_R s') (r0 + (K2 * bi + bj))
       = rd Tzero (fc_R s1) (r0 + (K2 * bi + bj)))
  ∧ (∀ m, (∀ k, 0 ≤ k < n → m ≠ a0 + bj + k * K2) →
       rd Tzero (fc_Ax s') m = rd Tzero (fc_Ax s) m)
  ∧ (∀ m, (∀ bi, 0 ≤ bi ≤ bj → m ≠ r0 + (K2 * bi + bj)) →
       rd Tzero (fc_R s') m = rd Tzero (fc_R s) m).
Proof.
  intros Hbj Ha0 HlenA Hr0 HlenR. simpl. rewrite fc_column_unfold. simpl.
  destruct (fc_orthogonalize_loop bj s Hbj Hr0 HlenR)
    as (HlA & HlR & HfA & HfR & _).
  set (s1 := for_loop 0 bj (fc_orthogonalize K2 a0 (a0 + n * K2) r0 bj) s) in *.
  split_and!.
  - by rewrite fc_scale_len.
  - by rewrite len_wr.
  - intros k Hk. apply fc_scale_cells; [done | done | by rewrite HlA | done].
  - apply rd_wr_eq. rewrite HlR. nia.
  - intros bi Hbi. apply rd_wr_ne. nia.
  - intros m Hm. rewrite fc_scale_frame by done. by apply HfA.
  - intros m Hm. rewrite rd_wr_ne by (apply not_eq_sym, Hm; lia).
    apply HfR. intros bi Hbi. apply Hm. lia.
Qed.
End FitColumn.

(** *** All the columns of all the aggregates *)

Section FitFacts.
Context {T F : Type} `{!Scalar T F} `{!RealScalar T F}.
Context (n_row n_col K1 K2 : Z) (Ap Ai : list Z) (tol : F).
Context (HK1 : 0 ≤ K1) (HK2 : 0 ≤ K2) (Hwf : csr_wf n_col n_row Ap Ai).
Implicit Types (s : fc_state T).

(** The first cell and the number of rows of the block of aggregate [j]. *)
Let start (j : Z) : Z := K1 * K2 * rd 0 Ap j.
Let rows (j : Z) : Z := K1 * (rd 0 Ap (j + 1) - rd 0 Ap j).
Let column (j : Z) : Z → fc_state T → fc_state T :=
  fc_column tol K2 (start j) (start j + rows j * K2) (j * K2 * K2).

(** Both arrays are long enough. *)
Let room s : Prop :=
  K1 * K2 * rd 0 Ap n_col ≤ len (fc_Ax s) ∧ n_col * K2 * K2 ≤ len (fc_R s).

(** Two states hold the same column [bj] of aggregate [j], in [Ax] and
    in [R]. *)
Let agree (j bj : Z) s s' : Prop :=
  (∀ k, 0 ≤ k < rows j →
     rd Tzero (fc_Ax s') (start j + bj + k * K2)
     = rd Tzero (fc_Ax s) (start j + bj + k * K2))
  ∧ (∀ bi, 0 ≤ bi ≤ bj →
       rd Tzero (fc_R s') (j * K2 * K2 + (K2 * bi + bj))
       = rd Tzero (fc_R s) (j * K2 * K2 + (K2 * bi + bj))).

Lemma block_end j : K1 * K2 * rd 0 Ap (j + 1) = start j + rows j * K2.
Proof. unfold start, rows. ring. Qed.

Lemma fc_aggregate_columns j s :
  fc_aggregate tol K1 K2 Ap j s = for_loop 0 K2 (column j) s.
Proof. unfold fc_aggregate, column. cbv zeta. by rewrite block_end. Qed.

Lemma block_in_room j :
  0 ≤ j < n_col →
  0 ≤ start j ∧ 0 ≤ rows j ∧ start j + rows j * K2 ≤ K1 * K2 * rd 0 Ap n_col.
Proof using HK1 HK2 Hwf.
  intros Hj. destruct (wf_row_bounds Hwf j Hj) as (H1 & H2 & H3).
  pose proof (wf_Ap_0 _ _ _ _ Hwf) as H0.
  rewrite <- block_end. unfold start, rows.
  assert (0 ≤ K1 * K2) by nia. split_and!; nia.
Qed.

Lemma ax_cells_disjoint j bj k j' bj' k' :
  0 ≤ j < n_col → 0 ≤ j' < n_col → 0 ≤ bj < K2 → 0 ≤ bj' < K2 →
  0 ≤ k < rows j → 0 ≤ k' < rows j' → j ≠ j' ∨ bj ≠ bj' →
  start j + bj + k * K2 ≠ start j' + bj' + k' * K2.
Proof using HK1 HK2 Hwf.
  intros Hj Hj' Hbj Hbj' Hk Hk' Hne.
  assert (0 ≤ K1 * K2) as HBS by nia.
  assert (∀ a b c, 0 ≤ a < n_col → 0 ≤ b < K2 → 0 ≤ c < rows a →
            start a ≤ start a + b + c * K2 < K1 * K2 * rd 0 Ap (a + 1)) as Hin.
  { intros a b c Ha Hb Hc. rewrite block_end. nia. }
  destruct (Z.lt_trichotomy j j') as [Hlt|[<-|Hgt]].
  - assert (rd 0 Ap (j + 1) ≤ rd 0 Ap j') by (apply (wf_Ap_le Hwf); lia).
    pose proof (Hin j bj k Hj Hbj Hk). pose proof (Hin j' bj' k' Hj' Hbj' Hk').
    unfold start in *. nia.
  - intros Heq. assert (bj = bj'); [|lia].
    apply (block_index_inj K2 k bj k' bj'); lia.
  - assert (rd 0 Ap (j' + 1) ≤ rd 0 Ap j) by (apply (wf_Ap_le Hwf); lia).
    pose proof (Hin j bj k Hj Hbj Hk). pose proof (Hin j' bj' k' Hj' Hbj' Hk').
    unfold start in *. nia.
Qed.

Lemma r_cells_disjoint j bi bj j' bi' bj' :
  0 ≤ bi ≤ bj → bj < K2 → 0 ≤ bi' ≤ bj' → bj' < K2 → j ≠ j' ∨ bj ≠ bj' →
  j * K2 * K2 + (K2 * bi + bj) ≠ j' * K2 * K2 + (K2 * bi' + bj').
Proof.
  intros Hbi Hbj Hbi' Hbj' Hne.
  destruct (decide (j = j')) as [<-|Hj].
  - intros Heq. assert (bj = bj'); [|lia].
    apply (block_index_inj K2 bi bj bi' bj'); lia.
  - replace (j * K2 * K2) with (j * (K2 * K2)) by ring.
    replace (j' * K2 * K2) with (j' * (K2 * K2)) by ring.
    apply window_disjoint; [done | nia | nia].
Qed.

Lemma agree_refl j bj s : agree j bj s s.
Proof. by split. Qed.

Lemma agree_trans j bj s1 s2 s3 :
  agree j bj s1 s2 → agree j bj s2 s3 → agree j bj s1 s3.
Proof.
  intros [HA HR] [HA' HR']. split.
  - intros k Hk. by rewrite HA', HA.
  - intros bi Hbi. by rewrite HR', HR.
Qed.

(** Processing a column keeps every other column. *)
Lemma column_step j' bj' s :
  0 ≤ j' < n_col → 0 ≤ bj' < K2 → room s →
  room (column j' bj' s)
  ∧ ∀ j bj, 0 ≤ j < n_col → 0 ≤ bj < K2 → j ≠ j' ∨ bj ≠ bj' →
      agree j bj s (column j' bj' s).
Proof using HK1 HK2 Hwf.
  intros Hj' Hbj' [HrA HrR].
  destruct (block_in_room j' Hj') as (Hs0 & Hn0 & Hend).
  destruct (fc_column_spec tol K2 (start j') (rows j') (j' * K2 * K2) bj' s)
    as (HlA & HlR & _ & _ & _ & HfA & HfR); [done | done | lia | nia | nia |].
  fold (column j') in *. split.
  - unfold room. by rewrite HlA, HlR.
  - intros j bj Hj Hbj Hne. split.
    + intros k Hk. apply HfA. intros k' Hk'.
      by apply ax_cells_disjoint.
    + intros bi Hbi. apply HfR. intros bi' Hbi'.
      apply r_cells_disjoint; lia.
Qed.

(** The columns [lo <= bj < hi] of aggregate [j]. *)
Lemma columns_range j lo hi s :
  0 ≤ j < n_col → 0 ≤ lo ≤ hi → hi ≤ K2 → room s →
  room (for_loop lo hi (column j) s)
  ∧ ∀ j0 bj0, 0 ≤ j0 < n_col → 0 ≤ bj0 < K2 →
      j0 ≠ j ∨ bj0 < lo ∨ hi ≤ bj0 →
      agree j0 bj0 s (for_loop lo hi (column j) s).
Proof using HK1 HK2 Hwf.
  intros Hj Hlo Hhi Hroom.
  apply (for_loop_inv (λ i s',
    room s'
    ∧ ∀ j0 bj0, 0 ≤ j0 < n_col → 0 ≤ bj0 < K2 →
        j0 ≠ j ∨ bj0 < lo ∨ hi ≤ bj0 → agree j0 bj0 s s')); [lia| |].
  - split; [done|]. intros. apply agree_refl.
  - intros i s' Hi [Hroom' Hag].
    destruct (column_step j i s') as [Hroom'' Hag']; [done | lia | done |].
    split; [done|]. intros j0 bj0 Hj0 Hbj0 Hne.
    apply (agree_trans _ _ _ s'); [by apply Hag|].
    apply Hag'; [done | done | lia].
Qed.

(** The aggregates [lo <= j < hi]. *)
Lemma aggregates_range lo hi s :
  0 ≤ lo ≤ hi → hi ≤ n_col → room s →
  room (for_loop lo hi (fc_aggregate tol K1 K2 Ap) s)
  ∧ ∀ j0 bj0, 0 ≤ j0 < n_col → 0 ≤ bj0 < K2 → j0 < lo ∨ hi ≤ j0 →
      agree j0 bj0 s (for_loop lo hi (fc_aggregate tol K1 K2 Ap) s).
Proof using HK1 HK2 Hwf.
  intros Hlo Hhi Hroom.
  apply (for_loop_inv (λ i s',
    room s'
    ∧ ∀ j0 bj0, 0 ≤ j0 < n_col → 0 ≤ bj0 < K2 → j0 < lo ∨ hi ≤ j0 →
        agree j0 bj0 s s')); [lia| |].
  - split; [done|]. intros. apply agree_refl.
  - intros i s' Hi [Hroom' Hag]. rewrite fc_aggregate_columns.
    destruct (columns_range i 0 K2 s') as [Hroom'' Hag']; [lia | lia | lia | done |].
    split; [done|]. intros j0 bj0 Hj0 Hbj0 Hne.
    apply (agree_trans _ _ _ s'); [by apply Hag|].
    apply Hag'; [done | done | lia].
Qed.

Lemma fc_fill_len n (R : list T) : len (fc_fill n R) = len R.
Proof.
  unfold fc_fill. destruct (decide (0 ≤ n)).
  - apply (for_loop_inv (λ _ R', len R' = len R)); [done | done |].
    intros i R' _ HR'. by rewrite len_wr.
  - by rewrite for_loop_nil by lia.
Qed.

Lemma copy_block_len (B : list T) b0 n Ax a0 :
  len (copy_block B b0 n Ax a0) = len Ax.
Proof.
  unfold copy_block. destruct (decide (0 ≤ n)).
  - apply (for_loop_inv (λ _ Ax', len Ax' = len Ax)); [done | done |].
    intros i Ax' _ HA'. by rewrite len_wr.
  - by rewrite for_loop_nil by lia.
Qed.

Lemma fc_copy_len BS (B Ax : list T) : len (fc_copy n_col BS Ap Ai B Ax) = len Ax.
Proof using Hwf.
  unfold fc_copy. pose proof (wf_rows _ _ _ _ Hwf).
  apply (for_loop_inv (λ _ Ax', len Ax' = len Ax)); [done | done |].
  intros j Ax' Hj HA'.
  destruct (wf_row_bounds Hwf j Hj) as (_ & Hle & _).
  apply (for_loop_inv (λ _ (st : list T * Z), len st.1 = len Ax)); [done | done |].
  intros ii st _ Hst. simpl. by rewrite copy_block_len.
Qed.

(** The arrays at the start of the orthonormalization. *)
Lemma fc_init_room (Ax B R : list T) :
  K1 * K2 * rd 0 Ap n_col ≤ len Ax → n_col * K2 * K2 ≤ len R →
  room (FcState (fc_copy n_col (K1 * K2) Ap Ai B Ax) (fc_fill (n_col * K2 * K2) R)).
Proof using Hwf.
  intros HA HR. unfold room. simpl. by rewrite fc_copy_len, fc_fill_len.
Qed.

(** The result, seen from candidate column [bj] of aggregate [j]: the
    kernel reaches [fc_before], orthogonalizes the column, scales it and
    writes the diagonal coefficient; nothing that follows touches it. *)
Lemma fit_candidates_column (Ax B R : list T) j bj :
  K1 * K2 * rd 0 Ap n_col ≤ len Ax → n_col * K2 * K2 ≤ len R →
  0 ≤ j < n_col → 0 ≤ bj < K2 →
  let out := fit_candidates_common n_row n_col K1 K2 Ap Ai Ax B R tol in
  let s1 := fc_orthogonalized n_col K1 K2 Ap Ai Ax B R tol j bj in
  let pre := norm_before n_col K1 K2 Ap Ai Ax B R tol j bj in
  let post := norm_after n_col K1 K2 Ap Ai Ax B R tol j bj in
  (∀ ii r, rd 0 Ap j ≤ ii < rd 0 Ap (j + 1) → 0 ≤ r < K1 →
     rd Tzero (fc_Ax out) (P_cell K1 K2 ii r bj)
     = Tmul (rd Tzero (fc_Ax s1) (P_cell K1 K2 ii r bj))
            (if Fgt post (Fmul tol pre) then of_real (Frecip post) else Tzero))
  ∧ rd Tzero (fc_R out) (R_cell K2 j bj bj)
    = (if Fgt post (Fmul tol pre) then of_real post else Tzero)
  ∧ (∀ bi, 0 ≤ bi < bj →
       rd Tzero (fc_R out) (R_cell K2 j bi bj)
       = rd Tzero (fc_R s1) (R_cell K2 j bi bj)
       ∧ rd Tzero (fc_R s1) (R_cell K2 j bi bj)
         = fc_coefficient n_col K1 K2 Ap Ai Ax B R tol j bj bi).
Proof using HK1 HK2 Hwf.
  intros HlA HlR Hj Hbj. simpl.
  unfold norm_before, norm_after, fc_coefficient, fc_orthogonalized. cbv zeta.
  pose proof (fc_init_room Ax B R HlA HlR) as Hroom0.
  set (init := FcState (fc_copy n_col (K1 * K2) Ap Ai B Ax)
                       (fc_fill (n_col * K2 * K2) R)) in *.
  set (agg := fc_aggregate tol K1 K2 Ap).
  assert (fc_before n_col K1 K2 Ap Ai Ax B R tol j bj
          = for_loop 0 bj (column j) (for_loop 0 j agg init)) as ->.
  { unfold fc_before, column. cbv zeta. by rewrite block_end. }
  assert (fit_candidates_common n_row n_col K1 K2 Ap Ai Ax B R tol
          = for_loop (j + 1) n_col agg
              (for_loop (bj + 1) K2 (column j)
                 (column j bj (for_loop 0 bj (column j) (for_loop 0 j agg init)))))
    as ->.
  { unfold fit_candidates_common. cbv zeta. fold init agg.
    rewrite (for_loop_split 0 j n_col) by lia.
    rewrite (for_loop_cons j n_col) by lia. f_equal.
    unfold agg at 1. rewrite fc_aggregate_columns.
    rewrite (for_loop_split 0 bj K2) by lia.
    by rewrite (for_loop_cons bj K2) by lia. }
  rewrite block_end. fold (start j).
  destruct (aggregates_range 0 j init) as [Hroom1 _]; [lia | lia | done |].
  fold agg in Hroom1. set (sj := for_loop 0 j agg init) in *.
  destruct (columns_range j 0 bj sj) as [Hroom2 _]; [done | lia | lia | done |].
  set (sb := for_loop 0 bj (column j) sj) in *.
  destruct (block_in_room j Hj) as (Hs0 & Hn0 & Hend).
  destruct Hroom2 as [HrA HrR].
  destruct (fc_column_spec tol K2 (start j) (rows j) (j * K2 * K2) bj sb)
    as (HlA' & HlR' & Hcells & Hdiag & Hup & _ & _);
    [done | done | lia | nia | nia |].
  destruct (fc_orthogonalize_loop K2 (start j) (rows j) (j * K2 * K2) bj sb)
    as (_ & _ & _ & _ & Hrec); [done | nia | nia |].
  fold (column j) in *. set (sc := column j bj sb) in *.
  assert (room sc) as Hroom3 by (unfold room; by rewrite HlA', HlR').
  destruct (columns_range j (bj + 1) K2 sc) as [Hroom4 Hag4];
    [done | lia | lia | done |].
  set (sd := for_loop (bj + 1) K2 (column j) sc) in *.
  destruct (aggregates_range (j + 1) n_col sd) as [_ Hag5];
    [lia | lia | done |].
  fold agg in Hag5.
  assert (agree j bj sc (for_loop (j + 1) n_col agg sd)) as [HagA HagR].
  { apply (agree_trans _ _ _ sd); [apply Hag4 | apply Hag5]; (done || lia). }
  split_and!.
  - intros ii r Hii Hr.
    assert (P_cell K1 K2 ii r bj
            = start j + bj + ((ii - rd 0 Ap j) * K1 + r) * K2) as ->
      by (unfold P_cell, start; ring).
    assert (0 ≤ (ii - rd 0 Ap j) * K1 + r < rows j) as Hk by (unfold rows; nia).
    rewrite HagA by done. by apply Hcells.
  - unfold R_cell. rewrite HagR by lia. done.
  - intros bi Hbi. unfold R_cell. rewrite HagR by lia.
    split; [by apply Hup | by apply Hrec].
Qed.
End FitFacts.

(** *** The two claims on [fit_candidates_common] *)

(** The kernel on one aggregate with one [1 x 1] block, for any scalars. *)
Lemma fit_single_entry {T F : Type} `{!Scalar T F} `{!RealScalar T F}
    (a b r : T) (tol : F) :
  fit_candidates_common 1 1 1 1 [0; 1] [0] [a] [b] [r] tol
  = (let nrm := Fsqrt (Fadd Fzero (mynorm b)) in
     if Fgt nrm (Fmul tol nrm)
     then FcState [Tmul b (of_real (Frecip nrm))] [of_real nrm]
     else FcState [Tmul b Tzero] [Tzero]).
Proof. cbv zeta. vm_compute. reflexivity. Qed.

(** On the reals the single entry [b > 0] becomes [sqrt b], and so does the
    coefficient: the norm the kernel divides by is the square root of the
    magnitude, not the magnitude. *)
Lemma fit_single_entry_real (b tol : R) :
  (0 < b)%R → (0 <= tol < 1)%R →
  fit_candidates_common (T:=R) (F:=R) 1 1 1 1 [0; 1] [0] [0%R] [b] [0%R] tol
  = FcState [sqrt b] [sqrt b].
Proof.
  intros Hb Htol. rewrite fit_single_entry. cbv zeta.
  cbn [Fsqrt Fadd Fzero mynorm Fgt Fmul Tmul Tzero of_real Frecip
       R_scalar R_real_scalar].
  rewrite Rplus_0_l, Rabs_pos_eq by lra.
  pose proof (sqrt_lt_R0 b Hb) as Hs.
  unfold Rgtb. destruct (Rlt_dec (tol * sqrt b) (sqrt b)) as [_|Hn].
  - do 2 f_equal. rewrite <- (sqrt_sqrt b) at 1 by lra. field. lra.
  - exfalso. apply Hn. nra.
Qed.

(** C2.  The prolongator that [fit_candidates_common] fits is not
    orthonormal.  One aggregate holding the single fine row [0], one
    candidate with the entry [4], tolerance [1/2]: the kernel returns
    [P = [2]] and [R = [2]].  The coefficient on the diagonal of [R] is not
    zero and [P * R = B], but the inner product of the column of [P] with
    itself is [4], not [1]: the kernel takes the square root of the sum of
    the magnitudes [mynorm] of the entries, which is not their euclidean
    norm. *)
Theorem fit_candidates_not_orthonormal :
  let out := fit_candidates_common (T:=R) (F:=R)
               1 1 1 1 [0; 1] [0] [0%R] [4%R] [0%R] (1 / 2)%R in
  fc_Ax out = [2%R]
  ∧ fc_R out = [2%R]
  ∧ rd 0%R (fc_R out) (R_cell 1 0 0 0) ≠ 0%R
  ∧ (rd 0%R (fc_Ax out) (P_cell 1 1 0 0 0) * rd 0%R (fc_R out) (R_cell 1 0 0 0)
     = 4)%R
  ∧ fc_gram 1 1 [0; 1] (fc_Ax out) 0 0 0 = 4%R
  ∧ fc_gram 1 1 [0; 1] (fc_Ax out) 0 0 0 ≠ 1%R.
Proof.
  intros out.
  assert (sqrt 4 = 2%R) as H2.
  { replace 4%R with (2 * 2)%R by lra. apply sqrt_square. lra. }
  assert (out = FcState [2%R] [2%R]) as ->.
  { unfold out. rewrite fit_single_entry_real by lra. by rewrite H2. }
  assert (fc_gram (T:=R) 1 1 [0; 1] [2%R] 0 0 0 = 4%R) as Hg.
  { unfold fc_gram, sum_list. change (foldl _ _ _) with (0 + 2 * 2)%R. lra. }
  cbn [fc_Ax fc_R]. rewrite Hg.
  change (rd 0%R [2%R] (R_cell 1 0 0 0)) with 2%R.
  change (rd 0%R [2%R] (P_cell 1 1 0 0 0)) with 2%R.
  split_and!; try done; lra.
Qed.

(** The two branches of the kernel, on the quantity [norm_j] that it
    computes, the square root of the sum of the magnitudes of the entries
    of the column (which is not their euclidean norm).
    [fit_candidates_common] is a total function, and in its result, for
    every aggregate [j] and candidate column [bj]: when [norm_j] after the
    orthogonalization of the column does not exceed [tol] times [norm_j]
    before, every entry of column [bj] of [P] in the aggregate is the
    orthogonalized entry times zero, hence zero where multiplying by zero
    gives zero, and [R(bj,bj)] is zero; when it exceeds that threshold,
    every entry is the orthogonalized entry times the reciprocal of the
    norm, and [R(bj,bj)] is the norm.  In both cases the coefficients
    [R(bi,bj)], [bi < bj], recorded during the orthogonalization stay in
    place. *)
Theorem fit_candidates_degeneracy {T F : Type} `{!Scalar T F} `{!RealScalar T F}
    (n_row n_col K1 K2 : Z) (Ap Ai : list Z) (Ax B R : list T) (tol : F)
    (j bj : Z) :
  0 ≤ K1 → csr_wf n_col n_row Ap Ai →
  K1 * K2 * rd 0 Ap n_col ≤ len Ax → n_col * K2 * K2 ≤ len R →
  0 ≤ j < n_col → 0 ≤ bj < K2 →
  let out := fit_candidates_common n_row n_col K1 K2 Ap Ai Ax B R tol in
  let s1 := fc_orthogonalized n_col K1 K2 Ap Ai Ax B R tol j bj in
  let pre := norm_before n_col K1 K2 Ap Ai Ax B R tol j bj in
  let post := norm_after n_col K1 K2 Ap Ai Ax B R tol j bj in
  (Fgt post (Fmul tol pre) = false →
     (∀ ii r, rd 0 Ap j ≤ ii < rd 0 Ap (j + 1) → 0 ≤ r < K1 →
        rd Tzero (fc_Ax out) (P_cell K1 K2 ii r bj)
        = Tmul (rd Tzero (fc_Ax s1) (P_cell K1 K2 ii r bj)) Tzero)
     ∧ ((∀ v, Tmul v Tzero = Tzero) →
        ∀ ii r, rd 0 Ap j ≤ ii < rd 0 Ap (j + 1) → 0 ≤ r < K1 →
          rd Tzero (fc_Ax out) (P_cell K1 K2 ii r bj) = Tzero)
     ∧ rd Tzero (fc_R out) (R_cell K2 j bj bj) = Tzero)
  ∧ (Fgt post (Fmul tol pre) = true →
     (∀ ii r, rd 0 Ap j ≤ ii < rd 0 Ap (j + 1) → 0 ≤ r < K1 →
        rd Tzero (fc_Ax out) (P_cell K1 K2 ii r bj)
        = Tmul (rd Tzero (fc_Ax s1) (P_cell K1 K2 ii r bj))
               (of_real (Frecip post)))
     ∧ rd Tzero (fc_R out) (R_cell K2 j bj bj) = of_real post)
  ∧ (∀ bi, 0 ≤ bi < bj →
       rd Tzero (fc_R out) (R_cell K2 j bi bj)
       = fc_coefficient n_col K1 K2 Ap Ai Ax B R tol j bj bi).
Proof.
  intros HK1 Hwf HlA HlR Hj Hbj out s1 pre post.
  destruct (fit_candidates_column n_row n_col K1 K2 Ap Ai tol HK1 ltac:(lia) Hwf
              Ax B R j bj HlA HlR Hj Hbj) as (Hcells & Hdiag & Hup).
  fold out s1 pre post in Hcells, Hdiag, Hup.
  split_and!.
  - intros Hdeg. rewrite Hdeg in Hcells, Hdiag. split_and!; [done| |done].
    intros Hzero ii r Hii Hr. rewrite Hcells by done. apply Hzero.
  - intros Hok. rewrite Hok in Hcells, Hdiag. by split.
  - intros bi Hbi. destruct (Hup bi Hbi) as [-> ->]. done.
Qed.

(** One aggregate with one [1 x 2] block and two equal candidates, on the
    integers: the second column is dependent on the first, it is zeroed
    with [R(1,1)], and [R(0,1)] keeps the recorded coefficient [1]. *)
Lemma fit_candidates_degeneracy_witness :
  let out := fit_candidates_common (T:=Z) (F:=Z)
               1 1 1 2 [0; 1] [0] [0; 0] [1; 1] [0; 0; 0; 0] 0 in
  out = FcState [1; 0] [1; 1; 0; 0]
  ∧ rd 0 (fc_Ax out) (P_cell 1 2 0 0 1) = 0
  ∧ rd 0 (fc_R out) (R_cell 2 0 1 1) = 0
  ∧ rd 0 (fc_R out) (R_cell 2 0 0 1)
    = fc_coefficient (T:=Z) (F:=Z) 1 1 2 [0; 1] [0] [0; 0] [1; 1] [0; 0; 0; 0] 0 0 1 0.
Proof.
  intros out.
  destruct (fit_candidates_degeneracy (T:=Z) (F:=Z)
              1 1 1 2 [0; 1] [0] [0; 0] [1; 1] [0; 0; 0; 0] 0 0 1)
    as (Hdeg & _ & Hrec);
    [lia | apply csr_ok_wf; vm_compute; reflexivity
     | vm_compute; discriminate | vm_compute; discriminate | lia | lia |].
  destruct Hdeg as (_ & Hzero & Hdiag); [vm_compute; reflexivity|].
  split_and!.
  - vm_compute. reflexivity.
  - apply Hzero; [intros v; apply Z.mul_0_r | unfold rd; simpl; lia | lia].
  - exact Hdiag.
  - apply Hrec. lia.
Defined.

(** *** The constraint correction on complex scalars *)

(** The kernel on one block row with one [1 x 1] block, for any scalars. *)
Lemma satisfy_single_block {T F : Type} `{!Scalar T F} (x0 y0 z0 s0 : T) :
  satisfy_constraints_helper 1 1 1 1 [x0] [y0] [z0] [0; 1] [0] [s0]
  = [Tsub s0 (Tadd Tzero (Tmul y0 (Tadd Tzero (Tmul z0 x0))))].
Proof. vm_compute. reflexivity. Qed.

Lemma spec_single_block {T F : Type} `{!Scalar T F} (x0 y0 z0 : T) :
  spec_update_entry 1 1 1 [x0] [y0] [z0] 0 0 0 0
  = Tadd Tzero (Tmul y0 (Tadd Tzero (Tmul z0 (conjugate x0)))).
Proof. vm_compute. reflexivity. Qed.

(** On complex scalars the kernel does not subtract
    [UB[i] * (BtBinv[i] * Bconj[Sj[j]]^H)].  One [1 x 1] block [S = [1]] and
    the candidate [B = [i]], hence [Bconj = [-i]], [UB = S * B = [i]] and
    [BtBinv = [1]]: the kernel leaves [S = [0]], for which [S * B = 0],
    where the update with the conjugate transpose of [Bconj] gives [2]. *)
Lemma satisfy_constraints_no_conjugation :
  let Bconj := [(0%R, (-1)%R)] in
  let UB := [(0%R, 1%R)] in
  let BtBinv := [(1%R, 0%R)] in
  let Sx := [(1%R, 0%R)] in
  let Sx' := satisfy_constraints_helper (T:=R * R) (F:=R)
               1 1 1 1 Bconj UB BtBinv [0; 1] [0] Sx in
  Sx' = [(0%R, 0%R)]
  ∧ Tsub (rd Tzero Sx 0) (spec_update_entry 1 1 1 Bconj UB BtBinv 0 0 0 0)
    = (2%R, 0%R)
  ∧ rd Tzero Sx' 0
    ≠ Tsub (rd Tzero Sx 0) (spec_update_entry 1 1 1 Bconj UB BtBinv 0 0 0 0).
Proof.
  intros Bconj UB BtBinv Sx Sx'.
  assert (Sx' = [(0%R, 0%R)]) as HS.
  { unfold Sx', Bconj, UB, BtBinv, Sx. rewrite satisfy_single_block.
    cbn [Tsub Tadd Tmul Tzero C_scalar]. unfold Csub, Cadd, Cmul. cbn [fst snd].
    do 2 f_equal; lra. }
  assert (Tsub (rd Tzero Sx 0) (spec_update_entry 1 1 1 Bconj UB BtBinv 0 0 0 0)
          = (2%R, 0%R)) as HP.
  { unfold Bconj, UB, BtBinv, Sx. rewrite spec_single_block.
    change (rd Tzero [(1%R, 0%R)] 0) with (1%R, 0%R).
    cbn [Tsub Tadd Tmul Tzero conjugate C_scalar].
    unfold Csub, Cadd, Cmul, Cconj. cbn [fst snd]. f_equal; lra. }
  split_and!; [done | done |].
  rewrite HP, HS. change (rd Tzero [(0%R, 0%R)] 0) with (0%R, 0%R).
  intros Heq. injection Heq as Heq. lra.
Qed.
(** ** Gram blocks *)

Lemma tri_succ m : ((m + 1) * m) `div` 2 = (m * (m - 1)) `div` 2 + m.
Proof.
  replace ((m + 1) * m) with (m * (m - 1) + m * 2) by ring.
  by rewrite Z.div_add by lia.
Qed.

Lemma Bsq_col_next N m : Bsq_col N m m + (N - m) = Bsq_col N (m + 1) (m + 1).
Proof.
  unfold Bsq_col. replace ((m + 1) * (m + 1 - 1)) with ((m + 1) * m) by ring.
  rewrite tri_succ. lia.
Qed.

Lemma Bsq_col_off N m n : Bsq_col N m n = Bsq_col N m m + (n - m).
Proof. unfold Bsq_col. lia. Qed.

Lemma Bsq_col_0 N : Bsq_col N 0 0 = 0.
Proof. done. Qed.

(** [for (k = 0; k < n; k++) a[k] = v;] *)
Lemma fill_cells {A} (d v : A) n (a : list A) :
  n ≤ len a →
  let a' := for_loop 0 n (λ k a, wr a k v) a in
  len a' = len a
  ∧ (∀ k, 0 ≤ k < n → rd d a' k = v)
  ∧ (∀ k, ¬ 0 ≤ k < n → rd d a' k = rd d a k).
Proof.
  intros Hn. simpl. destruct (decide (0 ≤ n)) as [H0|H0].
  - set (Q := λ (i : Z) (a' : list A),
      len a' = len a
      ∧ (∀ k, 0 ≤ k < i → rd d a' k = v)
      ∧ (∀ k, ¬ 0 ≤ k < i → rd d a' k = rd d a k)).
    assert (Q n (for_loop 0 n (λ k a, wr a k v) a)) as HQ; [|exact HQ].
    apply (for_loop_inv Q); [done| |].
    + unfold Q. split_and!; [done | intros; lia | done].
    + intros i a' Hi (Hl & Hin & Hout). unfold Q. split_and!.
      * by rewrite len_wr.
      * intros k Hk. rewrite rd_wr by lia. case_decide; [done|]. apply Hin. lia.
      * intros k Hk. rewrite rd_wr_ne by lia. apply Hout. lia.
  - rewrite for_loop_nil by lia. split_and!; [done | intros; lia | done].
Qed.

Section BtbPoint.
Context {T F : Type} `{!Scalar T F}.
Context (N BsqCols : Z) (Bsq : list T) (k : Z).
Context (HN : 0 ≤ N).
Implicit Types (loc : list T).

Lemma btb_diag_spec loc :
  len loc = N * N →
  let loc' := btb_diag N BsqCols Bsq k loc in
  len loc' = len loc
  ∧ ∀ u v, 0 ≤ u < N → 0 ≤ v < N →
      (u = v →
         rd Tzero loc' (u * N + v)
         = Tadd (rd Tzero loc (u * N + v)) (btb_term N BsqCols Bsq k u v))
      ∧ (u ≠ v → rd Tzero loc' (u * N + v) = rd Tzero loc (u * N + v)).
Proof using HN.
  intros Hlen. simpl. unfold btb_diag.
  set (Q := λ (m : Z) (st : list T * Z * Z),
    st.1.2 = m * (N + 1)
    ∧ st.2 = k * BsqCols + Bsq_col N m m
    ∧ len st.1.1 = len loc
    ∧ ∀ u v, 0 ≤ u < N → 0 ≤ v < N →
        (u = v → u < m →
           rd Tzero st.1.1 (u * N + v)
           = Tadd (rd Tzero loc (u * N + v)) (btb_term N BsqCols Bsq k u v))
        ∧ (u ≠ v ∨ m ≤ u →
           rd Tzero st.1.1 (u * N + v) = rd Tzero loc (u * N + v))).
  match goal with |- context [for_loop 0 N ?body ?init] =>
    assert (Q N (for_loop 0 N body init)) as (_ & _ & Hl & Hcells) end.
  { apply (for_loop_inv Q); [done| |].
    - unfold Q. simpl. split_and!; [lia | rewrite Bsq_col_0; lia | done |].
      intros u v Hu Hv. split; [intros; lia | done].
    - intros m [[loc1 c1] c2] Hm (Hc1 & Hc2 & Hl & Hcells). simpl in *.
      subst c1 c2. unfold Q. simpl. split_and!.
      + lia.
      + rewrite <- Bsq_col_next. lia.
      + by rewrite len_wr.
      + intros u v Hu Hv.
        destruct (Hcells u v Hu Hv) as [Hdone Htodo].
        destruct (decide (u = m ∧ v = m)) as [[-> ->]|Hne].
        * split; [|intros; lia]. intros _ _.
          replace (m * (N + 1)) with (m * N + m) by lia.
          rewrite rd_wr_eq by (rewrite Hl, Hlen; nia).
          rewrite Htodo by lia. unfold btb_term. by rewrite decide_True.
        * rewrite rd_wr_ne.
          2: { replace (m * (N + 1)) with (m * N + m) by lia. intros Heq.
               apply Hne. apply (block_index_inj N); lia. }
          split; [intros; apply Hdone; lia | intros; apply Htodo; lia]. }
  split; [done|]. intros u v Hu Hv.
  destruct (Hcells u v Hu Hv) as [Hdone Htodo].
  split; [intros; apply Hdone; lia | intros; apply Htodo; by left].
Qed.
End BtbPoint.
Section BtbPoint2.
Context {T F : Type} `{!Scalar T F}.
Context (N BsqCols : Z) (Bsq : list T) (k : Z).
Context (HN : 0 ≤ N).
Implicit Types (loc : list T).

Lemma btb_offdiag_spec loc :
  len loc = N * N →
  let loc' := btb_offdiag N BsqCols Bsq k loc in
  len loc' = len loc
  ∧ ∀ u v, 0 ≤ u < N → 0 ≤ v < N →
      (u ≠ v →
         rd Tzero loc' (u * N + v)
         = Tadd (rd Tzero loc (u * N + v)) (btb_term N BsqCols Bsq k u v))
      ∧ (u = v → rd Tzero loc' (u * N + v) = rd Tzero loc (u * N + v)).
Proof using HN.
  intros Hlen. simpl. unfold btb_offdiag.
  (** the cells done when the outer loop is at [m] and the inner one at [n] *)
  set (D := λ (m n u v : Z),
    u ≠ v ∧ (Z.min u v < m ∨ (Z.min u v = m ∧ Z.max u v < n))).
  set (C := λ (m n : Z) (loc1 : list T),
    len loc1 = len loc
    ∧ ∀ u v, 0 ≤ u < N → 0 ≤ v < N →
        (D m n u v →
           rd Tzero loc1 (u * N + v)
           = Tadd (rd Tzero loc (u * N + v)) (btb_term N BsqCols Bsq k u v))
        ∧ (¬ D m n u v →
           rd Tzero loc1 (u * N + v) = rd Tzero loc (u * N + v))).
  set (Q := λ (m : Z) (st : list T * Z),
    st.2 = k * BsqCols + Bsq_col N m m ∧ C m 0 st.1).
  match goal with |- context [for_loop 0 N ?body ?init] =>
    assert (Q N (for_loop 0 N body init)) as (_ & Hl & Hcells) end.
  { apply (for_loop_inv Q); [done| |].
    - unfold Q, C, D. simpl. split_and!; [rewrite Bsq_col_0; lia | done |].
      intros u v Hu Hv. split; [intros; lia | done].
    - intros m [loc1 c2] Hm (Hc2 & HC). simpl in *. subst c2.
      unfold Q. simpl. split; [rewrite <- Bsq_col_next; lia|].
      set (Q2 := λ (n : Z) (st2 : list T * Z),
        st2.2 = n - m ∧ C m n st2.1).
      match goal with |- context [for_loop (m + 1) N ?body ?init] =>
        assert (Q2 N (for_loop (m + 1) N body init)) as (_ & Hl2 & Hcells2) end.
      { apply (for_loop_inv Q2); [lia| |].
        - unfold Q2. simpl. split; [lia|].
          destruct HC as [Hl1 Hc1]. split; [done|].
          intros u v Hu Hv. destruct (Hc1 u v Hu Hv) as [Hd Hn].
          split; intros HD; [apply Hd | apply Hn]; unfold D in *; lia.
        - intros n [loc2 cnt] Hn (Hcnt & Hl2 & Hc2). simpl in *. subst cnt.
          unfold Q2. simpl. split; [lia|]. split; [by rewrite !len_wr|].
          assert (m * N + n ≠ n * N + m) as Hab.
          { intros Heq. destruct (block_index_inj N m n n m); lia. }
          replace (k * BsqCols + Bsq_col N m m + (n - m))
            with (k * BsqCols + Bsq_col N m n) by (rewrite (Bsq_col_off N m n); lia).
          intros u v Hu Hv. destruct (Hc2 u v Hu Hv) as [Hd Hnd].
          destruct (decide (u = m ∧ v = n)) as [[-> ->]|Hne1].
          { split; [|intros HD; exfalso; apply HD; unfold D; lia].
            intros _. rewrite rd_wr_ne by lia.
            rewrite rd_wr_eq by (rewrite Hl2, Hlen; nia).
            rewrite Hnd by (unfold D; lia).
            unfold btb_term. rewrite decide_False by lia.
            by rewrite decide_True by lia. }
          destruct (decide (u = n ∧ v = m)) as [[-> ->]|Hne2].
          { split; [|intros HD; exfalso; apply HD; unfold D; lia].
            intros _. rewrite rd_wr_eq by (rewrite len_wr, Hl2, Hlen; nia).
            rewrite rd_wr_ne by lia.
            rewrite Hnd by (unfold D; lia).
            unfold btb_term. rewrite decide_False by lia.
            by rewrite decide_False by lia. }
          assert (u * N + v ≠ m * N + n) as H1.
          { intros Heq. apply Hne1. apply (block_index_inj N); lia. }
          assert (u * N + v ≠ n * N + m) as H2.
          { intros Heq. apply Hne2. apply (block_index_inj N); lia. }
          rewrite !rd_wr_ne by lia.
          split; intros HD; [apply Hd | apply Hnd]; unfold D in *; lia. }
      split; [done|]. intros u v Hu Hv.
      destruct (Hcells2 u v Hu Hv) as [Hd Hnd].
      split; intros HD; [apply Hd | apply Hnd]; unfold D in *; lia. }
  split; [done|]. intros u v Hu Hv.
  destruct (Hcells u v Hu Hv) as [Hd Hnd].
  split; intros HD; [apply Hd | apply Hnd]; unfold D; lia.
Qed.

(** Fine row [k] adds its term to every cell of [BtB_loc]. *)
Lemma btb_point_spec loc :
  len loc = N * N →
  let loc' := btb_offdiag N BsqCols Bsq k (btb_diag N BsqCols Bsq k loc) in
  len loc' = len loc
  ∧ ∀ u v, 0 ≤ u < N → 0 ≤ v < N →
      rd Tzero loc' (u * N + v)
      = Tadd (rd Tzero loc (u * N + v)) (btb_term N BsqCols Bsq k u v).
Proof using HN.
  intros Hlen. simpl.
  destruct (btb_diag_spec N BsqCols Bsq k HN loc Hlen) as [Hl1 Hc1].
  destruct (btb_offdiag_spec (btb_diag N BsqCols Bsq k loc)) as [Hl2 Hc2];
    [congruence|].
  split; [congruence|]. intros u v Hu Hv.
  destruct (Hc1 u v Hu Hv) as [Hd1 Ho1]. destruct (Hc2 u v Hu Hv) as [Ho2 Hd2].
  destruct (decide (u = v)) as [Heq|Hne].
  - rewrite Hd2 by done. by apply Hd1.
  - rewrite Ho2 by done. by rewrite Ho1.
Qed.
End BtbPoint2.
Section BtbRows.
Context {T F : Type} `{!Scalar T F}.
Context (N Cols BsqCols : Z) (Bsq : list T) (Sp Sj : list Z).
Context (HN : 0 ≤ N).
Implicit Types (loc x : list T).

(** The two loops over the stored positions of a row and over the columns
    of their blocks, as one pass over the support of the row. *)
Lemma support_fold {S} (g : Z → S → S) lo hi (s : S) :
  for_loop lo hi
    (λ j s, for_loop (rd 0 Sj j * Cols) (rd 0 Sj j * Cols + Cols) g s) s
  = foldl (λ s p, g (fine_row Cols Sj p) s) s
      (j ← seqZ lo (hi - lo); (λ c, (j, c)) <$> seqZ 0 Cols).
Proof.
  unfold for_loop. generalize (seqZ lo (hi - lo)). intros js. revert s.
  induction js as [|j js IH]; intros s; [done|].
  rewrite bind_cons, foldl_app. simpl. rewrite <- IH. f_equal.
  rewrite foldl_fmap.
  replace (rd 0 Sj j * Cols + Cols - rd 0 Sj j * Cols) with Cols by lia.
  rewrite <- (Z.add_0_r (rd 0 Sj j * Cols)) at 1.
  rewrite <- fmap_add_seqZ, foldl_fmap. done.
Qed.

Lemma btb_accumulate (l : list (Z * Z)) loc :
  len loc = N * N →
  let loc' := foldl (λ loc p,
                btb_offdiag N BsqCols Bsq (fine_row Cols Sj p)
                  (btb_diag N BsqCols Bsq (fine_row Cols Sj p) loc)) loc l in
  len loc' = len loc
  ∧ ∀ u v, 0 ≤ u < N → 0 ≤ v < N →
      rd Tzero loc' (u * N + v)
      = foldl (λ acc p,
                 Tadd acc (btb_term N BsqCols Bsq (fine_row Cols Sj p) u v))
          (rd Tzero loc (u * N + v)) l.
Proof using HN.
  revert loc. induction l as [|p l IH]; intros loc Hlen; [done|].
  simpl.
  destruct (btb_point_spec N BsqCols Bsq (fine_row Cols Sj p) HN loc Hlen)
    as [Hl1 Hc1].
  set (loc1 := btb_offdiag N BsqCols Bsq (fine_row Cols Sj p)
                 (btb_diag N BsqCols Bsq (fine_row Cols Sj p) loc)) in *.
  destruct (IH loc1) as [Hl2 Hc2]; [congruence|].
  split; [congruence|]. intros u v Hu Hv.
  rewrite Hc2 by done. by rewrite Hc1.
Qed.

Lemma btb_node_spec i s :
  0 ≤ i → len (btb_loc s) = N * N → i * (N * N) + N * N ≤ len (btb_x s) →
  let s' := btb_node N Cols Bsq BsqCols Sp Sj i s in
  len (btb_loc s') = N * N
  ∧ len (btb_x s') = len (btb_x s)
  ∧ (∀ u v, 0 ≤ u < N → 0 ≤ v < N →
       rd Tzero (btb_x s') (i * (N * N) + (u * N + v))
       = sum_list (λ p, btb_term N BsqCols Bsq (fine_row Cols Sj p) u v)
           (support Cols Sp i))
  ∧ (∀ c, ¬ i * (N * N) ≤ c < i * (N * N) + N * N →
       rd Tzero (btb_x s') c = rd Tzero (btb_x s) c).
Proof using HN.
  intros Hi Hlen Hroom. simpl. unfold btb_node. cbv zeta. simpl.
  destruct (fill_cells Tzero Tzero (N * N) (btb_loc s)) as (Hl0 & Hz & _); [lia|].
  set (loc0 := for_loop 0 (N * N) (λ k loc, wr loc k Tzero) (btb_loc s)) in *.
  rewrite support_fold.
  destruct (btb_accumulate (support Cols Sp i) loc0) as [Hl1 Hc1]; [congruence|].
  fold (support Cols Sp i).
  set (loc1 := foldl _ loc0 (support Cols Sp i)) in *.
  destruct (single_update_spec Tzero (N * N) (i * (N * N))
              (λ k _, rd Tzero loc1 k) (btb_x s)) as (Hlx & Hcx & Hox); [nia | lia |].
  split_and!; [congruence | done | | done].
  intros u v Hu Hv.
  pose proof (block_index_bounds N N u v Hu Hv) as Huv.
  rewrite Hcx by done. rewrite Hc1 by done. rewrite Hz by done. done.
Qed.
End BtbRows.
(** *** What [calc_BtB] returns *)

Lemma calc_BtB_from_spec {T F : Type} `{!Scalar T F} (loc : list T)
    (NullDim Nnodes ColsPerBlock : Z) (b : list T) (BsqCols : Z) (x : list T)
    (Sp Sj : list Z) :
  0 ≤ NullDim → len loc = NullDim * NullDim →
  Nnodes * (NullDim * NullDim) ≤ len x →
  let x' := calc_BtB_from loc NullDim Nnodes ColsPerBlock b BsqCols x Sp Sj in
  len x' = len x
  ∧ (∀ i u v, 0 ≤ i < Nnodes → 0 ≤ u < NullDim → 0 ≤ v < NullDim →
       rd Tzero x' (i * (NullDim * NullDim) + (u * NullDim + v))
       = sum_list
           (λ p, btb_term NullDim BsqCols b (fine_row ColsPerBlock Sj p) u v)
           (support ColsPerBlock Sp i))
  ∧ (∀ c, ¬ 0 ≤ c < Nnodes * (NullDim * NullDim) →
       rd Tzero x' c = rd Tzero x c).
Proof.
  intros HN Hloc Hroom. simpl. unfold calc_BtB_from.
  set (NN := NullDim * NullDim) in *.
  assert (0 ≤ NN) as HNN by (unfold NN; nia).
  destruct (decide (0 ≤ Nnodes)) as [Hn|Hn].
  2: { rewrite for_loop_nil by lia. simpl.
       split_and!; [done | intros; lia | done]. }
  set (Q := λ (i : Z) (s : btb_state T),
    len (btb_loc s) = NN
    ∧ len (btb_x s) = len x
    ∧ (∀ i' u v, 0 ≤ i' < i → 0 ≤ u < NullDim → 0 ≤ v < NullDim →
         rd Tzero (btb_x s) (i' * NN + (u * NullDim + v))
         = sum_list
             (λ p, btb_term NullDim BsqCols b (fine_row ColsPerBlock Sj p) u v)
             (support ColsPerBlock Sp i'))
    ∧ (∀ c, ¬ 0 ≤ c < i * NN → rd Tzero (btb_x s) c = rd Tzero x c)).
  assert (Q Nnodes
            (for_loop 0 Nnodes (btb_node NullDim ColsPerBlock b BsqCols Sp Sj)
               (BtbState loc x))) as (_ & Hl & Hc & Ho); [|by split_and!].
  apply (for_loop_inv Q); [done| |].
  - unfold Q. simpl. split_and!; [done | done | intros; lia | done].
  - intros i s Hi (Hll & Hlx & Hc & Ho).
    destruct (btb_node_spec NullDim ColsPerBlock BsqCols b Sp Sj HN i s)
      as (Hll' & Hlx' & Hc' & Ho'); [lia | done | fold NN; rewrite Hlx; nia |].
    fold NN in Hll', Hc', Ho'. unfold Q. split_and!; [done | congruence | |].
    + intros i' u v Hi' Hu Hv.
      pose proof (block_index_bounds NullDim NullDim u v Hu Hv) as Huv.
      fold NN in Huv.
      destruct (decide (i' = i)) as [->|Hne]; [by apply Hc'|].
      rewrite Ho' by nia. apply Hc; [lia | done | done].
    + intros c Hc0. rewrite Ho' by nia. apply Ho. nia.
Qed.

Lemma sum_list_conjugate {T F : Type} `{!Scalar T F} {A} (f : A → T) (l : list A) :
  conjugate Tzero = Tzero →
  (∀ a b : T, conjugate (Tadd a b) = Tadd (conjugate a) (conjugate b)) →
  conjugate (sum_list f l) = sum_list (λ p, conjugate (f p)) l.
Proof.
  intros H0 Hadd. unfold sum_list.
  assert (∀ acc, conjugate (foldl (λ a p, Tadd a (f p)) acc l)
                 = foldl (λ a p, Tadd a (conjugate (f p))) (conjugate acc) l)
    as Hgen.
  { induction l as [|p l IH]; intros acc; [done|].
    simpl. rewrite IH. by rewrite Hadd. }
  by rewrite Hgen, H0.
Qed.

(** *** Properties of [calc_BtB] *)

(** Block [i] of the output of [calc_BtB] holds, for [m <= n], at cell
    [n * NullDim + m] the sum over the fine rows in the support of block
    row [i] of column [(m, n)] of [b], and for [m < n] at cell
    [m * NullDim + n] the sum of the conjugates of the same entries; the
    sums run in storage order from zero. *)
Theorem calc_BtB_cells {T F : Type} `{!Scalar T F} (loc : list T)
    (NullDim Nnodes ColsPerBlock : Z) (b : list T) (BsqCols : Z) (x : list T)
    (Sp Sj : list Z) :
  0 ≤ NullDim → len loc = NullDim * NullDim →
  Nnodes * (NullDim * NullDim) ≤ len x →
  let x' := calc_BtB_from loc NullDim Nnodes ColsPerBlock b BsqCols x Sp Sj in
  ∀ i m n, 0 ≤ i < Nnodes → 0 ≤ m → m ≤ n → n < NullDim →
    rd Tzero x' (i * (NullDim * NullDim) + (n * NullDim + m))
    = sum_list
        (λ p, rd Tzero b (fine_row ColsPerBlock Sj p * BsqCols
                          + Bsq_col NullDim m n))
        (support ColsPerBlock Sp i)
    ∧ (m < n →
       rd Tzero x' (i * (NullDim * NullDim) + (m * NullDim + n))
       = sum_list
           (λ p, conjugate (rd Tzero b (fine_row ColsPerBlock Sj p * BsqCols
                                        + Bsq_col NullDim m n)))
           (support ColsPerBlock Sp i)).
Proof.
  intros HN Hloc Hroom x' i m n Hi Hm Hmn Hn.
  destruct (calc_BtB_from_spec loc NullDim Nnodes ColsPerBlock b BsqCols x Sp Sj
              HN Hloc Hroom) as (_ & Hc & _).
  fold x' in Hc. split.
  - rewrite Hc by lia. apply sum_list_ext_in. intros p _.
    unfold btb_term. destruct (decide (n = m)) as [->|Hne]; [done|].
    by rewrite decide_False by lia.
  - intros Hlt. rewrite Hc by lia. apply sum_list_ext_in. intros p _.
    unfold btb_term. rewrite decide_False by lia. by rewrite decide_True by lia.
Qed.

Lemma calc_BtB_cells_witness :
  let x' := calc_BtB_from (T:=Z) (F:=Z) [5; 5; 5; 5] 2 1 1
              [1; 2; 4; 9; 12; 16] 3 [7; 7; 7; 7; 7] [0; 2] [0; 1] in
  x' = [10; 14; 14; 20; 7]
  ∧ rd 0 x' (0 * (2 * 2) + (1 * 2 + 0))
    = sum_list (λ p, rd 0 [1; 2; 4; 9; 12; 16]
                       (fine_row 1 [0; 1] p * 3 + Bsq_col 2 0 1))
        (support 1 [0; 2] 0).
Proof.
  intros x'. split; [vm_compute; reflexivity|].
  refine (proj1 (calc_BtB_cells (T:=Z) (F:=Z) [5; 5; 5; 5] 2 1 1
                   [1; 2; 4; 9; 12; 16] 3 [7; 7; 7; 7; 7] [0; 2] [0; 1]
                   _ _ _ 0 0 1 _ _ _ _));
    [lia | vm_compute; reflexivity | vm_compute; discriminate | lia..].
Defined.

(** [calc_BtB] overwrites the blocks of its nodes: they depend neither on
    what [x] held on entry, which need not be zeros, nor on the workspace;
    the cells of [x] after the last block keep their values. *)
Theorem calc_BtB_overwrites {T F : Type} `{!Scalar T F} (loc1 loc2 : list T)
    (NullDim Nnodes ColsPerBlock : Z) (b : list T) (BsqCols : Z)
    (x1 x2 : list T) (Sp Sj : list Z) :
  0 ≤ NullDim →
  len loc1 = NullDim * NullDim → len loc2 = NullDim * NullDim →
  Nnodes * (NullDim * NullDim) ≤ len x1 →
  Nnodes * (NullDim * NullDim) ≤ len x2 →
  let r1 := calc_BtB_from loc1 NullDim Nnodes ColsPerBlock b BsqCols x1 Sp Sj in
  let r2 := calc_BtB_from loc2 NullDim Nnodes ColsPerBlock b BsqCols x2 Sp Sj in
  (∀ i u v, 0 ≤ i < Nnodes → 0 ≤ u < NullDim → 0 ≤ v < NullDim →
     rd Tzero r1 (i * (NullDim * NullDim) + (u * NullDim + v))
     = rd Tzero r2 (i * (NullDim * NullDim) + (u * NullDim + v)))
  ∧ len r1 = len x1
  ∧ (∀ c, Nnodes * (NullDim * NullDim) ≤ c → rd Tzero r1 c = rd Tzero x1 c).
Proof.
  intros HN Hl1 Hl2 Hr1 Hr2 r1 r2.
  destruct (calc_BtB_from_spec loc1 NullDim Nnodes ColsPerBlock b BsqCols x1 Sp Sj
              HN Hl1 Hr1) as (Hlen & Hc1 & Ho1).
  destruct (calc_BtB_from_spec loc2 NullDim Nnodes ColsPerBlock b BsqCols x2 Sp Sj
              HN Hl2 Hr2) as (_ & Hc2 & _).
  fold r1 in Hlen, Hc1, Ho1. fold r2 in Hc2. split_and!.
  - intros i u v Hi Hu Hv. by rewrite Hc1, Hc2.
  - done.
  - intros c Hc. apply Ho1. lia.
Qed.

Lemma calc_BtB_overwrites_witness :
  let r1 := calc_BtB_from (T:=Z) (F:=Z) [5; 5; 5; 5] 2 1 1
              [1; 2; 4; 9; 12; 16] 3 [7; 7; 7; 7; 7] [0; 2] [0; 1] in
  let r2 := calc_BtB_from (T:=Z) (F:=Z) [0; 0; 0; 0] 2 1 1
              [1; 2; 4; 9; 12; 16] 3 [0; 0; 0; 0] [0; 2] [0; 1] in
  r1 = [10; 14; 14; 20; 7] ∧ r2 = [10; 14; 14; 20]
  ∧ rd 0 r1 (0 * (2 * 2) + (1 * 2 + 1)) = rd 0 r2 (0 * (2 * 2) + (1 * 2 + 1)).
Proof.
  intros r1 r2. split; [vm_compute; reflexivity|].
  split; [vm_compute; reflexivity|].
  refine (proj1 (calc_BtB_overwrites (T:=Z) (F:=Z) [5; 5; 5; 5] [0; 0; 0; 0]
                   2 1 1 [1; 2; 4; 9; 12; 16] 3 [7; 7; 7; 7; 7] [0; 0; 0; 0]
                   [0; 2] [0; 1] _ _ _ _ _) 0 1 1 _ _ _);
    [lia | vm_compute; reflexivity | vm_compute; reflexivity
     | vm_compute; discriminate | vm_compute; discriminate | lia..].
Defined.

(** Each block that [calc_BtB] writes is Hermitian wherever conjugation is
    additive: the cell [m * NullDim + n] is the conjugate of the cell
    [n * NullDim + m] for [m < n]. *)
Theorem calc_BtB_hermitian {T F : Type} `{!Scalar T F} (loc : list T)
    (NullDim Nnodes ColsPerBlock : Z) (b : list T) (BsqCols : Z) (x : list T)
    (Sp Sj : list Z) :
  0 ≤ NullDim → len loc = NullDim * NullDim →
  Nnodes * (NullDim * NullDim) ≤ len x →
  conjugate Tzero = Tzero →
  (∀ a c : T, conjugate (Tadd a c) = Tadd (conjugate a) (conjugate c)) →
  let x' := calc_BtB_from loc NullDim Nnodes ColsPerBlock b BsqCols x Sp Sj in
  ∀ i m n, 0 ≤ i < Nnodes → 0 ≤ m → m < n → n < NullDim →
    rd Tzero x' (i * (NullDim * NullDim) + (m * NullDim + n))
    = conjugate (rd Tzero x' (i * (NullDim * NullDim) + (n * NullDim + m))).
Proof.
  intros HN Hloc Hroom H0 Hadd x' i m n Hi Hm Hmn Hn.
  destruct (calc_BtB_from_spec loc NullDim Nnodes ColsPerBlock b BsqCols x Sp Sj
              HN Hloc Hroom) as (_ & Hc & _).
  fold x' in Hc. rewrite !Hc by lia.
  rewrite sum_list_conjugate by done.
  apply sum_list_ext_in. intros p _. unfold btb_term.
  repeat case_decide; try lia; done.
Qed.

Lemma calc_BtB_hermitian_witness :
  let x' := calc_BtB_from (T:=Z) (F:=Z) [5; 5; 5; 5] 2 1 1
              [1; 2; 4; 9; 12; 16] 3 [7; 7; 7; 7; 7] [0; 2] [0; 1] in
  rd 0 x' (0 * (2 * 2) + (0 * 2 + 1))
  = conjugate (rd 0 x' (0 * (2 * 2) + (1 * 2 + 0))).
Proof.
  intros x'.
  refine (calc_BtB_hermitian (T:=Z) (F:=Z) [5; 5; 5; 5] 2 1 1
            [1; 2; 4; 9; 12; 16] 3 [7; 7; 7; 7; 7] [0; 2] [0; 1]
            _ _ _ _ _ 0 0 1 _ _ _ _);
    [lia | vm_compute; reflexivity | vm_compute; discriminate | reflexivity
     | intros; reflexivity | lia..].
Defined.

(** When [b] holds the products [conjugate(B[k,m]) * B[k,n]] of the
    candidates, block [i] of the output of [calc_BtB] is the Gram matrix
    [B_i^H * B_i] of the candidates restricted to the support of block row
    [i], in column-major order: entry [(m, n)], [m <= n], is at cell
    [n * NullDim + m]; the entries below the diagonal are Gram entries too
    where [conjugate (conjugate a * c)] is [conjugate c * a]. *)
Theorem calc_BtB_gram {T F : Type} `{!Scalar T F} (loc : list T)
    (NullDim Nnodes ColsPerBlock n_bcol : Z) (b B : list T) (BsqCols : Z)
    (x : list T) (Sp Sj : list Z) :
  0 ≤ NullDim → len loc = NullDim * NullDim →
  Nnodes * (NullDim * NullDim) ≤ len x →
  csr_wf Nnodes n_bcol Sp Sj →
  (∀ k m n, 0 ≤ k < n_bcol * ColsPerBlock → 0 ≤ m → m ≤ n → n < NullDim →
     rd Tzero b (k * BsqCols + Bsq_col NullDim m n)
     = Tmul (conjugate (rd Tzero B (k * NullDim + m)))
            (rd Tzero B (k * NullDim + n))) →
  let x' := calc_BtB_from loc NullDim Nnodes ColsPerBlock b BsqCols x Sp Sj in
  ∀ i m n, 0 ≤ i < Nnodes → 0 ≤ m → m ≤ n → n < NullDim →
    rd Tzero x' (i * (NullDim * NullDim) + (n * NullDim + m))
    = gram_entry ColsPerBlock NullDim Sp Sj B i m n
    ∧ ((∀ a c : T, conjugate (Tmul (conjugate a) c) = Tmul (conjugate c) a) →
       rd Tzero x' (i * (NullDim * NullDim) + (m * NullDim + n))
       = gram_entry ColsPerBlock NullDim Sp Sj B i n m).
Proof.
  intros HN Hloc Hroom Hwf Hb x' i m n Hi Hm Hmn Hn.
  destruct (calc_BtB_from_spec loc NullDim Nnodes ColsPerBlock b BsqCols x Sp Sj
              HN Hloc Hroom) as (_ & Hc & _).
  fold x' in Hc.
  assert (∀ p, p ∈ support ColsPerBlock Sp i →
            0 ≤ fine_row ColsPerBlock Sj p < n_bcol * ColsPerBlock) as Hfine.
  { intros p Hp. apply elem_of_support in Hp as [Hj Hcol].
    pose proof (wf_col_in_row Hwf i p.1 Hi Hj). unfold fine_row. nia. }
  assert (rd Tzero x' (i * (NullDim * NullDim) + (n * NullDim + m))
          = gram_entry ColsPerBlock NullDim Sp Sj B i m n) as Hup.
  { rewrite Hc by lia. unfold gram_entry. apply sum_list_ext_in. intros p Hp.
    specialize (Hfine p Hp). unfold btb_term, cand. fold (fine_row ColsPerBlock Sj p).
    destruct (decide (n = m)) as [->|Hne]; [by rewrite Hb by lia|].
    rewrite decide_False by lia. by rewrite Hb by lia. }
  split; [done|]. intros Hmul.
  destruct (decide (m = n)) as [->|Hne]; [done|].
  rewrite Hc by lia. unfold gram_entry. apply sum_list_ext_in. intros p Hp.
  specialize (Hfine p Hp). unfold btb_term, cand. fold (fine_row ColsPerBlock Sj p).
  rewrite decide_False by lia. rewrite decide_True by lia.
  rewrite Hb by lia. by rewrite Hmul.
Qed.

Lemma calc_BtB_gram_witness :
  let x' := calc_BtB_from (T:=Z) (F:=Z) [5; 5; 5; 5] 2 1 1
              [1; 2; 4; 9; 12; 16] 3 [7; 7; 7; 7; 7] [0; 2] [0; 1] in
  csr_wf 1 2 [0; 2] [0; 1]
  ∧ rd 0 x' (0 * (2 * 2) + (1 * 2 + 0))
    = gram_entry (T:=Z) 1 2 [0; 2] [0; 1] [1; 2; 3; 4] 0 0 1.
Proof.
  intros x'.
  assert (csr_wf 1 2 [0; 2] [0; 1]) as Hwf
    by (apply csr_ok_wf; vm_compute; reflexivity).
  split; [exact Hwf|].
  refine (proj1 (calc_BtB_gram (T:=Z) (F:=Z) [5; 5; 5; 5] 2 1 1 2
                   [1; 2; 4; 9; 12; 16] [1; 2; 3; 4] 3 [7; 7; 7; 7; 7]
                   [0; 2] [0; 1] _ _ _ Hwf _ 0 0 1 _ _ _ _));
    [lia | vm_compute; reflexivity | vm_compute; discriminate | | lia..].
  intros k m n Hk Hm Hmn Hn.
  assert (k = 0 ∨ k = 1) as [-> | ->] by lia;
    (assert (m = 0 ∨ m = 1) as [-> | ->] by lia);
    (assert (n = 0 ∨ n = 1) as [-> | ->] by lia);
    try lia; vm_compute; reflexivity.
Defined.

(** A node whose block row stores nothing, or a pattern with blocks of no
    column, gets a zero block. *)
Theorem calc_BtB_empty_row {T F : Type} `{!Scalar T F} (loc : list T)
    (NullDim Nnodes ColsPerBlock : Z) (b : list T) (BsqCols : Z) (x : list T)
    (Sp Sj : list Z) :
  0 ≤ NullDim → len loc = NullDim * NullDim →
  Nnodes * (NullDim * NullDim) ≤ len x →
  let x' := calc_BtB_from loc NullDim Nnodes ColsPerBlock b BsqCols x Sp Sj in
  ∀ i u v, 0 ≤ i < Nnodes → 0 ≤ u < NullDim → 0 ≤ v < NullDim →
    rd 0 Sp (i + 1) ≤ rd 0 Sp i ∨ ColsPerBlock ≤ 0 →
    rd Tzero x' (i * (NullDim * NullDim) + (u * NullDim + v)) = Tzero.
Proof.
  intros HN Hloc Hroom x' i u v Hi Hu Hv Hempty.
  destruct (calc_BtB_from_spec loc NullDim Nnodes ColsPerBlock b BsqCols x Sp Sj
              HN Hloc Hroom) as (_ & Hc & _).
  fold x' in Hc. rewrite Hc by done.
  assert (support ColsPerBlock Sp i = []) as ->; [|done].
  unfold support. destruct Hempty as [He|He].
  - by rewrite (seqZ_nil (rd 0 Sp i)) by lia.
  - rewrite (seqZ_nil 0 ColsPerBlock) by lia.
    induction (seqZ _ _) as [|j js IH]; [done|].
    by rewrite bind_cons, fmap_nil, IH.
Qed.

Lemma calc_BtB_empty_row_witness :
  let x' := calc_BtB (T:=Z) (F:=Z) 2 2 2 [1; 2; 4; 9; 12; 16] 3
              [7; 7; 7; 7; 7; 7; 7; 7; 7] [0; 1; 1] [0] in
  x' = [10; 14; 14; 20; 0; 0; 0; 0; 7]
  ∧ rd 0 x' (1 * (2 * 2) + (1 * 2 + 0)) = 0.
Proof.
  intros x'. split; [vm_compute; reflexivity|].
  refine (calc_BtB_empty_row (T:=Z) (F:=Z) [0; 0; 0; 0] 2 2 2
            [1; 2; 4; 9; 12; 16] 3 [7; 7; 7; 7; 7; 7; 7; 7; 7] [0; 1; 1] [0]
            _ _ _ 1 1 0 _ _ _ _);
    [lia | vm_compute; reflexivity | vm_compute; discriminate | lia | lia | lia
     | left; vm_compute; discriminate].
Defined.
(** ** More on the tentative prolongator *)

Section FitFrames.
Context {T F : Type} `{!Scalar T F} `{!RealScalar T F}.
Context (n_row n_col K1 K2 : Z) (Ap Ai : list Z) (tol : F).
Context (HK1 : 0 ≤ K1) (HK2 : 0 ≤ K2) (Hwf : csr_wf n_col n_row Ap Ai).
Implicit Types (s : fc_state T).

Let start (j : Z) : Z := K1 * K2 * rd 0 Ap j.
Let rows (j : Z) : Z := K1 * (rd 0 Ap (j + 1) - rd 0 Ap j).
Let column (j : Z) : Z → fc_state T → fc_state T :=
  fc_column tol K2 (start j) (start j + rows j * K2) (j * K2 * K2).
Let room s : Prop :=
  K1 * K2 * rd 0 Ap n_col ≤ len (fc_Ax s) ∧ n_col * K2 * K2 ≤ len (fc_R s).

(** The cells that the orthonormalization may write. *)
Let Ax_written (c : Z) : Prop :=
  ∃ j bj k, 0 ≤ j < n_col ∧ 0 ≤ bj < K2 ∧ 0 ≤ k < rows j
            ∧ c = start j + bj + k * K2.
Let R_written (c : Z) : Prop :=
  ∃ j bi bj, 0 ≤ j < n_col ∧ 0 ≤ bi ≤ bj ∧ bj < K2
             ∧ c = j * K2 * K2 + (K2 * bi + bj).

(** Two states hold the same values outside those cells, and the arrays
    have kept their lengths. *)
Let same_elsewhere s s' : Prop :=
  len (fc_Ax s') = len (fc_Ax s) ∧ len (fc_R s') = len (fc_R s)
  ∧ (∀ c, ¬ Ax_written c → rd Tzero (fc_Ax s') c = rd Tzero (fc_Ax s) c)
  ∧ (∀ c, ¬ R_written c → rd Tzero (fc_R s') c = rd Tzero (fc_R s) c).

Lemma same_elsewhere_refl s : same_elsewhere s s.
Proof. by split_and!. Qed.

Lemma same_elsewhere_trans s1 s2 s3 :
  same_elsewhere s1 s2 → same_elsewhere s2 s3 → same_elsewhere s1 s3.
Proof.
  intros (HlA & HlR & HA & HR) (HlA' & HlR' & HA' & HR').
  split_and!; [congruence | congruence | |].
  - intros c Hc. by rewrite HA', HA.
  - intros c Hc. by rewrite HR', HR.
Qed.

Lemma column_elsewhere j bj s :
  0 ≤ j < n_col → 0 ≤ bj < K2 → room s →
  room (column j bj s) ∧ same_elsewhere s (column j bj s).
Proof using HK1 HK2 Hwf.
  intros Hj Hbj [HrA HrR].
  destruct (block_in_room n_row n_col K1 K2 Ap Ai HK1 HK2 Hwf j Hj)
    as (Hs0 & Hn0 & Hend).
  fold (start j) (rows j) in Hs0, Hn0, Hend.
  destruct (fc_column_spec tol K2 (start j) (rows j) (j * K2 * K2) bj s)
    as (HlA & HlR & _ & _ & _ & HfA & HfR); [done | done | lia | nia | nia |].
  fold (column j) in *. split; [unfold room; by rewrite HlA, HlR|].
  split_and!; [done | done | |].
  - intros c Hc. apply HfA. intros k Hk ->. apply Hc. by exists j, bj, k.
  - intros c Hc. apply HfR. intros bi Hbi ->. apply Hc.
    exists j, bi, bj. split_and!; (done || lia).
Qed.

Lemma orthonormalize_elsewhere s :
  room s →
  same_elsewhere s (for_loop 0 n_col (fc_aggregate tol K1 K2 Ap) s).
Proof using HK1 HK2 Hwf.
  intros Hroom. pose proof (wf_rows _ _ _ _ Hwf) as Hn.
  assert (room (for_loop 0 n_col (fc_aggregate tol K1 K2 Ap) s)
          ∧ same_elsewhere s (for_loop 0 n_col (fc_aggregate tol K1 K2 Ap) s))
    as [_ Hsame]; [|done].
  apply (for_loop_inv (λ _ s', room s' ∧ same_elsewhere s s')); [done| |].
  - split; [done | apply same_elsewhere_refl].
  - intros j s' Hj [Hroom' Hsame'].
    rewrite fc_aggregate_columns.
    fold (start j) (rows j) (column j).
    apply (for_loop_inv (λ _ s'', room s'' ∧ same_elsewhere s s'')); [done|done|].
    intros bj s'' Hbj [Hroom'' Hsame''].
    destruct (column_elsewhere j bj s'' Hj Hbj Hroom'') as [? ?].
    split; [done|]. by apply (same_elsewhere_trans _ s'').
Qed.

(** A cell below the diagonal of a block of [R] is never written. *)
Lemma lower_not_written j bi bj :
  0 ≤ j < n_col → 0 ≤ bj → bj < bi → bi < K2 →
  ¬ R_written (j * K2 * K2 + (K2 * bi + bj)).
Proof.
  intros Hj Hbj Hlt Hbi (j' & bi' & bj' & Hj' & Hbi' & Hbj' & Heq).
  destruct (decide (j = j')) as [<-|Hne].
  - destruct (block_index_inj K2 bi bj bi' bj'); lia.
  - revert Heq. replace (j * K2 * K2) with (j * (K2 * K2)) by ring.
    replace (j' * K2 * K2) with (j' * (K2 * K2)) by ring.
    apply window_disjoint; [done | nia | nia].
Qed.

Lemma beyond_not_written_R c : n_col * K2 * K2 ≤ c → ¬ R_written c.
Proof. intros Hc (j & bi & bj & Hj & Hbi & Hbj & ->). nia. Qed.

Lemma outside_not_written_Ax c :
  ¬ K1 * K2 * rd 0 Ap 0 ≤ c < K1 * K2 * rd 0 Ap n_col → ¬ Ax_written c.
Proof using HK1 HK2 Hwf.
  intros Hc (j & bj & k & Hj & Hbj & Hk & ->). apply Hc.
  destruct (wf_row_bounds Hwf j Hj) as (H1 & H2 & H3).
  pose proof (block_end K1 K2 Ap j) as He. simpl in He.
  unfold start, rows in *.
  assert (0 ≤ K1 * K2) as HBS by nia.
  assert (K1 * K2 * rd 0 Ap 0 ≤ K1 * K2 * rd 0 Ap j) by nia.
  assert (K1 * K2 * rd 0 Ap (j + 1) ≤ K1 * K2 * rd 0 Ap n_col) by nia.
  assert ((k + 1) * K2 ≤ K1 * (rd 0 Ap (j + 1) - rd 0 Ap j) * K2) by nia.
  nia.
Qed.

(** [std::copy] of a block. *)
Lemma copy_block_spec (B : list T) b0 n Ax a0 :
  0 ≤ a0 → a0 + n ≤ len Ax →
  let Ax' := copy_block B b0 n Ax a0 in
  len Ax' = len Ax
  ∧ (∀ k, 0 ≤ k < n → rd Tzero Ax' (a0 + k) = rd Tzero B (b0 + k))
  ∧ (∀ c, ¬ a0 ≤ c < a0 + n → rd Tzero Ax' c = rd Tzero Ax c).
Proof.
  intros Ha0 Hlen. unfold copy_block.
  apply (single_update_spec Tzero n a0 (λ k _, rd Tzero B (b0 + k)) Ax); lia.
Qed.

(** The copy of the candidates into [Ax]. *)
Lemma fc_copy_spec (B Ax : list T) :
  K1 * K2 * rd 0 Ap n_col ≤ len Ax →
  let Ax' := fc_copy n_col (K1 * K2) Ap Ai B Ax in
  len Ax' = len Ax
  ∧ (∀ ii k, rd 0 Ap 0 ≤ ii < rd 0 Ap n_col → 0 ≤ k < K1 * K2 →
       rd Tzero Ax' (K1 * K2 * ii + k) = rd Tzero B (K1 * K2 * rd 0 Ai ii + k))
  ∧ (∀ c, ¬ K1 * K2 * rd 0 Ap 0 ≤ c < K1 * K2 * rd 0 Ap n_col →
       rd Tzero Ax' c = rd Tzero Ax c).
Proof using HK1 HK2 Hwf.
  intros Hroom. simpl. unfold fc_copy.
  pose proof (wf_rows _ _ _ _ Hwf) as Hn.
  pose proof (wf_Ap_0 _ _ _ _ Hwf) as H0.
  set (BS := K1 * K2) in *. assert (0 ≤ BS) as HBS by (unfold BS; nia).
  (** the blocks before position [cur] are copied *)
  set (Q := λ (cur : Z) (Ax' : list T),
    len Ax' = len Ax
    ∧ (∀ ii k, rd 0 Ap 0 ≤ ii < cur → 0 ≤ k < BS →
         rd Tzero Ax' (BS * ii + k) = rd Tzero B (BS * rd 0 Ai ii + k))
    ∧ (∀ c, ¬ BS * rd 0 Ap 0 ≤ c < BS * cur →
         rd Tzero Ax' c = rd Tzero Ax c)).
  match goal with |- context [for_loop 0 n_col ?body Ax] =>
    assert (Q (rd 0 Ap n_col) (for_loop 0 n_col body Ax)) as HQ; [|exact HQ] end.
  apply (for_loop_inv (λ j Ax', Q (rd 0 Ap j) Ax')); [done| |].
  - unfold Q. split_and!; [done | intros; lia | done].
  - intros j Ax1 Hj HQ.
    destruct (wf_row_bounds Hwf j Hj) as (Hb1 & Hb2 & Hb3).
    match goal with |- context [for_loop _ _ ?body ?init] =>
      assert (let st := for_loop (rd 0 Ap j) (rd 0 Ap (j + 1)) body init in
              st.2 = BS * rd 0 Ap (j + 1) ∧ Q (rd 0 Ap (j + 1)) st.1)
        as [_ HQ']; [|exact HQ'] end.
    apply (for_loop_inv (λ ii (st : list T * Z), st.2 = BS * ii ∧ Q ii st.1));
      [done | done |].
    intros ii [Ax2 p] Hii [Hp (Hl & Hin & Hout)]. simpl in *. subst p.
    destruct (copy_block_spec B (BS * rd 0 Ai ii) BS Ax2 (BS * ii))
      as (Hl' & Hin' & Hout'); [nia | rewrite Hl; nia |].
    split; [lia|]. unfold Q. split_and!; [congruence | |].
    + intros ii' k Hii' Hk. destruct (decide (ii' = ii)) as [->|Hne].
      * by apply Hin'.
      * rewrite Hout' by nia. apply Hin; [lia | done].
    + intros c Hc. rewrite Hout' by nia. apply Hout. nia.
Qed.
End FitFrames.
Section FitColumnValues.
Context {T F : Type} `{!Scalar T F} `{!RealScalar T F}.
Context (tol : F) (K2 a0 n r0 : Z).
Implicit Types (s : fc_state T) (Ax : list T).

(** Orthogonalizing against column [bi] subtracts from each entry of column
    [bj] the coefficient times the entry of column [bi] in the same row. *)
Lemma fc_orthogonalize_cells bj bi s k :
  0 ≤ bi → bi < bj → bj < K2 → 0 ≤ a0 → a0 + n * K2 ≤ len (fc_Ax s) →
  0 ≤ k < n →
  rd Tzero (fc_Ax (fc_orthogonalize K2 a0 (a0 + n * K2) r0 bj bi s))
    (a0 + bj + k * K2)
  = Tsub (rd Tzero (fc_Ax s) (a0 + bj + k * K2))
         (Tmul (fc_dot K2 a0 (a0 + n * K2) bj bi (fc_Ax s))
               (rd Tzero (fc_Ax s) (a0 + bi + k * K2))).
Proof.
  intros Hbi Hlt Hbj Ha0 Hlen Hk. unfold fc_orthogonalize. cbn [fc_Ax].
  set (dp := fc_dot K2 a0 (a0 + n * K2) bj bi (fc_Ax s)).
  replace (a0 + bj + k * K2) with ((a0 + bi + k * K2) + (bj - bi)) by lia.
  apply (foldl_wr_spec Tzero (λ p, p + (bj - bi))
           (λ p a, Tsub (rd Tzero a (p + (bj - bi))) (Tmul dp (rd Tzero a p)))).
  - apply NoDup_fmap_2; [intros p q ?; lia|].
    apply NoDup_strided_block. lia.
  - intros p Hp. apply elem_of_strided_block in Hp as (k' & Hk' & ->); [|lia].
    nia.
  - intros p a' Hp Ha'. simpl.
    apply elem_of_strided_block in Hp as (k' & Hk' & ->); [|lia].
    rewrite (Ha' (a0 + bi + k' * K2 + (bj - bi))) by (by left).
    rewrite (Ha' (a0 + bi + k' * K2)); [done|]. right.
    intros Hin. apply list_elem_of_fmap in Hin as (q & Hq & Hqin).
    apply elem_of_strided_block in Hqin as (k'' & Hk'' & ->); [|lia].
    assert (bi = bj); [|lia].
    apply (block_index_inj K2 k' bi k'' bj); lia.
  - apply elem_of_strided_block; [lia|]. by exists k.
Qed.

(** After the orthogonalization against the columns before [bj], an entry
    of column [bj] is its former value from which the recorded coefficients
    times the entries of those columns have been subtracted in turn. *)
Lemma fc_orthogonalize_loop_cells bj s :
  0 ≤ bj < K2 → 0 ≤ a0 → a0 + n * K2 ≤ len (fc_Ax s) →
  0 ≤ r0 → r0 + K2 * K2 ≤ len (fc_R s) →
  let s1 := for_loop 0 bj (fc_orthogonalize K2 a0 (a0 + n * K2) r0 bj) s in
  ∀ k, 0 ≤ k < n →
    rd Tzero (fc_Ax s1) (a0 + bj + k * K2)
    = foldl (λ acc bi,
               Tsub acc (Tmul (rd Tzero (fc_R s1) (r0 + (K2 * bi + bj)))
                              (rd Tzero (fc_Ax s) (a0 + bi + k * K2))))
        (rd Tzero (fc_Ax s) (a0 + bj + k * K2)) (seqZ 0 bj).
Proof.
  intros Hbj Ha0 HlenA Hr0 HlenR. simpl.
  destruct (fc_orthogonalize_loop K2 a0 n r0 bj s Hbj Hr0 HlenR)
    as (_ & _ & _ & _ & Hrec).
  set (orth := fc_orthogonalize K2 a0 (a0 + n * K2) r0 bj) in *.
  set (d := λ bi, fc_dot K2 a0 (a0 + n * K2) bj bi
                    (fc_Ax (for_loop 0 bi orth s))).
  set (Q := λ (i : Z) (s' : fc_state T),
    s' = for_loop 0 i orth s
    ∧ len (fc_Ax s') = len (fc_Ax s)
    ∧ (∀ c, (∀ k, 0 ≤ k < n → c ≠ a0 + bj + k * K2) →
         rd Tzero (fc_Ax s') c = rd Tzero (fc_Ax s) c)
    ∧ (∀ k, 0 ≤ k < n →
         rd Tzero (fc_Ax s') (a0 + bj + k * K2)
         = foldl (λ acc bi,
                    Tsub acc (Tmul (d bi) (rd Tzero (fc_Ax s) (a0 + bi + k * K2))))
             (rd Tzero (fc_Ax s) (a0 + bj + k * K2)) (seqZ 0 i))).
  assert (Q bj (for_loop 0 bj orth s)) as (_ & _ & _ & Hcells).
  { apply (for_loop_inv Q); [lia| |].
    - unfold Q. split_and!; done.
    - intros i s' Hi (Hs' & Hl & Hf & Hc). unfold Q. split_and!.
      + rewrite for_loop_snoc by lia. by rewrite <- Hs'.
      + destruct (fc_orthogonalize_len K2 a0 n r0 bj i s') as [Hl' _].
        unfold orth. by rewrite Hl'.
      + intros c Hc'. unfold orth.
        rewrite fc_orthogonalize_frame by (done || lia). by apply Hf.
      + intros k Hk. unfold orth.
        rewrite fc_orthogonalize_cells by (done || lia).
        rewrite seqZ_app by lia. rewrite foldl_app.
        rewrite (seqZ_cons _ 1) by lia. rewrite (seqZ_nil _ (Z.pred 1)) by lia.
        simpl. rewrite Z.add_0_l. rewrite Hc by done.
        rewrite (Hf (a0 + i + k * K2)).
        2: { intros k' Hk' Heq. assert (i = bj); [|lia].
             apply (block_index_inj K2 k i k' bj); lia. }
        unfold d. by rewrite <- Hs'. }
  intros k Hk. rewrite Hcells by done.
  apply foldl_ext_in. intros acc bi Hbi. apply elem_of_seqZ in Hbi.
  unfold d. by rewrite Hrec by lia.
Qed.
End FitColumnValues.
Section FitGlobalValues.
Context {T F : Type} `{!Scalar T F} `{!RealScalar T F}.
Context (n_row n_col K1 K2 : Z) (Ap Ai : list Z) (tol : F).
Context (HK1 : 0 ≤ K1) (HK2 : 0 ≤ K2) (Hwf : csr_wf n_col n_row Ap Ai).
Context (Ax B R : list T).
Context (HlA : K1 * K2 * rd 0 Ap n_col ≤ len Ax) (HlR : n_col * K2 * K2 ≤ len R).

Let start (j : Z) : Z := K1 * K2 * rd 0 Ap j.
Let rows (j : Z) : Z := K1 * (rd 0 Ap (j + 1) - rd 0 Ap j).
Let out := fit_candidates_common n_row n_col K1 K2 Ap Ai Ax B R tol.

(** What the orthonormalization never writes. *)
Lemma fit_candidates_elsewhere :
  len (fc_Ax out) = len Ax ∧ len (fc_R out) = len R
  ∧ (∀ c, ¬ K1 * K2 * rd 0 Ap 0 ≤ c < K1 * K2 * rd 0 Ap n_col →
       rd Tzero (fc_Ax out) c = rd Tzero Ax c)
  ∧ (∀ c, n_col * K2 * K2 ≤ c → rd Tzero (fc_R out) c = rd Tzero R c)
  ∧ (∀ j bi bj, 0 ≤ j < n_col → 0 ≤ bj → bj < bi → bi < K2 →
       rd Tzero (fc_R out) (R_cell K2 j bi bj) = Tzero).
Proof using HK1 HK2 Hwf HlA HlR.
  pose proof (fc_init_room n_row n_col K1 K2 Ap Ai Hwf Ax B R HlA HlR) as Hroom.
  destruct (orthonormalize_elsewhere n_row n_col K1 K2 Ap Ai tol HK1 HK2 Hwf _ Hroom)
    as (HA & HR & HfA & HfR).
  simpl in HA, HR, HfA, HfR.
  destruct (fc_copy_spec n_row n_col K1 K2 Ap Ai HK1 HK2 Hwf B Ax HlA)
    as (HcA & _ & HcO).
  destruct (fill_cells Tzero Tzero (n_col * K2 * K2) R HlR) as (HfL & HfZ & HfO).
  fold (fc_fill (n_col * K2 * K2) R) in HfL, HfZ, HfO.
  unfold out, fit_candidates_common. cbv zeta. split_and!.
  - rewrite HA. exact HcA.
  - rewrite HR. exact HfL.
  - intros c Hc. rewrite HfA; [by apply HcO|].
    by apply (outside_not_written_Ax n_row n_col K1 K2 Ap Ai HK1 HK2 Hwf).
  - intros c Hc. rewrite HfR; [apply HfO; lia|].
    by apply (beyond_not_written_R n_col K2).
  - intros j bi bj Hj Hbj Hlt Hbi. unfold R_cell.
    rewrite HfR; [apply HfZ; nia|].
    by apply (lower_not_written n_col K2).
Qed.

(** Column [bj] of aggregate [j] holds the candidates until its turn, and
    the columns before it are final when its turn comes. *)
Lemma fit_candidates_untouched j bj :
  0 ≤ j < n_col → 0 ≤ bj < K2 →
  let sb := fc_before n_col K1 K2 Ap Ai Ax B R tol j bj in
  (∀ k, 0 ≤ k < rows j →
     rd Tzero (fc_Ax sb) (start j + bj + k * K2)
     = rd Tzero (fc_copy n_col (K1 * K2) Ap Ai B Ax) (start j + bj + k * K2))
  ∧ (∀ bi k, 0 ≤ bi < bj → 0 ≤ k < rows j →
       rd Tzero (fc_Ax out) (start j + bi + k * K2)
       = rd Tzero (fc_Ax sb) (start j + bi + k * K2))
  ∧ K1 * K2 * rd 0 Ap n_col ≤ len (fc_Ax sb)
  ∧ n_col * K2 * K2 ≤ len (fc_R sb).
Proof using HK1 HK2 Hwf HlA HlR.
  intros Hj Hbj. simpl.
  pose proof (fc_init_room n_row n_col K1 K2 Ap Ai Hwf Ax B R HlA HlR) as Hroom0.
  set (init := FcState (fc_copy n_col (K1 * K2) Ap Ai B Ax)
                       (fc_fill (n_col * K2 * K2) R)) in *.
  set (agg := fc_aggregate tol K1 K2 Ap).
  set (column := fc_column tol K2 (start j) (start j + rows j * K2) (j * K2 * K2)).
  assert (fc_before n_col K1 K2 Ap Ai Ax B R tol j bj
          = for_loop 0 bj column (for_loop 0 j agg init)) as ->.
  { unfold fc_before, column. cbv zeta. by rewrite block_end. }
  assert (out = for_loop (j + 1) n_col agg
                  (for_loop (bj + 1) K2 column
                     (column bj (for_loop 0 bj column (for_loop 0 j agg init)))))
    as ->.
  { unfold out, fit_candidates_common. cbv zeta. fold init agg.
    rewrite (for_loop_split 0 j n_col) by lia.
    rewrite (for_loop_cons j n_col) by lia. f_equal.
    unfold agg at 1. rewrite fc_aggregate_columns. fold (start j) (rows j) column.
    rewrite (for_loop_split 0 bj K2) by lia.
    by rewrite (for_loop_cons bj K2) by lia. }
  destruct (aggregates_range n_row n_col K1 K2 Ap Ai tol HK1 HK2 Hwf 0 j init)
    as [Hroom1 Hag1]; [lia | lia | done |].
  fold agg in Hroom1, Hag1. set (sj := for_loop 0 j agg init) in *.
  destruct (columns_range n_row n_col K1 K2 Ap Ai tol HK1 HK2 Hwf j 0 bj sj)
    as [Hroom2 Hag2]; [done | lia | lia | done |].
  fold (start j) (rows j) column in Hroom2, Hag2.
  set (sb := for_loop 0 bj column sj) in *.
  destruct (column_step n_row n_col K1 K2 Ap Ai tol HK1 HK2 Hwf j bj sb)
    as [Hroom3 Hag3]; [done | done | done |].
  fold (start j) (rows j) column in Hroom3, Hag3.
  set (sc := column bj sb) in *.
  destruct (columns_range n_row n_col K1 K2 Ap Ai tol HK1 HK2 Hwf j (bj + 1) K2 sc)
    as [Hroom4 Hag4]; [done | lia | lia | done |].
  fold (start j) (rows j) column in Hroom4, Hag4.
  set (sd := for_loop (bj + 1) K2 column sc) in *.
  destruct (aggregates_range n_row n_col K1 K2 Ap Ai tol HK1 HK2 Hwf
              (j + 1) n_col sd) as [_ Hag5]; [lia | lia | done |].
  fold agg in Hag5.
  split_and!.
  - intros k Hk.
    destruct (Hag2 j bj Hj Hbj) as [H2 _]; [lia|].
    destruct (Hag1 j bj Hj Hbj) as [H1 _]; [lia|].
    fold (start j) in H1, H2. rewrite H2 by done. by rewrite H1.
  - intros bi k Hbi Hk.
    destruct (Hag5 j bi Hj) as [H5 _]; [lia | lia |].
    destruct (Hag4 j bi Hj) as [H4 _]; [lia | lia |].
    destruct (Hag3 j bi Hj) as [H3 _]; [lia | lia |].
    fold (start j) in H3, H4, H5.
    rewrite H5 by done. rewrite H4 by done. by rewrite H3.
  - apply Hroom2.
  - apply Hroom2.
Qed.
End FitGlobalValues.
Section FitExact.
Context {T F : Type} `{!Scalar T F} `{!RealScalar T F} `{!ScalarRing T F}.

Add Ring scalar_ring_fit : Tring.

Lemma foldl_sub_sum {A} (f : A → T) (x : T) (l : list A) :
  foldl (λ acc i, Tsub acc (f i)) x l = Tsub x (sum_list f l).
Proof.
  revert x. induction l as [|i l IH]; intros x.
  - rewrite sum_list_nil. simpl. ring.
  - simpl. rewrite IH, sum_list_cons. ring.
Qed.

Lemma sum_list_app {A} (f : A → T) (l1 l2 : list A) :
  sum_list f (l1 ++ l2) = Tadd (sum_list f l1) (sum_list f l2).
Proof.
  induction l1 as [|i l1 IH]; simpl.
  - rewrite sum_list_nil. ring.
  - rewrite !sum_list_cons, IH. ring.
Qed.

Context (n_row n_col K1 K2 : Z) (Ap Ai : list Z) (tol : F).
Context (HK1 : 0 ≤ K1) (Hwf : csr_wf n_col n_row Ap Ai).
Context (Ax B R : list T).
Context (HlA : K1 * K2 * rd 0 Ap n_col ≤ len Ax) (HlR : n_col * K2 * K2 ≤ len R).

(** An entry of the candidates is the product of the finished columns of
    [P] with the recorded coefficients, plus what is left of the column
    after its orthogonalization. *)
Lemma fit_candidates_residual j bj ii r :
  0 ≤ j < n_col → 0 ≤ bj < K2 →
  rd 0 Ap j ≤ ii < rd 0 Ap (j + 1) → 0 ≤ r < K1 →
  let out := fit_candidates_common n_row n_col K1 K2 Ap Ai Ax B R tol in
  let s1 := fc_orthogonalized n_col K1 K2 Ap Ai Ax B R tol j bj in
  rd Tzero B (K1 * K2 * rd 0 Ai ii + (r * K2 + bj))
  = Tadd
      (sum_list
         (λ bi, Tmul (rd Tzero (fc_Ax out) (P_cell K1 K2 ii r bi))
                     (rd Tzero (fc_R out) (R_cell K2 j bi bj)))
         (seqZ 0 bj))
      (rd Tzero (fc_Ax s1) (P_cell K1 K2 ii r bj)).
Proof using ScalarRing0 HK1 Hwf HlA HlR.
  intros Hj Hbj Hii Hr out s1.
  assert (0 ≤ K2) as HK2 by lia.
  destruct (wf_row_bounds Hwf j Hj) as (Hb1 & Hb2 & Hb3).
  set (start := K1 * K2 * rd 0 Ap j).
  set (rows := K1 * (rd 0 Ap (j + 1) - rd 0 Ap j)).
  set (k := (ii - rd 0 Ap j) * K1 + r).
  assert (0 ≤ k < rows) as Hk by (unfold k, rows; nia).
  assert (∀ b, P_cell K1 K2 ii r b = start + b + k * K2) as Hcell
    by (intros b; unfold P_cell, start, k; ring).
  destruct (fit_candidates_untouched n_row n_col K1 K2 Ap Ai tol HK1 HK2 Hwf
              Ax B R HlA HlR j bj Hj Hbj) as (Hsame & Hfinal & HrA & HrR).
  fold start rows in Hsame, Hfinal.
  set (sb := fc_before n_col K1 K2 Ap Ai Ax B R tol j bj) in *.
  destruct (fc_copy_spec n_row n_col K1 K2 Ap Ai HK1 HK2 Hwf B Ax HlA)
    as (_ & Hcopy & _).
  destruct (fit_candidates_column n_row n_col K1 K2 Ap Ai tol HK1 HK2 Hwf
              Ax B R j bj HlA HlR Hj Hbj) as (_ & _ & Hup).
  fold out s1 in Hup.
  destruct (block_in_room n_row n_col K1 K2 Ap Ai HK1 HK2 Hwf j Hj)
    as (Hs0 & Hn0 & Hend).
  fold start rows in Hs0, Hn0, Hend.
  pose proof (fc_orthogonalize_loop_cells K2 start rows (j * K2 * K2) bj sb
                Hbj Hs0 ltac:(lia) ltac:(nia) ltac:(nia) k Hk) as Hloop.
  assert (for_loop 0 bj
            (fc_orthogonalize K2 start (start + rows * K2) (j * K2 * K2) bj) sb
          = s1) as Hs1.
  { unfold s1, fc_orthogonalized. cbv zeta. rewrite block_end. done. }
  rewrite Hs1 in Hloop.
  rewrite (Hcell bj), Hloop, foldl_sub_sum.
  rewrite Hsame by done.
  replace (start + bj + k * K2) with (K1 * K2 * ii + (r * K2 + bj))
    by (unfold start, k; ring).
  rewrite Hcopy by (pose proof (wf_Ap_0 _ _ _ _ Hwf); nia).
  rewrite (sum_list_ext_in _
    (λ bi, Tmul (rd Tzero (fc_R s1) (j * K2 * K2 + (K2 * bi + bj)))
                (rd Tzero (fc_Ax sb) (start + bi + k * K2)))).
  2: { intros bi Hbi. apply elem_of_seqZ in Hbi.
       destruct (Hup bi) as [HR _]; [lia|].
       rewrite HR, Hcell, Hfinal by lia. unfold R_cell. ring. }
  ring.
Qed.

(** On a column that is kept, with [1.0 / norm * norm = 1], the entry is the
    product of the row of [P] with the whole column of the block of [R]. *)
Lemma fit_candidates_product j bj ii r :
  0 ≤ j < n_col → 0 ≤ bj < K2 →
  rd 0 Ap j ≤ ii < rd 0 Ap (j + 1) → 0 ≤ r < K1 →
  let out := fit_candidates_common n_row n_col K1 K2 Ap Ai Ax B R tol in
  let pre := norm_before n_col K1 K2 Ap Ai Ax B R tol j bj in
  let post := norm_after n_col K1 K2 Ap Ai Ax B R tol j bj in
  Fgt post (Fmul tol pre) = true →
  Tmul (of_real (Frecip post)) (of_real post) = Tone →
  rd Tzero B (K1 * K2 * rd 0 Ai ii + (r * K2 + bj))
  = sum_list
      (λ bi, Tmul (rd Tzero (fc_Ax out) (P_cell K1 K2 ii r bi))
                  (rd Tzero (fc_R out) (R_cell K2 j bi bj)))
      (seqZ 0 K2).
Proof using ScalarRing0 HK1 Hwf HlA HlR.
  intros Hj Hbj Hii Hr out pre post Hkept Hone.
  assert (0 ≤ K2) as HK2 by lia.
  pose proof (fit_candidates_residual j bj ii r Hj Hbj Hii Hr) as Hres.
  fold out in Hres. simpl in Hres.
  destruct (fit_candidates_column n_row n_col K1 K2 Ap Ai tol HK1 HK2 Hwf
              Ax B R j bj HlA HlR Hj Hbj) as (Hcells & Hdiag & _).
  fold out pre post in Hcells, Hdiag. rewrite Hkept in Hcells, Hdiag.
  destruct (fit_candidates_elsewhere n_row n_col K1 K2 Ap Ai tol HK1 HK2 Hwf
              Ax B R HlA HlR) as (_ & _ & _ & _ & Hlow).
  fold out in Hlow.
  assert (seqZ 0 K2 = seqZ 0 bj ++ bj :: seqZ (bj + 1) (K2 - bj - 1)) as ->.
  { transitivity (seqZ 0 (bj + (K2 - bj))); [f_equal; lia|].
    rewrite seqZ_app by lia. f_equal. rewrite Z.add_0_l.
    rewrite seqZ_cons by lia. do 2 f_equal; lia. }
  rewrite Hres, sum_list_app, sum_list_cons. f_equal.
  rewrite (sum_list_ext_in _ (λ _, Tzero) (seqZ (bj + 1) _)).
  2: { intros bi Hbi. apply elem_of_seqZ in Hbi. rewrite Hlow by lia. ring. }
  rewrite sum_list_zero, Hcells, Hdiag by done.
  set (v := rd Tzero (fc_Ax _) _).
  transitivity (Tmul v (Tmul (of_real (Frecip post)) (of_real post)));
    [rewrite Hone; ring | ring].
Qed.
End FitExact.

(** *** Properties of [fit_candidates_common] *)

(** Every block of [R] is upper triangular on return: the kernel clears [R]
    and writes coefficients at [(bi, bj)] with [bi <= bj] only, whatever [R]
    held on entry. *)
Theorem fit_candidates_R_upper_triangular {T F : Type} `{!Scalar T F}
    `{!RealScalar T F} (n_row n_col K1 K2 : Z) (Ap Ai : list Z)
    (Ax B R : list T) (tol : F) :
  0 ≤ K1 → 0 ≤ K2 → csr_wf n_col n_row Ap Ai →
  K1 * K2 * rd 0 Ap n_col ≤ len Ax → n_col * K2 * K2 ≤ len R →
  let out := fit_candidates_common n_row n_col K1 K2 Ap Ai Ax B R tol in
  ∀ j bi bj, 0 ≤ j < n_col → 0 ≤ bj → bj < bi → bi < K2 →
    rd Tzero (fc_R out) (R_cell K2 j bi bj) = Tzero.
Proof.
  intros HK1 HK2 Hwf HlA HlR out.
  destruct (fit_candidates_elsewhere n_row n_col K1 K2 Ap Ai tol HK1 HK2 Hwf
              Ax B R HlA HlR) as (_ & _ & _ & _ & Hlow).
  exact Hlow.
Qed.

Lemma fit_candidates_R_upper_triangular_witness :
  let out := fit_candidates_common (T:=Z) (F:=Z)
               1 1 1 2 [0; 1] [0] [7; 7; 7] [1; 1] [7; 7; 7; 7; 7] 0 in
  out = FcState [1; 0; 7] [1; 1; 0; 0; 7]
  ∧ rd 0 (fc_R out) (R_cell 2 0 1 0) = 0.
Proof.
  intros out. split; [vm_compute; reflexivity|].
  refine (fit_candidates_R_upper_triangular (T:=Z) (F:=Z)
            1 1 1 2 [0; 1] [0] [7; 7; 7] [1; 1] [7; 7; 7; 7; 7] 0
            _ _ _ _ _ 0 1 0 _ _ _ _);
    [lia | lia | apply csr_ok_wf; vm_compute; reflexivity
     | vm_compute; discriminate | vm_compute; discriminate | lia..].
Defined.

(** [fit_candidates_common] keeps the lengths of [Ax] and [R], writes no
    cell of [Ax] outside the blocks of the pattern and no cell of [R] after
    the [n_col] coefficient blocks. *)
Theorem fit_candidates_frame {T F : Type} `{!Scalar T F} `{!RealScalar T F}
    (n_row n_col K1 K2 : Z) (Ap Ai : list Z) (Ax B R : list T) (tol : F) :
  0 ≤ K1 → 0 ≤ K2 → csr_wf n_col n_row Ap Ai →
  K1 * K2 * rd 0 Ap n_col ≤ len Ax → n_col * K2 * K2 ≤ len R →
  let out := fit_candidates_common n_row n_col K1 K2 Ap Ai Ax B R tol in
  len (fc_Ax out) = len Ax
  ∧ len (fc_R out) = len R
  ∧ (∀ c, ¬ K1 * K2 * rd 0 Ap 0 ≤ c < K1 * K2 * rd 0 Ap n_col →
       rd Tzero (fc_Ax out) c = rd Tzero Ax c)
  ∧ (∀ c, n_col * K2 * K2 ≤ c → rd Tzero (fc_R out) c = rd Tzero R c).
Proof.
  intros HK1 HK2 Hwf HlA HlR out.
  destruct (fit_candidates_elsewhere n_row n_col K1 K2 Ap Ai tol HK1 HK2 Hwf
              Ax B R HlA HlR) as (H1 & H2 & H3 & H4 & _).
  by split_and!.
Qed.

Lemma fit_candidates_frame_witness :
  let out := fit_candidates_common (T:=Z) (F:=Z)
               1 1 1 2 [0; 1] [0] [7; 7; 7] [1; 1] [7; 7; 7; 7; 7] 0 in
  len (fc_Ax out) = 3 ∧ rd 0 (fc_R out) 4 = 7.
Proof.
  intros out.
  destruct (fit_candidates_frame (T:=Z) (F:=Z)
              1 1 1 2 [0; 1] [0] [7; 7; 7] [1; 1] [7; 7; 7; 7; 7] 0)
    as (HlA & _ & _ & HR);
    [lia | lia | apply csr_ok_wf; vm_compute; reflexivity
     | vm_compute; discriminate | vm_compute; discriminate |].
  split; [exact HlA|]. apply (HR 4). lia.
Defined.

(** The copy that opens [fit_candidates_common] fills block [ii] of [Ax]
    with block [Ai[ii]] of the candidates, whatever [Ax] held. *)
Theorem fc_copy_blocks {T F : Type} `{!Scalar T F}
    (n_row n_col K1 K2 : Z) (Ap Ai : list Z) (Ax B : list T) :
  0 ≤ K1 → 0 ≤ K2 → csr_wf n_col n_row Ap Ai →
  K1 * K2 * rd 0 Ap n_col ≤ len Ax →
  let Ax' := fc_copy n_col (K1 * K2) Ap Ai B Ax in
  len Ax' = len Ax
  ∧ (∀ ii k, rd 0 Ap 0 ≤ ii < rd 0 Ap n_col → 0 ≤ k < K1 * K2 →
       rd Tzero Ax' (K1 * K2 * ii + k) = rd Tzero B (K1 * K2 * rd 0 Ai ii + k))
  ∧ (∀ c, ¬ K1 * K2 * rd 0 Ap 0 ≤ c < K1 * K2 * rd 0 Ap n_col →
       rd Tzero Ax' c = rd Tzero Ax c).
Proof.
  intros HK1 HK2 Hwf HlA.
  exact (fc_copy_spec n_row n_col K1 K2 Ap Ai HK1 HK2 Hwf B Ax HlA).
Qed.

Lemma fc_copy_blocks_witness :
  let Ax' := fc_copy (T:=Z) (F:=Z) 1 (1 * 2) [0; 2] [1; 0] [1; 0; 0; 1]
               [7; 7; 7; 7; 7] in
  Ax' = [0; 1; 1; 0; 7] ∧ len Ax' = 5.
Proof.
  intros Ax'. split; [vm_compute; reflexivity|].
  refine (proj1 (fc_copy_blocks (T:=Z) (F:=Z) 2 1 1 2 [0; 2] [1; 0]
                   [7; 7; 7; 7; 7] [1; 0; 0; 1] _ _ _ _));
    [lia | lia | apply csr_ok_wf; vm_compute; reflexivity
     | vm_compute; discriminate].
Defined.

(** In exact arithmetic [P * R] gives the candidates back on every column
    that is kept: for a column [bj] of aggregate [j] whose norm passes the
    threshold, with [1.0 / norm * norm = 1], every entry of column [bj] of
    the candidates in the rows of the aggregate is the product of the row
    of [P] with column [bj] of the block of [R].  For every column, kept or
    not, the entry is the product over the columns before [bj] plus what
    the orthogonalization left of the entry. *)
Theorem fit_candidates_reconstructs {T F : Type} `{!Scalar T F}
    `{!RealScalar T F} `{!ScalarRing T F} (n_row n_col K1 K2 : Z)
    (Ap Ai : list Z) (Ax B R : list T) (tol : F) (j bj ii r : Z) :
  0 ≤ K1 → csr_wf n_col n_row Ap Ai →
  K1 * K2 * rd 0 Ap n_col ≤ len Ax → n_col * K2 * K2 ≤ len R →
  0 ≤ j < n_col → 0 ≤ bj < K2 →
  rd 0 Ap j ≤ ii < rd 0 Ap (j + 1) → 0 ≤ r < K1 →
  let out := fit_candidates_common n_row n_col K1 K2 Ap Ai Ax B R tol in
  let s1 := fc_orthogonalized n_col K1 K2 Ap Ai Ax B R tol j bj in
  let pre := norm_before n_col K1 K2 Ap Ai Ax B R tol j bj in
  let post := norm_after n_col K1 K2 Ap Ai Ax B R tol j bj in
  rd Tzero B (K1 * K2 * rd 0 Ai ii + (r * K2 + bj))
  = Tadd
      (sum_list
         (λ bi, Tmul (rd Tzero (fc_Ax out) (P_cell K1 K2 ii r bi))
                     (rd Tzero (fc_R out) (R_cell K2 j bi bj)))
         (seqZ 0 bj))
      (rd Tzero (fc_Ax s1) (P_cell K1 K2 ii r bj))
  ∧ (Fgt post (Fmul tol pre) = true →
     Tmul (of_real (Frecip post)) (of_real post) = Tone →
     rd Tzero B (K1 * K2 * rd 0 Ai ii + (r * K2 + bj))
     = sum_list
         (λ bi, Tmul (rd Tzero (fc_Ax out) (P_cell K1 K2 ii r bi))
                     (rd Tzero (fc_R out) (R_cell K2 j bi bj)))
         (seqZ 0 K2)).
Proof.
  intros HK1 Hwf HlA HlR Hj Hbj Hii Hr out s1 pre post.
  assert (0 ≤ K2) as HK2 by lia.
  pose proof (fit_candidates_residual n_row n_col K1 K2 Ap Ai tol HK1 Hwf
                Ax B R HlA HlR j bj ii r Hj Hbj Hii Hr) as Hres.
  fold out s1 in Hres. split; [exact Hres|].
  intros Hkept Hone.
  exact (fit_candidates_product n_row n_col K1 K2 Ap Ai tol HK1 Hwf
           Ax B R HlA HlR j bj ii r Hj Hbj Hii Hr Hkept Hone).
Qed.

Lemma fit_candidates_reconstructs_witness :
  let out := fit_candidates_common (T:=Z) (F:=Z)
               2 1 1 2 [0; 2] [1; 0] [7; 7; 7; 7; 7] [1; 0; 0; 1]
               [7; 7; 7; 7; 7] 0 in
  out = FcState [0; 1; 1; 0; 7] [1; 0; 0; 1; 7]
  ∧ rd 0 [1; 0; 0; 1] (1 * 2 * rd 0 [1; 0] 0 + (0 * 2 + 1))
    = sum_list
        (λ bi, rd 0 (fc_Ax out) (P_cell 1 2 0 0 bi)
               * rd 0 (fc_R out) (R_cell 2 0 bi 1))
        (seqZ 0 2).
Proof.
  intros out. split; [vm_compute; reflexivity|].
  refine (proj2 (fit_candidates_reconstructs (T:=Z) (F:=Z)
                   2 1 1 2 [0; 2] [1; 0] [7; 7; 7; 7; 7] [1; 0; 0; 1]
                   [7; 7; 7; 7; 7] 0 0 1 0 0 _ _ _ _ _ _ _ _) _ _);
    [lia | apply csr_ok_wf; vm_compute; reflexivity
     | vm_compute; discriminate | vm_compute; discriminate | lia | lia
     | unfold rd; simpl; lia | lia
     | vm_compute; reflexivity | vm_compute; reflexivity].
Defined.

(** ** Strength of connection: the output as a matrix *)

(** A position between [Sp[0]] and [Sp[n]] lies in one of the rows. *)
Lemma row_of_position (Sp : list Z) (n jj : Z) :
  0 ≤ n → (∀ i, 0 ≤ i < n → rd 0 Sp i ≤ rd 0 Sp (i + 1)) →
  rd 0 Sp 0 ≤ jj < rd 0 Sp n →
  ∃ i, 0 ≤ i < n ∧ rd 0 Sp i ≤ jj < rd 0 Sp (i + 1).
Proof.
  intros Hn. pattern n. apply natlike_ind; [| |done].
  - intros _ ?. lia.
  - intros m Hm IH Hmono Hjj. replace (Z.succ m) with (m + 1) in * by lia.
    destruct (decide (jj < rd 0 Sp m)) as [Hlt|Hge].
    + destruct IH as (i & Hi & Hr); [intros; apply Hmono; lia | lia |].
      exists i. split; [lia | done].
    + exists m. split; lia.
Qed.

Lemma csr_row_cols {T} (d : T) (Ap Aj : list Z) (Ax : list T) i :
  (csr_row d Ap Aj Ax i).*1 = pattern_row Ap Aj i.
Proof.
  unfold csr_row, entries, pattern_row, cols, slice.
  by rewrite <- list_fmap_compose.
Qed.

Lemma filter_filter_impl {A} (P Q : A → Prop)
    `{!∀ x, Decision (P x)} `{!∀ x, Decision (Q x)} (l : list A) :
  (∀ x, x ∈ l → P x → Q x) → filter P (filter Q l) = filter P l.
Proof.
  induction l as [|x l IH]; intros Himp; [done|].
  rewrite !(filter_cons _ x).
  assert (filter P (filter Q l) = filter P l) as IH'
    by (apply IH; intros y Hy; apply Himp; by right).
  destruct (decide (Q x)) as [HQ|HQ].
  - rewrite filter_cons. by rewrite IH'.
  - rewrite IH'. destruct (decide (P x)) as [HP|HP]; [|done].
    destruct HQ. apply Himp; [by left | done].
Qed.

Lemma sublist_filter_impl {A} (P Q : A → Prop)
    `{!∀ x, Decision (P x)} `{!∀ x, Decision (Q x)} (l : list A) :
  (∀ x, x ∈ l → P x → Q x) → filter P l `sublist_of` filter Q l.
Proof.
  intros Himp. rewrite <- (filter_filter_impl P Q l Himp).
  apply sublist_filter.
Qed.

Section StrengthOutput.
Context {T F : Type} `{!Scalar T F}.
Context (n_row : Z) (theta : F) (Ap Aj : list Z) (Ax : list T).
Context (Hwf : csr_wf n_row n_row Ap Aj).

(** The inner loop writes no cell at or after the count it returns. *)
Lemma strength_row_frame diags i lo hi (s : strength_state T) :
  let s' := strength_row theta diags Aj Ax i lo hi s in
  st_nnz s ≤ st_nnz s'
  ∧ ∀ k, st_nnz s' ≤ k →
      rd 0 (st_Sj s') k = rd 0 (st_Sj s) k
      ∧ rd Tzero (st_Sx s') k = rd Tzero (st_Sx s) k.
Proof.
  simpl. unfold strength_row.
  destruct (decide (lo ≤ hi)) as [Hle|Hgt]; [|by rewrite for_loop_nil by lia].
  apply (for_loop_inv (λ (_ : Z) s',
    st_nnz s ≤ st_nnz s'
    ∧ ∀ k, st_nnz s' ≤ k →
        rd 0 (st_Sj s') k = rd 0 (st_Sj s) k
        ∧ rd Tzero (st_Sx s') k = rd Tzero (st_Sx s) k)); [done|done|].
  intros jj s' Hjj [Hn Hfr].
  assert (let s'' := strength_push (rd 0 Aj jj) (rd Tzero Ax jj) s' in
          st_nnz s ≤ st_nnz s''
          ∧ ∀ k, st_nnz s'' ≤ k →
              rd 0 (st_Sj s'') k = rd 0 (st_Sj s) k
              ∧ rd Tzero (st_Sx s'') k = rd Tzero (st_Sx s) k) as Hpush.
  { simpl. split; [lia|]. intros k Hk. rewrite !rd_wr_ne by lia.
    apply Hfr. lia. }
  destruct (i =? rd 0 Aj jj); [exact Hpush|].
  destruct (Fge _ _); [exact Hpush | by split].
Qed.

(** The array cells that [symmetric_strength_of_connection] leaves alone. *)
Lemma strength_frame_cells Sp Sj Sx :
  let s := symmetric_strength_of_connection n_row theta Ap Aj Ax Sp Sj Sx in
  (∀ k, n_row < k → rd 0 (st_Sp s) k = rd 0 Sp k)
  ∧ (∀ k, st_nnz s ≤ k →
       rd 0 (st_Sj s) k = rd 0 Sj k ∧ rd Tzero (st_Sx s) k = rd Tzero Sx k).
Proof using Hwf.
  simpl. unfold symmetric_strength_of_connection.
  pose proof (wf_rows _ _ _ _ Hwf) as Hn.
  apply (for_loop_inv (λ i s,
    (∀ k, i < k → rd 0 (st_Sp s) k = rd 0 Sp k)
    ∧ (∀ k, st_nnz s ≤ k →
         rd 0 (st_Sj s) k = rd 0 Sj k ∧ rd Tzero (st_Sx s) k = rd Tzero Sx k)));
    [done| |].
  - simpl. split; [|done]. intros k Hk. by rewrite rd_wr_ne by lia.
  - intros i s Hi [HSp Hfr].
    destruct (strength_row_frame (strength_diags n_row Ap Aj Ax) i
                (rd 0 Ap i) (rd 0 Ap (i + 1)) s) as [Hn' Hfr'].
    pose proof (strength_row_spec theta (strength_diags n_row Ap Aj Ax) Aj Ax i
                  (rd 0 Ap i) (rd 0 Ap (i + 1)) s) as Hspec.
    set (s1 := strength_row theta (strength_diags n_row Ap Aj Ax) Aj Ax i
                 (rd 0 Ap i) (rd 0 Ap (i + 1)) s) in *.
    simpl. split.
    + intros k Hk. rewrite rd_wr_ne by lia.
      assert (st_Sp s1 = st_Sp s) as ->; [|apply HSp; lia].
      unfold s1, strength_row.
      destruct (decide (rd 0 Ap i ≤ rd 0 Ap (i + 1))) as [Hle|Hgt];
        [|by rewrite for_loop_nil by lia].
      apply (for_loop_inv (λ (_ : Z) s', st_Sp s' = st_Sp s)); [done|done|].
      intros jj s' _ IH.
      destruct (i =? rd 0 Aj jj); [exact IH|]. by destruct (Fge _ _).
    + intros k Hk. destruct (Hfr' k Hk) as [-> ->]. apply Hfr. lia.
Qed.

(** The output is a well-formed matrix with the columns of [A]. *)
Lemma strength_wf_out Sp Sj Sx :
  n_row + 1 ≤ len Sp → rd 0 Ap n_row ≤ len Sj → rd 0 Ap n_row ≤ len Sx →
  let s := symmetric_strength_of_connection n_row theta Ap Aj Ax Sp Sj Sx in
  csr_wf n_row n_row (st_Sp s) (st_Sj s).
Proof using Hwf.
  intros HSp HSj HSx s.
  destruct (strength_rows n_row theta Ap Aj Ax Sp Sj Sx Hwf HSp HSj HSx)
    as (Hnnz & HlSp & HlSj & HlSx & HSp0 & HSpn & Hrows).
  fold s in Hnnz, HlSp, HlSj, HlSx, HSp0, HSpn, Hrows.
  pose proof (wf_rows _ _ _ _ Hwf) as Hn.
  pose proof (wf_Ap_0 _ _ _ _ Hwf) as H0.
  split.
  - done.
  - lia.
  - lia.
  - intros i Hi. by destruct (Hrows i Hi).
  - lia.
  - intros jj Hjj.
    destruct (row_of_position (st_Sp s) n_row jj) as (i & Hi & Hr);
      [done | intros i Hi; by destruct (Hrows i Hi) | done |].
    destruct (Hrows i Hi) as (_ & _ & Hrow).
    assert ((rd 0 (st_Sj s) jj, rd Tzero (st_Sx s) jj)
            ∈ strength_out_row s i) as Hin.
    { unfold strength_out_row, csr_row. apply elem_of_entries. eauto. }
    rewrite Hrow in Hin. apply list_elem_of_filter in Hin as [_ Hin].
    apply elem_of_entries in Hin as (jj' & Hjj' & Heq).
    injection Heq as -> _. by apply (wf_col_in_row Hwf i).
Qed.

(** The diagonal magnitudes of the output are those of [A]. *)
Lemma strength_diag_out Sp Sj Sx k :
  n_row + 1 ≤ len Sp → rd 0 Ap n_row ≤ len Sj → rd 0 Ap n_row ≤ len Sx →
  0 ≤ k < n_row →
  let s := symmetric_strength_of_connection n_row theta Ap Aj Ax Sp Sj Sx in
  diag_of (st_Sp s) (st_Sj s) (st_Sx s) k = diag_of Ap Aj Ax k.
Proof using Hwf.
  intros HSp HSj HSx Hk s.
  destruct (strength_rows n_row theta Ap Aj Ax Sp Sj Sx Hwf HSp HSj HSx)
    as (_ & _ & _ & _ & _ & _ & Hrows).
  destruct (Hrows k Hk) as (_ & _ & Hrow). fold s in Hrow.
  unfold diag_of. unfold strength_out_row in Hrow. rewrite Hrow.
  rewrite filter_filter_impl; [done|].
  intros e _ He. by left.
Qed.
End StrengthOutput.

(** Lists built over the same indices are equal cell by cell. *)
Lemma fmap_eq_inv {A B} (f g : A → B) (l : list A) (x : A) :
  f <$> l = g <$> l → x ∈ l → f x = g x.
Proof.
  induction l as [|y l IH]; intros Heq Hx; [by apply elem_of_nil in Hx|].
  simpl in Heq. injection Heq as Hy Hl.
  apply elem_of_cons in Hx as [->|Hx]; [done | by apply IH].
Qed.

Section StrengthTwice.
Context {T F : Type} `{!Scalar T F}.
Context (n_row : Z) (theta : F) (Ap Aj : list Z) (Ax : list T).
Context (Hwf : csr_wf n_row n_row Ap Aj).
Context (Sp Sj : list Z) (Sx : list T).
Context (HSp : n_row + 1 ≤ len Sp) (HSj : rd 0 Ap n_row ≤ len Sj)
  (HSx : rd 0 Ap n_row ≤ len Sx).

Let s := symmetric_strength_of_connection n_row theta Ap Aj Ax Sp Sj Sx.

(** The row pointers of the output are the running counts of the rows. *)
Lemma strength_pointer_step i :
  0 ≤ i < n_row →
  rd 0 (st_Sp s) (i + 1) = rd 0 (st_Sp s) i + len (strength_out_row s i).
Proof using Hwf HSp HSj HSx.
  intros Hi.
  destruct (strength_rows n_row theta Ap Aj Ax Sp Sj Sx Hwf HSp HSj HSx)
    as (_ & _ & _ & _ & _ & _ & Hrows).
  destruct (Hrows i Hi) as (Hle & _ & _). fold s in Hle.
  unfold strength_out_row, csr_row, len. rewrite length_entries. lia.
Qed.

(** Every entry of a row of the output passes the test of the output. *)
Lemma strength_out_strong i e :
  0 ≤ i < n_row → e ∈ csr_row Tzero Ap Aj Ax i →
  strong theta (st_Sp s) (st_Sj s) (st_Sx s) i e ↔ strong theta Ap Aj Ax i e.
Proof using Hwf HSp HSj HSx.
  intros Hi He. unfold strong.
  apply elem_of_entries in He as (jj & Hjj & ->). simpl.
  pose proof (wf_col_in_row Hwf i jj Hi Hjj) as Hcol.
  unfold s.
  rewrite !(strength_diag_out n_row theta Ap Aj Ax Hwf Sp Sj Sx) by done.
  done.
Qed.

Lemma strength_twice_rows Sp2 Sj2 Sx2 :
  n_row + 1 ≤ len Sp2 → rd 0 Ap n_row ≤ len Sj2 → rd 0 Ap n_row ≤ len Sx2 →
  let s2 := symmetric_strength_of_connection n_row theta
              (st_Sp s) (st_Sj s) (st_Sx s) Sp2 Sj2 Sx2 in
  (∀ i, 0 ≤ i < n_row → strength_out_row s2 i = strength_out_row s i)
  ∧ (∀ i, 0 ≤ i ≤ n_row → rd 0 (st_Sp s2) i = rd 0 (st_Sp s) i)
  ∧ st_nnz s2 = st_nnz s.
Proof using Hwf HSp HSj HSx.
  intros HSp2 HSj2 HSx2 s2.
  pose proof (strength_wf_out n_row theta Ap Aj Ax Hwf Sp Sj Sx HSp HSj HSx)
    as HwfS. fold s in HwfS.
  destruct (strength_rows n_row theta Ap Aj Ax Sp Sj Sx Hwf HSp HSj HSx)
    as (Hnnz & _ & _ & _ & HSp0 & HSpn & Hrows).
  fold s in Hnnz, HSp0, HSpn, Hrows.
  pose proof (wf_Ap_0 _ _ _ _ Hwf) as H0.
  assert (rd 0 (st_Sp s) n_row ≤ len Sj2) as HSj2' by lia.
  assert (rd 0 (st_Sp s) n_row ≤ len Sx2) as HSx2' by lia.
  destruct (strength_rows n_row theta (st_Sp s) (st_Sj s) (st_Sx s)
              Sp2 Sj2 Sx2 HwfS HSp2 HSj2' HSx2')
    as (_ & _ & _ & _ & HSp0' & HSpn' & Hrows').
  fold s2 in HSp0', HSpn', Hrows'.
  assert (∀ i, 0 ≤ i < n_row → strength_out_row s2 i = strength_out_row s i)
    as Hsame.
  { intros i Hi. destruct (Hrows' i Hi) as (_ & _ & ->).
    destruct (Hrows i Hi) as (_ & _ & Hrow). rewrite Hrow.
    unfold strength_out_row in Hrow. rewrite Hrow.
    rewrite (filter_in_ext _ (strong theta Ap Aj Ax i)).
    - by apply filter_filter_impl.
    - intros e He. apply list_elem_of_filter in He as [_ He].
      by apply strength_out_strong. }
  assert (∀ i, 0 ≤ i ≤ n_row → rd 0 (st_Sp s2) i = rd 0 (st_Sp s) i) as Hptr.
  { intros i [Hi0 Hin]. revert Hin. pattern i. apply natlike_ind; [| |done].
    - intros _. lia.
    - intros m Hm IH Hlt. replace (Z.succ m) with (m + 1) by lia.
      rewrite strength_pointer_step by lia.
      assert (rd 0 (st_Sp s2) (m + 1)
              = rd 0 (st_Sp s2) m + len (strength_out_row s2 m)) as ->.
      { destruct (Hrows' m) as (Hle & _ & _); [lia|].
        unfold strength_out_row, csr_row, len. rewrite length_entries. lia. }
      rewrite Hsame by lia. rewrite IH by lia. done. }
  split_and!; [done | done |].
  rewrite <- HSpn, <- HSpn'. apply Hptr.
  pose proof (wf_rows _ _ _ _ Hwf). lia.
Qed.
End StrengthTwice.

(** *** Properties of [symmetric_strength_of_connection] *)

(** The arrays written by [symmetric_strength_of_connection] are a
    well-formed square matrix in compressed rows: [Sp] starts at 0 and is
    non-decreasing, its last entry is the number of kept entries, which is
    at most the number of stored entries of [A] and within [Sj], and every
    stored column index of [S] is a column of [A]. *)
Theorem strength_output_well_formed {T F : Type} `{!Scalar T F}
    (n_row : Z) (theta : F) (Ap Aj : list Z) (Ax : list T)
    (Sp Sj : list Z) (Sx : list T) :
  csr_wf n_row n_row Ap Aj →
  n_row + 1 ≤ len Sp → rd 0 Ap n_row ≤ len Sj → rd 0 Ap n_row ≤ len Sx →
  let s := symmetric_strength_of_connection n_row theta Ap Aj Ax Sp Sj Sx in
  csr_wf n_row n_row (st_Sp s) (st_Sj s)
  ∧ rd 0 (st_Sp s) 0 = 0
  ∧ rd 0 (st_Sp s) n_row = st_nnz s
  ∧ st_nnz s ≤ rd 0 Ap n_row - rd 0 Ap 0.
Proof.
  intros Hwf HSp HSj HSx s.
  destruct (strength_rows n_row theta Ap Aj Ax Sp Sj Sx Hwf HSp HSj HSx)
    as (Hnnz & _ & _ & _ & HSp0 & HSpn & _).
  fold s in Hnnz, HSp0, HSpn.
  split_and!; [|done|done|lia].
  by apply strength_wf_out.
Qed.

Lemma strength_output_well_formed_witness :
  let s := symmetric_strength_of_connection (T:=Z) (F:=Z) 3 1
             [0; 2; 5; 7] [0; 1; 0; 1; 2; 1; 2] [4; -1; -1; 4; -5; -5; 4]
             [9; 9; 9; 9] [9; 9; 9; 9; 9; 9; 9] [9; 9; 9; 9; 9; 9; 9] in
  st_Sp s = [0; 1; 3; 5] ∧ csr_wf 3 3 (st_Sp s) (st_Sj s).
Proof.
  intros s. split; [vm_compute; reflexivity|].
  refine (proj1 (strength_output_well_formed (T:=Z) (F:=Z) 3 1
           [0; 2; 5; 7] [0; 1; 0; 1; 2; 1; 2] [4; -1; -1; 4; -5; -5; 4]
           [9; 9; 9; 9] [9; 9; 9; 9; 9; 9; 9] [9; 9; 9; 9; 9; 9; 9]
           _ _ _ _));
    [apply csr_ok_wf; vm_compute; reflexivity | vm_compute; discriminate ..].
Defined.

(** [symmetric_strength_of_connection] keeps the lengths of the three
    output arrays and writes only [Sp[0..n_row]] and the first [nnz] cells
    of [Sj] and [Sx], where [nnz] is the number of kept entries: the cells
    after them hold what they held on entry. *)
Theorem strength_frame {T F : Type} `{!Scalar T F}
    (n_row : Z) (theta : F) (Ap Aj : list Z) (Ax : list T)
    (Sp Sj : list Z) (Sx : list T) :
  csr_wf n_row n_row Ap Aj →
  n_row + 1 ≤ len Sp → rd 0 Ap n_row ≤ len Sj → rd 0 Ap n_row ≤ len Sx →
  let s := symmetric_strength_of_connection n_row theta Ap Aj Ax Sp Sj Sx in
  len (st_Sp s) = len Sp ∧ len (st_Sj s) = len Sj ∧ len (st_Sx s) = len Sx
  ∧ (∀ k, n_row < k → rd 0 (st_Sp s) k = rd 0 Sp k)
  ∧ (∀ k, st_nnz s ≤ k →
       rd 0 (st_Sj s) k = rd 0 Sj k ∧ rd Tzero (st_Sx s) k = rd Tzero Sx k).
Proof.
  intros Hwf HSp HSj HSx s.
  destruct (strength_rows n_row theta Ap Aj Ax Sp Sj Sx Hwf HSp HSj HSx)
    as (_ & HlSp & HlSj & HlSx & _).
  destruct (strength_frame_cells n_row theta Ap Aj Ax Hwf Sp Sj Sx)
    as [HfSp Hf].
  by split_and!.
Qed.

Lemma strength_frame_witness :
  let s := symmetric_strength_of_connection (T:=Z) (F:=Z) 3 1
             [0; 2; 5; 7] [0; 1; 0; 1; 2; 1; 2] [4; -1; -1; 4; -5; -5; 4]
             [9; 9; 9; 9; 8] [9; 9; 9; 9; 9; 9; 9] [9; 9; 9; 9; 9; 9; 9] in
  st_nnz s = 5 ∧ rd 0 (st_Sp s) 4 = 8 ∧ rd 0 (st_Sj s) 5 = 9.
Proof.
  intros s. split; [vm_compute; reflexivity|].
  destruct (strength_frame (T:=Z) (F:=Z) 3 1
           [0; 2; 5; 7] [0; 1; 0; 1; 2; 1; 2] [4; -1; -1; 4; -5; -5; 4]
           [9; 9; 9; 9; 8] [9; 9; 9; 9; 9; 9; 9] [9; 9; 9; 9; 9; 9; 9])
    as (_ & _ & _ & HSp & Hc);
    [apply csr_ok_wf; vm_compute; reflexivity | vm_compute; discriminate ..|].
  split; [apply (HSp 4); lia|].
  apply (Hc 5). vm_compute. discriminate.
Defined.

(** Filtering twice changes nothing: when the kernel is run on its own
    output with the same [theta], it keeps every entry.  The second output
    has the row pointers of the first, and the same column indices and
    values in the [nnz] cells that are written. *)
Theorem strength_idempotent {T F : Type} `{!Scalar T F}
    (n_row : Z) (theta : F) (Ap Aj : list Z) (Ax : list T)
    (Sp Sj : list Z) (Sx : list T) (Sp2 Sj2 : list Z) (Sx2 : list T) :
  csr_wf n_row n_row Ap Aj →
  n_row + 1 ≤ len Sp → rd 0 Ap n_row ≤ len Sj → rd 0 Ap n_row ≤ len Sx →
  n_row + 1 ≤ len Sp2 → rd 0 Ap n_row ≤ len Sj2 → rd 0 Ap n_row ≤ len Sx2 →
  let s := symmetric_strength_of_connection n_row theta Ap Aj Ax Sp Sj Sx in
  let s2 := symmetric_strength_of_connection n_row theta
              (st_Sp s) (st_Sj s) (st_Sx s) Sp2 Sj2 Sx2 in
  st_nnz s2 = st_nnz s
  ∧ (∀ i, 0 ≤ i ≤ n_row → rd 0 (st_Sp s2) i = rd 0 (st_Sp s) i)
  ∧ (∀ i, 0 ≤ i < n_row → strength_out_row s2 i = strength_out_row s i)
  ∧ (∀ k, 0 ≤ k < st_nnz s →
       rd 0 (st_Sj s2) k = rd 0 (st_Sj s) k
       ∧ rd Tzero (st_Sx s2) k = rd Tzero (st_Sx s) k).
Proof.
  intros Hwf HSp HSj HSx HSp2 HSj2 HSx2 s s2.
  destruct (strength_twice_rows n_row theta Ap Aj Ax Hwf Sp Sj Sx HSp HSj HSx
              Sp2 Sj2 Sx2 HSp2 HSj2 HSx2) as (Hrows & Hptr & Hnnz).
  fold s in Hrows, Hptr, Hnnz. fold s2 in Hrows, Hptr, Hnnz.
  split_and!; [done | done | done |].
  intros k Hk.
  destruct (strength_rows n_row theta Ap Aj Ax Sp Sj Sx Hwf HSp HSj HSx)
    as (_ & _ & _ & _ & HSp0 & HSpn & Hmono).
  fold s in HSp0, HSpn, Hmono.
  pose proof (wf_rows _ _ _ _ Hwf) as Hn.
  destruct (row_of_position (st_Sp s) n_row k) as (i & Hi & Hr);
    [done | intros i Hi; by destruct (Hmono i Hi) | lia |].
  specialize (Hrows i Hi). unfold strength_out_row, csr_row, entries in Hrows.
  rewrite !Hptr in Hrows by lia.
  assert (k ∈ seqZ (rd 0 (st_Sp s) i)
                   (rd 0 (st_Sp s) (i + 1) - rd 0 (st_Sp s) i)) as Hin
    by (apply elem_of_seqZ; lia).
  pose proof (fmap_eq_inv _ _ _ k Hrows Hin) as Heq. simpl in Heq.
  by injection Heq as -> ->.
Qed.

Lemma strength_idempotent_witness :
  let s := symmetric_strength_of_connection (T:=Z) (F:=Z) 3 1
             [0; 2; 5; 7] [0; 1; 0; 1; 2; 1; 2] [4; -1; -1; 4; -5; -5; 4]
             [9; 9; 9; 9] [9; 9; 9; 9; 9; 9; 9] [9; 9; 9; 9; 9; 9; 9] in
  let s2 := symmetric_strength_of_connection (T:=Z) (F:=Z) 3 1
              (st_Sp s) (st_Sj s) (st_Sx s)
              [8; 8; 8; 8] [8; 8; 8; 8; 8; 8; 8] [8; 8; 8; 8; 8; 8; 8] in
  st_nnz s = 5 ∧ st_nnz s2 = st_nnz s.
Proof.
  intros s s2. split; [vm_compute; reflexivity|].
  refine (proj1 (strength_idempotent (T:=Z) (F:=Z) 3 1
           [0; 2; 5; 7] [0; 1; 0; 1; 2; 1; 2] [4; -1; -1; 4; -5; -5; 4]
           [9; 9; 9; 9] [9; 9; 9; 9; 9; 9; 9] [9; 9; 9; 9; 9; 9; 9]
           [8; 8; 8; 8] [8; 8; 8; 8; 8; 8; 8] [8; 8; 8; 8; 8; 8; 8]
           _ _ _ _ _ _ _));
    [apply csr_ok_wf; vm_compute; reflexivity | vm_compute; discriminate ..].
Defined.

(** In exact arithmetic the filter keeps symmetry: when the product of the
    tolerance and the two diagonal magnitudes does not depend on their
    order, and every stored entry [(i, j)] of [A] has a stored entry
    [(j, i)] of the same squared magnitude, the same holds of [S]; so the
    graph of [S] is symmetric, as the aggregation kernels assume. *)
Theorem strength_preserves_symmetry {T F : Type} `{!Scalar T F}
    (n_row : Z) (theta : F) (Ap Aj : list Z) (Ax : list T)
    (Sp Sj : list Z) (Sx : list T) :
  csr_wf n_row n_row Ap Aj →
  n_row + 1 ≤ len Sp → rd 0 Ap n_row ≤ len Sj → rd 0 Ap n_row ≤ len Sx →
  (∀ t a b : F, Fmul (Fmul t a) b = Fmul (Fmul t b) a) →
  (∀ i j v, 0 ≤ i < n_row → (j, v) ∈ csr_row Tzero Ap Aj Ax i →
     ∃ v', (i, v') ∈ csr_row Tzero Ap Aj Ax j ∧ mynormsq v' = mynormsq v) →
  let s := symmetric_strength_of_connection n_row theta Ap Aj Ax Sp Sj Sx in
  (∀ i j v, 0 ≤ i < n_row → (j, v) ∈ strength_out_row s i →
     ∃ v', (i, v') ∈ strength_out_row s j ∧ mynormsq v' = mynormsq v)
  ∧ graph_symmetric n_row (st_Sp s) (st_Sj s).
Proof.
  intros Hwf HSp HSj HSx Hcomm Hsym s.
  destruct (strength_rows n_row theta Ap Aj Ax Sp Sj Sx Hwf HSp HSj HSx)
    as (_ & _ & _ & _ & _ & _ & Hrows). fold s in Hrows.
  assert (∀ i j v, 0 ≤ i < n_row → (j, v) ∈ strength_out_row s i →
     ∃ v', (i, v') ∈ strength_out_row s j ∧ mynormsq v' = mynormsq v) as Hval.
  { intros i j v Hi Hin.
    destruct (Hrows i Hi) as (_ & _ & Hrow). rewrite Hrow in Hin.
    apply list_elem_of_filter in Hin as [Hstrong Hin].
    assert (0 ≤ j < n_row) as Hj.
    { apply elem_of_entries in Hin as (jj & Hjj & Heq).
      injection Heq as -> _. by apply (wf_col_in_row Hwf i). }
    destruct (Hsym i j v Hi Hin) as (v' & Hin' & Hnorm).
    exists v'. split; [|done].
    destruct (Hrows j Hj) as (_ & _ & ->).
    apply list_elem_of_filter. split; [|done].
    unfold strong in *. simpl in *.
    destruct Hstrong as [->|Hge]; [by left|].
    right. rewrite Hnorm, Hcomm. done. }
  split; [exact Hval|].
  intros i j Hi Hj.
  rewrite <- (csr_row_cols Tzero _ _ (st_Sx s)) in Hj.
  apply list_elem_of_fmap in Hj as ([j' v] & -> & Hin). simpl.
  assert (0 ≤ j' < n_row) as Hj'.
  { destruct (Hrows i Hi) as (_ & _ & Hrow).
    unfold strength_out_row in Hrow. rewrite Hrow in Hin.
    apply list_elem_of_filter in Hin as [_ Hin].
    apply elem_of_entries in Hin as (jj & Hjj & Heq).
    injection Heq as -> _. by apply (wf_col_in_row Hwf i). }
  destruct (Hval i j' v Hi Hin) as (v' & Hin' & _).
  rewrite <- (csr_row_cols Tzero _ _ (st_Sx s)).
  apply list_elem_of_fmap. exists (i, v'). done.
Qed.

Lemma strength_preserves_symmetry_witness :
  let s := symmetric_strength_of_connection (T:=Z) (F:=Z) 3 1
             [0; 2; 5; 7] [0; 1; 0; 1; 2; 1; 2] [4; -1; -1; 4; -5; -5; 4]
             [9; 9; 9; 9] [9; 9; 9; 9; 9; 9; 9] [9; 9; 9; 9; 9; 9; 9] in
  st_Sp s = [0; 1; 3; 5] ∧ graph_symmetric 3 (st_Sp s) (st_Sj s).
Proof.
  intros s. split; [vm_compute; reflexivity|].
  refine (proj2 (strength_preserves_symmetry (T:=Z) (F:=Z) 3 1
           [0; 2; 5; 7] [0; 1; 0; 1; 2; 1; 2] [4; -1; -1; 4; -5; -5; 4]
           [9; 9; 9; 9] [9; 9; 9; 9; 9; 9; 9] [9; 9; 9; 9; 9; 9; 9]
           _ _ _ _ _ _));
    [apply csr_ok_wf; vm_compute; reflexivity | vm_compute; discriminate ..
     | intros t a b; simpl; lia |].
  intros i j v Hi Hin.
  assert (i = 0 ∨ i = 1 ∨ i = 2) as [-> | [-> | ->]] by lia;
    vm_compute in Hin; apply list_elem_of_In in Hin; simpl in Hin;
    repeat match goal with
           | H : _ ∨ _ |- _ => destruct H
           | H : (_, _) = (_, _) |- _ => injection H as <- <-
           | H : False |- _ => destruct H
           end;
    eexists;
    (split; [apply list_elem_of_In; cbv; eauto 6 | reflexivity]).
Defined.

(** Where the real type is ordered compatibly with its operations, raising
    the tolerance never adds a connection.  [Fle] is the order: [Fge a b]
    tests [Fle b a], [Fle] is transitive, multiplying both sides by a
    non-negative factor keeps it, and magnitudes are non-negative.  Then
    for [0 <= theta1 <= theta2] every row of the matrix filtered with
    [theta2] is a subsequence of the same row filtered with [theta1], and
    it has at most as many entries.  The exact integers and reals are such
    scalars; floating-point numbers, with their not-a-number, are not. *)
Theorem strength_monotone_in_theta {T F : Type} `{!Scalar T F}
    (Fle : F → F → Prop) (n_row : Z) (theta1 theta2 : F)
    (Ap Aj : list Z) (Ax : list T) (Sp Sj : list Z) (Sx : list T)
    (Sp2 Sj2 : list Z) (Sx2 : list T) :
  csr_wf n_row n_row Ap Aj →
  n_row + 1 ≤ len Sp → rd 0 Ap n_row ≤ len Sj → rd 0 Ap n_row ≤ len Sx →
  n_row + 1 ≤ len Sp2 → rd 0 Ap n_row ≤ len Sj2 → rd 0 Ap n_row ≤ len Sx2 →
  (∀ a b : F, Fge a b = true ↔ Fle b a) →
  (∀ a b c : F, Fle a b → Fle b c → Fle a c) →
  (∀ a b c : F, Fle Fzero c → Fle a b → Fle (Fmul a c) (Fmul b c)) →
  (∀ a b c : F, Fle Fzero c → Fle a b → Fle (Fmul c a) (Fmul c b)) →
  (∀ v : T, Fle Fzero (mynorm v)) →
  Fle Fzero theta1 → Fle theta1 theta2 →
  let s1 := symmetric_strength_of_connection n_row theta1 Ap Aj Ax Sp Sj Sx in
  let s2 := symmetric_strength_of_connection n_row theta2 Ap Aj Ax Sp2 Sj2 Sx2 in
  st_nnz s2 ≤ st_nnz s1
  ∧ ∀ i, 0 ≤ i < n_row →
      strength_out_row s2 i `sublist_of` strength_out_row s1 i.
Proof.
  intros Hwf HSp HSj HSx HSp2 HSj2 HSx2 Hge Htrans Hmr Hml Hnorm H0 H12 s1 s2.
  destruct (strength_rows n_row theta1 Ap Aj Ax Sp Sj Sx Hwf HSp HSj HSx)
    as (_ & _ & _ & _ & HSp0 & HSpn & Hrows). fold s1 in HSp0, HSpn, Hrows.
  destruct (strength_rows n_row theta2 Ap Aj Ax Sp2 Sj2 Sx2 Hwf HSp2 HSj2 HSx2)
    as (_ & _ & _ & _ & HSp0' & HSpn' & Hrows'). fold s2 in HSp0', HSpn', Hrows'.
  assert (Fle (Fmul theta1 theta1) (Fmul theta2 theta2)) as Hsq.
  { apply (Htrans _ (Fmul theta2 theta1)); [by apply Hmr|].
    apply Hml; [by apply (Htrans _ theta1) | done]. }
  assert (∀ i, 0 ≤ i < n_row →
            strength_out_row s2 i `sublist_of` strength_out_row s1 i) as Hsub.
  { intros i Hi. destruct (Hrows i Hi) as (_ & _ & ->).
    destruct (Hrows' i Hi) as (_ & _ & ->).
    apply sublist_filter_impl. intros e _ [He|He]; [by left|]. right.
    apply Hge. apply Hge in He.
    apply (Htrans _ (Fmul (Fmul (Fmul theta2 theta2) (diag_of Ap Aj Ax i))
                          (diag_of Ap Aj Ax e.1))); [|done].
    apply Hmr; [apply Hnorm|]. apply Hmr; [apply Hnorm | done]. }
  split; [|exact Hsub].
  rewrite <- HSpn, <- HSpn'.
  pose proof (wf_rows _ _ _ _ Hwf) as Hn.
  assert (∀ i, 0 ≤ i ≤ n_row →
            rd 0 (st_Sp s2) i ≤ rd 0 (st_Sp s1) i) as Hptr; [|apply Hptr; lia].
  intros i [Hi0 Hin]. revert Hin. pattern i. apply natlike_ind; [| |done].
  - intros _. lia.
  - intros m Hm IH Hlt. replace (Z.succ m) with (m + 1) by lia.
    unfold s1, s2.
    rewrite !strength_pointer_step by (done || lia).
    fold s1 s2. specialize (IH ltac:(lia)).
    pose proof (sublist_length _ _ (Hsub m ltac:(lia))) as Hl.
    unfold len. lia.
Qed.

(** The 3x3 matrix [[4 -1 0] [-1 4 -5] [0 -5 4]] on the exact integers:
    with [theta = 0] all seven entries are kept, with [theta = 1] the two
    entries [-1] are dropped, and the rows of the second output are
    subsequences of the rows of the first. *)
Lemma strength_monotone_in_theta_witness :
  let s1 := symmetric_strength_of_connection (T:=Z) (F:=Z) 3 0
              [0; 2; 5; 7] [0; 1; 0; 1; 2; 1; 2] [4; -1; -1; 4; -5; -5; 4]
              [9; 9; 9; 9] [9; 9; 9; 9; 9; 9; 9] [9; 9; 9; 9; 9; 9; 9] in
  let s2 := symmetric_strength_of_connection (T:=Z) (F:=Z) 3 1
              [0; 2; 5; 7] [0; 1; 0; 1; 2; 1; 2] [4; -1; -1; 4; -5; -5; 4]
              [9; 9; 9; 9] [9; 9; 9; 9; 9; 9; 9] [9; 9; 9; 9; 9; 9; 9] in
  strength_out_row s1 1 = [(0, -1); (1, 4); (2, -5)]
  ∧ strength_out_row s2 1 = [(1, 4); (2, -5)]
  ∧ st_nnz s1 = 7 ∧ st_nnz s2 = 5
  ∧ st_nnz s2 ≤ st_nnz s1
  ∧ strength_out_row s2 1 `sublist_of` strength_out_row s1 1.
Proof.
  intros s1 s2.
  split; [vm_compute; reflexivity|]. split; [vm_compute; reflexivity|].
  split; [vm_compute; reflexivity|]. split; [vm_compute; reflexivity|].
  destruct (strength_monotone_in_theta (T:=Z) (F:=Z) Z.le 3 0 1
           [0; 2; 5; 7] [0; 1; 0; 1; 2; 1; 2] [4; -1; -1; 4; -5; -5; 4]
           [9; 9; 9; 9] [9; 9; 9; 9; 9; 9; 9] [9; 9; 9; 9; 9; 9; 9]
           [9; 9; 9; 9] [9; 9; 9; 9; 9; 9; 9] [9; 9; 9; 9; 9; 9; 9])
    as [Hnnz Hrows];
    [apply csr_ok_wf; vm_compute; reflexivity
     | vm_compute; discriminate | vm_compute; discriminate
     | vm_compute; discriminate | vm_compute; discriminate
     | vm_compute; discriminate | vm_compute; discriminate
     | intros a b; simpl; rewrite Z.geb_leb; apply Z.leb_le
     | intros a b c; lia
     | intros a b c Hc Hab; simpl; by apply Z.mul_le_mono_nonneg_r
     | intros a b c Hc Hab; simpl; by apply Z.mul_le_mono_nonneg_l
     | intros v; simpl; lia
     | simpl; lia | lia |].
  split; [exact Hnnz | apply (Hrows 1); lia].
Defined.

Lemma filter_all {A} (P : A → Prop) `{!∀ x, Decision (P x)} (l : list A) :
  (∀ x, x ∈ l → P x) → filter P l = l.
Proof.
  induction l as [|x l IH]; intros Hall; [done|].
  rewrite filter_cons, decide_True by (apply Hall; by left).
  f_equal. apply IH. intros y Hy. apply Hall. by right.
Qed.

(** When every entry passes the test, as with [theta = 0] on exact
    scalars, nothing is filtered: every row of [S] is the row of [A], and
    [S] has as many entries as [A]. *)
Theorem strength_keeps_all {T F : Type} `{!Scalar T F}
    (n_row : Z) (theta : F) (Ap Aj : list Z) (Ax : list T)
    (Sp Sj : list Z) (Sx : list T) :
  csr_wf n_row n_row Ap Aj →
  n_row + 1 ≤ len Sp → rd 0 Ap n_row ≤ len Sj → rd 0 Ap n_row ≤ len Sx →
  (∀ (v : T) (a b : F),
     Fge (mynormsq v) (Fmul (Fmul (Fmul theta theta) a) b) = true) →
  let s := symmetric_strength_of_connection n_row theta Ap Aj Ax Sp Sj Sx in
  st_nnz s = rd 0 Ap n_row - rd 0 Ap 0
  ∧ (∀ i, 0 ≤ i ≤ n_row → rd 0 (st_Sp s) i = rd 0 Ap i - rd 0 Ap 0)
  ∧ (∀ i, 0 ≤ i < n_row → strength_out_row s i = csr_row Tzero Ap Aj Ax i).
Proof.
  intros Hwf HSp HSj HSx Hpass s.
  destruct (strength_rows n_row theta Ap Aj Ax Sp Sj Sx Hwf HSp HSj HSx)
    as (_ & _ & _ & _ & HSp0 & HSpn & Hrows). fold s in HSp0, HSpn, Hrows.
  assert (∀ i, 0 ≤ i < n_row →
            strength_out_row s i = csr_row Tzero Ap Aj Ax i) as Hsame.
  { intros i Hi. destruct (Hrows i Hi) as (_ & _ & ->).
    apply filter_all. intros e _. right. apply Hpass. }
  assert (∀ i, 0 ≤ i ≤ n_row → rd 0 (st_Sp s) i = rd 0 Ap i - rd 0 Ap 0)
    as Hptr.
  { intros i [Hi0 Hin]. revert Hin. pattern i. apply natlike_ind; [| |done].
    - intros _. lia.
    - intros m Hm IH Hlt. replace (Z.succ m) with (m + 1) by lia.
      unfold s. rewrite strength_pointer_step by (done || lia). fold s.
      rewrite Hsame, IH by lia.
      pose proof (wf_Ap_mono _ _ _ _ Hwf m ltac:(lia)).
      unfold csr_row, len. rewrite length_entries. lia. }
  split_and!; [|done|done].
  rewrite <- HSpn. apply Hptr. pose proof (wf_rows _ _ _ _ Hwf). lia.
Qed.

Lemma strength_keeps_all_witness :
  let s := symmetric_strength_of_connection (T:=Z) (F:=Z) 3 0
             [0; 2; 5; 7] [0; 1; 0; 1; 2; 1; 2] [4; -1; -1; 4; -5; -5; 4]
             [9; 9; 9; 9] [9; 9; 9; 9; 9; 9; 9] [9; 9; 9; 9; 9; 9; 9] in
  st_Sj s = [0; 1; 0; 1; 2; 1; 2] ∧ st_nnz s = 7 - 0.
Proof.
  intros s. split; [vm_compute; reflexivity|].
  refine (proj1 (strength_keeps_all (T:=Z) (F:=Z) 3 0
           [0; 2; 5; 7] [0; 1; 0; 1; 2; 1; 2] [4; -1; -1; 4; -5; -5; 4]
           [9; 9; 9; 9] [9; 9; 9; 9; 9; 9; 9] [9; 9; 9; 9; 9; 9; 9]
           _ _ _ _ _));
    [apply csr_ok_wf; vm_compute; reflexivity | vm_compute; discriminate ..|].
  intros v a b. simpl. rewrite Z.geb_leb. apply Z.leb_le.
  apply Z.square_nonneg.
Defined.

(** *** Naive aggregation: roots and members *)

Lemma fill_zero_frame x n k : n ≤ k → rd 0 (fill_zero x n) k = rd 0 x k.
Proof.
  intros Hk. unfold fill_zero. destruct (decide (0 ≤ n)) as [Hn|Hn].
  - apply (for_loop_inv (λ (i : Z) x', rd 0 x' k = rd 0 x k)); [done|done|].
    intros i x' Hi IH. by rewrite rd_wr_ne by lia.
  - by rewrite for_loop_nil by lia.
Qed.

Section NaiveMemberFacts.
Context (n : Z) (Ap Aj : list Z) (lx ly : Z).
Context (Hwf : csr_wf n n Ap Aj) (Hlx : n ≤ lx) (Hly : n ≤ ly).
Context (x0 y0 : list Z).

Lemma naive_members_step i s :
  0 ≤ i < n →
  naive_inv n lx ly i s →
  naive_members_inv n Ap Aj x0 y0 i s →
  naive_members_inv n Ap Aj x0 y0 (i + 1) (naive_step Ap Aj i s).
Proof using Hwf Hlx Hly.
  intros Hi [Hlenx Hleny Hlo Hhi Hvals Hdone Hroots]
    [Hrlt Hincr Hmem Hmark Hfx Hfy].
  unfold naive_step.
  destruct (Z.eqb_spec (rd 0 (ag_x s) i) 0) as [Hxi|Hxi]; simpl.
  2: { split; try done. intros a Ha. specialize (Hrlt a Ha). lia. }
  destruct (mark_free_row_spec Aj (rd 0 Ap i) (rd 0 Ap (i + 1)) (ag_next s)
              (wr (ag_x s) i (ag_next s))) as [Hlen2 Hx2].
  { intros jj Hjj. rewrite len_wr, Hlenx.
    pose proof (wf_col_in_row Hwf i jj Hi Hjj). lia. }
  set (x2 := for_loop (rd 0 Ap i) (rd 0 Ap (i + 1)) _ _) in *.
  rewrite len_wr in Hlen2.
  fold (pattern_row Ap Aj i) in Hx2.
  assert (rd 0 x2 i = ag_next s) as Hx2i.
  { destruct (Hx2 i) as [_ Hout]. rewrite rd_wr_eq in Hout by lia.
    apply Hout. right. lia. }
  assert (∀ k, k ≠ i → k ∈ pattern_row Ap Aj i → rd 0 (ag_x s) k = 0 →
               rd 0 x2 k = ag_next s) as Hnew.
  { intros k Hki Hin Hz. destruct (Hx2 k) as [Hin' _].
    rewrite rd_wr_ne in Hin' by lia. by apply Hin'. }
  assert (∀ k, k ≠ i → k ∉ pattern_row Ap Aj i ∨ rd 0 (ag_x s) k ≠ 0 →
               rd 0 x2 k = rd 0 (ag_x s) k) as Hold.
  { intros k Hki Hno. destruct (Hx2 k) as [_ Hout].
    rewrite rd_wr_ne in Hout by lia. by apply Hout. }
  assert (∀ k, 0 ≤ k < n → rd 0 x2 k = ag_next s →
               i ≤ k ∧ near_root Ap Aj i k) as Hfresh.
  { intros k Hk Heq. destruct (decide (k = i)) as [->|Hki]; [split; [lia|by left]|].
    destruct (decide (k ∈ pattern_row Ap Aj i ∧ rd 0 (ag_x s) k = 0))
      as [[Hin Hz]|Hno].
    - split; [|by right]. destruct (decide (i ≤ k)); [done|].
      destruct (Hdone k); [lia | done].
    - rewrite Hold in Heq; [destruct (Hvals k Hk); lia | done |].
      destruct (decide (k ∈ pattern_row Ap Aj i)); [|by left].
      right. intros ?. by apply Hno. }
  assert (∀ k, 0 ≤ k < n → rd 0 x2 k ≠ ag_next s →
               rd 0 x2 k = rd 0 (ag_x s) k) as Hkept.
  { intros k Hk Hne. destruct (decide (k = i)) as [->|Hki]; [done|].
    apply Hold; [done|].
    destruct (decide (k ∈ pattern_row Ap Aj i)) as [Hin|]; [|by left].
    right. intros Hz. apply Hne. by apply Hnew. }
  split; simpl.
  - intros a Ha. destruct (decide (a = ag_next s)) as [->|Hna].
    + rewrite rd_wr_eq by lia. lia.
    + rewrite rd_wr_ne by lia. specialize (Hrlt a). lia.
  - intros a b Ha Hab Hb. destruct (decide (b = ag_next s)) as [->|Hnb].
    + rewrite rd_wr_eq by lia. rewrite rd_wr_ne by lia.
      specialize (Hrlt a). lia.
    + rewrite !rd_wr_ne by lia. apply Hincr; lia.
  - intros k Hk Hpos.
    destruct (decide (rd 0 x2 k = ag_next s)) as [Heq|Hne].
    + rewrite Heq. rewrite rd_wr_eq by lia. by apply Hfresh.
    + rewrite (Hkept k Hk Hne) in Hpos |- *.
      destruct (Hvals k Hk) as [?|?]; [lia|].
      rewrite rd_wr_ne by lia. by apply Hmem.
  - intros a k Ha. destruct (decide (a = ag_next s)) as [->|Hna].
    + rewrite rd_wr_eq by lia. intros Hin.
      pose proof (wf_pattern_row_col Hwf i k Hi Hin) as Hk.
      destruct (decide (rd 0 x2 k = ag_next s)) as [->|Hne]; [lia|].
      rewrite (Hkept k Hk Hne).
      destruct (Hvals k Hk) as [Hz|?]; [|lia].
      destruct Hne. destruct (decide (k = i)) as [->|Hki]; [done|].
      by apply Hnew.
    + rewrite rd_wr_ne by lia. intros Hin.
      destruct (Hmark a k) as [Hm1 Hm2]; [lia | done |].
      destruct (decide (k = i)) as [->|Hki]; [lia|].
      rewrite Hold; [lia | done | right; lia].
  - intros k Hk. rewrite Hold; [by apply Hfx | lia |].
    left. intros Hin. pose proof (wf_pattern_row_col Hwf i k Hi Hin). lia.
  - intros k Hk. rewrite rd_wr_ne by lia. apply Hfy. lia.
Qed.

Lemma naive_members_final :
  len x0 = lx → len y0 = ly →
  let s := for_loop 0 n (naive_step Ap Aj) (AggState (fill_zero x0 n) y0 1) in
  naive_inv n lx ly n s ∧ naive_members_inv n Ap Aj x0 y0 n s.
Proof using Hwf Hlx Hly.
  intros Hx Hy. simpl. pose proof (wf_rows _ _ _ _ Hwf).
  apply (for_loop_inv (λ i s,
    naive_inv n lx ly i s ∧ naive_members_inv n Ap Aj x0 y0 i s)); [done| |].
  - destruct (fill_zero_spec x0 n) as [Hlen Hz].
    split.
    + split; simpl; try lia; try (intros; lia).
      intros k Hk. left. apply Hz; lia.
    + split; simpl; try (intros; lia).
      * intros k Hk. rewrite Hz; lia.
      * intros k Hk. by apply fill_zero_frame.
  - intros i s Hi [Hinv Hmem]. split.
    + by apply (naive_step_inv n Ap Aj lx ly Hwf Hlx Hly).
    + by apply naive_members_step.
Qed.
End NaiveMemberFacts.

(** *** Properties of [naive_aggregation] *)

(** Every node lies in the aggregate of a root that is the node itself or
    has the node among its stored neighbours, and no node precedes the root
    of its aggregate: with [a = x[k]], the root [y[a - 1]] is at most [k],
    and [k] is the root or a column of the row of the root. *)
Theorem naive_aggregation_members n Ap Aj x y :
  csr_wf n n Ap Aj → n ≤ len x → n ≤ len y →
  let s := naive_aggregation n Ap Aj x y in
  ∀ k, 0 ≤ k < n →
    0 ≤ rd 0 (ag_y s) (rd 0 (ag_x s) k - 1) ≤ k
    ∧ near_root Ap Aj (rd 0 (ag_y s) (rd 0 (ag_x s) k - 1)) k.
Proof.
  intros Hwf Hx Hy s k Hk.
  destruct (naive_members_final n Ap Aj (len x) (len y) Hwf Hx Hy x y
              eq_refl eq_refl)
    as [[_ _ Hlo Hhi Hvals Hdone Hroots] [_ _ Hmem _ _ _]].
  subst s. unfold naive_aggregation. simpl.
  set (s1 := for_loop 0 n (naive_step Ap Aj) (AggState (fill_zero x n) y 1)) in *.
  assert (1 ≤ rd 0 (ag_x s1) k < ag_next s1) as Ha.
  { specialize (Hdone k Hk). destruct (Hvals k Hk); lia. }
  destruct (Hmem k Hk) as [Hle Hnear]; [lia|].
  destruct (Hroots _ Ha) as [Hr _].
  split; [lia | done].
Qed.

Lemma naive_aggregation_members_witness :
  let s := naive_aggregation 3 [0; 2; 5; 7] [0; 1; 0; 1; 2; 1; 2]
             [7; 7; 7] [7; 7; 7] in
  s = AggState [1; 1; 2] [0; 2; 7] 2
  ∧ near_root [0; 2; 5; 7] [0; 1; 0; 1; 2; 1; 2]
      (rd 0 (ag_y s) (rd 0 (ag_x s) 1 - 1)) 1.
Proof.
  intros s. split; [vm_compute; reflexivity|].
  refine (proj2 (naive_aggregation_members 3 [0; 2; 5; 7] [0; 1; 0; 1; 2; 1; 2]
                   [7; 7; 7] [7; 7; 7] _ _ _ 1 _));
    [apply csr_ok_wf; vm_compute; reflexivity
     | vm_compute; discriminate | vm_compute; discriminate | lia].
Defined.

(** The roots are listed in increasing order, so each root is the first
    node of its aggregate that the loop meets; every stored neighbour of a
    root lies in the aggregate of that root or in an earlier one; hence no
    root is a stored neighbour of an earlier root. *)
Theorem naive_aggregation_roots n Ap Aj x y :
  csr_wf n n Ap Aj → n ≤ len x → n ≤ len y →
  let s := naive_aggregation n Ap Aj x y in
  0 ≤ ag_next s ≤ n
  ∧ (∀ a b, 0 ≤ a → a < b → b < ag_next s →
       rd 0 (ag_y s) a < rd 0 (ag_y s) b
       ∧ rd 0 (ag_y s) b ∉ pattern_row Ap Aj (rd 0 (ag_y s) a))
  ∧ (∀ a k, 0 ≤ a < ag_next s → k ∈ pattern_row Ap Aj (rd 0 (ag_y s) a) →
       1 ≤ rd 0 (ag_x s) k ≤ a + 1).
Proof.
  intros Hwf Hx Hy s.
  destruct (naive_members_final n Ap Aj (len x) (len y) Hwf Hx Hy x y
              eq_refl eq_refl)
    as [[_ _ Hlo Hhi Hvals Hdone Hroots] [_ Hincr _ Hmark _ _]].
  subst s. unfold naive_aggregation. simpl.
  set (s1 := for_loop 0 n (naive_step Ap Aj) (AggState (fill_zero x n) y 1)) in *.
  assert (∀ a k, 0 ≤ a < ag_next s1 - 1 →
            k ∈ pattern_row Ap Aj (rd 0 (ag_y s1) a) →
            1 ≤ rd 0 (ag_x s1) k ≤ a + 1) as Hnb.
  { intros a k Ha Hin. apply (Hmark (a + 1)); [lia|].
    by replace (a + 1 - 1) with a by lia. }
  split_and!; [lia | lia | | exact Hnb].
  intros a b Ha Hab Hb. split.
  - specialize (Hincr (a + 1) (b + 1)).
    replace (a + 1 - 1) with a in Hincr by lia.
    replace (b + 1 - 1) with b in Hincr by lia. apply Hincr; lia.
  - intros Hin. destruct (Hnb a _ ltac:(lia) Hin) as [_ Hle].
    destruct (Hroots (b + 1)) as [_ Hr]; [lia|].
    replace (b + 1 - 1) with b in Hr by lia. lia.
Qed.

Lemma naive_aggregation_roots_witness :
  let s := naive_aggregation 3 [0; 2; 5; 7] [0; 1; 0; 1; 2; 1; 2]
             [7; 7; 7] [7; 7; 7] in
  s = AggState [1; 1; 2] [0; 2; 7] 2 ∧ 0 ≤ ag_next s ≤ 3.
Proof.
  intros s. split; [vm_compute; reflexivity|].
  refine (proj1 (naive_aggregation_roots 3 [0; 2; 5; 7] [0; 1; 0; 1; 2; 1; 2]
                   [7; 7; 7] [7; 7; 7] _ _ _));
    [apply csr_ok_wf; vm_compute; reflexivity
     | vm_compute; discriminate | vm_compute; discriminate].
Defined.

(** [naive_aggregation] keeps the lengths of [x] and [y], writes no cell of
    [x] after the first [n_row] and no cell of [y] after the roots: the
    cells of [y] from the returned count on hold what they held on entry. *)
Theorem naive_aggregation_frame n Ap Aj x y :
  csr_wf n n Ap Aj → n ≤ len x → n ≤ len y →
  let s := naive_aggregation n Ap Aj x y in
  len (ag_x s) = len x ∧ len (ag_y s) = len y
  ∧ (∀ k, n ≤ k → rd 0 (ag_x s) k = rd 0 x k)
  ∧ (∀ k, ag_next s ≤ k → rd 0 (ag_y s) k = rd 0 y k).
Proof.
  intros Hwf Hx Hy s.
  destruct (naive_members_final n Ap Aj (len x) (len y) Hwf Hx Hy x y
              eq_refl eq_refl)
    as [[Hlx Hly _ _ _ _ _] [_ _ _ _ Hfx Hfy]].
  by split_and!.
Qed.

Lemma naive_aggregation_frame_witness :
  let s := naive_aggregation 3 [0; 2; 5; 7] [0; 1; 0; 1; 2; 1; 2]
             [7; 7; 7; 8] [7; 7; 7] in
  s = AggState [1; 1; 2; 8] [0; 2; 7] 2
  ∧ rd 0 (ag_x s) 3 = 8 ∧ rd 0 (ag_y s) 2 = 7.
Proof.
  intros s. split; [vm_compute; reflexivity|].
  destruct (naive_aggregation_frame 3 [0; 2; 5; 7] [0; 1; 0; 1; 2; 1; 2]
              [7; 7; 7; 8] [7; 7; 7]) as (_ & _ & Hfx & Hfy);
    [apply csr_ok_wf; vm_compute; reflexivity
     | vm_compute; discriminate | vm_compute; discriminate |].
  split; [apply (Hfx 3); lia | apply (Hfy 2); vm_compute; discriminate].
Defined.

(** *** Standard aggregation: roots and members *)

Section StdMemberFacts.
Context (n : Z) (Ap Aj : list Z) (lx ly : Z).
Context (Hwf : csr_wf n n Ap Aj) (Hsym : graph_symmetric n Ap Aj).
Context (Hlx : n ≤ lx) (Hly : n ≤ ly).
Context (x0 y0 : list Z).

Lemma std_members1_step i s :
  0 ≤ i < n →
  pass1_inv n Ap Aj lx ly i s →
  std_members1_inv n Ap Aj x0 y0 i s →
  std_members1_inv n Ap Aj x0 y0 (i + 1) (pass1_step n Ap Aj i s).
Proof using Hwf Hlx Hly.
  intros Hi [Hlenx Hleny Hlo Hhi Hnn Hfull Hvals Hiso Hzero Hroots]
    [Hrlt Hincr Hmem Hwhole Hfx Hfy].
  assert (std_members1_inv n Ap Aj x0 y0 (i + 1) s) as Hsame.
  { split; try done. intros a Ha. specialize (Hrlt a Ha). lia. }
  unfold pass1_step.
  destruct (Z.eqb_spec (rd 0 (ag_x s) i) 0) as [Hxi|Hxi]; simpl; [|done].
  pose proof (scan_neighbors_spec Aj (ag_x s) i
                (seqZ (rd 0 Ap i) (rd 0 Ap (i + 1) - rd 0 Ap i)) false) as Hscan.
  destruct (scan_neighbors _ _ _ _ _) as [hn ha]. simpl in Hscan.
  destruct Hscan as [Hs1 Hs2].
  destruct hn; simpl.
  - destruct ha; simpl; [done|].
    destruct Hs2 as [Hfree _]; [done|].
    assert (∀ k, k ∈ pattern_row Ap Aj i → k ≠ i → rd 0 (ag_x s) k = 0) as Hfree'.
    { intros k (jj & Hjj & ->)%elem_of_cols_seqZ Hk. by apply Hfree. }
    destruct (mark_row_spec Aj (rd 0 Ap i) (rd 0 Ap (i + 1)) (ag_next s)
                (wr (ag_x s) i (ag_next s))) as [Hlen2 Hx2].
    { intros jj Hjj. rewrite len_wr, Hlenx.
      pose proof (wf_col_in_row Hwf i jj Hi Hjj). lia. }
    set (x2 := for_loop (rd 0 Ap i) (rd 0 Ap (i + 1))
                 (λ jj x, wr x (rd 0 Aj jj) (ag_next s))
                 (wr (ag_x s) i (ag_next s))) in *.
    rewrite len_wr in Hlen2. fold (pattern_row Ap Aj i) in Hx2.
    assert (∀ k,
      (rd 0 x2 k = ag_next s ∧ rd 0 (ag_x s) k = 0
       ∧ (k = i ∨ k ∈ pattern_row Ap Aj i))
      ∨ (rd 0 x2 k = rd 0 (ag_x s) k ∧ k ≠ i ∧ k ∉ pattern_row Ap Aj i)) as Hch.
    { intros k. destruct (Hx2 k) as [Hin Hout].
      destruct (decide (k ∈ pattern_row Ap Aj i)) as [Hk|Hk].
      - left. split; [by apply Hin|]. split; [|by right].
        destruct (decide (k = i)) as [->|Hki]; [done|]. by apply Hfree'.
      - rewrite Hout by done. rewrite rd_wr by lia.
        destruct (decide (i = k)) as [<-|Hki].
        + left. split_and!; [done | done | by left].
        + right. split_and!; [done | congruence | done]. }
    split; simpl.
    + intros a Ha. destruct (decide (a = ag_next s)) as [->|Hna].
      * rewrite rd_wr_eq by lia. lia.
      * rewrite rd_wr_ne by lia. specialize (Hrlt a). lia.
    + intros a b Ha Hab Hb. destruct (decide (b = ag_next s)) as [->|Hnb].
      * rewrite rd_wr_eq by lia. rewrite rd_wr_ne by lia.
        specialize (Hrlt a). lia.
      * rewrite !rd_wr_ne by lia. apply Hincr; lia.
    + intros k Hk Hpos. destruct (Hch k) as [(Heq&_&Hnear)|(Heq&_&_)].
      * rewrite Heq. rewrite rd_wr_eq by lia. exact Hnear.
      * rewrite Heq in Hpos |- *.
        destruct (Hvals k Hk) as [?|[(?&?&?)|(?&?)]]; [lia..|].
        rewrite rd_wr_ne by lia. by apply Hmem.
    + intros a k Ha. destruct (decide (a = ag_next s)) as [->|Hna].
      * rewrite rd_wr_eq by lia. intros Hin.
        destruct (Hch k) as [(Heq&_&_)|(_&_&?)]; done.
      * rewrite rd_wr_ne by lia. intros Hin.
        pose proof (Hwhole a k ltac:(lia) Hin) as Hxa.
        destruct (Hch k) as [(_&?&_)|(Heq&_&_)]; [lia | congruence].
    + intros k Hk. destruct (Hch k) as [(_&_&[->|Hin])|(Heq&_&_)].
      * lia.
      * pose proof (wf_pattern_row_col Hwf i k Hi Hin). lia.
      * rewrite Heq. by apply Hfx.
    + intros k Hk. rewrite rd_wr_ne by lia. apply Hfy. lia.
  - destruct ha; [by destruct Hs1|].
    split; simpl.
    + intros a Ha. specialize (Hrlt a Ha). lia.
    + done.
    + intros k Hk. rewrite rd_wr by lia. case_decide; [lia|]. by apply Hmem.
    + intros a k Ha Hin. rewrite rd_wr_ne; [by apply Hwhole|].
      intros <-. rewrite (Hwhole a i Ha Hin) in Hxi. lia.
    + intros k Hk. rewrite rd_wr_ne by lia. by apply Hfx.
    + done.
Qed.

Lemma std_members1_final :
  len x0 = lx → len y0 = ly →
  let s := for_loop 0 n (pass1_step n Ap Aj) (AggState (fill_zero x0 n) y0 1) in
  pass1_inv n Ap Aj lx ly n s ∧ std_members1_inv n Ap Aj x0 y0 n s.
Proof using Hwf Hsym Hlx Hly.
  intros Hx Hy. simpl. pose proof (wf_rows _ _ _ _ Hwf).
  apply (for_loop_inv (λ i s,
    pass1_inv n Ap Aj lx ly i s ∧ std_members1_inv n Ap Aj x0 y0 i s)); [done| |].
  - split; [by apply pass1_init|].
    destruct (fill_zero_spec x0 n) as [Hlen Hz].
    split; simpl; try (intros; lia).
    + intros k Hk. rewrite Hz; lia.
    + intros k Hk. by apply fill_zero_frame.
  - intros i s Hi [Hinv Hmem]. split.
    + by apply (pass1_step_inv n Ap Aj lx ly Hwf Hsym Hlx Hly).
    + by apply std_members1_step.
Qed.

Lemma std_members2_init s :
  pass1_inv n Ap Aj lx ly n s →
  std_members1_inv n Ap Aj x0 y0 n s →
  std_members2_inv n Ap Aj x0 (ag_next s) (ag_y s) 0 s.
Proof.
  intros [Hlenx Hleny Hlo Hhi Hnn Hfull Hvals Hiso Hzero Hroots]
    [Hrlt Hincr Hmem Hwhole Hfx Hfy].
  split; try done.
  intros k Hk Hneg.
  destruct (Hvals k Hk) as [?|[(?&?&?)|(?&?)]]; lia.
Qed.

Lemma std_members2_step nx y1 i s :
  nx ≤ n → 0 ≤ i < n →
  pass2_inv n Ap Aj lx nx y1 i s →
  std_members2_inv n Ap Aj x0 nx y1 i s →
  std_members2_inv n Ap Aj x0 nx y1 (i + 1) (pass2_step Ap Aj i s).
Proof using Hwf Hlx.
  intros Hnx Hi [Hlenx Hy Hnext Hvals Hzero Hroots] [Hmem Hatt Hwhole Hfx].
  unfold pass2_step.
  destruct (Z.eqb_spec (rd 0 (ag_x s) i) 0) as [Hxi|Hxi]; simpl; [|done].
  destruct (attach_to_neighbor_spec Aj (ag_x s) i
              (seqZ (rd 0 Ap i) (rd 0 Ap (i + 1) - rd 0 Ap i)))
    as [(jj & Hjj & Hpos & ->)|[_ ->]]; [|done].
  set (j' := rd 0 Aj jj) in *.
  assert (j' ∈ pattern_row Ap Aj i) as Hrow' by (apply elem_of_cols_seqZ; eauto).
  pose proof (wf_pattern_row_col Hwf i j' Hi Hrow') as Hj'.
  assert (1 ≤ rd 0 (ag_x s) j' < nx) as Hbound.
  { destruct (Hvals j' Hj') as [(?&?)|[(?&?)|[(?&?)|(?&?)]]]; lia. }
  split; simpl.
  - intros k Hk. rewrite rd_wr by lia. case_decide; [lia|]. by apply Hmem.
  - intros k Hk. rewrite rd_wr by lia. case_decide as Hik.
    + subst k. intros _. exists j'. split; [done|].
      replace (- - rd 0 (ag_x s) j' - 1) with (rd 0 (ag_x s) j' - 1) by lia.
      apply Hmem; [done | lia].
    + by apply Hatt.
  - intros a k Ha Hin. rewrite rd_wr_ne; [by apply Hwhole|].
    intros <-. rewrite (Hwhole a i Ha Hin) in Hxi. lia.
  - intros k Hk. rewrite rd_wr_ne by lia. by apply Hfx.
Qed.

Lemma std_members3_init nx y1 s :
  std_members2_inv n Ap Aj x0 nx y1 n s →
  std_members3_inv n Ap Aj x0 (nx - 1) y1 0
    (AggState (ag_x s) (ag_y s) (ag_next s - 1)).
Proof.
  intros [Hmem Hatt Hwhole Hfx].
  split; simpl; try done.
  - intros; lia.
  - intros a k Ha Hin. split; [|intros _; apply Hwhole; [lia | done]].
    intros Hk0. pose proof (Hwhole a k ltac:(lia) Hin) as Hxa.
    destruct (decide (0 ≤ k)) as [?|Hneg]; [lia|].
    unfold rd in Hxa. rewrite decide_False in Hxa by done. lia.
Qed.

Lemma std_members3_step c y1 i s :
  c < n → 0 ≤ i < n →
  pass3_inv n Ap Aj lx c y1 i s →
  std_members3_inv n Ap Aj x0 c y1 i s →
  std_members3_inv n Ap Aj x0 c y1 (i + 1) (pass3_step n Ap Aj i s).
Proof using Hlx.
  intros Hc Hi [Hlenx Hy Hnext Hdone Htodo Hroots]
    [Hfin Hmem Hatt Hwhole Hfx].
  unfold pass3_step.
  assert (rd 0 (ag_x s) i ≠ 0) as Hxi.
  { destruct (Htodo i) as [(?&?)|[(?&?)|(?&?)]]; lia. }
  destruct (Z.eqb_spec (rd 0 (ag_x s) i) 0) as [?|_]; [done|]. simpl.
  split; simpl.
  - intros k Hk. rewrite rd_wr by lia. case_decide as Hik.
    + subst k. destruct (Htodo i) as [(Hv&?)|[(Hv&?)|(Hv&?)]]; [lia| | |].
      * destruct (Z.ltb_spec 0 (rd 0 (ag_x s) i)); [lia|].
        destruct (Z.eqb_spec (rd 0 (ag_x s) i) (- n)); [lia | done].
      * destruct (Z.ltb_spec 0 (rd 0 (ag_x s) i)); [|lia].
        intros _. left. apply Hmem; lia.
      * destruct (Z.ltb_spec 0 (rd 0 (ag_x s) i)); [lia|].
        destruct (Z.eqb_spec (rd 0 (ag_x s) i) (- n)); [lia|].
        intros _. right. apply Hatt; lia.
    + apply Hfin. lia.
  - intros k Hk. rewrite rd_wr_ne by lia. apply Hmem. lia.
  - intros k Hk. rewrite rd_wr_ne by lia. apply Hatt. lia.
  - intros a k Ha Hin. destruct (Hwhole a k Ha Hin) as [Hlt Hge].
    rewrite rd_wr by lia. case_decide as Hik.
    + subst k. split; [|intros; lia]. intros _.
      rewrite Hge by lia. destruct (Z.ltb_spec 0 a); lia.
    + split; intros; [apply Hlt | apply Hge]; lia.
  - intros k Hk. rewrite rd_wr_ne by lia. by apply Hfx.
Qed.

(** The state in which [standard_aggregation] returns, with the members of
    its aggregates. *)
Lemma standard_members_final :
  len x0 = lx → len y0 = ly →
  let s := standard_aggregation n Ap Aj x0 y0 in
  pass3_inv n Ap Aj lx (ag_next s) (ag_y s) n s
  ∧ std_members3_inv n Ap Aj x0 (ag_next s) (ag_y s) n s
  ∧ len (ag_y s) = ly
  ∧ (∀ a b, 0 ≤ a → a < b → b < ag_next s →
       rd 0 (ag_y s) a < rd 0 (ag_y s) b)
  ∧ (∀ k, ag_next s ≤ k → rd 0 (ag_y s) k = rd 0 y0 k)
  ∧ 0 ≤ ag_next s.
Proof using Hwf Hsym Hlx Hly.
  intros Hx Hy. simpl. unfold standard_aggregation.
  pose proof (wf_rows _ _ _ _ Hwf) as Hn.
  destruct (std_members1_final Hx Hy) as [H1 M1].
  set (s1 := for_loop 0 n (pass1_step n Ap Aj) (AggState (fill_zero x0 n) y0 1)) in *.
  pose proof (p1_next_n _ _ _ _ _ _ _ H1) as Hnn.
  pose proof (p1_next_lo _ _ _ _ _ _ _ H1) as Hlo.
  pose proof (p1_next_hi _ _ _ _ _ _ _ H1) as Hhi.
  assert (ag_next s1 ≤ n ∨ n = 0) as Hnx by lia.
  assert (pass2_inv n Ap Aj lx (ag_next s1) (ag_y s1) n
            (for_loop 0 n (pass2_step Ap Aj) s1)
          ∧ std_members2_inv n Ap Aj x0 (ag_next s1) (ag_y s1) n
              (for_loop 0 n (pass2_step Ap Aj) s1)) as [H2 M2].
  { apply (for_loop_inv (λ i s,
      pass2_inv n Ap Aj lx (ag_next s1) (ag_y s1) i s
      ∧ std_members2_inv n Ap Aj x0 (ag_next s1) (ag_y s1) i s)); [done| |].
    - split; [by apply (pass2_init n Ap Aj lx ly) | by apply std_members2_init].
    - intros i s Hi [Hinv Hm]. split.
      + by apply (pass2_step_inv n Ap Aj lx Hwf Hlx).
      + apply std_members2_step; [lia | done | done | done]. }
  set (s2 := for_loop 0 n (pass2_step Ap Aj) s1) in *.
  assert (pass3_inv n Ap Aj lx (ag_next s1 - 1) (ag_y s1) n
            (for_loop 0 n (pass3_step n Ap Aj)
               (AggState (ag_x s2) (ag_y s2) (ag_next s2 - 1)))
          ∧ std_members3_inv n Ap Aj x0 (ag_next s1 - 1) (ag_y s1) n
              (for_loop 0 n (pass3_step n Ap Aj)
                 (AggState (ag_x s2) (ag_y s2) (ag_next s2 - 1)))) as [H3 M3].
  { apply (for_loop_inv (λ i s,
      pass3_inv n Ap Aj lx (ag_next s1 - 1) (ag_y s1) i s
      ∧ std_members3_inv n Ap Aj x0 (ag_next s1 - 1) (ag_y s1) i s)); [done| |].
    - split; [by apply pass3_init | by apply std_members3_init].
    - intros i s Hi [Hinv Hm]. split.
      + apply (pass3_step_inv n Ap Aj lx Hlx); [lia | done | done].
      + apply std_members3_step; [lia | done | done | done]. }
  set (s3 := for_loop 0 n (pass3_step n Ap Aj)
               (AggState (ag_x s2) (ag_y s2) (ag_next s2 - 1))) in *.
  rewrite (p3_next _ _ _ _ _ _ _ _ H3), (p3_y _ _ _ _ _ _ _ _ H3).
  split_and!; [exact H3 | exact M3 | | | | lia].
  - apply (p1_len_y _ _ _ _ _ _ _ H1).
  - intros a b Ha Hab Hb.
    pose proof (sm1_incr _ _ _ _ _ _ _ M1 (a + 1) (b + 1)) as Hinc.
    replace (a + 1 - 1) with a in Hinc by lia.
    replace (b + 1 - 1) with b in Hinc by lia. apply Hinc; lia.
  - intros k Hk. apply (sm1_frame_y _ _ _ _ _ _ _ M1). lia.
Qed.
End StdMemberFacts.

(** *** Properties of [standard_aggregation] on symmetric graphs *)

(** Every aggregated node is within two stored edges of the root of its
    aggregate: with [a = x[k] >= 0] and [r = y[a]], node [k] is [r] or a
    stored neighbour of [r] (pass 1), or it has a stored neighbour [m] in
    the same aggregate that is [r] or a stored neighbour of [r]
    (pass 2). *)
Theorem standard_aggregation_members n Ap Aj x y :
  csr_wf n n Ap Aj → graph_symmetric n Ap Aj →
  n ≤ len x → n ≤ len y →
  let s := standard_aggregation n Ap Aj x y in
  ∀ k, 0 ≤ k < n → 0 ≤ rd 0 (ag_x s) k →
    let r := rd 0 (ag_y s) (rd 0 (ag_x s) k) in
    near_root Ap Aj r k
    ∨ ∃ m, m ∈ pattern_row Ap Aj k ∧ near_root Ap Aj r m
           ∧ rd 0 (ag_x s) m = rd 0 (ag_x s) k.
Proof.
  intros Hwf Hsym Hx Hy s k Hk Hpos r.
  destruct (standard_members_final n Ap Aj (len x) (len y) Hwf Hsym Hx Hy
              x y eq_refl eq_refl)
    as ([_ _ _ Hdone _ Hroots] & [Hfin _ _ Hwhole _] & _).
  fold s in Hdone, Hroots, Hfin, Hwhole.
  destruct (Hfin k Hk Hpos) as [Hnear|(m & Hm & Hnear)]; [by left|].
  right. exists m. split_and!; [done | done |].
  assert (1 ≤ rd 0 (ag_x s) k + 1 ≤ ag_next s) as Ha.
  { destruct (Hdone k Hk) as [(?&?)|(?&?)]; lia. }
  destruct Hnear as [->|Hin].
  - destruct (Hroots _ Ha) as [Hr1 Hr2].
    replace (rd 0 (ag_x s) k + 1 - 1) with (rd 0 (ag_x s) k) in * by lia.
    rewrite Hr2. rewrite decide_True by lia. lia.
  - destruct (Hwhole _ m Ha) as [Hlt _].
    { by replace (rd 0 (ag_x s) k + 1 - 1) with (rd 0 (ag_x s) k) by lia. }
    pose proof (wf_pattern_row_col Hwf k m Hk Hm). rewrite Hlt; lia.
Qed.

Lemma standard_aggregation_members_witness :
  let s := standard_aggregation 3 [0; 2; 5; 7] [0; 1; 0; 1; 2; 1; 2]
             [7; 7; 7] [7; 7; 7] in
  s = AggState [0; 0; 0] [0; 7; 7] 1
  ∧ (near_root [0; 2; 5; 7] [0; 1; 0; 1; 2; 1; 2]
       (rd 0 (ag_y s) (rd 0 (ag_x s) 2)) 2
     ∨ ∃ m, m ∈ pattern_row [0; 2; 5; 7] [0; 1; 0; 1; 2; 1; 2] 2
            ∧ near_root [0; 2; 5; 7] [0; 1; 0; 1; 2; 1; 2]
                (rd 0 (ag_y s) (rd 0 (ag_x s) 2)) m
            ∧ rd 0 (ag_x s) m = rd 0 (ag_x s) 2).
Proof.
  intros s. split; [vm_compute; reflexivity|].
  refine (standard_aggregation_members 3 [0; 2; 5; 7] [0; 1; 0; 1; 2; 1; 2]
            [7; 7; 7] [7; 7; 7] _ _ _ _ 2 _ _);
    [apply csr_ok_wf; vm_compute; reflexivity
     | apply graph_symmetric_ok_spec; vm_compute; reflexivity
     | vm_compute; discriminate | vm_compute; discriminate
     | lia | vm_compute; discriminate].
Defined.

(** The core of aggregate [a]: its root [y[a]] is a node of the aggregate,
    so is every stored neighbour of the root, and one of them is not the
    root. *)
Lemma standard_cores n Ap Aj x y :
  csr_wf n n Ap Aj → graph_symmetric n Ap Aj →
  n ≤ len x → n ≤ len y →
  let s := standard_aggregation n Ap Aj x y in
  ∀ a, 0 ≤ a < ag_next s →
    0 ≤ rd 0 (ag_y s) a < n
    ∧ rd 0 (ag_x s) (rd 0 (ag_y s) a) = a
    ∧ (∀ k, k ∈ pattern_row Ap Aj (rd 0 (ag_y s) a) → rd 0 (ag_x s) k = a)
    ∧ ∃ k, 0 ≤ k < n ∧ k ≠ rd 0 (ag_y s) a
           ∧ k ∈ pattern_row Ap Aj (rd 0 (ag_y s) a).
Proof.
  intros Hwf Hsym Hx Hy s a Ha.
  destruct (standard_members_final n Ap Aj (len x) (len y) Hwf Hsym Hx Hy
              x y eq_refl eq_refl)
    as ([_ _ _ Hdone _ Hroots] & [_ _ _ Hwhole _] & _).
  fold s in Hdone, Hroots, Hwhole.
  destruct (Hroots (a + 1)) as [Hr Hxr]; [lia|].
  replace (a + 1 - 1) with a in * by lia.
  rewrite decide_True in Hxr by lia.
  split_and!; [lia | lia | lia | |].
  - intros k Hin.
    pose proof (wf_pattern_row_col Hwf _ k Hr Hin) as Hk.
    destruct (Hwhole (a + 1) k) as [Hlt _]; [lia | |rewrite Hlt; lia].
    by replace (a + 1 - 1) with a by lia.
  - assert (¬ isolated Ap Aj (rd 0 (ag_y s) a)) as Hni.
    { destruct (Hdone _ Hr) as [(?&?)|(?&?)]; [lia | done]. }
    assert (Exists (λ j, j ≠ rd 0 (ag_y s) a)
              (pattern_row Ap Aj (rd 0 (ag_y s) a))) as Hex.
    { apply not_Forall_Exists; [apply _|].
      intros Hfa. apply Hni. intros j Hj.
      rewrite Forall_forall in Hfa. by apply Hfa. }
    apply Exists_exists in Hex as (k & Hin & Hne).
    exists k. split_and!; [| |done | done];
      pose proof (wf_pattern_row_col Hwf _ k Hr Hin); lia.
Qed.

(** The roots are listed in increasing order.  The aggregate of a root
    holds every stored neighbour of the root, one of them other than the
    root, so that an aggregate has at least two nodes; and the roots lie
    far apart: a root is no stored neighbour of another root, and two
    roots have no stored neighbour in common. *)
Theorem standard_aggregation_neighbourhoods n Ap Aj x y :
  csr_wf n n Ap Aj → graph_symmetric n Ap Aj →
  n ≤ len x → n ≤ len y →
  let s := standard_aggregation n Ap Aj x y in
  (∀ a b, 0 ≤ a → a < b → b < ag_next s →
     rd 0 (ag_y s) a < rd 0 (ag_y s) b)
  ∧ (∀ a, 0 ≤ a < ag_next s →
       (∀ k, k ∈ pattern_row Ap Aj (rd 0 (ag_y s) a) → rd 0 (ag_x s) k = a)
       ∧ ∃ k, k ≠ rd 0 (ag_y s) a
              ∧ k ∈ pattern_row Ap Aj (rd 0 (ag_y s) a)
              ∧ rd 0 (ag_x s) k = a)
  ∧ (∀ a b, 0 ≤ a < ag_next s → 0 ≤ b < ag_next s → a ≠ b →
       (rd 0 (ag_y s) b ∉ pattern_row Ap Aj (rd 0 (ag_y s) a))
       ∧ ∀ k, k ∈ pattern_row Ap Aj (rd 0 (ag_y s) a) →
              k ∉ pattern_row Ap Aj (rd 0 (ag_y s) b)).
Proof.
  intros Hwf Hsym Hx Hy s.
  destruct (standard_members_final n Ap Aj (len x) (len y) Hwf Hsym Hx Hy
              x y eq_refl eq_refl) as (_ & _ & _ & Hincr & _).
  pose proof (standard_cores n Ap Aj x y Hwf Hsym Hx Hy) as Hcore.
  fold s in Hincr, Hcore.
  split_and!; [exact Hincr | |].
  - intros a Ha. destruct (Hcore a Ha) as (_ & _ & Hall & k & _ & Hne & Hin).
    split; [exact Hall|]. exists k. split_and!; [done | done | by apply Hall].
  - intros a b Ha Hb Hab.
    destruct (Hcore a Ha) as (_ & _ & Hall & _).
    destruct (Hcore b Hb) as (_ & Hxb & Hall' & _). split.
    + intros Hin. pose proof (Hall _ Hin). congruence.
    + intros k Hin Hin'. pose proof (Hall k Hin).
      pose proof (Hall' k Hin'). congruence.
Qed.

Lemma standard_aggregation_neighbourhoods_witness :
  let s := standard_aggregation 3 [0; 2; 5; 7] [0; 1; 0; 1; 2; 1; 2]
             [7; 7; 7] [7; 7; 7] in
  s = AggState [0; 0; 0] [0; 7; 7] 1
  ∧ ∀ k, k ∈ pattern_row [0; 2; 5; 7] [0; 1; 0; 1; 2; 1; 2] (rd 0 (ag_y s) 0) →
         rd 0 (ag_x s) k = 0.
Proof.
  intros s. split; [vm_compute; reflexivity|].
  destruct (standard_aggregation_neighbourhoods 3 [0; 2; 5; 7]
              [0; 1; 0; 1; 2; 1; 2] [7; 7; 7] [7; 7; 7])
    as (_ & Hall & _);
    [apply csr_ok_wf; vm_compute; reflexivity
     | apply graph_symmetric_ok_spec; vm_compute; reflexivity
     | vm_compute; discriminate | vm_compute; discriminate |].
  refine (proj1 (Hall 0 _)). vm_compute. split; [discriminate | reflexivity].
Defined.

(** [standard_aggregation] keeps the lengths of [x] and [y], writes no cell
    of [x] after the first [n_row] and no cell of [y] from the returned
    count on. *)
Theorem standard_aggregation_frame n Ap Aj x y :
  csr_wf n n Ap Aj → graph_symmetric n Ap Aj →
  n ≤ len x → n ≤ len y →
  let s := standard_aggregation n Ap Aj x y in
  len (ag_x s) = len x ∧ len (ag_y s) = len y
  ∧ (∀ k, n ≤ k → rd 0 (ag_x s) k = rd 0 x k)
  ∧ (∀ k, ag_next s ≤ k → rd 0 (ag_y s) k = rd 0 y k).
Proof.
  intros Hwf Hsym Hx Hy s.
  destruct (standard_members_final n Ap Aj (len x) (len y) Hwf Hsym Hx Hy
              x y eq_refl eq_refl)
    as ([Hlx _ _ _ _ _] & [_ _ _ _ Hfx] & Hly & _ & Hfy & _).
  by split_and!.
Qed.

Lemma standard_aggregation_frame_witness :
  let s := standard_aggregation 3 [0; 2; 5; 7] [0; 1; 0; 1; 2; 1; 2]
             [7; 7; 7; 8] [7; 7; 7] in
  s = AggState [0; 0; 0; 8] [0; 7; 7] 1
  ∧ rd 0 (ag_x s) 3 = 8 ∧ rd 0 (ag_y s) 1 = 7.
Proof.
  intros s. split; [vm_compute; reflexivity|].
  destruct (standard_aggregation_frame 3 [0; 2; 5; 7] [0; 1; 0; 1; 2; 1; 2]
              [7; 7; 7; 8] [7; 7; 7]) as (_ & _ & Hfx & Hfy);
    [apply csr_ok_wf; vm_compute; reflexivity
     | apply graph_symmetric_ok_spec; vm_compute; reflexivity
     | vm_compute; discriminate | vm_compute; discriminate |].
  split; [apply (Hfx 3); lia | apply (Hfy 1); vm_compute; discriminate].
Defined.

(** The pairs of a root and another node of its aggregate, for the first
    [c] aggregates, are distinct nodes. *)
Lemma distinct_pairs (n c : Z) (x y : list Z) :
  0 ≤ n → 0 ≤ c →
  (∀ a, 0 ≤ a < c →
     0 ≤ rd 0 y a < n ∧ rd 0 x (rd 0 y a) = a
     ∧ ∃ k, 0 ≤ k < n ∧ k ≠ rd 0 y a ∧ rd 0 x k = a) →
  2 * c ≤ n.
Proof.
  intros Hn Hc Hagg.
  assert (∃ l : list Z, len l = 2 * c ∧ NoDup l
            ∧ ∀ v, v ∈ l → 0 ≤ v < n ∧ 0 ≤ rd 0 x v < c) as (l & Hl & Hnd & Hin).
  { revert Hagg. pattern c. apply natlike_ind; [| |done].
    - intros _. exists []. split_and!; [done | constructor |].
      intros v Hv. by apply elem_of_nil in Hv.
    - intros m Hm IH Hagg.
      destruct IH as (l & Hl & Hnd & Hin); [intros a Ha; apply Hagg; lia|].
      destruct (Hagg m) as (Hr & Hxr & k & Hk & Hkr & Hxk); [lia|].
      exists (rd 0 y m :: k :: l). split_and!.
      + unfold len in *. simpl. lia.
      + constructor.
        * intros [Heq|Hv]%elem_of_cons; [congruence|].
          destruct (Hin _ Hv) as [_ ?]. lia.
        * constructor; [|done]. intros Hv. destruct (Hin _ Hv) as [_ ?]. lia.
      + intros v [->|[->|Hv]%elem_of_cons]%elem_of_cons; [lia | lia |].
        destruct (Hin v Hv). lia. }
  assert (l ⊆ seqZ 0 n) as Hsub.
  { intros v Hv. apply elem_of_seqZ. destruct (Hin v Hv). lia. }
  pose proof (submseteq_length _ _ (NoDup_submseteq _ _ Hnd Hsub)) as Hlen.
  rewrite length_seqZ in Hlen. unfold len in Hl. lia.
Qed.

(** Standard aggregation coarsens by a factor of two at least: every
    aggregate holds its root and another node, so on a symmetric graph
    there are at most [n_row / 2] aggregates. *)
Theorem standard_aggregation_coarsens n Ap Aj x y :
  csr_wf n n Ap Aj → graph_symmetric n Ap Aj →
  n ≤ len x → n ≤ len y →
  let s := standard_aggregation n Ap Aj x y in
  0 ≤ ag_next s ∧ 2 * ag_next s ≤ n.
Proof.
  intros Hwf Hsym Hx Hy s.
  destruct (standard_members_final n Ap Aj (len x) (len y) Hwf Hsym Hx Hy
              x y eq_refl eq_refl) as (_ & _ & _ & _ & _ & Hc).
  pose proof (standard_cores n Ap Aj x y Hwf Hsym Hx Hy) as Hcore.
  fold s in Hc, Hcore.
  split; [done|].
  apply (distinct_pairs n (ag_next s) (ag_x s) (ag_y s));
    [apply (wf_rows _ _ _ _ Hwf) | done |].
  intros a Ha. destruct (Hcore a Ha) as (Hr & Hxr & Hall & k & Hk & Hne & Hin).
  split_and!; [lia | lia | done |]. exists k. split_and!; [lia | lia | done |].
  by apply Hall.
Qed.

Lemma standard_aggregation_coarsens_witness :
  let s := standard_aggregation 3 [0; 2; 5; 7] [0; 1; 0; 1; 2; 1; 2]
             [7; 7; 7] [7; 7; 7] in
  ag_next s = 1 ∧ 2 * ag_next s ≤ 3.
Proof.
  intros s. split; [vm_compute; reflexivity|].
  refine (proj2 (standard_aggregation_coarsens 3 [0; 2; 5; 7]
                   [0; 1; 0; 1; 2; 1; 2] [7; 7; 7] [7; 7; 7] _ _ _ _));
    [apply csr_ok_wf; vm_compute; reflexivity
     | apply graph_symmetric_ok_spec; vm_compute; reflexivity
     | vm_compute; discriminate | vm_compute; discriminate].
Defined.

(** *** Further properties of [satisfy_constraints_helper] *)

(** Arrays of the same length with the same cells are equal. *)
Lemma list_eq_rd {A} (d : A) (a b : list A) :
  len a = len b → (∀ c, 0 ≤ c < len a → rd d a c = rd d b c) → a = b.
Proof.
  intros Hlen Hrd. unfold len in *.
  apply (list_eq_same_length _ _ (length a)); [lia | done |].
  intros i u v Hi Hu Hv. specialize (Hrd (Z.of_nat i)).
  unfold rd in Hrd. rewrite !decide_True, !Nat2Z.id in Hrd by lia.
  rewrite Hu, Hv in Hrd. simpl in Hrd. apply Hrd. lia.
Qed.

(** A cell inside a range of blocks is an entry of one of the blocks. *)
Lemma block_cell_split R C lo hi c :
  0 ≤ R → 0 ≤ C → lo * (R * C) ≤ c < hi * (R * C) →
  ∃ j r k, lo ≤ j < hi ∧ 0 ≤ r < R ∧ 0 ≤ k < C
           ∧ c = j * (R * C) + (r * C + k).
Proof.
  intros HR HC Hc.
  assert (0 ≤ R * C) as HBS0 by (by apply Z.mul_nonneg_nonneg).
  assert (0 < R * C) as HBS.
  { destruct (decide (R * C = 0)) as [Hz|?]; [|lia].
    rewrite Hz, !Z.mul_0_r in Hc. lia. }
  assert (0 < C) as HC'.
  { destruct (decide (C = 0)) as [->|?]; [|lia]. rewrite Z.mul_0_r in HBS. lia. }
  pose proof (Z.div_mod c (R * C) ltac:(lia)) as Hdm.
  pose proof (Z.mod_pos_bound c (R * C) HBS) as Hm.
  pose proof (Z.div_mod (c `mod` (R * C)) C ltac:(lia)) as Hdm2.
  pose proof (Z.mod_pos_bound (c `mod` (R * C)) C HC') as Hm2.
  exists (c `div` (R * C)), ((c `mod` (R * C)) `div` C),
         ((c `mod` (R * C)) `mod` C).
  split_and!.
  - apply Z.div_le_lower_bound; lia.
  - apply Z.div_lt_upper_bound; lia.
  - apply Z.div_pos; lia.
  - apply Z.div_lt_upper_bound; lia.
  - lia.
  - lia.
  - lia.
Qed.

Section ZeroUpdate.
Context {T F : Type} `{!Scalar T F} `{!ScalarRing T F}.
Context (RowsPerBlock ColsPerBlock NullDim : Z).
Context (x y z : list T) (Sp Sj : list Z) (num_block_rows n_bcol : Z).
Context (HRows : 0 ≤ RowsPerBlock) (HCols : 0 ≤ ColsPerBlock) (HNull : 0 ≤ NullDim).
Context (Hwf : csr_wf num_block_rows n_bcol Sp Sj).

Add Ring scalar_ring_zero : Tring.

Lemma sc_update_entry_zero i cb r c :
  (∀ m, 0 ≤ m < NullDim →
     rd Tzero y (i * (NullDim * RowsPerBlock) + (r * NullDim + m)) = Tzero) →
  sc_update_entry RowsPerBlock ColsPerBlock NullDim x y z i cb r c = Tzero.
Proof using ScalarRing0.
  intros Hy. unfold sc_update_entry.
  rewrite (sum_list_ext_in _ (λ _, Tzero)); [apply sum_list_zero|].
  intros m Hm. apply elem_of_seqZ in Hm. rewrite Hy by lia. ring.
Qed.

Lemma satisfy_constraints_fixed Sx :
  rd 0 Sp num_block_rows * (RowsPerBlock * ColsPerBlock) ≤ len Sx →
  (∀ i r m, 0 ≤ i < num_block_rows → 0 ≤ r < RowsPerBlock → 0 ≤ m < NullDim →
     rd Tzero y (i * (NullDim * RowsPerBlock) + (r * NullDim + m)) = Tzero) →
  satisfy_constraints_helper RowsPerBlock ColsPerBlock num_block_rows NullDim
    x y z Sp Sj Sx = Sx.
Proof using ScalarRing0 HRows HCols HNull Hwf.
  intros Hroom Hy.
  destruct (satisfy_constraints_cells RowsPerBlock ColsPerBlock NullDim x y z Sj
              HRows HCols HNull num_block_rows n_bcol Sp Hwf Sx Hroom)
    as (Hlen & Hcells & Hout).
  apply (list_eq_rd Tzero); [done|]. intros c _.
  destruct (decide (rd 0 Sp 0 * (RowsPerBlock * ColsPerBlock) ≤ c
                    < rd 0 Sp num_block_rows * (RowsPerBlock * ColsPerBlock)))
    as [Hin|Hno]; [|by apply Hout].
  destruct (block_cell_split RowsPerBlock ColsPerBlock _ _ c HRows HCols Hin)
    as (j & r & k & Hj & Hr & Hk & ->).
  destruct (row_of_position Sp num_block_rows j) as (i & Hi & Hrow);
    [apply (wf_rows _ _ _ _ Hwf) | apply (wf_Ap_mono _ _ _ _ Hwf) | done |].
  rewrite (Hcells i j r k) by done.
  rewrite sc_update_entry_zero by (intros; by apply Hy). ring.
Qed.
End ZeroUpdate.

(** In exact arithmetic a matrix that satisfies the constraints already is
    left as it is: when [UB], the product [S * B] passed as [y], is zero on
    every block row, [satisfy_constraints_helper] returns [Sx] unchanged.
    Since the corrected matrix has a zero product with the candidates,
    correcting it again with the new product changes nothing. *)
Theorem satisfy_constraints_zero_update {T F : Type} `{!Scalar T F}
    `{!ScalarRing T F}
    (RowsPerBlock ColsPerBlock num_block_rows NullDim n_bcol : Z)
    (x y z : list T) (Sp Sj : list Z) (Sx : list T) :
  0 ≤ RowsPerBlock → 0 ≤ ColsPerBlock → 0 ≤ NullDim →
  csr_wf num_block_rows n_bcol Sp Sj →
  rd 0 Sp num_block_rows * (RowsPerBlock * ColsPerBlock) ≤ len Sx →
  (∀ i r m, 0 ≤ i < num_block_rows → 0 ≤ r < RowsPerBlock → 0 ≤ m < NullDim →
     rd Tzero y (i * (NullDim * RowsPerBlock) + (r * NullDim + m)) = Tzero) →
  satisfy_constraints_helper RowsPerBlock ColsPerBlock num_block_rows NullDim
    x y z Sp Sj Sx = Sx.
Proof.
  intros HRows HCols HNull Hwf Hroom Hy.
  by apply (satisfy_constraints_fixed RowsPerBlock ColsPerBlock NullDim
              x y z Sp Sj num_block_rows n_bcol HRows HCols HNull Hwf).
Qed.

Lemma satisfy_constraints_zero_update_witness :
  satisfy_constraints_helper (T:=Z) (F:=Z) 1 2 1 1 [1; 0] [0] [1] [0; 1] [0]
    [0; 4] = [0; 4].
Proof.
  refine (satisfy_constraints_zero_update (T:=Z) (F:=Z) 1 2 1 1 1
            [1; 0] [0] [1] [0; 1] [0] [0; 4] _ _ _ _ _ _);
    [lia | lia | lia | apply csr_ok_wf; vm_compute; reflexivity
     | vm_compute; discriminate |].
  intros i r m Hi Hr Hm.
  assert (i = 0) as -> by lia. assert (r = 0) as -> by lia.
  assert (m = 0) as -> by lia. reflexivity.
Defined.

(** *** The threshold of [fit_candidates_common] and the euclidean norm *)

Section TwoColumns.
Context {T F : Type} `{!Scalar T F} `{!RealScalar T F}.

(** The kernel on one aggregate of two fine rows with [1 x 2] blocks runs
    the column step twice. *)
Lemma fit_two_rows (a0 a1 a2 a3 b00 b01 b10 b11 r0 r1 r2 r3 : T) (tol : F) :
  fit_candidates_common 2 1 1 2 [0; 2] [0; 1] [a0; a1; a2; a3]
    [b00; b01; b10; b11] [r0; r1; r2; r3] tol
  = fc_column tol 2 0 4 0 1
      (fc_column tol 2 0 4 0 0
         (FcState [b00; b01; b10; b11] [Tzero; Tzero; Tzero; Tzero])).
Proof. vm_compute. reflexivity. Qed.

Lemma fit_two_rows_before (a0 a1 a2 a3 b00 b01 b10 b11 r0 r1 r2 r3 : T)
    (tol : F) :
  fc_before 1 1 2 [0; 2] [0; 1] [a0; a1; a2; a3]
    [b00; b01; b10; b11] [r0; r1; r2; r3] tol 0 1
  = fc_column tol 2 0 4 0 0
      (FcState [b00; b01; b10; b11] [Tzero; Tzero; Tzero; Tzero]).
Proof. vm_compute. reflexivity. Qed.

Lemma fit_two_rows_orthogonalized (a0 a1 a2 a3 b00 b01 b10 b11 r0 r1 r2 r3 : T)
    (tol : F) :
  fc_orthogonalized 1 1 2 [0; 2] [0; 1] [a0; a1; a2; a3]
    [b00; b01; b10; b11] [r0; r1; r2; r3] tol 0 1
  = fc_orthogonalize 2 0 4 0 1 0
      (fc_column tol 2 0 4 0 0
         (FcState [b00; b01; b10; b11] [Tzero; Tzero; Tzero; Tzero])).
Proof. vm_compute. reflexivity. Qed.

(** The step on the first column of a [2 x 2] aggregate. *)
Lemma fc_column_first (a b c d r0 r1 r2 r3 : T) (tol : F) :
  fc_column tol 2 0 4 0 0 (FcState [a; b; c; d] [r0; r1; r2; r3])
  = (let nrm := Fsqrt (Fadd (Fadd Fzero (mynorm a)) (mynorm c)) in
     if Fgt nrm (Fmul tol nrm)
     then FcState [Tmul a (of_real (Frecip nrm)); b;
                   Tmul c (of_real (Frecip nrm)); d]
                  [of_real nrm; r1; r2; r3]
     else FcState [Tmul a Tzero; b; Tmul c Tzero; d] [Tzero; r1; r2; r3]).
Proof. cbv zeta. vm_compute. reflexivity. Qed.

(** The orthogonalization of the second column against the first. *)
Lemma fc_orthogonalize_second (a b c d r0 r1 r2 r3 : T) :
  fc_orthogonalize 2 0 4 0 1 0 (FcState [a; b; c; d] [r0; r1; r2; r3])
  = (let dot_prod := Tadd (Tadd Tzero (dot b a)) (dot d c) in
     FcState [a; Tsub b (Tmul dot_prod a); c; Tsub d (Tmul dot_prod c)]
             [r0; dot_prod; r2; r3]).
Proof. cbv zeta. vm_compute. reflexivity. Qed.

(** The step on the second column. *)
Lemma fc_column_second (a b c d r0 r1 r2 r3 : T) (tol : F) :
  fc_column tol 2 0 4 0 1 (FcState [a; b; c; d] [r0; r1; r2; r3])
  = (let pre := Fsqrt (Fadd (Fadd Fzero (mynorm b)) (mynorm d)) in
     let dot_prod := Tadd (Tadd Tzero (dot b a)) (dot d c) in
     let b' := Tsub b (Tmul dot_prod a) in
     let d' := Tsub d (Tmul dot_prod c) in
     let post := Fsqrt (Fadd (Fadd Fzero (mynorm b')) (mynorm d')) in
     if Fgt post (Fmul tol pre)
     then FcState [a; Tmul b' (of_real (Frecip post));
                   c; Tmul d' (of_real (Frecip post))]
                  [r0; dot_prod; r2; of_real post]
     else FcState [a; Tmul b' Tzero; c; Tmul d' Tzero]
                  [r0; dot_prod; r2; Tzero]).
Proof. cbv zeta. vm_compute. reflexivity. Qed.
End TwoColumns.

Lemma fit_single_before {T F : Type} `{!Scalar T F} `{!RealScalar T F}
    (a b r : T) (tol : F) :
  fc_before 1 1 1 [0; 1] [0] [a] [b] [r] tol 0 0 = FcState [b] [Tzero]
  ∧ fc_orthogonalized 1 1 1 [0; 1] [0] [a] [b] [r] tol 0 0
    = FcState [b] [Tzero].
Proof. split; vm_compute; reflexivity. Qed.

Lemma Rgtb_true (a b : R) : (b < a)%R → Rgtb a b = true.
Proof. intros Hlt. unfold Rgtb. by destruct (Rlt_dec b a). Qed.

Lemma Rgtb_false (a b : R) : (a <= b)%R → Rgtb a b = false.
Proof. intros Hle. unfold Rgtb. destruct (Rlt_dec b a); [lra | done]. Qed.

(** The run on the reals with the candidates [(1, 0)] and [(3, 1)] on two
    fine rows and the tolerance [2/5]: the first column is kept as it is. *)
Lemma fit_two_rows_first_real :
  fc_column (T:=R) (F:=R) (2 / 5)%R 2 0 4 0 0
    (FcState [1%R; 3%R; 0%R; 1%R] [0%R; 0%R; 0%R; 0%R])
  = FcState [1%R; 3%R; 0%R; 1%R] [1%R; 0%R; 0%R; 0%R].
Proof.
  rewrite fc_column_first. cbv zeta.
  cbn [Fsqrt Fadd Fzero mynorm Fgt Fmul Tmul Tzero of_real Frecip
       R_scalar R_real_scalar].
  assert (sqrt (0 + Rabs 1 + Rabs 0) = 1%R) as ->.
  { rewrite Rabs_R1, Rabs_R0. replace (0 + 1 + 0)%R with 1%R by lra.
    apply sqrt_1. }
  rewrite Rgtb_true by lra.
  replace (1 * (1 / 1))%R with 1%R by lra.
  replace (0 * (1 / 1))%R with 0%R by lra. done.
Qed.

(** The second column loses its component along the first and becomes
    [(0, 1)]; the kernel computes [norm_j = 2] before and [norm_j = 1]
    after, and keeps the column. *)
Lemma fit_two_rows_real :
  fit_candidates_common (T:=R) (F:=R) 2 1 1 2 [0; 2] [0; 1]
    [0%R; 0%R; 0%R; 0%R] [1%R; 3%R; 0%R; 1%R] [0%R; 0%R; 0%R; 0%R] (2 / 5)%R
  = FcState [1%R; 0%R; 0%R; 1%R] [1%R; 3%R; 0%R; 1%R].
Proof.
  rewrite fit_two_rows.
  change (@Tzero R R R_scalar) with 0%R.
  rewrite fit_two_rows_first_real, fc_column_second. cbv zeta.
  cbn [Fsqrt Fadd Fzero mynorm Fgt Fmul Tmul Tsub Tadd Tzero dot of_real Frecip
       R_scalar R_real_scalar].
  replace (0 + 3 * 1 + 1 * 0)%R with 3%R by lra.
  replace (3 - 3 * 1)%R with 0%R by lra.
  replace (1 - 3 * 0)%R with 1%R by lra.
  assert (sqrt (0 + Rabs 3 + Rabs 1) = 2%R) as ->.
  { rewrite Rabs_R1, (Rabs_pos_eq 3) by lra.
    replace (0 + 3 + 1)%R with (2 * 2)%R by lra. apply sqrt_square. lra. }
  assert (sqrt (0 + Rabs 0 + Rabs 1) = 1%R) as ->.
  { rewrite Rabs_R1, Rabs_R0. replace (0 + 0 + 1)%R with 1%R by lra.
    apply sqrt_1. }
  rewrite Rgtb_true by lra.
  replace (1 * (1 / 1))%R with 1%R by lra.
  replace (0 * (1 / 1))%R with 0%R by lra. done.
Qed.

Lemma fit_two_rows_states_real :
  fc_before (T:=R) (F:=R) 1 1 2 [0; 2] [0; 1]
    [0%R; 0%R; 0%R; 0%R] [1%R; 3%R; 0%R; 1%R] [0%R; 0%R; 0%R; 0%R] (2 / 5)%R 0 1
  = FcState [1%R; 3%R; 0%R; 1%R] [1%R; 0%R; 0%R; 0%R]
  ∧ fc_orthogonalized (T:=R) (F:=R) 1 1 2 [0; 2] [0; 1]
      [0%R; 0%R; 0%R; 0%R] [1%R; 3%R; 0%R; 1%R] [0%R; 0%R; 0%R; 0%R] (2 / 5)%R 0 1
    = FcState [1%R; 0%R; 0%R; 1%R] [1%R; 3%R; 0%R; 0%R].
Proof.
  split.
  - rewrite fit_two_rows_before. change (@Tzero R R R_scalar) with 0%R.
    apply fit_two_rows_first_real.
  - rewrite fit_two_rows_orthogonalized. change (@Tzero R R R_scalar) with 0%R.
    rewrite fit_two_rows_first_real, fc_orthogonalize_second. cbv zeta.
    cbn [Tmul Tsub Tadd Tzero dot R_scalar].
    replace (0 + 3 * 1 + 1 * 0)%R with 3%R by lra.
    replace (3 - 3 * 1)%R with 0%R by lra.
    replace (1 - 3 * 0)%R with 1%R by lra. done.
Qed.

(** C8.  The test that [fit_candidates_common] applies to a candidate
    column is not on the norm of the column.  The kernel never fails, and
    it does zero a column whose [norm_j] is at or below the threshold; but
    [norm_j] is the square root of the sum of the magnitudes of the
    entries, not the euclidean norm that its comment names.  On the reals:
    - one fine row, one candidate with the entry [4], tolerance [1/2]: the
      norm of the column is [4] before and after the (empty)
      orthogonalization and exceeds the threshold, so the column should be
      divided by [4] and [R(0,0)] should be [4]; the kernel divides by [2]
      and records [2];
    - two fine rows, the candidates [(1, 0)] and [(3, 1)], tolerance [2/5]:
      the second column has the norm [sqrt 10] before its orthogonalization
      and [1] after, which is below the threshold [2/5 * sqrt 10], so the
      column should be zeroed with [R(1,1)]; the kernel keeps the column
      and records [R(1,1) = 1]. *)
Theorem fit_candidates_threshold_not_euclidean :
  (let tol := (1 / 2)%R in
   let out := fit_candidates_common (T:=R) (F:=R)
                1 1 1 1 [0; 1] [0] [0%R] [4%R] [0%R] tol in
   let s0 := fc_before (T:=R) (F:=R) 1 1 1 [0; 1] [0] [0%R] [4%R] [0%R] tol 0 0 in
   let s1 := fc_orthogonalized (T:=R) (F:=R)
               1 1 1 [0; 1] [0] [0%R] [4%R] [0%R] tol 0 0 in
   let pre := euclidean_norm (fc_Ax s0) (column_cells 1 1 [0; 1] 0 0) in
   let post := euclidean_norm (fc_Ax s1) (column_cells 1 1 [0; 1] 0 0) in
   pre = 4%R ∧ post = 4%R ∧ (tol * pre < post)%R
   ∧ rd 0%R (fc_Ax s1) (P_cell 1 1 0 0 0) = 4%R
   ∧ rd 0%R (fc_Ax out) (P_cell 1 1 0 0 0) = 2%R
   ∧ rd 0%R (fc_Ax out) (P_cell 1 1 0 0 0)
     ≠ (rd 0%R (fc_Ax s1) (P_cell 1 1 0 0 0) * (1 / post))%R
   ∧ rd 0%R (fc_R out) (R_cell 1 0 0 0) = 2%R
   ∧ rd 0%R (fc_R out) (R_cell 1 0 0 0) ≠ post)
  ∧ (let tol := (2 / 5)%R in
     let out := fit_candidates_common (T:=R) (F:=R) 2 1 1 2 [0; 2] [0; 1]
                  [0%R; 0%R; 0%R; 0%R] [1%R; 3%R; 0%R; 1%R]
                  [0%R; 0%R; 0%R; 0%R] tol in
     let s0 := fc_before (T:=R) (F:=R) 1 1 2 [0; 2] [0; 1]
                 [0%R; 0%R; 0%R; 0%R] [1%R; 3%R; 0%R; 1%R]
                 [0%R; 0%R; 0%R; 0%R] tol 0 1 in
     let s1 := fc_orthogonalized (T:=R) (F:=R) 1 1 2 [0; 2] [0; 1]
                 [0%R; 0%R; 0%R; 0%R] [1%R; 3%R; 0%R; 1%R]
                 [0%R; 0%R; 0%R; 0%R] tol 0 1 in
     let pre := euclidean_norm (fc_Ax s0) (column_cells 1 2 [0; 2] 0 1) in
     let post := euclidean_norm (fc_Ax s1) (column_cells 1 2 [0; 2] 0 1) in
     pre = sqrt 10 ∧ post = 1%R ∧ (post <= tol * pre)%R
     ∧ rd 0%R (fc_Ax out) (P_cell 1 2 1 0 1) = 1%R
     ∧ rd 0%R (fc_Ax out) (P_cell 1 2 1 0 1) ≠ 0%R
     ∧ rd 0%R (fc_R out) (R_cell 2 0 1 1) = 1%R
     ∧ rd 0%R (fc_R out) (R_cell 2 0 1 1) ≠ 0%R).
Proof.
  split.
  - intros tol out s0 s1 pre post.
    destruct (fit_single_before (T:=R) (F:=R) 0%R 4%R 0%R tol) as [Hs0 Hs1].
    assert (sqrt 4 = 2%R) as H2.
    { replace 4%R with (2 * 2)%R by lra. apply sqrt_square. lra. }
    assert (out = FcState [2%R] [2%R]) as ->.
    { unfold out, tol. rewrite fit_single_entry_real by lra. by rewrite H2. }
    assert (pre = 4%R) as Hpre.
    { unfold pre, s0. rewrite Hs0.
      change (euclidean_norm _ _) with (sqrt (0 + 4 * 4)).
      replace (0 + 4 * 4)%R with (4 * 4)%R by lra. apply sqrt_square. lra. }
    assert (post = 4%R) as Hpost.
    { unfold post, s1. rewrite Hs1.
      change (euclidean_norm _ _) with (sqrt (0 + 4 * 4)).
      replace (0 + 4 * 4)%R with (4 * 4)%R by lra. apply sqrt_square. lra. }
    assert (rd 0%R (fc_Ax s1) (P_cell 1 1 0 0 0) = 4%R) as Hcell.
    { unfold s1. rewrite Hs1. reflexivity. }
    rewrite Hcell, Hpre, Hpost. unfold tol.
    change (rd 0%R (fc_Ax (FcState [2%R] [2%R])) (P_cell 1 1 0 0 0)) with 2%R.
    change (rd 0%R (fc_R (FcState [2%R] [2%R])) (R_cell 1 0 0 0)) with 2%R.
    split_and!; try done; lra.
  - intros tol out s0 s1 pre post.
    destruct fit_two_rows_states_real as [Hs0 Hs1].
    assert (pre = sqrt 10) as Hpre.
    { unfold pre, s0, tol. rewrite Hs0.
      change (euclidean_norm _ _) with (sqrt (0 + 3 * 3 + 1 * 1)).
      f_equal. lra. }
    assert (post = 1%R) as Hpost.
    { unfold post, s1, tol. rewrite Hs1.
      change (euclidean_norm _ _) with (sqrt (0 + 0 * 0 + 1 * 1)).
      replace (0 + 0 * 0 + 1 * 1)%R with 1%R by lra. apply sqrt_1. }
    assert (5 / 2 <= sqrt 10)%R as Hroot.
    { replace (5 / 2)%R with (sqrt (5 / 2 * (5 / 2))) by (apply sqrt_square; lra).
      apply sqrt_le_1; lra. }
    unfold out, tol. rewrite fit_two_rows_real, Hpre, Hpost.
    change (rd 0%R (fc_Ax (FcState [1%R; 0%R; 0%R; 1%R] [1%R; 3%R; 0%R; 1%R]))
              (P_cell 1 2 1 0 1)) with 1%R.
    change (rd 0%R (fc_R (FcState [1%R; 0%R; 0%R; 1%R] [1%R; 3%R; 0%R; 1%R]))
              (R_cell 2 0 1 1)) with 1%R.
    split_and!; try done; lra.
Qed.
